(** * Incremental dungeon generator: a shallow embedding of the core engine

    The development follows the TypeScript sources of the generator core:
    [PositionCalculator], [DoorRegistry], [SharedWallManager], [GridManager],
    [ConnectionPointValidator], [BlockExpansionEngine] and
    [IncrementalDungeonGenerator].

    Conventions of the embedding.
    - Grid coordinates, sizes and counters are JavaScript numbers that only
      ever hold integers; they are modelled by [Z].
    - [Array] is [list]; reading [a[i]] out of range gives [undefined], which
      is [None] here.  Reading a property of [undefined] raises a
      [TypeError]; functions that can do so return a [Result].
    - [Map<string, _>] used with iteration ([DoorRegistry.doors]) is an
      association list in insertion order; maps and sets that are only
      written and looked up are [gmap] and [gset].
    - Rooms and corridors are objects shared between the generator's lists,
      the shared wall manager and snapshots: they live in a [Heap] and are
      referred to by location.
    - [Date.now()] and [Math.random()] are inputs of the operations that
      read them. *)

From Stdlib Require Import ZArith List Bool Ascii String Lia QArith.
From Stdlib Require Import Numbers.DecimalString Numbers.DecimalZ.
From stdpp Require Import base option list gmap strings.

Local Open Scope string_scope.
Local Open Scope list_scope.
Local Open Scope Z_scope.

(** ** Data model ([types.ts]) *)

Record Position := mkPosition { pos_x : Z; pos_y : Z }.

Inductive ExitDirection :=
| North | South | East | West
| Northeast | Northwest | Southeast | Southwest.

Inductive DoorState := Closed | Open | Locked.

Inductive ConnectionPointState := Ungenerated | Generating | Connected.

Inductive CorridorType :=
| Straight | Corner | TJunction | CrossJunction | DeadEnd.

Inductive CorridorDirection :=
| Horizontal | Vertical
| CDNorthEast | CDNorthWest | CDSouthEast | CDSouthWest.

Inductive RoomShape :=
| Square | Rectangle | Circle | LShape | TShape | Cross | Octagon | Irregular.

Inductive RoomType := Entrance | Standard | Junction | Special.

Inductive RoomSize := Small | Medium | Large | Huge.

#[global] Instance Position_eq_dec : EqDecision Position.
Proof. solve_decision. Defined.
#[global] Instance ExitDirection_eq_dec : EqDecision ExitDirection.
Proof. solve_decision. Defined.
#[global] Instance DoorState_eq_dec : EqDecision DoorState.
Proof. solve_decision. Defined.
#[global] Instance ConnectionPointState_eq_dec : EqDecision ConnectionPointState.
Proof. solve_decision. Defined.
#[global] Instance RoomType_eq_dec : EqDecision RoomType.
Proof. solve_decision. Defined.

(** The string value of each member of the [ExitDirection] enum. *)
Definition ExitDirection_value (d : ExitDirection) : string :=
  match d with
  | North => "north" | South => "south" | East => "east" | West => "west"
  | Northeast => "northeast" | Northwest => "northwest"
  | Southeast => "southeast" | Southwest => "southwest"
  end.

Record ConnectionPoint := mkConnectionPoint {
  cp_direction : ExitDirection;
  cp_position : Position;
  cp_isConnected : bool;
  cp_connectedElementId : option string;
  cp_isGenerated : bool;
  cp_generationSeed : option string;
  cp_state : ConnectionPointState
}.

(** A connection point of a template, before world positioning. *)
Record TemplateConnectionPoint := mkTemplateConnectionPoint {
  tcp_direction : ExitDirection;
  tcp_position : Position;
  tcp_index : option Z
}.

Record RoomTemplate := mkRoomTemplate {
  tpl_id : string;
  tpl_shape : RoomShape;
  tpl_type : RoomType;
  tpl_size : RoomSize;
  tpl_width : Z;
  tpl_height : Z;
  tpl_connectionPoints : list TemplateConnectionPoint;
  tpl_gridPattern : list (list bool)
}.

Record Room := mkRoom {
  room_id : string;
  room_shape : RoomShape;
  room_type : RoomType;
  room_size : RoomSize;
  room_position : Position;
  room_width : Z;
  room_height : Z;
  room_connectionPoints : list ConnectionPoint;
  room_templateId : option string;
  room_isGenerated : bool;
  room_gridPattern : option (list (list bool))
}.

Record Corridor := mkCorridor {
  cor_id : string;
  cor_type : CorridorType;
  cor_direction : CorridorDirection;
  cor_position : Position;
  cor_length : Z;
  cor_width : Z;
  cor_connectionPoints : list ConnectionPoint;
  cor_path : list Position;
  cor_isGenerated : bool
}.

(** [Room | Corridor] *)
Inductive Element :=
| ERoom (r : Room)
| ECorridor (c : Corridor).

Definition elem_id (e : Element) : string :=
  match e with ERoom r => room_id r | ECorridor c => cor_id c end.

Definition elem_connectionPoints (e : Element) : list ConnectionPoint :=
  match e with
  | ERoom r => room_connectionPoints r
  | ECorridor c => cor_connectionPoints c
  end.

(** [element.connectionPoints = cps] *)
Definition elem_set_connectionPoints (e : Element) (cps : list ConnectionPoint)
  : Element :=
  match e with
  | ERoom r =>
      ERoom (mkRoom (room_id r) (room_shape r) (room_type r) (room_size r)
               (room_position r) (room_width r) (room_height r) cps
               (room_templateId r) (room_isGenerated r) (room_gridPattern r))
  | ECorridor c =>
      ECorridor (mkCorridor (cor_id c) (cor_type c) (cor_direction c)
                   (cor_position c) (cor_length c) (cor_width c) cps
                   (cor_path c) (cor_isGenerated c))
  end.

(** ** The object store

    Rooms and corridors are mutable objects.  The generator's [rooms] and
    [corridors] arrays, the shared wall manager's [elements] array and the
    arrays of a snapshot all hold references to the same objects, so the
    objects are kept in a store and the arrays hold locations. *)

Abbreviation loc := nat.
Abbreviation Heap := (list Element).

(** [new]: the object is placed at a fresh location. *)
Definition alloc (h : Heap) (e : Element) : Heap * loc := (h ++ [e], length h).

Record DoorLocation := mkDoorLocation {
  loc_position : Position;
  loc_direction : ExitDirection;
  loc_globalId : string
}.

Record SharedDoor := mkSharedDoor {
  door_location : DoorLocation;
  door_state : DoorState;
  door_connectedElements : list string;
  door_isGenerated : bool;
  door_connectedElementId : option string;
  door_generationSeed : option string
}.

(** ** JavaScript primitives *)

(** Outcome of code that may raise. *)
Inductive Exn := TypeError.

Inductive Result (A : Type) :=
| Ok (a : A)
| Throw (e : Exn).
Arguments Ok {A} a.
Arguments Throw {A} e.

Definition rbind {A B} (r : Result A) (k : A -> Result B) : Result B :=
  match r with Ok a => k a | Throw e => Throw e end.

#[global] Instance Result_bind : MBind Result :=
  fun A B k r => rbind r k.
#[global] Instance Result_ret : MRet Result := fun A a => Ok a.

(** [String(n)] for an integer [n]: decimal digits, with a leading [-] for
    negative numbers. *)
Definition String_of_number (z : Z) : string :=
  NilEmpty.string_of_int (Z.to_int z).

(** [Number(s)] on the decimal numerals that [String_of_number] prints;
    other strings (for which JavaScript yields [NaN] or another number)
    are outside the use the sources make of it and are mapped to [0]. *)
Definition Number_of_string (s : string) : Z :=
  match NilEmpty.int_of_string s with
  | Some d => Z.of_int d
  | None => 0
  end.

(** [a[i]] *)
Definition array_get {A} (a : list A) (i : Z) : option A :=
  if i <? 0 then None else nth_error a (Z.to_nat i).

(** [a.length] *)
Definition array_length {A} (a : list A) : Z := Z.of_nat (List.length a).

(** [s.split(sep)] for a one-character separator. *)
Fixpoint split_acc (sep : ascii) (cur : string) (s : string) : list string :=
  match s with
  | EmptyString => [cur]
  | String c s' =>
      if Ascii.eqb c sep then cur :: split_acc sep EmptyString s'
      else split_acc sep (cur +:+ String c EmptyString) s'
  end.

Definition split (sep : ascii) (s : string) : list string :=
  split_acc sep EmptyString s.

(** [ids.join(sep)] *)
Fixpoint join (sep : string) (l : list string) : string :=
  match l with
  | [] => ""
  | [s] => s
  | s :: rest => s +:+ sep +:+ join sep rest
  end.

(** [Math.min(...l)] and [Math.max(...l)] for a non-empty [l] (the sources
    only spread non-empty arrays; the infinite result for the empty array is
    not represented). *)
Definition Math_min (l : list Z) : Z :=
  match l with [] => 0 | a :: rest => fold_left Z.min rest a end.

Definition Math_max (l : list Z) : Z :=
  match l with [] => 0 | a :: rest => fold_left Z.max rest a end.

(** A loop whose body may raise: the first exception ends it. *)
Fixpoint foldM {A S} (f : S -> A -> Result S) (l : list A) (s : S) : Result S :=
  match l with
  | [] => Ok s
  | a :: rest => s' ← f s a; foldM f rest s'
  end.

(** ** [PositionCalculator] (direction math) *)

Module PositionCalculator.

Definition getOppositeDirection (direction : ExitDirection) : ExitDirection :=
  match direction with
  | North => South
  | South => North
  | East => West
  | West => East
  | _ => direction
  end.

Definition directionToVector (direction : ExitDirection) : Position :=
  match direction with
  | North => mkPosition 0 (-1)
  | South => mkPosition 0 1
  | East => mkPosition 1 0
  | West => mkPosition (-1) 0
  | _ => mkPosition 0 0
  end.

(** [DOOR_POSITION_ADJUSTMENTS] of [constants/index.ts], by case. *)
Definition getDoorPositionAdjustment (sourceDirection templateDirection : ExitDirection)
  : Position :=
  match sourceDirection, templateDirection with
  | West, East => mkPosition (-1) 0
  | East, West => mkPosition 1 0
  | North, South => mkPosition 0 (-1)
  | South, North => mkPosition 0 1
  | _, _ => mkPosition 0 0
  end.

(** [a.map((cp, index) => ({ ...cp, index }))] *)
Fixpoint with_index_from (i : Z) (l : list TemplateConnectionPoint)
  : list TemplateConnectionPoint :=
  match l with
  | [] => []
  | cp :: rest =>
      mkTemplateConnectionPoint (tcp_direction cp) (tcp_position cp) (Some i)
        :: with_index_from (i + 1) rest
  end.

(** The result is [(roomPosition, connectingPointIndex)]. *)
Definition calculateRoomPositionFromConnection (connectionPoint : ConnectionPoint)
    (template : RoomTemplate) : Position * Z :=
  let oppositeDirection := getOppositeDirection (cp_direction connectionPoint) in
  let compatibleConnectionPoints :=
    List.filter (fun cp => bool_decide (tcp_direction cp = oppositeDirection))
      (with_index_from 0 (tpl_connectionPoints template)) in
  match compatibleConnectionPoints with
  | [] => (mkPosition 0 0, -1)
  | templateCP :: _ =>
      let adjustment :=
        getDoorPositionAdjustment (cp_direction connectionPoint)
          (tcp_direction templateCP) in
      (mkPosition
         (pos_x (cp_position connectionPoint) - pos_x (tcp_position templateCP)
          + pos_x adjustment)
         (pos_y (cp_position connectionPoint) - pos_y (tcp_position templateCP)
          + pos_y adjustment),
       default 0 (tcp_index templateCP))
  end.

Definition areConnectionPointsConnectable (cp1 cp2 : ConnectionPoint) : bool :=
  if negb (pos_x (cp_position cp1) =? pos_x (cp_position cp2))
     || negb (pos_y (cp_position cp1) =? pos_y (cp_position cp2))
  then false
  else
    let oppositeDirection := getOppositeDirection (cp_direction cp1) in
    bool_decide (cp_direction cp2 = oppositeDirection).

End PositionCalculator.

(** ** [DoorRegistry] *)

Module DoorRegistry.

(** [Map<string, SharedDoor>], entries in insertion order. *)
Definition t := list (string * SharedDoor).

(** [doors.get(globalId)] *)
Fixpoint get (globalId : string) (doors : t) : option SharedDoor :=
  match doors with
  | [] => None
  | (k, door) :: rest =>
      if bool_decide (k = globalId) then Some door else get globalId rest
  end.

(** [doors.set(globalId, door)]: an existing key keeps its place. *)
Fixpoint set (globalId : string) (door : SharedDoor) (doors : t) : t :=
  match doors with
  | [] => [(globalId, door)]
  | (k, d) :: rest =>
      if bool_decide (k = globalId) then (k, door) :: rest
      else (k, d) :: set globalId door rest
  end.

(** A mutation of the door object stored under [globalId]. *)
Definition update (f : SharedDoor -> SharedDoor) (globalId : string) (doors : t)
  : t :=
  match get globalId doors with
  | Some door => set globalId (f door) doors
  | None => doors
  end.

(** [`door-${position.x}-${position.y}-${direction}`] *)
Definition createDoorId (position : Position) (direction : ExitDirection)
  : string :=
  "door-" +:+ String_of_number (pos_x position) +:+ "-"
    +:+ String_of_number (pos_y position) +:+ "-"
    +:+ ExitDirection_value direction.

Definition includes (elementId : string) (ids : list string) : bool :=
  bool_decide (elementId ∈ ids).

(** [if (!door.connectedElements.includes(elementId))
       door.connectedElements.push(elementId)] *)
Definition addConnectedElement (elementId : string) (door : SharedDoor)
  : SharedDoor :=
  if includes elementId (door_connectedElements door) then door
  else mkSharedDoor (door_location door) (door_state door)
         (door_connectedElements door ++ [elementId])
         (door_isGenerated door) (door_connectedElementId door)
         (door_generationSeed door).

Definition registerDoor (position : Position) (direction : ExitDirection)
    (elementId : string) (initialState : DoorState)
    (generationSeed : option string) (doors : t) : t * string :=
  let globalId := createDoorId position direction in
  match get globalId doors with
  | Some existingDoor =>
      (set globalId (addConnectedElement elementId existingDoor) doors, globalId)
  | None =>
      let door :=
        mkSharedDoor (mkDoorLocation position direction globalId) initialState
          [elementId] false None generationSeed in
      (set globalId door doors, globalId)
  end.

Definition getDoorByLocation (doors : t) (position : Position)
    (direction : ExitDirection) : option SharedDoor :=
  get (createDoorId position direction) doors.

Definition hasDoor (doors : t) (position : Position) (direction : ExitDirection)
  : bool :=
  bool_decide (is_Some (get (createDoorId position direction) doors)).

Definition setState (state : DoorState) (door : SharedDoor) : SharedDoor :=
  mkSharedDoor (door_location door) state (door_connectedElements door)
    (door_isGenerated door) (door_connectedElementId door)
    (door_generationSeed door).

Definition updateDoorState (globalId : string) (state : DoorState) (doors : t)
  : t * bool :=
  match get globalId doors with
  | Some door => (set globalId (setState state door) doors, true)
  | None => (doors, false)
  end.

Definition setGenerated (connectedElementId : string) (door : SharedDoor)
  : SharedDoor :=
  mkSharedDoor (door_location door) (door_state door)
    (door_connectedElements door) true (Some connectedElementId)
    (door_generationSeed door).

Definition markDoorAsGenerated (globalId : string) (connectedElementId : string)
    (doors : t) : t * bool :=
  match get globalId doors with
  | Some door => (set globalId (setGenerated connectedElementId door) doors, true)
  | None => (doors, false)
  end.

Definition getDoorState (doors : t) (position : Position)
    (direction : ExitDirection) : DoorState :=
  match getDoorByLocation doors position direction with
  | Some door => door_state door
  | None => Closed
  end.

Definition isDoorGenerated (doors : t) (position : Position)
    (direction : ExitDirection) : bool :=
  match getDoorByLocation doors position direction with
  | Some door => door_isGenerated door
  | None => false
  end.

(** One turn of the [forEach] of [connectElementToExistingDoors]: the
    registry and the copy of the point list built so far. *)
Definition connectStep (elementId : string)
    (acc : t * list ConnectionPoint) (cp : ConnectionPoint)
  : t * list ConnectionPoint :=
  let '(doors, updated) := acc in
  match getDoorByLocation doors (cp_position cp) (cp_direction cp) with
  | Some existingDoor =>
      let door := addConnectedElement elementId existingDoor in
      (set (createDoorId (cp_position cp) (cp_direction cp)) door doors,
       updated ++
         [mkConnectionPoint (cp_direction cp) (cp_position cp) true
            (head (door_connectedElements door))
            (door_isGenerated door) (cp_generationSeed cp) (cp_state cp)])
  | None => (doors, updated ++ [cp])
  end.

Definition connectElementToExistingDoors (elementId : string)
    (connectionPoints : list ConnectionPoint) (doors : t)
  : t * list ConnectionPoint :=
  fold_left (connectStep elementId) connectionPoints (doors, []).

Definition getAllDoors (doors : t) : list SharedDoor := snd <$> doors.

Definition clear (doors : t) : t := [].

Definition hasConflictingDoors (doors : t) (position : Position) : bool :=
  let doorsAtPosition :=
    omap (fun direction => getDoorByLocation doors position direction)
      [North; South; East; West] in
  let hasDir d :=
    existsb (fun door => bool_decide (loc_direction (door_location door) = d))
      doorsAtPosition in
  (hasDir North && hasDir South) || (hasDir East && hasDir West).

(** [getDoor(globalId)] *)
Definition getDoor (doors : t) (globalId : string) : option SharedDoor :=
  get globalId doors.

(** [getDoorsForElement(elementId)], in the iteration order of the map. *)
Definition getDoorsForElement (doors : t) (elementId : string)
  : list SharedDoor :=
  List.filter (fun door => includes elementId (door_connectedElements door))
    (snd <$> doors).

(** [door?.generationSeed] *)
Definition getDoorGenerationSeed (doors : t) (position : Position)
    (direction : ExitDirection) : option string :=
  match getDoorByLocation doors position direction with
  | Some door => door_generationSeed door
  | None => None
  end.

Definition findConnectableDoors (doors : t) (newElementId : string)
    (connectionPoints : list ConnectionPoint)
  : list (ConnectionPoint * SharedDoor) :=
  omap (fun cp =>
      match getDoorByLocation doors (cp_position cp) (cp_direction cp) with
      | Some existingDoor =>
          if negb (includes newElementId (door_connectedElements existingDoor))
          then Some (cp, existingDoor)
          else None
      | None => None
      end)
    connectionPoints.

(** [ids.splice(ids.indexOf(elementId), 1)] for an id that occurs in
    [ids]: the first occurrence is taken out. *)
Fixpoint spliceFirst (elementId : string) (ids : list string) : list string :=
  match ids with
  | [] => []
  | i :: rest =>
      if bool_decide (i = elementId) then rest
      else i :: spliceFirst elementId rest
  end.

Definition setConnectedElements (ids : list string) (door : SharedDoor)
  : SharedDoor :=
  mkSharedDoor (door_location door) (door_state door) ids
    (door_isGenerated door) (door_connectedElementId door)
    (door_generationSeed door).

(** One turn of the [forEach] of [removeElementFromDoors]: [None] when
    the entry is deleted. *)
Definition removeFromDoor (elementId : string) (entry : string * SharedDoor)
  : option (string * SharedDoor) :=
  let '(globalId, door) := entry in
  if includes elementId (door_connectedElements door) then
    let remaining := spliceFirst elementId (door_connectedElements door) in
    if array_length remaining =? 0 then None
    else Some (globalId, setConnectedElements remaining door)
  else Some entry.

Definition removeElementFromDoors (elementId : string) (doors : t) : t :=
  omap (removeFromDoor elementId) doors.

(** [doors.size] *)
Definition getDoorCount (doors : t) : Z := array_length doors.

End DoorRegistry.

(** ** [GridManager]: the grid occupancy tracker *)

Module GridManager.

Record t := mk {
  occupiedPositions : gset string;
  gridSize : Z
}.

(** [`${x},${y}`] *)
Definition cellKey (wx wy : Z) : string :=
  String_of_number wx +:+ "," +:+ String_of_number wy.

Definition reset (g : t) : t := mk ∅ (gridSize g).

(** World cells of the [true] entries of one row, left to right. *)
Fixpoint row_cells (row : list bool) (wx wy : Z) : list Position :=
  match row with
  | [] => []
  | b :: rest =>
      (if b then [mkPosition wx wy] else []) ++ row_cells rest (wx + 1) wy
  end.

(** World cells of the [true] entries of a pattern whose origin is at
    [(ox, oy)], in the order of the two nested loops. *)
Fixpoint pattern_cells (pat : list (list bool)) (ox oy : Z) : list Position :=
  match pat with
  | [] => []
  | row :: rest => row_cells row ox oy ++ pattern_cells rest ox (oy + 1)
  end.

(** Cells of the full rectangle, in the order of the fallback loops
    (outer loop on [x], inner loop on [y]). *)
Definition rectangle_cells (p : Position) (w h : Z) : list Position :=
  wx ← seqZ (pos_x p) w; wy ← seqZ (pos_y p) h; [mkPosition wx wy].

Definition add_cells (cells : list Position) (occ : gset string) : gset string :=
  fold_left (fun s c => {[ cellKey (pos_x c) (pos_y c) ]} ∪ s) cells occ.

(** The cells [markRoomAsOccupied] marks for [room]: the room's own
    pattern if it has one, else its template's, else its rectangle. *)
Definition room_cells (getRoomTemplateById : string -> option RoomTemplate)
    (room : Room) : list Position :=
  match room_gridPattern room with
  | Some pat =>
      pattern_cells pat (pos_x (room_position room)) (pos_y (room_position room))
  | None =>
      let template :=
        match room_templateId room with
        | Some tid => if bool_decide (tid = "") then None
                      else getRoomTemplateById tid
        | None => None
        end in
      match template with
      | Some tpl =>
          pattern_cells (tpl_gridPattern tpl)
            (pos_x (room_position room)) (pos_y (room_position room))
      | None =>
          rectangle_cells (room_position room) (room_width room)
            (room_height room)
      end
  end.

Definition markRoomAsOccupied
    (getRoomTemplateById : string -> option RoomTemplate)
    (room : Room) (g : t) : t :=
  mk (add_cells (room_cells getRoomTemplateById room) (occupiedPositions g))
     (gridSize g).

Definition markCorridorAsOccupied (corridor : Corridor) (g : t) : t :=
  mk (add_cells (cor_path corridor) (occupiedPositions g)) (gridSize g).

Definition isPositionOccupied (g : t) (position : Position) : bool :=
  bool_decide (cellKey (pos_x position) (pos_y position) ∈ occupiedPositions g).

Definition isWithinBounds (g : t) (position : Position) : bool :=
  (0 <=? pos_x position) && (pos_x position <? gridSize g)
  && (0 <=? pos_y position) && (pos_y position <? gridSize g).

(** [getAvailableRoomArea(position, width, height).grid] *)
Definition getAvailableRoomArea (g : t) (position : Position)
    (width height : Z) : list (list bool) :=
  (fun ly =>
     (fun lx =>
        let worldX := pos_x position + lx in
        let worldY := pos_y position + ly in
        (0 <=? worldX) && (worldX <? gridSize g)
        && (0 <=? worldY) && (worldY <? gridSize g)
        && negb (bool_decide (cellKey worldX worldY ∈ occupiedPositions g)))
     <$> seqZ 0 width)
  <$> seqZ 0 height.

(** [isAreaAvailable(position, width, height)]: the two loops return
    [false] at the first cell out of bounds or occupied. *)
Definition isAreaAvailable (g : t) (position : Position) (width height : Z)
  : bool :=
  forallb (fun pos => negb (negb (isWithinBounds g pos) || isPositionOccupied g pos))
    (rectangle_cells position width height).

End GridManager.

(** ** [ConnectionPointValidator] *)

Module ConnectionPointValidator.

(** Truthiness of [row[i]] for a row of booleans. *)
Definition truthy (c : option bool) : bool :=
  match c with Some b => b | None => false end.

Definition isWithinTemplateBounds (cp : TemplateConnectionPoint)
    (template : RoomTemplate) : bool :=
  let localX := pos_x (tcp_position cp) in
  let localY := pos_y (tcp_position cp) in
  (0 <=? localX) && (localX <? tpl_width template)
  && (0 <=? localY) && (localY <? tpl_height template).

(** [availableGrid[localY] && availableGrid[localY][localX] &&
    trimmedPattern[localY][localX]] *)
Definition isOnAvailableSquare (cp : TemplateConnectionPoint)
    (availableGrid trimmedPattern : list (list bool)) : Result bool :=
  let localX := pos_x (tcp_position cp) in
  let localY := pos_y (tcp_position cp) in
  match array_get availableGrid localY with
  | None => Ok false
  | Some arow =>
      if truthy (array_get arow localX) then
        match array_get trimmedPattern localY with
        | None => Throw TypeError
        | Some trow => Ok (truthy (array_get trow localX))
        end
      else Ok false
  end.

Definition isConnectionPointAvailable (cp : TemplateConnectionPoint)
    (availableGrid trimmedPattern : list (list bool))
    (template : RoomTemplate) : Result bool :=
  if isWithinTemplateBounds cp template
  then isOnAvailableSquare cp availableGrid trimmedPattern
  else Ok false.

(** [!pattern[ry][rx]] *)
Definition cell_absent (pattern : list (list bool)) (ry rx : Z) : Result bool :=
  match array_get pattern ry with
  | None => Throw TypeError
  | Some row => Ok (negb (truthy (array_get row rx)))
  end.

Definition isOnPerimeter (cp : TemplateConnectionPoint)
    (trimmedPattern : list (list bool)) (template : RoomTemplate)
  : Result bool :=
  let localX := pos_x (tcp_position cp) in
  let localY := pos_y (tcp_position cp) in
  match tcp_direction cp with
  | North =>
      if localY =? 0 then Ok true
      else cell_absent trimmedPattern (localY - 1) localX
  | South =>
      if localY =? tpl_height template - 1 then Ok true
      else cell_absent trimmedPattern (localY + 1) localX
  | West =>
      if localX =? 0 then Ok true
      else cell_absent trimmedPattern localY (localX - 1)
  | East =>
      if localX =? tpl_width template - 1 then Ok true
      else cell_absent trimmedPattern localY (localX + 1)
  | _ => Ok true
  end.

(** The callback given to [filter]. *)
Definition keeps (template : RoomTemplate)
    (availableGrid trimmedPattern : list (list bool))
    (preserveConnectionIndex : option Z)
    (cp : TemplateConnectionPoint) (index : Z) : Result bool :=
  if bool_decide (preserveConnectionIndex = Some index)
  then isConnectionPointAvailable cp availableGrid trimmedPattern template
  else
    if negb (isWithinTemplateBounds cp template) then Ok false
    else
      avail ← isOnAvailableSquare cp availableGrid trimmedPattern;
      if negb (avail : bool) then Ok false
      else isOnPerimeter cp trimmedPattern template.

(** [a.filter((cp, index) => ...)] with a callback that may raise. *)
Fixpoint filter_from {A} (f : A -> Z -> Result bool) (index : Z) (l : list A)
  : Result (list A) :=
  match l with
  | [] => Ok []
  | a :: rest =>
      keep ← f a index;
      kept ← filter_from f (index + 1) rest;
      Ok (if (keep : bool) then a :: kept else kept)
  end.

(** [a.map((cp, i) => ({ ...cp, index: i }))] *)
Fixpoint set_index_from (i : Z) (l : list TemplateConnectionPoint)
  : list TemplateConnectionPoint :=
  match l with
  | [] => []
  | cp :: rest =>
      mkTemplateConnectionPoint (tcp_direction cp) (tcp_position cp) (Some i)
        :: set_index_from (i + 1) rest
  end.

Definition validateConnectionPoints (template : RoomTemplate)
    (availableGrid trimmedPattern : list (list bool))
    (preserveConnectionIndex : option Z)
  : Result (list TemplateConnectionPoint) :=
  kept ← filter_from
           (keeps template availableGrid trimmedPattern preserveConnectionIndex)
           0 (tpl_connectionPoints template);
  Ok (set_index_from 0 kept).

Definition sameLocation (p : ConnectionPoint) (connectionPoint : ConnectionPoint)
  : bool :=
  (pos_x (cp_position p) =? pos_x (cp_position connectionPoint))
  && (pos_y (cp_position p) =? pos_y (cp_position connectionPoint))
  && bool_decide (cp_direction p = cp_direction connectionPoint).

(** [cp.isGenerated = true; cp.isConnected = true] *)
Definition markGenerated (cp : ConnectionPoint) : ConnectionPoint :=
  mkConnectionPoint (cp_direction cp) (cp_position cp) true
    (cp_connectedElementId cp) true (cp_generationSeed cp) (cp_state cp).

(** Update in place the first point of [cps] at the location of
    [connectionPoint]; [None] when [find] yields [undefined]. *)
Fixpoint markFirst (connectionPoint : ConnectionPoint)
    (cps : list ConnectionPoint) : option (list ConnectionPoint) :=
  match cps with
  | [] => None
  | p :: rest =>
      if sameLocation p connectionPoint then Some (markGenerated p :: rest)
      else (fun r => p :: r) <$> markFirst connectionPoint rest
  end.

(** The loop over [rooms] (or [corridors]) of
    [updateConnectionPointAsGenerated]: [Some] when a point was found and
    the function returned, [None] when the loop ran to its end. *)
Fixpoint markIn (connectionPoint : ConnectionPoint) (sourceElementId : string)
    (h : Heap) (ls : list loc) : option Heap :=
  match ls with
  | [] => None
  | l :: rest =>
      match h !! l with
      | Some element =>
          if bool_decide (elem_id element = sourceElementId) then
            match markFirst connectionPoint (elem_connectionPoints element) with
            | Some cps => Some (<[ l := elem_set_connectionPoints element cps ]> h)
            | None => markIn connectionPoint sourceElementId h rest
            end
          else markIn connectionPoint sourceElementId h rest
      | None => markIn connectionPoint sourceElementId h rest
      end
  end.

Definition updateConnectionPointAsGenerated (connectionPoint : ConnectionPoint)
    (sourceElementId : string) (rooms corridors : list loc) (h : Heap) : Heap :=
  match markIn connectionPoint sourceElementId h rooms with
  | Some h' => h'
  | None =>
      match markIn connectionPoint sourceElementId h corridors with
      | Some h' => h'
      | None => h
      end
  end.

(** [element.connectionPoints.find(cp => ...)] by position and direction. *)
Definition findConnectionPoint (connectionPoints : list ConnectionPoint)
    (position : Position) (direction : ExitDirection) : option ConnectionPoint :=
  List.find (fun cp =>
      (pos_x (cp_position cp) =? pos_x position)
      && (pos_y (cp_position cp) =? pos_y position)
      && bool_decide (cp_direction cp = direction))
    connectionPoints.

End ConnectionPointValidator.

(** ** [BlockExpansionEngine] *)

Module BlockExpansionEngine.

(** The [sharedWallManager] field of the context is never read by the
    engine and is left out. *)
Record ExpansionContext := mkExpansionContext {
  entryPoint : Position;
  entryDirection : ExitDirection;
  sourceConnectionPoint : ConnectionPoint;
  sourceElementId : string;
  geomorphBounds : RoomTemplate;
  targetPosition : Position;
  existingRooms : list Room;
  existingCorridors : list Corridor;
  gridManager : GridManager.t
}.

Record ExpansionResult := mkExpansionResult {
  expandedBlocks : list Position;
  finalConnectionPoints : list ConnectionPoint;
  roomBounds : Z * Z   (* width, height *)
}.

(** [`${position.x},${position.y}`] *)
Definition positionKey (position : Position) : string :=
  String_of_number (pos_x position) +:+ "," +:+ String_of_number (pos_y position).

(** [key.split(',').map(Number)] read back as a position; a missing
    component (which keys built by [positionKey] never have) reads 0. *)
Definition positionOfKey (key : string) : Position :=
  match Number_of_string <$> split "," key with
  | kx :: ky :: _ => mkPosition kx ky
  | [kx] => mkPosition kx 0
  | [] => mkPosition 0 0
  end.

Definition getOppositeDirection (direction : ExitDirection) : ExitDirection :=
  match direction with
  | North => South
  | South => North
  | East => West
  | West => East
  | _ => direction
  end.

Definition getAdjacentPosition (position : Position) (direction : ExitDirection)
  : Position :=
  match direction with
  | North => mkPosition (pos_x position) (pos_y position - 1)
  | South => mkPosition (pos_x position) (pos_y position + 1)
  | East => mkPosition (pos_x position + 1) (pos_y position)
  | West => mkPosition (pos_x position - 1) (pos_y position)
  | _ => position
  end.

Definition getNeighbors (position : Position) : list Position :=
  [ mkPosition (pos_x position) (pos_y position - 1);
    mkPosition (pos_x position) (pos_y position + 1);
    mkPosition (pos_x position + 1) (pos_y position);
    mkPosition (pos_x position - 1) (pos_y position) ].

Definition getExpansionBias (entryDirection : ExitDirection) : Position :=
  match entryDirection with
  | North => mkPosition 0 1
  | South => mkPosition 0 (-1)
  | East => mkPosition (-1) 0
  | West => mkPosition 1 0
  | _ => mkPosition 0 0
  end.

(** Twice the biased distance [|dx| + |dy| - (dx*bias.x + dy*bias.y) * 0.5],
    which keeps the value in [Z] and orders positions the same way. *)
Definition getDistanceFromEntry2 (position entryPoint bias : Position) : Z :=
  let dx := pos_x position - pos_x entryPoint in
  let dy := pos_y position - pos_y entryPoint in
  2 * (Z.abs dx + Z.abs dy) - (dx * pos_x bias + dy * pos_y bias).

(** [frontier.sort((a, b) => distA - distB)]: the sort is stable. *)
Fixpoint insert_by (key : Position -> Z) (p : Position) (l : list Position)
  : list Position :=
  match l with
  | [] => [p]
  | q :: rest =>
      if key q <=? key p then q :: insert_by key p rest else p :: l
  end.

Definition sort_by (key : Position -> Z) (l : list Position) : list Position :=
  fold_left (fun acc p => insert_by key p acc) l [].

Definition canExpandTo (position : Position) (context : ExpansionContext)
  : Result bool :=
  let bounds := geomorphBounds context in
  let relativeX := pos_x position - pos_x (targetPosition context) in
  let relativeY := pos_y position - pos_y (targetPosition context) in
  if (relativeX <? 0) || (tpl_width bounds <=? relativeX)
     || (relativeY <? 0) || (tpl_height bounds <=? relativeY)
  then Ok false
  else
    match array_get (tpl_gridPattern bounds) relativeY with
    | None => Throw TypeError
    | Some row =>
        if negb (ConnectionPointValidator.truthy (array_get row relativeX))
        then Ok false
        else if negb (GridManager.isWithinBounds (gridManager context) position)
        then Ok false
        else if GridManager.isPositionOccupied (gridManager context) position
        then Ok false
        else Ok true
    end.

(** One turn of the [for (const neighbor of neighbors)] loop; the state is
    the set of block keys (in insertion order) and the frontier. *)
Definition visit (context : ExpansionContext)
    (st : list string * list Position) (neighbor : Position)
  : Result (list string * list Position) :=
  ok ← canExpandTo neighbor context;
  if negb (ok : bool) then Ok st
  else
    let neighborKey := positionKey neighbor in
    if bool_decide (neighborKey ∈ fst st) then Ok st
    else Ok (fst st ++ [neighborKey], snd st ++ [neighbor]).

(** The [while (frontier.length > 0)] loop, by fuel: [None] when the fuel
    runs out before the frontier empties. *)
Fixpoint expand_loop (fuel : nat) (context : ExpansionContext)
    (blocks : list string) (frontier : list Position)
  : option (Result (list string)) :=
  match frontier with
  | [] => Some (Ok blocks)
  | _ :: _ =>
      match fuel with
      | O => None
      | S fuel' =>
          let expansionBias := getExpansionBias (entryDirection context) in
          match sort_by (fun a => getDistanceFromEntry2 a (entryPoint context)
                                    expansionBias) frontier with
          | [] => Some (Ok blocks)
          | currentPos :: frontier' =>
              match foldM (visit context) (getNeighbors currentPos)
                      (blocks, frontier') with
              | Throw e => Some (Throw e)
              | Ok (blocks', frontier'') =>
                  expand_loop fuel' context blocks' frontier''
              end
          end
      end
  end.

Definition atPosition (p q : Position) : bool :=
  (pos_x p =? pos_x q) && (pos_y p =? pos_y q).

(** The test both [isValidContactPoint] and [shouldPlaceDoor] use for "the
    element occupies this cell".  A room object without a [gridPattern]
    property takes the corridor branch, where its missing [path] yields
    [false]. *)
Definition occupiesCell (element : Element) (p : Position) : bool :=
  match element with
  | ERoom room =>
      match room_gridPattern room with
      | Some pat =>
          let relX := pos_x p - pos_x (room_position room) in
          let relY := pos_y p - pos_y (room_position room) in
          (0 <=? relX) && (relX <? room_width room)
          && (0 <=? relY) && (relY <? room_height room)
          && match array_get pat relY with
             | None => true
             | Some row => default true (array_get row relX)
             end
      | None => false
      end
  | ECorridor corridor => existsb (atPosition p) (cor_path corridor)
  end.

Definition existingElements (context : ExpansionContext) : list Element :=
  (ERoom <$> existingRooms context) ++ (ECorridor <$> existingCorridors context).

Definition shouldPlaceDoor (roomPosition : Position) (direction : ExitDirection)
    (adjacentPosition : Position) (context : ExpansionContext) : bool :=
  let adjacentElement :=
    List.find (fun element =>
      existsb (fun cp =>
          atPosition (cp_position cp) adjacentPosition
          && bool_decide (cp_direction cp = getOppositeDirection direction))
        (elem_connectionPoints element))
      (existingElements context) in
  match adjacentElement with
  | Some _ => true
  | None =>
      let relativeX := pos_x roomPosition - pos_x (targetPosition context) in
      let relativeY := pos_y roomPosition - pos_y (targetPosition context) in
      let templateHasDoor :=
        existsb (fun cp =>
            (pos_x (tcp_position cp) =? relativeX)
            && (pos_y (tcp_position cp) =? relativeY)
            && bool_decide (tcp_direction cp = direction))
          (tpl_connectionPoints (geomorphBounds context)) in
      if templateHasDoor then
        let adjacentBlocked :=
          existsb (fun element => occupiesCell element adjacentPosition)
            (existingElements context) in
        negb adjacentBlocked
      else false
  end.

Definition findPerimeterPositions (expandedBlocks : list Position)
  : list Position :=
  let blockSet : gset string := list_to_set (positionKey <$> expandedBlocks) in
  List.filter (fun block =>
      existsb (fun neighbor => negb (bool_decide (positionKey neighbor ∈ blockSet)))
        (getNeighbors block))
    expandedBlocks.

Definition cardinalDirections : list ExitDirection := [North; South; East; West].

Definition generateConnectionPoints (expandedBlocks : list Position)
    (context : ExpansionContext) (roomOrigin : Position) : list ConnectionPoint :=
  let entry :=
    mkConnectionPoint
      (getOppositeDirection (cp_direction (sourceConnectionPoint context)))
      (entryPoint context) true (Some (sourceElementId context)) true None
      Connected in
  let perimeterPositions := findPerimeterPositions expandedBlocks in
  entry ::
    (perimeterPos ← perimeterPositions;
     if atPosition perimeterPos (entryPoint context) then []
     else
       direction ← cardinalDirections;
       let adjacentPos := getAdjacentPosition perimeterPos direction in
       if shouldPlaceDoor perimeterPos direction adjacentPos context
       then [mkConnectionPoint direction perimeterPos false None false None
               Ungenerated]
       else []).

Definition expandRoom_fuel (fuel : nat) (context : ExpansionContext)
  : option (Result ExpansionResult) :=
  match expand_loop fuel context [positionKey (entryPoint context)]
          [entryPoint context] with
  | None => None
  | Some (Throw e) => Some (Throw e)
  | Some (Ok blocks) =>
      let expandedPositions := positionOfKey <$> blocks in
      let minX := Math_min (pos_x <$> expandedPositions) in
      let maxX := Math_max (pos_x <$> expandedPositions) in
      let minY := Math_min (pos_y <$> expandedPositions) in
      let maxY := Math_max (pos_y <$> expandedPositions) in
      let connectionPoints :=
        generateConnectionPoints expandedPositions context
          (mkPosition minX minY) in
      Some (Ok (mkExpansionResult expandedPositions connectionPoints
                  (maxX - minX + 1, maxY - minY + 1)))
  end.

(** Loop turns that always suffice: every turn removes one position from
    the frontier, and each position enters the frontier at most once: the
    entry point, then cells of the template rectangle. *)
Definition expansionFuel (context : ExpansionContext) : nat :=
  S (S (Z.to_nat (tpl_width (geomorphBounds context))
        * Z.to_nat (tpl_height (geomorphBounds context)))).

Definition expandRoom (context : ExpansionContext) : Result ExpansionResult :=
  default (Throw TypeError) (expandRoom_fuel (expansionFuel context) context).

End BlockExpansionEngine.

(** ** [SharedWallManager] *)

Module SharedWallManager.

Record t := mk {
  doorRegistry : DoorRegistry.t;
  elements : list loc
}.

Definition reset (m : t) : t := mk (DoorRegistry.clear (doorRegistry m)) [].

(** [`${x}-${y}-${direction}-${Date.now()}`] *)
Definition generateSeed (now : Z) (connectionPoint : ConnectionPoint) : string :=
  String_of_number (pos_x (cp_position connectionPoint)) +:+ "-"
    +:+ String_of_number (pos_y (cp_position connectionPoint)) +:+ "-"
    +:+ ExitDirection_value (cp_direction connectionPoint) +:+ "-"
    +:+ String_of_number now.

Definition updateDoorState (position : Position) (direction : ExitDirection)
    (state : DoorState) (doors : DoorRegistry.t) : DoorRegistry.t * bool :=
  DoorRegistry.updateDoorState (DoorRegistry.createDoorId position direction)
    state doors.

Definition markDoorAsGenerated (position : Position) (direction : ExitDirection)
    (connectedElementId : string) (doors : DoorRegistry.t)
  : DoorRegistry.t * bool :=
  DoorRegistry.markDoorAsGenerated
    (DoorRegistry.createDoorId position direction) connectedElementId doors.

Definition getDoorState (m : t) (position : Position) (direction : ExitDirection)
  : DoorState :=
  DoorRegistry.getDoorState (doorRegistry m) position direction.

Definition isDoorGenerated (m : t) (position : Position)
    (direction : ExitDirection) : bool :=
  DoorRegistry.isDoorGenerated (doorRegistry m) position direction.

Definition hasId (h : Heap) (elementId : string) (l : loc) : bool :=
  match h !! l with
  | Some element => bool_decide (elem_id element = elementId)
  | None => false
  end.

(** [this.elements.find(el => el.id === elementId)] *)
Definition findElement (h : Heap) (els : list loc) (elementId : string)
  : option loc :=
  List.find (hasId h elementId) els.

(** [this.elements.some(element => element.id === elementId)] *)
Definition elementExists (h : Heap) (els : list loc) (elementId : string) : bool :=
  existsb (hasId h elementId) els.

Definition atDoor (door : SharedDoor) (cp : ConnectionPoint) : bool :=
  (pos_x (cp_position cp) =? pos_x (loc_position (door_location door)))
  && (pos_y (cp_position cp) =? pos_y (loc_position (door_location door)))
  && bool_decide (cp_direction cp = loc_direction (door_location door)).

Definition openPoint (door : SharedDoor) (cp : ConnectionPoint) : ConnectionPoint :=
  if atDoor door cp then ConnectionPointValidator.markGenerated cp else cp.

(** The points of the elements connected to [door] are updated in place. *)
Definition updateConnectionPointsForAutoOpenedDoor (els : list loc)
    (door : SharedDoor) (h : Heap) : Heap :=
  fold_left (fun h elementId =>
      match findElement h els elementId with
      | Some l =>
          match h !! l with
          | Some element =>
              <[ l := elem_set_connectionPoints element
                        (openPoint door <$> elem_connectionPoints element) ]> h
          | None => h
          end
      | None => h
      end)
    (door_connectedElements door) h.

(** One turn of the [forEach] of [autoOpenRevealedDoors], for the door
    object stored under [globalId]. *)
Definition autoOpenStep (els : list loc) (acc : Heap * DoorRegistry.t)
    (globalId : string) : Heap * DoorRegistry.t :=
  let '(h, doors) := acc in
  match DoorRegistry.get globalId doors with
  | None => acc
  | Some door =>
      if bool_decide (door_state door = Open)
         || (array_length (door_connectedElements door) <? 2)
      then acc
      else
        let allElementsExist :=
          forallb (elementExists h els) (door_connectedElements door) in
        if allElementsExist then
          let position := loc_position (door_location door) in
          let direction := loc_direction (door_location door) in
          let doors1 := fst (updateDoorState position direction Open doors) in
          let doors2 :=
            fst (markDoorAsGenerated position direction
                   (join "," (door_connectedElements door)) doors1) in
          (updateConnectionPointsForAutoOpenedDoor els door h, doors2)
        else acc
  end.

Definition autoOpenRevealedDoors (els : list loc) (h : Heap)
    (doors : DoorRegistry.t) : Heap * DoorRegistry.t :=
  fold_left (autoOpenStep els) (fst <$> doors) (h, doors).

(** One turn of the loop registering a closed door for each point that
    has none. *)
Definition registerStep (now : Z) (elementId : string) (doors : DoorRegistry.t)
    (cp : ConnectionPoint) : DoorRegistry.t :=
  match DoorRegistry.getDoorByLocation doors (cp_position cp) (cp_direction cp) with
  | Some _ => doors
  | None =>
      fst (DoorRegistry.registerDoor (cp_position cp) (cp_direction cp)
             elementId Closed (Some (generateSeed now cp)) doors)
  end.

(** [addElement(element)], for the element object at location [l]; the
    result holds the store, the manager, and the returned point list (the
    array that is now [element.connectionPoints]). *)
Definition addElement (now : Z) (l : loc) (h : Heap) (m : t)
  : Heap * t * list ConnectionPoint :=
  match h !! l with
  | None => (h, m, [])
  | Some element =>
      let els := elements m ++ [l] in
      let '(doors1, updatedConnectionPoints) :=
        DoorRegistry.connectElementToExistingDoors (elem_id element)
          (elem_connectionPoints element) (doorRegistry m) in
      let h1 := <[ l := elem_set_connectionPoints element updatedConnectionPoints ]> h in
      let doors2 :=
        fold_left (registerStep now (elem_id element)) updatedConnectionPoints
          doors1 in
      let '(h2, doors3) := autoOpenRevealedDoors els h1 doors2 in
      (h2, mk doors3 els,
       match h2 !! l with
       | Some element' => elem_connectionPoints element'
       | None => updatedConnectionPoints
       end)
  end.

(** [removeElement(elementId)] *)
Definition removeElement (elementId : string) (h : Heap) (m : t) : t :=
  mk (DoorRegistry.removeElementFromDoors elementId (doorRegistry m))
     (List.filter (fun l => negb (hasId h elementId l)) (elements m)).

(** One entry of [validateDoorConsistency]'s result. *)
Record Issue := mkIssue {
  issue_position : Position;
  issue_text : string
}.

(** The issues [validateDoorConsistency] pushes for one door. *)
Definition doorIssues (h : Heap) (m : t) (door : SharedDoor) : list Issue :=
  (if 1 <? array_length (door_connectedElements door) then
     let found := omap (findElement h (elements m)) (door_connectedElements door) in
     if negb (array_length found =? array_length (door_connectedElements door))
     then [mkIssue (loc_position (door_location door))
             ("Door references missing elements: "
                +:+ join ", " (door_connectedElements door))]
     else []
   else [])
  ++ (if DoorRegistry.hasConflictingDoors (doorRegistry m)
           (loc_position (door_location door))
      then [mkIssue (loc_position (door_location door))
              "Conflicting doors in opposite directions at same position"]
      else []).

Definition validateDoorConsistency (h : Heap) (m : t) : list Issue :=
  door ← DoorRegistry.getAllDoors (doorRegistry m); doorIssues h m door.

End SharedWallManager.

(** ** Constants ([constants/index.ts]) *)

Definition ROOM_GENERATION_PROBABILITY : Q := 7 # 10.
Definition MIN_CORRIDOR_LENGTH : Z := 3.
Definition MAX_CORRIDOR_LENGTH_VARIANCE : Z := 5.

(** [a < b] on numbers. *)
Definition Qltb (a b : Q) : bool := negb (Qle_bool b a).

(** ** [IncrementalDungeonGenerator] *)

Module IncrementalDungeonGenerator.

Record ExplorationState := mkExplorationState {
  discoveredRoomIds : gset string;
  discoveredCorridorIds : gset string;
  doorStates : gmap string DoorState;
  unexploredConnectionPoints : list ConnectionPoint
}.

(** The generator object together with the object store.  Of [settings]
    only [gridSize] is read. *)
Record t := mk {
  gridSize : Z;
  heap : Heap;
  rooms : list loc;
  corridors : list loc;
  gridManager : GridManager.t;
  sharedWallManager : SharedWallManager.t;
  explorationState : ExplorationState;
  roomCounter : Z
}.

Record DungeonMap := mkDungeonMap {
  map_id : string;
  map_name : string;
  map_rooms : list loc;
  map_corridors : list loc;
  map_createdAt : Z;
  map_gridSize : Z;
  map_totalRooms : Z
}.

Record GenerationRequest := mkGenerationRequest {
  req_connectionPoint : ConnectionPoint;
  req_sourceElementId : string
}.

Record Snapshot := mkSnapshot {
  snap_rooms : list loc;
  snap_corridors : list loc;
  snap_roomCounter : Z;
  snap_explorationState : ExplorationState
}.

Record Generated := mkGenerated {
  gen_rooms : list Room;
  gen_corridors : list Corridor
}.

Definition emptyExplorationState : ExplorationState :=
  mkExplorationState ∅ ∅ ∅ [].

(** [new IncrementalDungeonGenerator(settings)] over a store [h]. *)
Definition new (settings_gridSize : Z) (h : Heap) : t :=
  mk settings_gridSize h [] [] (GridManager.mk ∅ settings_gridSize)
     (SharedWallManager.mk [] []) emptyExplorationState 0.

Definition set_heap (h : Heap) (st : t) : t :=
  mk (gridSize st) h (rooms st) (corridors st) (gridManager st)
     (sharedWallManager st) (explorationState st) (roomCounter st).

Definition set_explorationState (e : ExplorationState) (st : t) : t :=
  mk (gridSize st) (heap st) (rooms st) (corridors st) (gridManager st)
     (sharedWallManager st) e (roomCounter st).

Definition set_roomCounter (n : Z) (st : t) : t :=
  mk (gridSize st) (heap st) (rooms st) (corridors st) (gridManager st)
     (sharedWallManager st) (explorationState st) n.

(** The room objects an array of references holds. *)
Definition roomsAt (h : Heap) (ls : list loc) : list Room :=
  omap (fun l => match h !! l with Some (ERoom r) => Some r | _ => None end) ls.

Definition corridorsAt (h : Heap) (ls : list loc) : list Corridor :=
  omap (fun l => match h !! l with Some (ECorridor c) => Some c | _ => None end) ls.

(** [s.padStart(2, '0')] *)
Definition padStart2 (s : string) : string :=
  match String.length s with
  | O => "00"
  | S O => "0" +:+ s
  | _ => s
  end.

(** [`room-${String(n).padStart(2, '0')}`] *)
Definition roomId (n : Z) : string := "room-" +:+ padStart2 (String_of_number n).

(** [`${elementId}-door-${index}`] *)
Definition doorIdOf (elementId : string) (index : Z) : string :=
  elementId +:+ "-door-" +:+ String_of_number index.

(** [`${x}-${y}-${direction}-${Date.now()}`] *)
Definition generateSeed (now : Z) (connectionPoint : ConnectionPoint) : string :=
  String_of_number (pos_x (cp_position connectionPoint)) +:+ "-"
    +:+ String_of_number (pos_y (cp_position connectionPoint)) +:+ "-"
    +:+ ExitDirection_value (cp_direction connectionPoint) +:+ "-"
    +:+ String_of_number now.

(** [ToInt32]: the value of a bitwise operator's operand and result. *)
Definition toInt32 (z : Z) : Z := (z + 2 ^ 31) mod 2 ^ 32 - 2 ^ 31.

(** [seed.charCodeAt(i)]; the characters of a seed are taken in ASCII. *)
Definition charCode (c : ascii) : Z := Z.of_N (N_of_ascii c).

Fixpoint seedHash (hash : Z) (seed : string) : Z :=
  match seed with
  | EmptyString => hash
  | String c rest =>
      let hash1 := toInt32 (Z.shiftl hash 5) - hash + charCode c in
      let hash2 := toInt32 hash1 in   (* hash & hash *)
      seedHash hash2 rest
  end.

Definition seedToNumber (seed : string) : Z := Z.abs (seedHash 0 seed).

Definition determineCorridorType (path : list Position) : CorridorType := Straight.

(** [to] is [corridorPath[1]], which is [undefined] for a path of one
    cell: reading [to.x] then raises. *)
Definition getCorridorDirection (from : Position) (to : option Position)
  : Result CorridorDirection :=
  match to with
  | None => Throw TypeError
  | Some to =>
      if (pos_x from <? pos_x to) || (pos_x to <? pos_x from) then Ok Horizontal
      else Ok Vertical
  end.

Definition getCorridorPositionAdjustment (direction : ExitDirection) : Position :=
  match direction with
  | North => mkPosition 0 (-1)
  | South => mkPosition 0 1
  | East => mkPosition 1 0
  | West => mkPosition (-1) 0
  | _ => mkPosition 0 0
  end.

(** The [for] loop of [generateCorridorPath], with [turns] iterations
    left; [first] tells the iteration [i = 0]. *)
Fixpoint corridorWalk (g : GridManager.t) (moveVector : Position) (turns : nat)
    (first : bool) (currentPos : Position) : list Position :=
  match turns with
  | O => []
  | S turns' =>
      let currentPos :=
        if first then currentPos
        else mkPosition (pos_x currentPos + pos_x moveVector)
               (pos_y currentPos + pos_y moveVector) in
      if negb (GridManager.isWithinBounds g currentPos) then []
      else if negb first && GridManager.isPositionOccupied g currentPos then []
      else currentPos :: corridorWalk g moveVector turns' false currentPos
  end.

Definition generateCorridorPath (g : GridManager.t)
    (connectionPoint : ConnectionPoint) (maxLength : Z) : list Position :=
  let direction := cp_direction connectionPoint in
  let moveVector := PositionCalculator.directionToVector direction in
  let adjustment := getCorridorPositionAdjustment direction in
  let currentPos :=
    mkPosition (pos_x (cp_position connectionPoint) + pos_x adjustment)
      (pos_y (cp_position connectionPoint) + pos_y adjustment) in
  corridorWalk g moveVector (Z.to_nat maxLength) true currentPos.

(** [connectionPoint.connectedElementId || 'unknown'] *)
Definition connectedOrUnknown (connectionPoint : ConnectionPoint) : string :=
  match cp_connectedElementId connectionPoint with
  | Some s => if bool_decide (s = "") then "unknown" else s
  | None => "unknown"
  end.

(** [now] is [Date.now()] and [rnd] is
    [Math.random().toString(36).substr(2, 9)]. *)
Definition generateConnectedCorridor (now : Z) (rnd : string) (st : t)
    (connectionPoint : ConnectionPoint) (seed : string) : Result Generated :=
  let seedNum := seedToNumber seed in
  let corridorLength :=
    MIN_CORRIDOR_LENGTH + Z.rem seedNum MAX_CORRIDOR_LENGTH_VARIANCE in
  let corridorPath :=
    generateCorridorPath (gridManager st) connectionPoint corridorLength in
  match corridorPath with
  | [] => Ok (mkGenerated [] [])
  | first :: _ =>
      direction ← getCorridorDirection first (array_get corridorPath 1);
      let corridor :=
        mkCorridor
          ("corridor-" +:+ String_of_number now +:+ "-" +:+ rnd)
          (determineCorridorType corridorPath)
          direction
          first
          (array_length corridorPath)
          1
          [ mkConnectionPoint
              (PositionCalculator.getOppositeDirection (cp_direction connectionPoint))
              first true (Some (connectedOrUnknown connectionPoint)) true None
              Connected;
            mkConnectionPoint (cp_direction connectionPoint)
              (List.last corridorPath first) false None false None Ungenerated ]
          corridorPath
          true in
      Ok (mkGenerated [] [corridor])
  end.

Section Catalogue.

(** The template catalogue ([data/roomTemplates]) is static data that is
    not part of the sources at hand; it is a parameter. *)
Variable getRoomTemplatesByType : RoomType -> list RoomTemplate.
Variable getRoomTemplateById : string -> option RoomTemplate.

(** The grid pattern built from the expanded blocks. *)
Definition blocksPattern (blocks : list Position) (minX minY : Z)
    (roomWidth roomHeight : Z) : list (list bool) :=
  (fun ly =>
     (fun lx =>
        existsb (fun block =>
            (pos_x block =? minX + lx) && (pos_y block =? minY + ly))
          blocks)
     <$> seqZ 0 roomWidth)
  <$> seqZ 0 roomHeight.

(** The result carries the generated elements and the new value of
    [roomCounter]; nothing else of the generator is written. *)
Definition generateConnectedRoom (now : Z) (rnd : string) (st : t)
    (connectionPoint : ConnectionPoint) (seed : string)
  : Result (Generated * Z) :=
  let templates := getRoomTemplatesByType Standard in
  let seedNum := seedToNumber seed in
  match array_get templates (Z.rem seedNum (array_length templates)) with
  | None => Throw TypeError   (* [template.connectionPoints] of [undefined] *)
  | Some template =>
      let '(roomPosition, connectingPointIndex) :=
        PositionCalculator.calculateRoomPositionFromConnection
          connectionPoint template in
      if connectingPointIndex =? -1 then
        g ← generateConnectedCorridor now rnd st connectionPoint seed;
        Ok (g, roomCounter st)
      else
        match array_get (tpl_connectionPoints template) connectingPointIndex with
        | None => Throw TypeError
        | Some templateConnectionPoint =>
            let entryPoint :=
              mkPosition
                (pos_x roomPosition + pos_x (tcp_position templateConnectionPoint))
                (pos_y roomPosition + pos_y (tcp_position templateConnectionPoint)) in
            let expansionContext :=
              BlockExpansionEngine.mkExpansionContext entryPoint
                (cp_direction connectionPoint) connectionPoint
                (connectedOrUnknown connectionPoint) template roomPosition
                (roomsAt (heap st) (rooms st))
                (corridorsAt (heap st) (corridors st))
                (gridManager st) in
            expansionResult ← BlockExpansionEngine.expandRoom expansionContext;
            let blocks := BlockExpansionEngine.expandedBlocks expansionResult in
            if array_length blocks =? 0 then
              let minimalRoom :=
                mkRoom (roomId (roomCounter st)) (tpl_shape template)
                  (tpl_type template) (tpl_size template) entryPoint 1 1
                  [ mkConnectionPoint
                      (PositionCalculator.getOppositeDirection
                         (cp_direction connectionPoint))
                      entryPoint true (Some (connectedOrUnknown connectionPoint))
                      true None Connected ]
                  (Some (tpl_id template)) true (Some [[true]]) in
              Ok (mkGenerated [minimalRoom] [], roomCounter st + 1)
            else
              let minX := Math_min (pos_x <$> blocks) in
              let minY := Math_min (pos_y <$> blocks) in
              let maxX := Math_max (pos_x <$> blocks) in
              let maxY := Math_max (pos_y <$> blocks) in
              let roomWidth := maxX - minX + 1 in
              let roomHeight := maxY - minY + 1 in
              let gridPattern :=
                blocksPattern blocks minX minY roomWidth roomHeight in
              let newRoom :=
                mkRoom (roomId (roomCounter st)) (tpl_shape template)
                  (tpl_type template) (tpl_size template)
                  (mkPosition minX minY) roomWidth roomHeight
                  (BlockExpansionEngine.finalConnectionPoints expansionResult)
                  (Some (tpl_id template)) true (Some gridPattern) in
              Ok (mkGenerated [newRoom] [], roomCounter st + 1)
        end
  end.

Definition generateConnectedContent (now : Z) (rnd : string) (st : t)
    (connectionPoint : ConnectionPoint) (seed : string)
    (sourceElementId : string) : Result (Generated * Z) :=
  let seedNum := seedToNumber seed in
  if Qltb (inject_Z (Z.rem seedNum 10)) (ROOM_GENERATION_PROBABILITY * 10)
  then generateConnectedRoom now rnd st connectionPoint seed
  else
    g ← generateConnectedCorridor now rnd st connectionPoint seed;
    Ok (g, roomCounter st).

Definition createDungeonMap (now : Z) (st : t) : DungeonMap :=
  mkDungeonMap ("dungeon-" +:+ String_of_number now) "Incremental Dungeon"
    (rooms st) (corridors st) now (gridSize st) (array_length (rooms st)).

(** The [forEach((cp, index) => ...)] that follows the registration of a
    new element: from [index] on.  With [skipOpen], a point whose door
    is open is not added to the unexplored list. *)
Fixpoint recordPoints (now : Z) (skipOpen : bool) (m : SharedWallManager.t)
    (elementId : string) (index : Z) (cps : list ConnectionPoint)
    (e : ExplorationState) : ExplorationState :=
  match cps with
  | [] => e
  | cp :: rest =>
      let doorId := doorIdOf elementId index in
      let globalDoorState :=
        SharedWallManager.getDoorState m (cp_position cp) (cp_direction cp) in
      let unexplored :=
        if negb (cp_isGenerated cp)
           && negb (skipOpen && bool_decide (globalDoorState = Open))
        then unexploredConnectionPoints e ++
               [mkConnectionPoint (cp_direction cp) (cp_position cp)
                  (cp_isConnected cp) (cp_connectedElementId cp)
                  (cp_isGenerated cp) (Some (generateSeed now cp)) (cp_state cp)]
        else unexploredConnectionPoints e in
      recordPoints now skipOpen m elementId (index + 1) rest
        (mkExplorationState (discoveredRoomIds e) (discoveredCorridorIds e)
           (<[ doorId := globalDoorState ]> (doorStates e)) unexplored)
  end.

(** One turn of [generatedElements.rooms.forEach]. *)
Definition integrateRoom (now : Z) (st : t) (room : Room) : t :=
  let '(h1, l) := alloc (heap st) (ERoom room) in
  let e := explorationState st in
  let e1 :=
    mkExplorationState ({[ room_id room ]} ∪ discoveredRoomIds e)
      (discoveredCorridorIds e) (doorStates e) (unexploredConnectionPoints e) in
  let g := GridManager.markRoomAsOccupied getRoomTemplateById room (gridManager st) in
  let '(h2, m, cps) := SharedWallManager.addElement now l h1 (sharedWallManager st) in
  mk (gridSize st) h2 (rooms st ++ [l]) (corridors st) g m
     (recordPoints now true m (room_id room) 0 cps e1) (roomCounter st).

(** One turn of [generatedElements.corridors.forEach]. *)
Definition integrateCorridor (now : Z) (st : t) (corridor : Corridor) : t :=
  let '(h1, l) := alloc (heap st) (ECorridor corridor) in
  let e := explorationState st in
  let e1 :=
    mkExplorationState (discoveredRoomIds e)
      ({[ cor_id corridor ]} ∪ discoveredCorridorIds e) (doorStates e)
      (unexploredConnectionPoints e) in
  let g := GridManager.markCorridorAsOccupied corridor (gridManager st) in
  let '(h2, m, cps) := SharedWallManager.addElement now l h1 (sharedWallManager st) in
  mk (gridSize st) h2 (rooms st) (corridors st ++ [l]) g m
     (recordPoints now true m (cor_id corridor) 0 cps e1) (roomCounter st).

(** The door states of the points of one element, from [index] on. *)
Fixpoint syncPoints (m : SharedWallManager.t) (elementId : string) (index : Z)
    (cps : list ConnectionPoint) (ds : gmap string DoorState)
  : gmap string DoorState :=
  match cps with
  | [] => ds
  | cp :: rest =>
      syncPoints m elementId (index + 1) rest
        (<[ doorIdOf elementId index :=
              SharedWallManager.getDoorState m (cp_position cp) (cp_direction cp) ]> ds)
  end.

Definition syncElements (h : Heap) (m : SharedWallManager.t) (ls : list loc)
    (ds : gmap string DoorState) : gmap string DoorState :=
  fold_left (fun ds l =>
      match h !! l with
      | Some element =>
          syncPoints m (elem_id element) 0 (elem_connectionPoints element) ds
      | None => ds
      end)
    ls ds.

Definition syncAllDoorStates (st : t) : t :=
  let e := explorationState st in
  let ds :=
    syncElements (heap st) (sharedWallManager st) (corridors st)
      (syncElements (heap st) (sharedWallManager st) (rooms st) (doorStates e)) in
  set_explorationState
    (mkExplorationState (discoveredRoomIds e) (discoveredCorridorIds e) ds
       (unexploredConnectionPoints e))
    st.

(** The filter that removes resolved points from the unexplored list. *)
Definition dropResolved (connectionPoint : ConnectionPoint) (st : t) : t :=
  let e := explorationState st in
  set_explorationState
    (mkExplorationState (discoveredRoomIds e) (discoveredCorridorIds e)
       (doorStates e)
       (List.filter (fun cp =>
            let doorState :=
              SharedWallManager.getDoorState (sharedWallManager st)
                (cp_position cp) (cp_direction cp) in
            negb (bool_decide (cp_generationSeed cp = cp_generationSeed connectionPoint))
            && negb (bool_decide (doorState = Open)))
          (unexploredConnectionPoints e)))
    st.

(** The state once the new elements are registered, before the source
    point is marked. *)
Definition integrateElements (now : Z) (generatedElements : Generated) (st : t)
  : t :=
  fold_left (integrateCorridor now) (gen_corridors generatedElements)
    (fold_left (integrateRoom now) (gen_rooms generatedElements) st).

(** The state once the source point is marked generated. *)
Definition markSourcePoint (connectionPoint : ConnectionPoint)
    (sourceElementId : string) (st : t) : t :=
  set_heap
    (ConnectionPointValidator.updateConnectionPointAsGenerated connectionPoint
       sourceElementId (rooms st) (corridors st) (heap st))
    st.

Definition integrateGeneratedElements (now : Z) (generatedElements : Generated)
    (connectionPoint : ConnectionPoint) (sourceElementId : string) (st : t) : t :=
  dropResolved connectionPoint
    (syncAllDoorStates
       (markSourcePoint connectionPoint sourceElementId
          (integrateElements now generatedElements st))).

(** [rooms] and [corridors] are copied as arrays of references; the
    objects they refer to are not copied. *)
Definition createStateSnapshot (st : t) : Snapshot :=
  mkSnapshot (rooms st) (corridors st) (roomCounter st) (explorationState st).

(** One turn of the loop re-registering the rooms (or the corridors). *)
Definition reRegister (now : Z) (acc : Heap * GridManager.t * SharedWallManager.t)
    (l : loc) : Heap * GridManager.t * SharedWallManager.t :=
  let '(h, g, m) := acc in
  let g' :=
    match h !! l with
    | Some (ERoom room) => GridManager.markRoomAsOccupied getRoomTemplateById room g
    | Some (ECorridor corridor) => GridManager.markCorridorAsOccupied corridor g
    | None => g
    end in
  let '(h', m', _) := SharedWallManager.addElement now l h m in
  (h', g', m').

Definition rollbackToSnapshot (now : Z) (snapshot : Snapshot) (st : t) : t :=
  let '(h, g, m) :=
    fold_left (reRegister now) (snap_corridors snapshot)
      (fold_left (reRegister now) (snap_rooms snapshot)
         (heap st, GridManager.reset (gridManager st),
          SharedWallManager.reset (sharedWallManager st))) in
  mk (gridSize st) h (snap_rooms snapshot) (snap_corridors snapshot) g m
     (snap_explorationState snapshot) (snap_roomCounter snapshot).

(** [try { body } catch (error) { handler }] over the generator state:
    the handler runs in the state the body had reached. *)
Definition try_catch {A} (body : t * Result A) (handler : Exn -> t -> t * Result A)
  : t * Result A :=
  match body with
  | (st, Ok a) => (st, Ok a)
  | (st, Throw e) => handler e st
  end.

(** [connectionPoint.generationSeed || this.generateSeed(connectionPoint)] *)
Definition seedOf (now : Z) (connectionPoint : ConnectionPoint) : string :=
  match cp_generationSeed connectionPoint with
  | Some s => if bool_decide (s = "") then generateSeed now connectionPoint else s
  | None => generateSeed now connectionPoint
  end.

Definition generateFromConnectionPoint (now : Z) (rnd : string)
    (request : GenerationRequest) (st : t) : t * Result DungeonMap :=
  let connectionPoint := req_connectionPoint request in
  let sourceElementId := req_sourceElementId request in
  let stateSnapshot := createStateSnapshot st in
  try_catch
    (let seed := seedOf now connectionPoint in
     match generateConnectedContent now rnd st connectionPoint seed
             sourceElementId with
     | Throw e => (st, Throw e)
     | Ok (generatedElements, counter) =>
         let st1 := set_roomCounter counter st in
         if (array_length (gen_rooms generatedElements) =? 0)
            && (array_length (gen_corridors generatedElements) =? 0)
         then (st1, Ok (createDungeonMap now st1))
         else
           let st2 :=
             integrateGeneratedElements now generatedElements connectionPoint
               sourceElementId st1 in
           (st2, Ok (createDungeonMap now st2))
     end)
    (fun error st' =>
       let st'' := rollbackToSnapshot now stateSnapshot st' in
       (st'', Ok (createDungeonMap now st''))).

(** [connectionPoint.state = s] on the caller's object. *)
Definition setPointState (s : ConnectionPointState) (cp : ConnectionPoint)
  : ConnectionPoint :=
  mkConnectionPoint (cp_direction cp) (cp_position cp) (cp_isConnected cp)
    (cp_connectedElementId cp) (cp_isGenerated cp) (cp_generationSeed cp) s.

Definition setDoorOpen (doorId : string) (st : t) : t :=
  let e := explorationState st in
  set_explorationState
    (mkExplorationState (discoveredRoomIds e) (discoveredCorridorIds e)
       (<[ doorId := Open ]> (doorStates e)) (unexploredConnectionPoints e))
    st.

(** The result holds the generator, the caller's connection point object
    as the call leaves it, and the returned map or the exception. *)
Definition openDoor (now : Z) (rnd : string) (doorId : string)
    (connectionPoint : ConnectionPoint) (sourceElementId : string) (st : t)
  : t * ConnectionPoint * Result DungeonMap :=
  let st0 := setDoorOpen doorId st in
  if bool_decide (cp_state connectionPoint = Generating)
     || bool_decide (cp_state connectionPoint = Connected)
  then
    let st1 := syncAllDoorStates st0 in
    (st1, connectionPoint, Ok (createDungeonMap now st1))
  else
    let globalDoorState :=
      SharedWallManager.getDoorState (sharedWallManager st0)
        (cp_position connectionPoint) (cp_direction connectionPoint) in
    let isAlreadyGenerated :=
      SharedWallManager.isDoorGenerated (sharedWallManager st0)
        (cp_position connectionPoint) (cp_direction connectionPoint) in
    if bool_decide (globalDoorState = Open) || isAlreadyGenerated
       || cp_isGenerated connectionPoint
    then
      let st1 := syncAllDoorStates st0 in
      (st1, setPointState Connected connectionPoint,
       Ok (createDungeonMap now st1))
    else
      let generating := setPointState Generating connectionPoint in
      if negb (cp_isGenerated generating) then
        match generateFromConnectionPoint now rnd
                (mkGenerationRequest generating sourceElementId) st0 with
        | (st1, Ok result) => (st1, setPointState Connected generating, Ok result)
        | (st1, Throw error) =>
            (st1, setPointState Ungenerated generating, Throw error)
        end
      else
        (st0, setPointState Connected generating, Ok (createDungeonMap now st0)).

Definition reset (st : t) : t :=
  mk (gridSize st) (heap st) [] [] (GridManager.reset (gridManager st))
     (SharedWallManager.reset (sharedWallManager st)) emptyExplorationState 0.

Definition findEntrancePosition (st : t) : Position :=
  let centerX := gridSize st / 2 in
  let centerY := gridSize st / 2 in
  mkPosition (centerX - 3) (centerY - 2).

(** [pick] is [Math.floor(Math.random() * templates.length)]. *)
Definition generateEntranceRoom (pick : Z) (st : t) : Result Room :=
  let templates := getRoomTemplatesByType Entrance in
  match array_get templates pick with
  | None => Throw TypeError   (* [template.shape] of [undefined] *)
  | Some template =>
      let startPosition := findEntrancePosition st in
      Ok (mkRoom (roomId (roomCounter st)) (tpl_shape template) Entrance
            (tpl_size template) startPosition (tpl_width template)
            (tpl_height template)
            ((fun cp =>
                mkConnectionPoint (tcp_direction cp)
                  (mkPosition (pos_x startPosition + pos_x (tcp_position cp))
                     (pos_y startPosition + pos_y (tcp_position cp)))
                  false None false None Ungenerated)
             <$> tpl_connectionPoints template)
            (Some (tpl_id template)) true None)
  end.

Definition generateInitialDungeon (now : Z) (pick : Z) (st : t)
  : t * Result DungeonMap :=
  let st0 := reset st in
  match generateEntranceRoom pick st0 with
  | Throw e =>
      (* the room literal evaluates [this.roomCounter++] for its [id]
         before it reads the template *)
      (set_roomCounter (roomCounter st0 + 1) st0, Throw e)
  | Ok entranceRoom =>
      let '(h1, l) := alloc (heap st0) (ERoom entranceRoom) in
      let e1 :=
        mkExplorationState {[ room_id entranceRoom ]} ∅ ∅ [] in
      let g :=
        GridManager.markRoomAsOccupied getRoomTemplateById entranceRoom
          (gridManager st0) in
      let '(h2, m, cps) :=
        SharedWallManager.addElement now l h1 (sharedWallManager st0) in
      let st1 :=
        mk (gridSize st0) h2 [l] [] g m
           (recordPoints now false m (room_id entranceRoom) 0 cps e1)
           (roomCounter st0 + 1) in
      (st1, Ok (createDungeonMap now st1))
  end.

End Catalogue.

End IncrementalDungeonGenerator.

(** ** [WallAnalyzer]: wall segments of corridors and their overlaps *)

Module WallAnalyzer.

Inductive SegmentDirection := horizontal | vertical.

#[global] Instance SegmentDirection_eq_dec : EqDecision SegmentDirection.
Proof. solve_decision. Defined.

Inductive ElementType := room | corridor.

Record WallSegment := mkWallSegment {
  seg_start : Position;
  seg_end : Position;
  seg_direction : SegmentDirection;
  seg_elementId : string;
  seg_elementType : ElementType
}.

(** The four walls pushed for one cell of a corridor path: north, south,
    west, east. *)
Definition cellWalls (elementId : string) (pos : Position) : list WallSegment :=
  [ mkWallSegment (mkPosition (pos_x pos) (pos_y pos))
      (mkPosition (pos_x pos + 1) (pos_y pos)) horizontal elementId corridor;
    mkWallSegment (mkPosition (pos_x pos) (pos_y pos + 1))
      (mkPosition (pos_x pos + 1) (pos_y pos + 1)) horizontal elementId corridor;
    mkWallSegment (mkPosition (pos_x pos) (pos_y pos))
      (mkPosition (pos_x pos) (pos_y pos + 1)) vertical elementId corridor;
    mkWallSegment (mkPosition (pos_x pos + 1) (pos_y pos))
      (mkPosition (pos_x pos + 1) (pos_y pos + 1)) vertical elementId corridor ].

Definition getCorridorWallSegments (c : Corridor) : list WallSegment :=
  pos ← cor_path c; cellWalls (cor_id c) pos.

(** [Math.max(start1, start2) < Math.min(end1, end2)] *)
Definition rangesOverlap (start1 end1 start2 end2 : Z) : bool :=
  Z.max start1 start2 <? Z.min end1 end2.

Definition doSegmentsOverlap (segment1 segment2 : WallSegment) : bool :=
  if negb (bool_decide (seg_direction segment1 = seg_direction segment2))
  then false
  else
    match seg_direction segment1 with
    | horizontal =>
        (pos_y (seg_start segment1) =? pos_y (seg_start segment2))
        && rangesOverlap (pos_x (seg_start segment1)) (pos_x (seg_end segment1))
             (pos_x (seg_start segment2)) (pos_x (seg_end segment2))
    | vertical =>
        (pos_x (seg_start segment1) =? pos_x (seg_start segment2))
        && rangesOverlap (pos_y (seg_start segment1)) (pos_y (seg_end segment1))
             (pos_y (seg_start segment2)) (pos_y (seg_end segment2))
    end.

(** [None] stands for [null]. *)
Definition getOverlapPosition (segment1 segment2 : WallSegment)
  : option Position :=
  if negb (doSegmentsOverlap segment1 segment2) then None
  else
    match seg_direction segment1 with
    | horizontal =>
        Some (mkPosition
                (Z.max (pos_x (seg_start segment1)) (pos_x (seg_start segment2)))
                (pos_y (seg_start segment1)))
    | vertical =>
        Some (mkPosition (pos_x (seg_start segment1))
                (Z.max (pos_y (seg_start segment1)) (pos_y (seg_start segment2))))
    end.

Definition isPositionAdjacentToCorridor (position : Position)
    (direction : ExitDirection) (c : Corridor) : bool :=
  existsb (fun pathPos =>
      match direction with
      | North =>
          (pos_x pathPos =? pos_x position) && (pos_y pathPos =? pos_y position - 1)
      | South =>
          (pos_x pathPos =? pos_x position) && (pos_y pathPos =? pos_y position + 1)
      | West =>
          (pos_x pathPos =? pos_x position - 1) && (pos_y pathPos =? pos_y position)
      | East =>
          (pos_x pathPos =? pos_x position + 1) && (pos_y pathPos =? pos_y position)
      | _ => false
      end)
    (cor_path c).

End WallAnalyzer.

(** ** [RoomIntegrationValidator]: the checks made on plain data *)

Module RoomIntegrationValidator.

(** The two loops count the truthy cells; at least one is asked for. *)
Definition hasMinimumSpace (grid : list (list bool)) : bool :=
  1 <=? fold_left (fun availableSquares row =>
            fold_left (fun n (cell : bool) => if cell then n + 1 else n) row
              availableSquares)
          grid 0.

Definition isConnectionPointPositionValid (connectionPoint : ConnectionPoint)
    (gridManager : GridManager.t) : bool :=
  GridManager.isWithinBounds gridManager (cp_position connectionPoint).

(** The points of the temporary room: the template's points moved to
    [position], none of them connected or generated. *)
Definition temporaryConnectionPoints (template : RoomTemplate)
    (position : Position) : list ConnectionPoint :=
  (fun cp =>
     mkConnectionPoint (tcp_direction cp)
       (mkPosition (pos_x position + pos_x (tcp_position cp))
          (pos_y position + pos_y (tcp_position cp)))
       false None false None Ungenerated)
  <$> tpl_connectionPoints template.

(** [createTemporaryRoom(template, position, context)]; the id is
    [`temp-room-${Date.now()}`]. *)
Definition createTemporaryRoom (now : Z) (template : RoomTemplate)
    (position : Position) : Room :=
  mkRoom ("temp-room-" +:+ String_of_number now) (tpl_shape template)
    (tpl_type template) (tpl_size template) position (tpl_width template)
    (tpl_height template) (temporaryConnectionPoints template position)
    (Some (tpl_id template)) true None.

End RoomIntegrationValidator.

(** * Specification vocabulary and example inputs *)

Definition is_digit (c : ascii) : bool :=
  match c with
  | "0" | "1" | "2" | "3" | "4" | "5" | "6" | "7" | "8" | "9" => true
  | _ => false
  end%char.

Fixpoint all_digits (s : string) : bool :=
  match s with
  | EmptyString => true
  | String c s' => is_digit c && all_digits s'
  end.

(** A decimal numeral: a non-empty run of digits, optionally signed. *)
Definition numeral (s : string) : Prop :=
  exists ds, all_digits ds = true /\ ds <> "" /\ (s = ds \/ s = String "-" ds).

(** The two sides of one doorway at cell (10, 5). *)
Definition northSide : ConnectionPoint :=
  mkConnectionPoint North (mkPosition 10 5) false None false None Ungenerated.

Definition southSide : ConnectionPoint :=
  mkConnectionPoint South (mkPosition 10 5) false None false None Ungenerated.

(** A door on the last but one column of a 30 x 30 grid, facing east. *)
Definition boundaryPoint : ConnectionPoint :=
  mkConnectionPoint East (mkPosition 28 5) false None false (Some "1") Ungenerated.

(** A 2 x 1 template with two east doors; the first one faces the second
    cell of the room, so it is not on the perimeter. *)
Definition twoEastDoors : RoomTemplate :=
  mkRoomTemplate "two-east-doors" Rectangle Standard Small 2 1
    [ mkTemplateConnectionPoint East (mkPosition 0 0) None;
      mkTemplateConnectionPoint East (mkPosition 1 0) None ]
    [[true; true]].

(** The character [c] does not occur in [s]. *)
Fixpoint lacks (c : ascii) (s : string) : bool :=
  match s with
  | EmptyString => true
  | String a s' => negb (Ascii.eqb a c) && lacks c s'
  end.

(** The cells of the template rectangle placed at the target position. *)
Definition universe (ctx : BlockExpansionEngine.ExpansionContext) : list Position :=
  GridManager.rectangle_cells (BlockExpansionEngine.targetPosition ctx)
    (tpl_width (BlockExpansionEngine.geomorphBounds ctx))
    (tpl_height (BlockExpansionEngine.geomorphBounds ctx)).

(** The cells of that rectangle whose key is not yet in the block set. *)
Definition pendingCells (ctx : BlockExpansionEngine.ExpansionContext)
    (blocks : list string) : list Position :=
  List.filter
    (fun p => negb (bool_decide (BlockExpansionEngine.positionKey p ∈ blocks)))
    (universe ctx).

(** The pattern has a row for every row of the template rectangle. *)
Definition rowsPresent (template : RoomTemplate) : Prop :=
  tpl_height template <= array_length (tpl_gridPattern template).

(** The entry of a pattern at row [ry], column [rx], if any. *)
Definition patternCell (pattern : list (list bool)) (ry rx : Z) : option bool :=
  row ← array_get pattern ry; array_get row rx.

(** The cell next to a template point, in the direction the point faces, is
    outside the template rectangle or is not a [true] cell of the pattern.
    Diagonal directions have no such cell. *)
Definition facesOutside (pattern : list (list bool)) (width height : Z)
    (direction : ExitDirection) (position : Position) : Prop :=
  match direction with
  | North => pos_y position = 0
             \/ patternCell pattern (pos_y position - 1) (pos_x position) <> Some true
  | South => pos_y position = height - 1
             \/ patternCell pattern (pos_y position + 1) (pos_x position) <> Some true
  | West => pos_x position = 0
            \/ patternCell pattern (pos_y position) (pos_x position - 1) <> Some true
  | East => pos_x position = width - 1
            \/ patternCell pattern (pos_y position) (pos_x position + 1) <> Some true
  | _ => True
  end.

(** Example catalogue: one standard template, a room of two cells side by
    side with a north door on the left cell and an east door on the right
    cell. *)
Definition twoCellRoom : RoomTemplate :=
  mkRoomTemplate "two-cell-room" Rectangle Standard Small 2 1
    [ mkTemplateConnectionPoint North (mkPosition 0 0) None;
      mkTemplateConnectionPoint East (mkPosition 1 0) None ]
    [[true; true]].

Definition exampleTemplatesByType (ty : RoomType) : list RoomTemplate :=
  match ty with Standard => [twoCellRoom] | _ => [] end.

Definition exampleTemplateById (id : string) : option RoomTemplate :=
  if bool_decide (id = "two-cell-room") then Some twoCellRoom else None.

(** Example run on a 30 x 30 grid.  First a corridor is generated eastwards
    from a door at (5, 5): it covers (6, 5) .. (12, 5).  Then a room is
    generated southwards from a door at (12, 4), just above the corridor's
    far end. *)
Definition eastDoor : ConnectionPoint :=
  mkConnectionPoint East (mkPosition 5 5) false None false (Some "1") Ungenerated.

Definition southDoor : ConnectionPoint :=
  mkConnectionPoint South (mkPosition 12 4) false None false (Some "2") Ungenerated.

Definition afterCorridor : IncrementalDungeonGenerator.t :=
  fst (IncrementalDungeonGenerator.generateFromConnectionPoint
         exampleTemplatesByType exampleTemplateById 1000 "abc"
         (IncrementalDungeonGenerator.mkGenerationRequest eastDoor "room-a")
         (IncrementalDungeonGenerator.new 30 [])).

Definition afterRoom : IncrementalDungeonGenerator.t :=
  fst (IncrementalDungeonGenerator.generateFromConnectionPoint
         exampleTemplatesByType exampleTemplateById 2000 "def"
         (IncrementalDungeonGenerator.mkGenerationRequest southDoor "room-b")
         afterCorridor).

(** The cells an element occupies: the mask of a room mapped through its
    position, the path of a corridor. *)
Definition occupiedCells (getRoomTemplateById : string -> option RoomTemplate)
    (e : Element) : list Position :=
  match e with
  | ERoom room => GridManager.room_cells getRoomTemplateById room
  | ECorridor corridor => cor_path corridor
  end.

(** An expansion that is boxed in: the entry point (6, 5) and the only other
    cell of the template, (7, 5), are both covered by the corridor of the
    example run. *)
Definition boxedContext : BlockExpansionEngine.ExpansionContext :=
  BlockExpansionEngine.mkExpansionContext (mkPosition 6 5) South
    (mkConnectionPoint South (mkPosition 6 4) false None false None Ungenerated)
    "room-b" twoCellRoom (mkPosition 6 5)
    (IncrementalDungeonGenerator.roomsAt
       (IncrementalDungeonGenerator.heap afterCorridor)
       (IncrementalDungeonGenerator.rooms afterCorridor))
    (IncrementalDungeonGenerator.corridorsAt
       (IncrementalDungeonGenerator.heap afterCorridor)
       (IncrementalDungeonGenerator.corridors afterCorridor))
    (IncrementalDungeonGenerator.gridManager afterCorridor).

(** [h'] differs from [h] at most in the connection points of its
    elements. *)
Definition pointsOnly (h h' : Heap) : Prop :=
  forall l,
    match h !! l, h' !! l with
    | Some e, Some e' => exists cps, e' = elem_set_connectionPoints e cps
    | None, None => True
    | _, _ => False
    end.

(** The keys of the cells of the elements that [ls] refers to in [h]. *)
Definition keysOf (getRoomTemplateById : string -> option RoomTemplate)
    (h : Heap) (ls : list loc) (k : string) : Prop :=
  exists l e c, l ∈ ls /\ h !! l = Some e
                /\ c ∈ occupiedCells getRoomTemplateById e
                /\ k = GridManager.cellKey (pos_x c) (pos_y c).








Definition flagsSet (cp : ConnectionPoint) : Prop :=
  cp_isGenerated cp = true /\ cp_isConnected cp = true.

Definition pointUp (cp cp' : ConnectionPoint) : Prop :=
  cp_position cp' = cp_position cp /\ cp_direction cp' = cp_direction cp
  /\ (flagsSet cp -> flagsSet cp').

(** [h'] holds the same elements as [h], with the same ids and the same
    points, some of them marked generated and connected. *)
Definition heapUp (h h' : Heap) : Prop :=
  forall l,
    match h !! l, h' !! l with
    | Some e, Some e' =>
        elem_id e' = elem_id e
        /\ Forall2 pointUp (elem_connectionPoints e) (elem_connectionPoints e')
    | None, None => True
    | _, _ => False
    end.

(** Every point of the element at [l] that is at the location of [door] is
    marked generated and connected. *)
Definition doorPointsSet (h : Heap) (l : loc) (door : SharedDoor) : Prop :=
  forall e cp, h !! l = Some e -> cp ∈ elem_connectionPoints e ->
               SharedWallManager.atDoor door cp = true -> flagsSet cp.

(** One turn of [updateConnectionPointsForAutoOpenedDoor]. *)
Definition openAt (els : list loc) (door : SharedDoor) (h : Heap)
    (elementId : string) : Heap :=
  match SharedWallManager.findElement h els elementId with
  | Some l =>
      match h !! l with
      | Some element =>
          <[ l := elem_set_connectionPoints element
                    (SharedWallManager.openPoint door <$> elem_connectionPoints element) ]> h
      | None => h
      end
  | None => h
  end.

Definition wellKeyed (doors : DoorRegistry.t) : Prop :=
  forall k d, DoorRegistry.get k doors = Some d ->
    k = DoorRegistry.createDoorId (loc_position (door_location d))
          (loc_direction (door_location d)).

(** The test [autoOpenRevealedDoors] makes on a door, given which element
    ids are present. *)
Definition shouldOpen (present : string -> bool) (d : SharedDoor) : bool :=
  negb (bool_decide (door_state d = Open)
        || (array_length (door_connectedElements d) <? 2))
  && forallb present (door_connectedElements d).

Definition opened (d : SharedDoor) : SharedDoor :=
  DoorRegistry.setGenerated (join "," (door_connectedElements d))
    (DoorRegistry.setState Open d).

Definition openIf (present : string -> bool) (d : SharedDoor) : SharedDoor :=
  if shouldOpen present d then opened d else d.

Definition keyOf (cp : ConnectionPoint) : string :=
  DoorRegistry.createDoorId (cp_position cp) (cp_direction cp).

(** What [connectElementToExistingDoors] makes of a point, given the
    registry it started from. *)
Definition connectRel (doors : DoorRegistry.t) (cp cp' : ConnectionPoint) : Prop :=
  cp_position cp' = cp_position cp /\ cp_direction cp' = cp_direction cp
  /\ forall d, DoorRegistry.get (keyOf cp) doors = Some d ->
       cp_isConnected cp' = true /\ cp_isGenerated cp' = door_isGenerated d.

Definition joinIf (elementId : string) (ks : list string) (k : string)
    (d : SharedDoor) : SharedDoor :=
  if bool_decide (k ∈ ks) then DoorRegistry.addConnectedElement elementId d else d.

(** A door as [registerDoor] creates it for a single element. *)
Definition freshDoor (elementId k : string) (d : SharedDoor) : Prop :=
  door_state d = Closed /\ door_connectedElements d = [elementId]
  /\ door_isGenerated d = false
  /\ k = DoorRegistry.createDoorId (loc_position (door_location d))
           (loc_direction (door_location d)).

Definition newDoor (now : Z) (elementId : string) (cp : ConnectionPoint)
  : SharedDoor :=
  mkSharedDoor (mkDoorLocation (cp_position cp) (cp_direction cp) (keyOf cp))
    Closed [elementId] false None (Some (SharedWallManager.generateSeed now cp)).

Record wallInv (h : Heap) (m : SharedWallManager.t) : Prop := mkWallInv {
  inv_keyed : wellKeyed (SharedWallManager.doorRegistry m);
  inv_valid : forall l, l ∈ SharedWallManager.elements m -> is_Some (h !! l);
  inv_ids : forall l1 l2 e1 e2,
    l1 ∈ SharedWallManager.elements m -> l2 ∈ SharedWallManager.elements m ->
    h !! l1 = Some e1 -> h !! l2 = Some e2 -> elem_id e1 = elem_id e2 -> l1 = l2;
  inv_door : forall l e cp,
    l ∈ SharedWallManager.elements m -> h !! l = Some e ->
    cp ∈ elem_connectionPoints e ->
    exists d, DoorRegistry.get (keyOf cp) (SharedWallManager.doorRegistry m) = Some d
              /\ elem_id e ∈ door_connectedElements d;
  inv_present : forall k d i,
    DoorRegistry.get k (SharedWallManager.doorRegistry m) = Some d ->
    i ∈ door_connectedElements d ->
    SharedWallManager.elementExists h (SharedWallManager.elements m) i = true;
  inv_open : forall k d,
    DoorRegistry.get k (SharedWallManager.doorRegistry m) = Some d ->
    door_state d = Open ->
    door_isGenerated d = true
    /\ forall l, l ∈ SharedWallManager.elements m -> doorPointsSet h l d;
  inv_shared : forall k d,
    DoorRegistry.get k (SharedWallManager.doorRegistry m) = Some d ->
    (2 <= length (door_connectedElements d))%nat -> door_state d = Open
}.

(** A sequence of [addElement] calls, each with its clock reading and the
    element object it adds. *)
Definition addElements (calls : list (Z * loc)) (s : Heap * SharedWallManager.t)
  : Heap * SharedWallManager.t :=
  fold_left (fun s call =>
      let '(h', m', _) :=
        SharedWallManager.addElement (fst call) (snd call) (fst s) (snd s) in
      (h', m'))
    calls s.

(** The ids of the element objects at [ls]. *)
Definition elementIds (h : Heap) (ls : list loc) : list (option string) :=
  (fun l => elem_id <$> h !! l) <$> ls.

(** A corridor with the given id and points. *)
Definition hallway (id : string) (cps : list ConnectionPoint) : Element :=
  ECorridor (mkCorridor id Straight Horizontal (mkPosition 10 5) 1 1 cps
               [mkPosition 10 5] true).

Definition twoNorth : Heap :=
  [hallway "corridor-0" [northSide]; hallway "corridor-1" [northSide]].

Definition northAndSouth : Heap :=
  [hallway "corridor-0" [northSide]; hallway "corridor-1" [southSide]].

Definition twoCalls : list (Z * loc) := [(1000, 0%nat); (2000, 1%nat)].

Definition noWalls : SharedWallManager.t := SharedWallManager.mk [] [].

(** The two north points once their shared door has been opened. *)
Definition openedFirst : ConnectionPoint :=
  mkConnectionPoint North (mkPosition 10 5) true None true None Ungenerated.

Definition openedSecond : ConnectionPoint :=
  mkConnectionPoint North (mkPosition 10 5) true (Some "corridor-0") true None
    Ungenerated.

Definition pointsAt (h : Heap) (l : loc) : list ConnectionPoint :=
  match h !! l with
  | Some e => elem_connectionPoints e
  | None => []
  end.

(** A registry as the [Map] of the class can hold it: one entry per key,
    each door stored under the id of its own location, listing at least one
    element and none twice. *)
Definition doorOk (entry : string * SharedDoor) : Prop :=
  fst entry = DoorRegistry.createDoorId (loc_position (door_location (snd entry)))
                (loc_direction (door_location (snd entry)))
  /\ loc_globalId (door_location (snd entry)) = fst entry
  /\ NoDup (door_connectedElements (snd entry))
  /\ door_connectedElements (snd entry) <> [].

Definition registryOk (doors : DoorRegistry.t) : Prop :=
  NoDup (fst <$> doors) /\ Forall doorOk doors.

(** The registries the mutators of the class build from an empty one. *)
Inductive built : DoorRegistry.t -> Prop :=
| built_clear doors : built (DoorRegistry.clear doors)
| built_registerDoor doors position direction elementId initialState seed :
    built doors ->
    built (fst (DoorRegistry.registerDoor position direction elementId
                  initialState seed doors))
| built_updateDoorState doors globalId state :
    built doors -> built (fst (DoorRegistry.updateDoorState globalId state doors))
| built_markDoorAsGenerated doors globalId connectedElementId :
    built doors ->
    built (fst (DoorRegistry.markDoorAsGenerated globalId connectedElementId doors))
| built_connect doors elementId connectionPoints :
    built doors ->
    built (fst (DoorRegistry.connectElementToExistingDoors elementId
                  connectionPoints doors))
| built_remove doors elementId :
    built doors -> built (DoorRegistry.removeElementFromDoors elementId doors).

(** What [connectElementToExistingDoors] makes of one point, read off the
    registry as it is before the call. *)
Definition connectPoint (elementId : string) (doors : DoorRegistry.t)
    (cp : ConnectionPoint) : ConnectionPoint :=
  match DoorRegistry.getDoorByLocation doors (cp_position cp) (cp_direction cp) with
  | Some existingDoor =>
      mkConnectionPoint (cp_direction cp) (cp_position cp) true
        (head (door_connectedElements
                 (DoorRegistry.addConnectedElement elementId existingDoor)))
        (door_isGenerated existingDoor) (cp_generationSeed cp) (cp_state cp)
  | None => cp
  end.

(** A cell is free when it is inside the grid and not occupied. *)
Definition cellFree (g : GridManager.t) (q : Position) : bool :=
  GridManager.isWithinBounds g q && negb (GridManager.isPositionOccupied g q).

(** [p] is reached from [entry] by steps between 4-neighbours that stay
    inside [blocks]. *)
Inductive linked (blocks : list Position) (entry : Position) : Position -> Prop :=
| linked_entry : linked blocks entry entry
| linked_step m n :
    linked blocks entry m ->
    n ∈ BlockExpansionEngine.getNeighbors m -> n ∈ blocks ->
    linked blocks entry n.

(** The block sets the expansion loop goes through: the entry point, then
    one accepted neighbour of a block at a time. *)
Inductive grown (ctx : BlockExpansionEngine.ExpansionContext) : list string -> Prop :=
| grown_entry :
    grown ctx [BlockExpansionEngine.positionKey (BlockExpansionEngine.entryPoint ctx)]
| grown_step blocks m n :
    grown ctx blocks ->
    BlockExpansionEngine.positionKey m ∈ blocks ->
    n ∈ BlockExpansionEngine.getNeighbors m ->
    BlockExpansionEngine.canExpandTo n ctx = Ok true ->
    BlockExpansionEngine.positionKey n ∉ blocks ->
    grown ctx (blocks ++ [BlockExpansionEngine.positionKey n]).

(** An expansion over an empty 30 x 30 grid: the two cells of
    [twoCellRoom], entered at its left cell from the north. *)
Definition openContext : BlockExpansionEngine.ExpansionContext :=
  BlockExpansionEngine.mkExpansionContext (mkPosition 6 5) South
    (mkConnectionPoint South (mkPosition 6 4) false None false None Ungenerated)
    "room-b" twoCellRoom (mkPosition 6 5) [] [] (GridManager.mk ∅ 30).

(** The corridor of the example run: the east door at (5, 5) of an empty
    30 x 30 grid is explored with seed "1". *)
Definition exampleCorridor : Corridor :=
  match IncrementalDungeonGenerator.generateConnectedCorridor 1000 "abc"
          (IncrementalDungeonGenerator.new 30 []) eastDoor "1" with
  | Ok (IncrementalDungeonGenerator.mkGenerated [] [c]) => c
  | _ => mkCorridor "" Straight Horizontal (mkPosition 0 0) 0 0 [] [] false
  end.

(** [st'] still has the rooms and corridors of [st], in their places at
    the head of the two lists, on the same grid, and the objects of [st] are
    still in the store under their ids. *)
Definition extends (st st' : IncrementalDungeonGenerator.t) : Prop :=
  IncrementalDungeonGenerator.rooms st `prefix_of` IncrementalDungeonGenerator.rooms st'
  /\ IncrementalDungeonGenerator.corridors st
       `prefix_of` IncrementalDungeonGenerator.corridors st'
  /\ IncrementalDungeonGenerator.gridSize st' = IncrementalDungeonGenerator.gridSize st
  /\ forall l e,
       IncrementalDungeonGenerator.heap st !! l = Some e ->
       exists e', IncrementalDungeonGenerator.heap st' !! l = Some e'
                  /\ elem_id e' = elem_id e.

(** The direction and position of a template point. *)
Definition placement (cp : TemplateConnectionPoint) : ExitDirection * Position :=
  (tcp_direction cp, tcp_position cp).

(** The change [updateConnectionPointAsGenerated] makes to the element at
    [l]: its first point at the location of [cp] gets both flags. *)
Definition marksPoint (cp : ConnectionPoint) (sourceElementId : string)
    (h h' : Heap) (l : loc) : Prop :=
  exists e before p after,
    h !! l = Some e /\ elem_id e = sourceElementId
    /\ elem_connectionPoints e = before ++ p :: after
    /\ ConnectionPointValidator.sameLocation p cp = true
    /\ (forall q, q ∈ before -> ConnectionPointValidator.sameLocation q cp = false)
    /\ h' = <[ l := elem_set_connectionPoints e
                      (before ++ ConnectionPointValidator.markGenerated p :: after) ]> h.

(** The elements of [ls] that carry the id have no point at the location. *)
Definition noPoint (cp : ConnectionPoint) (sourceElementId : string)
    (h : Heap) (ls : list loc) : Prop :=
  forall l e q, l ∈ ls -> h !! l = Some e -> elem_id e = sourceElementId ->
                q ∈ elem_connectionPoints e ->
                ConnectionPointValidator.sameLocation q cp = false.

(** The states of the manager: a reset, then elements added (each an
    object of the store with an id that no placed element has) and
    removed. *)
Inductive placedBy : Heap -> SharedWallManager.t -> Prop :=
| placed_reset h m : placedBy h (SharedWallManager.reset m)
| placed_add now l h m e h' m' cps :
    placedBy h m ->
    h !! l = Some e ->
    l ∉ SharedWallManager.elements m ->
    (forall l0 e0, l0 ∈ SharedWallManager.elements m -> h !! l0 = Some e0 ->
                   elem_id e0 <> elem_id e) ->
    SharedWallManager.addElement now l h m = (h', m', cps) ->
    placedBy h' m'
| placed_remove h m elementId m' :
    placedBy h m ->
    SharedWallManager.removeElement elementId h m = m' ->
    placedBy h m'.

(** Two corridors with a north point at the same cell, both added. *)
Definition placedNorth : Heap * SharedWallManager.t :=
  addElements twoCalls (twoNorth, SharedWallManager.reset noWalls).

(** Two corridors with a north and a south point at the same cell, both
    added. *)
Definition placedOpposite : Heap * SharedWallManager.t :=
  addElements twoCalls (northAndSouth, SharedWallManager.reset noWalls).

Definition conflictIssue : SharedWallManager.Issue :=
  SharedWallManager.mkIssue (mkPosition 10 5)
    "Conflicting doors in opposite directions at same position".

(** * Vocabulary of the invariants over reachable states *)

(** Every door is closed or shared: an open door lists at least two
    elements, and every element a door lists is placed and has a point at
    the door's location. *)
Record tightInv (h : Heap) (m : SharedWallManager.t) : Prop := mkTightInv {
  tight_state : forall k d,
    DoorRegistry.get k (SharedWallManager.doorRegistry m) = Some d ->
    door_state d = Closed
    \/ (door_state d = Open /\ (2 <= length (door_connectedElements d))%nat);
  tight_point : forall k d i,
    DoorRegistry.get k (SharedWallManager.doorRegistry m) = Some d ->
    i ∈ door_connectedElements d ->
    exists l e cp,
      l ∈ SharedWallManager.elements m /\ h !! l = Some e /\ elem_id e = i
      /\ cp ∈ elem_connectionPoints e /\ keyOf cp = k
}.






(** The first cell of an element: the first cell of a corridor's path; for
    a room, the cell of its first connection point (for a generated room, the
    entry point). *)
Definition firstCell (e : Element) : option Position :=
  match e with
  | ERoom room => cp_position <$> head (room_connectionPoints room)
  | ECorridor corridor => head (cor_path corridor)
  end.

(** [e'] is [e] up to its connection points, which are at the same
    positions in the same order. *)
Definition sameShape (e e' : Element) : Prop :=
  exists cps,
    e' = elem_set_connectionPoints e cps
    /\ cp_position <$> cps = cp_position <$> elem_connectionPoints e.

Definition keepsShape (h h' : Heap) : Prop :=
  forall l e, h !! l = Some e -> exists e', h' !! l = Some e' /\ sameShape e e'.

(** The placed elements of a generator state: elements are stored in the
    order they are placed, so of two placed elements the one at the higher
    location is the later one. *)
Definition placed (st : IncrementalDungeonGenerator.t) (l : loc) : Prop :=
  l ∈ IncrementalDungeonGenerator.rooms st ++ IncrementalDungeonGenerator.corridors st.

(** The locations of a list of references grow along the list. *)
Definition increasing (ls : list loc) : Prop :=
  forall i j x y, (i < j)%nat -> ls !! i = Some x -> ls !! j = Some y -> (x < y)%nat.

Record placedInv (getRoomTemplateById : string -> option RoomTemplate)
    (st : IncrementalDungeonGenerator.t) : Prop := mkPlacedInv {
  pl_valid : forall l, placed st l ->
    is_Some (IncrementalDungeonGenerator.heap st !! l);
  pl_sorted :
    increasing (IncrementalDungeonGenerator.rooms st)
    /\ increasing (IncrementalDungeonGenerator.corridors st);
  pl_recorded : forall l e c,
    placed st l -> IncrementalDungeonGenerator.heap st !! l = Some e ->
    c ∈ occupiedCells getRoomTemplateById e ->
    GridManager.isPositionOccupied (IncrementalDungeonGenerator.gridManager st) c
    = true;
  pl_apart : forall l1 l2 e1 e2 c,
    placed st l1 -> placed st l2 -> (l1 < l2)%nat ->
    IncrementalDungeonGenerator.heap st !! l1 = Some e1 ->
    IncrementalDungeonGenerator.heap st !! l2 = Some e2 ->
    c ∈ occupiedCells getRoomTemplateById e1 ->
    c ∈ occupiedCells getRoomTemplateById e2 ->
    firstCell e2 = Some c
}.

(** [connectionPoint.state = state] when the connection point object is
    the point number [index] of the stored element at [l]. *)
Definition writePointState (state : ConnectionPointState) (l : loc) (index : nat)
    (h : Heap) : Heap :=
  match h !! l with
  | Some element =>
      match elem_connectionPoints element !! index with
      | Some cp =>
          <[ l := elem_set_connectionPoints element
                    (<[ index := IncrementalDungeonGenerator.setPointState state cp ]>
                       (elem_connectionPoints element)) ]> h
      | None => h
      end
  | None => h
  end.

(** The states the public operations reach from a new generator.
    [openDoor] assigns to the [state] of the connection point object it is
    given; it is modelled on a copy of that object.  When the caller passes
    the very object a stored element holds, these assignments land in the
    store: before and after the call, which the last rule adds. *)
Inductive explored (getRoomTemplatesByType : RoomType -> list RoomTemplate)
    (getRoomTemplateById : string -> option RoomTemplate)
  : IncrementalDungeonGenerator.t -> Prop :=
| explored_new gridSize h :
    explored getRoomTemplatesByType getRoomTemplateById
      (IncrementalDungeonGenerator.new gridSize h)
| explored_initial now pick st :
    explored getRoomTemplatesByType getRoomTemplateById st ->
    explored getRoomTemplatesByType getRoomTemplateById
      (fst (IncrementalDungeonGenerator.generateInitialDungeon getRoomTemplatesByType
              getRoomTemplateById now pick st))
| explored_generate now rnd request st :
    explored getRoomTemplatesByType getRoomTemplateById st ->
    explored getRoomTemplatesByType getRoomTemplateById
      (fst (IncrementalDungeonGenerator.generateFromConnectionPoint
              getRoomTemplatesByType getRoomTemplateById now rnd request st))
| explored_open now rnd doorId connectionPoint sourceElementId st :
    explored getRoomTemplatesByType getRoomTemplateById st ->
    explored getRoomTemplatesByType getRoomTemplateById
      (fst (fst (IncrementalDungeonGenerator.openDoor getRoomTemplatesByType
                   getRoomTemplateById now rnd doorId connectionPoint
                   sourceElementId st)))
| explored_state state l index st :
    explored getRoomTemplatesByType getRoomTemplateById st ->
    explored getRoomTemplatesByType getRoomTemplateById
      (IncrementalDungeonGenerator.set_heap
         (writePointState state l index (IncrementalDungeonGenerator.heap st)) st).

(** Apart from its first cell, the element covers only cells the grid
    tracker [g] records as free. *)
Definition fitsIn (getRoomTemplateById : string -> option RoomTemplate)
    (g : GridManager.t) (e : Element) : Prop :=
  forall c, c ∈ occupiedCells getRoomTemplateById e ->
    firstCell e = Some c \/ GridManager.isPositionOccupied g c = false.

(** What one generation yields: nothing, one room or one corridor. *)
Definition freshlyGenerated (getRoomTemplateById : string -> option RoomTemplate)
    (g : GridManager.t) (generated : IncrementalDungeonGenerator.Generated) : Prop :=
  generated = IncrementalDungeonGenerator.mkGenerated [] []
  \/ (exists room,
        generated = IncrementalDungeonGenerator.mkGenerated [room] []
        /\ fitsIn getRoomTemplateById g (ERoom room))
  \/ (exists corridor,
        generated = IncrementalDungeonGenerator.mkGenerated [] [corridor]
        /\ fitsIn getRoomTemplateById g (ECorridor corridor)).

(** * Properties *)

(** ** Decimal numerals and keys *)

Lemma string_of_uint_digits d : all_digits (NilEmpty.string_of_uint d) = true.
Proof. induction d; simpl; auto. Qed.

Lemma string_of_uint_nonempty d :
  d <> Decimal.Nil -> NilEmpty.string_of_uint d <> "".
Proof. destruct d; simpl; congruence. Qed.

Lemma String_of_number_numeral z : numeral (String_of_number z).
Proof.
  unfold String_of_number, numeral.
  destruct z as [|p|p]; simpl.
  - exists "0". split; [reflexivity|]. split; [discriminate|auto].
  - exists (NilEmpty.string_of_uint (Pos.to_uint p)).
    split; [apply string_of_uint_digits|].
    split; [apply string_of_uint_nonempty, DecimalPos.Unsigned.to_uint_nonnil|auto].
  - exists (NilEmpty.string_of_uint (Pos.to_uint p)).
    split; [apply string_of_uint_digits|].
    split; [apply string_of_uint_nonempty, DecimalPos.Unsigned.to_uint_nonnil|auto].
Qed.

(** [Number(String(z)) = z] *)
Lemma Number_of_String z : Number_of_string (String_of_number z) = z.
Proof.
  unfold Number_of_string, String_of_number.
  rewrite NilEmpty.isi. apply DecimalZ.of_to.
Qed.

Lemma String_of_number_inj z1 z2 :
  String_of_number z1 = String_of_number z2 -> z1 = z2.
Proof.
  intros H. rewrite <- (Number_of_String z1), <- (Number_of_String z2).
  now rewrite H.
Qed.

Lemma digits_sep c d1 d2 r1 r2 :
  is_digit c = false ->
  all_digits d1 = true -> all_digits d2 = true ->
  d1 +:+ String c r1 = d2 +:+ String c r2 -> d1 = d2 /\ r1 = r2.
Proof.
  intros Hc. revert d2.
  induction d1 as [|a d1 IH]; intros [|b d2]; simpl; intros H1 H2 E.
  - injection E as ->. auto.
  - injection E as -> _. apply andb_prop in H2 as [H2 _]. congruence.
  - injection E as -> _. apply andb_prop in H1 as [H1 _]. congruence.
  - injection E as -> E.
    apply andb_prop in H1 as [_ H1]. apply andb_prop in H2 as [_ H2].
    destruct (IH d2 H1 H2 E) as [-> ->]. auto.
Qed.

(** Two numerals followed by a dash are read back unambiguously. *)
Lemma numeral_sep n1 n2 r1 r2 :
  numeral n1 -> numeral n2 ->
  n1 +:+ String "-" r1 = n2 +:+ String "-" r2 -> n1 = n2 /\ r1 = r2.
Proof.
  intros (d1 & D1 & N1 & [-> | ->]) (d2 & D2 & N2 & [-> | ->]); simpl; intros E.
  - apply (digits_sep "-"); auto.
  - destruct d1 as [|a d1]; [congruence|]. simpl in *.
    injection E as -> _. discriminate.
  - destruct d2 as [|a d2]; [congruence|]. simpl in *.
    injection E as <- _. discriminate.
  - injection E as E.
    destruct (digits_sep "-" d1 d2 r1 r2) as [-> ->]; auto.
Qed.

Lemma ExitDirection_value_inj d1 d2 :
  ExitDirection_value d1 = ExitDirection_value d2 -> d1 = d2.
Proof. destruct d1, d2; simpl; intros H; try reflexivity; discriminate H. Qed.

Lemma append_inv_l (p s1 s2 : string) : p +:+ s1 = p +:+ s2 -> s1 = s2.
Proof. induction p; simpl; intros H; [auto|injection H; auto]. Qed.

(** ** C1: the canonical door key *)

Lemma createDoorId_inj p1 d1 p2 d2 :
  DoorRegistry.createDoorId p1 d1 = DoorRegistry.createDoorId p2 d2 ->
  p1 = p2 /\ d1 = d2.
Proof.
  unfold DoorRegistry.createDoorId. intros H.
  apply (append_inv_l "door-") in H.
  apply numeral_sep in H as [Hx H]; try apply String_of_number_numeral.
  apply numeral_sep in H as [Hy H]; try apply String_of_number_numeral.
  apply String_of_number_inj in Hx, Hy. apply ExitDirection_value_inj in H.
  destruct p1, p2; simpl in *; subst; auto.
Qed.

(** C1, as stated, fails: two connectable points (same cell, opposite
    cardinal directions) get different door ids. *)
Lemma connectable_points_distinct_ids :
  PositionCalculator.areConnectionPointsConnectable northSide southSide = true
  /\ DoorRegistry.createDoorId (cp_position northSide) (cp_direction northSide)
     <> DoorRegistry.createDoorId (cp_position southSide) (cp_direction southSide).
Proof. split; [reflexivity|]. vm_compute. discriminate. Qed.

(** C1, amended: the door id is a canonical key of the pair (position,
    direction): two connection points get the same id exactly when they have
    the same position and the same direction. *)
Theorem createDoorId_canonical p1 d1 p2 d2 :
  DoorRegistry.createDoorId p1 d1 = DoorRegistry.createDoorId p2 d2
  <-> p1 = p2 /\ d1 = d2.
Proof.
  split; [apply createDoorId_inj|]. now intros [-> ->].
Qed.

(** For connectable points the ids agree only when the direction is its own
    opposite, which no cardinal direction is. *)
Lemma connectable_same_id cp1 cp2 :
  PositionCalculator.areConnectionPointsConnectable cp1 cp2 = true ->
  DoorRegistry.createDoorId (cp_position cp1) (cp_direction cp1)
  = DoorRegistry.createDoorId (cp_position cp2) (cp_direction cp2) ->
  PositionCalculator.getOppositeDirection (cp_direction cp1) = cp_direction cp1.
Proof.
  unfold PositionCalculator.areConnectionPointsConnectable.
  destruct (_ || _); [discriminate|].
  intros H%bool_decide_eq_true E. apply createDoorId_inj in E as [_ E]. congruence.
Qed.

(** ** C7: the room-or-corridor choice *)

Lemma Qltb_threshold r :
  Qltb (inject_Z r) (ROOM_GENERATION_PROBABILITY * 10) = (r <? 7).
Proof.
  unfold Qltb, Qle_bool, ROOM_GENERATION_PROBABILITY. simpl.
  change (Z.pos (10 * 1)) with 10. change (7 * 10 * 1) with 70.
  destruct (Z.ltb_spec r 7); destruct (Z.leb_spec 70 (r * 10)); simpl; auto; lia.
Qed.

Lemma toInt32_range z : - 2 ^ 31 <= IncrementalDungeonGenerator.toInt32 z < 2 ^ 31.
Proof.
  unfold IncrementalDungeonGenerator.toInt32.
  pose proof (Z.mod_pos_bound (z + 2 ^ 31) (2 ^ 32)). lia.
Qed.

Lemma seedHash_range seed h :
  - 2 ^ 31 <= h < 2 ^ 31 ->
  - 2 ^ 31 <= IncrementalDungeonGenerator.seedHash h seed < 2 ^ 31.
Proof.
  revert h. induction seed as [|c s IH]; simpl; intros h Hh; auto.
  apply IH, toInt32_range.
Qed.

(** The hash is a non-negative number of at most 32 bits. *)
Lemma seedToNumber_bound seed :
  0 <= IncrementalDungeonGenerator.seedToNumber seed <= 2 ^ 31.
Proof.
  unfold IncrementalDungeonGenerator.seedToNumber.
  pose proof (seedHash_range seed 0 ltac:(lia)). lia.
Qed.

(** C7: for a fixed seed the branch is a function of the seed alone: the
    room branch is taken when [seedToNumber seed % 10 < 7], the corridor
    branch otherwise. *)
Theorem generateConnectedContent_branch
    (getRoomTemplatesByType : RoomType -> list RoomTemplate)
    now rnd st cp seed src :
  IncrementalDungeonGenerator.generateConnectedContent getRoomTemplatesByType
    now rnd st cp seed src =
  if IncrementalDungeonGenerator.seedToNumber seed mod 10 <? 7
  then IncrementalDungeonGenerator.generateConnectedRoom getRoomTemplatesByType
         now rnd st cp seed
  else (g ← IncrementalDungeonGenerator.generateConnectedCorridor now rnd st cp seed;
        Ok (g, IncrementalDungeonGenerator.roomCounter st)).
Proof.
  unfold IncrementalDungeonGenerator.generateConnectedContent.
  rewrite Qltb_threshold, Z.rem_mod_nonneg; [reflexivity| |lia].
  apply seedToNumber_bound.
Qed.

(** ** C8: a corridor stopped at the grid boundary *)

(** Whenever the walk yields exactly one cell, building the corridor reads
    [corridorPath[1].x] and raises. *)
Lemma one_cell_path_raises now rnd st cp seed p :
  IncrementalDungeonGenerator.generateCorridorPath
    (IncrementalDungeonGenerator.gridManager st) cp
    (MIN_CORRIDOR_LENGTH
     + Z.rem (IncrementalDungeonGenerator.seedToNumber seed)
         MAX_CORRIDOR_LENGTH_VARIANCE) = [p] ->
  IncrementalDungeonGenerator.generateConnectedCorridor now rnd st cp seed
  = Throw TypeError.
Proof.
  unfold IncrementalDungeonGenerator.generateConnectedCorridor.
  intros ->. reflexivity.
Qed.

(** C8 (the code departs from the claim): the walk from [boundaryPoint]
    keeps the adjusted starting cell (29, 5) and leaves the grid on its first
    extension step; building the one-cell corridor raises a [TypeError], and
    [generateFromConnectionPoint] returns a map without any corridor. *)
Theorem boundary_corridor_raises
    (getRoomTemplatesByType : RoomType -> list RoomTemplate)
    (getRoomTemplateById : string -> option RoomTemplate) :
  let st := IncrementalDungeonGenerator.new 30 [] in
  IncrementalDungeonGenerator.generateCorridorPath
    (IncrementalDungeonGenerator.gridManager st) boundaryPoint 7
  = [mkPosition 29 5]
  /\ IncrementalDungeonGenerator.generateConnectedCorridor 1000 "r" st
       boundaryPoint "1" = Throw TypeError
  /\ IncrementalDungeonGenerator.corridors
       (fst (IncrementalDungeonGenerator.generateFromConnectionPoint
               getRoomTemplatesByType getRoomTemplateById 1000 "r"
               (IncrementalDungeonGenerator.mkGenerationRequest boundaryPoint "room-00")
               st)) = [].
Proof. repeat split; reflexivity. Qed.

(** ** C9: the index carried by validated connection points *)

Lemma set_index_from_lookup l : forall i k cp,
  ConnectionPointValidator.set_index_from i l !! k = Some cp ->
  tcp_index cp = Some (i + Z.of_nat k).
Proof.
  induction l as [|a l IH]; intros i k cp; simpl; [by rewrite lookup_nil|].
  destruct k as [|k]; simpl.
  - intros [= <-]. simpl. f_equal. lia.
  - intros H. apply IH in H. rewrite H. f_equal. lia.
Qed.

(** The index of a returned point is its place in the returned list. *)
Lemma validateConnectionPoints_index template availableGrid trimmedPattern keep out k cp :
  ConnectionPointValidator.validateConnectionPoints template availableGrid
    trimmedPattern keep = Ok out ->
  out !! k = Some cp -> tcp_index cp = Some (Z.of_nat k).
Proof.
  unfold ConnectionPointValidator.validateConnectionPoints.
  destruct (ConnectionPointValidator.filter_from _ _ _) as [kept|]; simpl; [|discriminate].
  intros [= <-] H. apply set_index_from_lookup in H. rewrite H. f_equal.
Qed.

(** C9 (the code departs from the claim): the only point that survives is
    the one at index 1 of the template, and it is returned with index 0. *)
Theorem validated_point_loses_index :
  ConnectionPointValidator.validateConnectionPoints twoEastDoors
    [[true; true]] [[true; true]] None
  = Ok [mkTemplateConnectionPoint East (mkPosition 1 0) (Some 0)]
  /\ tpl_connectionPoints twoEastDoors !! 1%nat
     = Some (mkTemplateConnectionPoint East (mkPosition 1 0) None).
Proof. split; reflexivity. Qed.

(** ** Keys of grid cells *)

Lemma digits_lack c s : is_digit c = false -> all_digits s = true -> lacks c s = true.
Proof.
  intros Hc. induction s as [|a s IH]; simpl; auto.
  intros [Ha Hs]%andb_prop. rewrite IH by auto.
  destruct (Ascii.eqb_spec a c); subst; simpl; congruence.
Qed.

Lemma numeral_lacks_comma s : numeral s -> lacks "," s = true.
Proof.
  intros (ds & D & _ & [-> | ->]); simpl; apply (digits_lack ","); auto.
Qed.

Lemma append_cons a (s t : string) : String a s +:+ t = String a (s +:+ t).
Proof. reflexivity. Qed.

Lemma append_nil_l (s : string) : "" +:+ s = s.
Proof. reflexivity. Qed.

Lemma append_nil_r (s : string) : s +:+ "" = s.
Proof. induction s; [reflexivity|]. rewrite append_cons. congruence. Qed.

Lemma append_String_assoc (cur : string) a s :
  (cur +:+ String a EmptyString) +:+ s = cur +:+ String a s.
Proof.
  induction cur; [reflexivity|]. rewrite !append_cons. congruence.
Qed.

Lemma split_acc_lacks c s : forall cur,
  lacks c s = true -> split_acc c cur s = [cur +:+ s].
Proof.
  induction s as [|a s IH]; simpl; intros cur.
  - intros _. now rewrite append_nil_r.
  - intros [Ha Hs]%andb_prop. apply negb_true_iff in Ha. rewrite Ha.
    rewrite IH by auto. now rewrite append_String_assoc.
Qed.

Lemma split_acc_sep c s1 s2 : forall cur,
  lacks c s1 = true ->
  split_acc c cur (s1 +:+ String c s2) = (cur +:+ s1) :: split_acc c EmptyString s2.
Proof.
  induction s1 as [|a s1 IH]; simpl; intros cur.
  - intros _. rewrite Ascii.eqb_refl. now rewrite append_nil_r.
  - intros [Ha Hs]%andb_prop. apply negb_true_iff in Ha. rewrite Ha.
    rewrite IH by auto. now rewrite append_String_assoc.
Qed.

Lemma positionOfKey_positionKey p :
  BlockExpansionEngine.positionOfKey (BlockExpansionEngine.positionKey p) = p.
Proof.
  unfold BlockExpansionEngine.positionOfKey, BlockExpansionEngine.positionKey, split.
  change ("," +:+ String_of_number (pos_y p)) with (String "," (String_of_number (pos_y p))).
  rewrite split_acc_sep by apply numeral_lacks_comma, String_of_number_numeral.
  rewrite split_acc_lacks by apply numeral_lacks_comma, String_of_number_numeral.
  rewrite !append_nil_l. simpl. rewrite !Number_of_String. now destruct p.
Qed.

Lemma positionKey_inj p q :
  BlockExpansionEngine.positionKey p = BlockExpansionEngine.positionKey q -> p = q.
Proof.
  intros H. rewrite <- (positionOfKey_positionKey p), <- (positionOfKey_positionKey q).
  now rewrite H.
Qed.

(** ** The block expansion loop *)

Section ExpansionFacts.

Import BlockExpansionEngine.

Lemma insert_by_length key p l : length (insert_by key p l) = S (length l).
Proof.
  induction l as [|q l IH]; simpl; [reflexivity|].
  destruct (key q <=? key p); simpl; congruence.
Qed.

Lemma sort_by_length key l : length (sort_by key l) = length l.
Proof.
  unfold sort_by.
  enough (forall acc, length (fold_left (fun acc p => insert_by key p acc) l acc)
                      = (length acc + length l)%nat) as H by (rewrite H; reflexivity).
  induction l as [|p l IH]; intros acc; simpl; [lia|].
  rewrite IH, insert_by_length. lia.
Qed.

Lemma insert_by_elem key p l q : q ∈ insert_by key p l <-> q = p \/ q ∈ l.
Proof.
  induction l as [|a l IH]; simpl.
  - rewrite list_elem_of_singleton. split; [auto|]. intros [?|?%elem_of_nil]; tauto.
  - destruct (key a <=? key p); rewrite !elem_of_cons; [rewrite IH|]; tauto.
Qed.

Lemma rectangle_cells_elem p w h q :
  q ∈ GridManager.rectangle_cells p w h <->
  (pos_x p <= pos_x q < pos_x p + w) /\ (pos_y p <= pos_y q < pos_y p + h).
Proof.
  unfold GridManager.rectangle_cells. rewrite list_elem_of_bind. split.
  - intros (wx & Hq & Hx). apply list_elem_of_bind in Hq as (wy & Hq & Hy).
    apply list_elem_of_singleton in Hq as ->. simpl.
    apply elem_of_seqZ in Hx, Hy. lia.
  - intros [Hx Hy]. exists (pos_x q). split; [|apply elem_of_seqZ; lia].
    apply list_elem_of_bind. exists (pos_y q). split; [|apply elem_of_seqZ; lia].
    destruct q. simpl. apply list_elem_of_singleton. reflexivity.
Qed.

Lemma bind_length_const {A B} (f : A -> list B) (k : nat) (l : list A) :
  (forall a, length (f a) = k) -> length (l ≫= f) = (length l * k)%nat.
Proof.
  intros Hf. induction l as [|a l IH]; [reflexivity|].
  rewrite bind_cons, length_app, IH, Hf. simpl. lia.
Qed.

Lemma rectangle_cells_length p w h :
  length (GridManager.rectangle_cells p w h) = (Z.to_nat w * Z.to_nat h)%nat.
Proof.
  unfold GridManager.rectangle_cells.
  rewrite (bind_length_const _ (Z.to_nat h)), length_seqZ; [reflexivity|].
  intros a. rewrite (bind_length_const _ 1%nat), length_seqZ; [lia|reflexivity].
Qed.

Lemma canExpandTo_true_inv p ctx :
  canExpandTo p ctx = Ok true ->
  p ∈ universe ctx
  /\ GridManager.isWithinBounds (gridManager ctx) p = true
  /\ GridManager.isPositionOccupied (gridManager ctx) p = false
  /\ exists row,
       array_get (tpl_gridPattern (geomorphBounds ctx))
         (pos_y p - pos_y (targetPosition ctx)) = Some row
       /\ array_get row (pos_x p - pos_x (targetPosition ctx)) = Some true.
Proof.
  unfold canExpandTo, universe. rewrite rectangle_cells_elem.
  destruct (_ || _) eqn:Hb; [discriminate|].
  apply orb_false_iff in Hb as [Hb H4]. apply orb_false_iff in Hb as [Hb H3].
  apply orb_false_iff in Hb as [H1 H2].
  destruct (array_get _ _) as [row|] eqn:Hrow; [|discriminate].
  destruct (array_get row _) as [[|]|] eqn:Hcell; simpl; try discriminate.
  destruct (GridManager.isWithinBounds _ _) eqn:Hin; simpl; [|discriminate].
  destruct (GridManager.isPositionOccupied _ _) eqn:Hocc; [discriminate|].
  intros _. repeat split; try lia; eauto.
Qed.

Lemma filter_length_lt {A} (P Q : A -> bool) (l : list A) x :
  x ∈ l -> P x = true -> Q x = false ->
  (forall y, Q y = true -> P y = true) ->
  (length (List.filter Q l) < length (List.filter P l))%nat.
Proof.
  intros Hx HP HQ Himp.
  assert (Hle : forall l', (length (List.filter Q l') <= length (List.filter P l'))%nat).
  { induction l' as [|a l' IH]; simpl; [lia|].
    destruct (Q a) eqn:Ha; [rewrite (Himp a Ha); simpl; lia|].
    destruct (P a); simpl; lia. }
  induction l as [|a l IH]; [by apply elem_of_nil in Hx|].
  apply elem_of_cons in Hx as [<- | Hx]; simpl.
  - rewrite HP, HQ. simpl. specialize (Hle l). lia.
  - specialize (IH Hx). destruct (Q a) eqn:Ha; [rewrite (Himp a Ha); simpl; lia|].
    destruct (P a); simpl; lia.
Qed.

(** What one visit does to the block keys and the frontier. *)
Lemma visit_inv ctx blocks frontier n st' :
  visit ctx (blocks, frontier) n = Ok st' ->
  st' = (blocks, frontier)
  \/ (canExpandTo n ctx = Ok true /\ (positionKey n ∉ blocks)
      /\ st' = (blocks ++ [positionKey n], frontier ++ [n])).
Proof.
  unfold visit. simpl.
  destruct (canExpandTo n ctx) as [[|]|] eqn:Hc; simpl; try discriminate.
  - case_bool_decide; intros [= <-]; auto.
  - intros [= <-]; auto.
Qed.

Lemma visit_measure ctx blocks frontier n blocks' frontier' :
  visit ctx (blocks, frontier) n = Ok (blocks', frontier') ->
  (length frontier' + length (pendingCells ctx blocks')
   <= length frontier + length (pendingCells ctx blocks))%nat.
Proof.
  intros H. apply visit_inv in H as [[= -> ->] | (Hc & Hn & [= -> ->])]; [lia|].
  apply canExpandTo_true_inv in Hc as (Hu & _).
  rewrite length_app. simpl.
  enough (length (pendingCells ctx (blocks ++ [positionKey n]))
          < length (pendingCells ctx blocks))%nat by lia.
  unfold pendingCells. apply (filter_length_lt _ _ _ n); auto.
  - apply negb_true_iff, bool_decide_eq_false. exact Hn.
  - apply negb_false_iff, bool_decide_eq_true, elem_of_app. right.
    now apply list_elem_of_singleton.
  - intros y Hy. apply negb_true_iff, bool_decide_eq_false in Hy.
    apply negb_true_iff, bool_decide_eq_false. intros Hin. apply Hy, elem_of_app. auto.
Qed.

Lemma foldM_visit_measure ctx ns : forall blocks frontier blocks' frontier',
  foldM (visit ctx) ns (blocks, frontier) = Ok (blocks', frontier') ->
  (length frontier' + length (pendingCells ctx blocks')
   <= length frontier + length (pendingCells ctx blocks))%nat.
Proof.
  induction ns as [|n ns IH]; simpl; intros blocks frontier blocks' frontier'.
  - intros [= -> ->]. lia.
  - destruct (visit ctx (blocks, frontier) n) as [[b1 f1]|] eqn:Hv; simpl; [|discriminate].
    intros H. apply IH in H. apply visit_measure in Hv. lia.
Qed.

Lemma array_get_Some {A} (a : list A) i :
  0 <= i < array_length a -> exists v, array_get a i = Some v.
Proof.
  unfold array_get, array_length. intros H.
  destruct (Z.ltb_spec i 0); [lia|].
  destruct (nth_error a (Z.to_nat i)) eqn:E; eauto.
  apply nth_error_None in E. lia.
Qed.

Lemma canExpandTo_total ctx p :
  rowsPresent (geomorphBounds ctx) -> exists b, canExpandTo p ctx = Ok b.
Proof.
  unfold rowsPresent, canExpandTo. intros Hrows.
  destruct (_ || _) eqn:Hb; [eauto|].
  apply orb_false_iff in Hb as [Hb H4]. apply orb_false_iff in Hb as [Hb H3].
  destruct (array_get_Some (tpl_gridPattern (geomorphBounds ctx))
              (pos_y p - pos_y (targetPosition ctx))) as [row ->]; [lia|].
  repeat (destruct (negb _) || destruct (GridManager.isPositionOccupied _ _)); eauto.
Qed.

Lemma visit_total ctx st n :
  rowsPresent (geomorphBounds ctx) -> exists st', visit ctx st n = Ok st'.
Proof.
  intros Hrows. unfold visit.
  destruct (canExpandTo_total ctx n Hrows) as [b ->]. simpl.
  destruct b; simpl; [case_bool_decide|]; eauto.
Qed.

Lemma foldM_visit_total ctx ns : forall st,
  rowsPresent (geomorphBounds ctx) -> exists st', foldM (visit ctx) ns st = Ok st'.
Proof.
  induction ns as [|n ns IH]; intros st Hrows; [simpl; eauto|].
  destruct (visit_total ctx st n Hrows) as [st1 H1].
  change (foldM (visit ctx) (n :: ns) st)
    with (rbind (visit ctx st n) (fun s' => foldM (visit ctx) ns s')).
  rewrite H1. simpl. apply IH; auto.
Qed.

Lemma expand_loop_nil fuel ctx blocks :
  expand_loop fuel ctx blocks [] = Some (Ok blocks).
Proof. now destruct fuel. Qed.

Lemma expand_loop_cons fuel ctx blocks f0 frontier :
  expand_loop (S fuel) ctx blocks (f0 :: frontier) =
  match sort_by (fun a => getDistanceFromEntry2 a (entryPoint ctx)
                            (getExpansionBias (entryDirection ctx)))
          (f0 :: frontier) with
  | [] => Some (Ok blocks)
  | currentPos :: frontier' =>
      match foldM (visit ctx) (getNeighbors currentPos) (blocks, frontier') with
      | Throw e => Some (Throw e)
      | Ok (blocks', frontier'') => expand_loop fuel ctx blocks' frontier''
      end
  end.
Proof. reflexivity. Qed.

(** The loop ends within [fuel] turns when [fuel] exceeds the frontier
    length plus the number of template cells not yet in the block set. *)
Lemma expand_loop_terminates ctx fuel : forall blocks frontier,
  (length frontier + length (pendingCells ctx blocks) < fuel)%nat ->
  exists r, expand_loop fuel ctx blocks frontier = Some r.
Proof.
  induction fuel as [|fuel IH]; intros blocks frontier Hlt; [lia|].
  destruct frontier as [|f0 frontier]; [rewrite expand_loop_nil; eauto|].
  rewrite expand_loop_cons.
  pose proof (sort_by_length
    (fun a => getDistanceFromEntry2 a (entryPoint ctx)
                (getExpansionBias (entryDirection ctx))) (f0 :: frontier)) as Hlen.
  destruct (sort_by _ _) as [|cur rest]; [eauto|].
  destruct (foldM (visit ctx) (getNeighbors cur) (blocks, rest))
    as [[b' f']|] eqn:Hf; [|eauto].
  apply foldM_visit_measure in Hf. apply IH. simpl in *. lia.
Qed.

Lemma expand_loop_mono ctx fuel : forall fuel' blocks frontier r,
  expand_loop fuel ctx blocks frontier = Some r -> (fuel <= fuel')%nat ->
  expand_loop fuel' ctx blocks frontier = Some r.
Proof.
  induction fuel as [|fuel IH]; intros fuel' blocks frontier r.
  - destruct frontier; [|discriminate]. rewrite !expand_loop_nil. auto.
  - destruct fuel' as [|fuel']; [lia|]. intros H Hle.
    destruct frontier as [|f0 frontier]; [exact H|].
    rewrite expand_loop_cons in *.
    destruct (sort_by _ _) as [|cur rest]; [exact H|].
    destruct (foldM (visit ctx) (getNeighbors cur) (blocks, rest))
      as [[b' f']|]; [|exact H].
    apply IH; [exact H|lia].
Qed.

Lemma expand_loop_total ctx fuel : forall blocks frontier,
  rowsPresent (geomorphBounds ctx) ->
  (length frontier + length (pendingCells ctx blocks) < fuel)%nat ->
  exists r, expand_loop fuel ctx blocks frontier = Some (Ok r).
Proof.
  induction fuel as [|fuel IH]; intros blocks frontier Hrows Hlt; [lia|].
  destruct frontier as [|f0 frontier]; [rewrite expand_loop_nil; eauto|].
  rewrite expand_loop_cons.
  pose proof (sort_by_length
    (fun a => getDistanceFromEntry2 a (entryPoint ctx)
                (getExpansionBias (entryDirection ctx))) (f0 :: frontier)) as Hlen.
  destruct (sort_by _ _) as [|cur rest]; [eauto|].
  destruct (foldM_visit_total ctx (getNeighbors cur) (blocks, rest) Hrows)
    as [[b' f'] Hf].
  rewrite Hf. apply foldM_visit_measure in Hf. apply IH; auto. simpl in *. lia.
Qed.

(** Invariants of the block set along the loop. *)
Lemma expand_loop_inv ctx (I : list string -> Prop) :
  (forall blocks n, I blocks -> canExpandTo n ctx = Ok true ->
                    positionKey n ∉ blocks -> I (blocks ++ [positionKey n])) ->
  forall fuel blocks frontier r,
    I blocks -> expand_loop fuel ctx blocks frontier = Some (Ok r) -> I r.
Proof.
  intros Hstep.
  assert (Hfold : forall ns blocks frontier b' f',
             I blocks -> foldM (visit ctx) ns (blocks, frontier) = Ok (b', f') -> I b').
  { induction ns as [|n ns IH]; simpl; intros blocks frontier b' f' HI.
    - now intros [= <- <-].
    - destruct (visit ctx (blocks, frontier) n) as [[b1 f1]|] eqn:Hv; simpl; [|discriminate].
      apply IH. apply visit_inv in Hv as [[= -> ->] | (Hc & Hn & [= -> ->])]; auto. }
  induction fuel as [|fuel IH]; intros blocks frontier r HI.
  - destruct frontier; [|discriminate]. rewrite expand_loop_nil. now intros [= <-].
  - destruct frontier as [|f0 frontier]; [rewrite expand_loop_nil; now intros [= <-]|].
    rewrite expand_loop_cons.
    destruct (sort_by _ _) as [|cur rest]; [now intros [= <-]|].
    destruct (foldM (visit ctx) (getNeighbors cur) (blocks, rest))
      as [[b' f']|] eqn:Hf; [|discriminate].
    apply IH. eapply Hfold; eauto.
Qed.

Lemma filter_length_le {A} (P : A -> bool) (l : list A) :
  (length (List.filter P l) <= length l)%nat.
Proof. induction l as [|a l IH]; simpl; [lia|]. destruct (P a); simpl; lia. Qed.

Lemma expansionFuel_enough ctx :
  (length [entryPoint ctx]
   + length (pendingCells ctx [positionKey (entryPoint ctx)]) < expansionFuel ctx)%nat.
Proof.
  unfold expansionFuel, pendingCells.
  pose proof (filter_length_le
    (fun p => negb (bool_decide (positionKey p ∈ [positionKey (entryPoint ctx)])))
    (universe ctx)) as H.
  unfold universe in *. rewrite rectangle_cells_length in H. simpl. lia.
Qed.

(** With enough fuel the result does not depend on the fuel. *)
Lemma expandRoom_fuel_enough ctx fuel :
  (expansionFuel ctx <= fuel)%nat ->
  expandRoom_fuel fuel ctx = Some (expandRoom ctx).
Proof.
  intros Hle. unfold expandRoom, expandRoom_fuel.
  destruct (expand_loop_terminates ctx (expansionFuel ctx)
              [positionKey (entryPoint ctx)] [entryPoint ctx]
              (expansionFuel_enough ctx)) as [r Hr].
  rewrite Hr, (expand_loop_mono _ _ _ _ _ _ Hr Hle). now destruct r.
Qed.

(** What [expandRoom] returns, in terms of the final block keys. *)
Lemma expandRoom_Ok_inv ctx res :
  expandRoom ctx = Ok res ->
  exists blocks,
    expand_loop (expansionFuel ctx) ctx [positionKey (entryPoint ctx)]
      [entryPoint ctx] = Some (Ok blocks)
    /\ expandedBlocks res = positionOfKey <$> blocks
    /\ finalConnectionPoints res =
       generateConnectionPoints (positionOfKey <$> blocks) ctx
         (mkPosition (Math_min (pos_x <$> (positionOfKey <$> blocks)))
            (Math_min (pos_y <$> (positionOfKey <$> blocks)))).
Proof.
  unfold expandRoom, expandRoom_fuel.
  destruct (expand_loop _ _ _ _) as [[blocks|e]|]; simpl; try discriminate.
  intros [= <-]. exists blocks. auto.
Qed.

Lemma expandRoom_returns ctx :
  rowsPresent (geomorphBounds ctx) -> exists res, expandRoom ctx = Ok res.
Proof.
  intros Hrows. unfold expandRoom, expandRoom_fuel.
  destruct (expand_loop_total ctx (expansionFuel ctx)
              [positionKey (entryPoint ctx)] [entryPoint ctx] Hrows
              (expansionFuel_enough ctx)) as [blocks ->].
  simpl. eauto.
Qed.

Lemma expandRoom_entry ctx res :
  expandRoom ctx = Ok res ->
  exists rest, expandedBlocks res = entryPoint ctx :: rest.
Proof.
  intros (blocks & Hloop & -> & _)%expandRoom_Ok_inv.
  apply (expand_loop_inv ctx
           (fun b => exists rest, b = positionKey (entryPoint ctx) :: rest)) in Hloop.
  - destruct Hloop as [rest ->]. rewrite fmap_cons, positionOfKey_positionKey. eauto.
  - intros b n [rest ->] _ _. eauto.
  - eauto.
Qed.

(** Every block other than the entry point passed [canExpandTo]. *)
Lemma expandRoom_blocks ctx res p :
  expandRoom ctx = Ok res -> p ∈ expandedBlocks res ->
  p = entryPoint ctx \/ canExpandTo p ctx = Ok true.
Proof.
  intros (blocks & Hloop & -> & _)%expandRoom_Ok_inv Hp.
  assert (HI : forall k, k ∈ blocks ->
              k = positionKey (entryPoint ctx)
              \/ exists q, k = positionKey q /\ canExpandTo q ctx = Ok true).
  { eapply (expand_loop_inv ctx
              (fun b => forall k, k ∈ b ->
                 k = positionKey (entryPoint ctx)
                 \/ exists q, k = positionKey q /\ canExpandTo q ctx = Ok true));
      [| |exact Hloop].
    - intros b n Hb Hn _ k [Hk | Hk%list_elem_of_singleton]%elem_of_app; [auto|].
      subst k. right. eauto.
    - intros k Hk%list_elem_of_singleton. auto. }
  apply list_elem_of_fmap_1 in Hp as (k & -> & Hk).
  destruct (HI k Hk) as [-> | (q & -> & Hq)];
    rewrite positionOfKey_positionKey; auto.
Qed.

(** *** Corridor paths *)

Lemma corridorWalk_later g mv n : forall cur p,
  p ∈ IncrementalDungeonGenerator.corridorWalk g mv n false cur ->
  GridManager.isWithinBounds g p = true
  /\ GridManager.isPositionOccupied g p = false.
Proof.
  induction n as [|n IH]; simpl; intros cur p; [by intros ?%elem_of_nil|].
  destruct (GridManager.isWithinBounds g _) eqn:Hin; simpl; [|by intros ?%elem_of_nil].
  destruct (GridManager.isPositionOccupied g _) eqn:Hocc; [by intros ?%elem_of_nil|].
  intros [-> | Hp]%elem_of_cons; [auto|]. eapply IH; eauto.
Qed.

(** The first cell of a corridor path is in the grid (its occupancy is not
    looked at); every later cell is in the grid and not occupied. *)
Lemma generateCorridorPath_cells g cp maxLength :
  IncrementalDungeonGenerator.generateCorridorPath g cp maxLength = []
  \/ exists first rest,
       IncrementalDungeonGenerator.generateCorridorPath g cp maxLength = first :: rest
       /\ GridManager.isWithinBounds g first = true
       /\ forall p, p ∈ rest ->
            GridManager.isWithinBounds g p = true
            /\ GridManager.isPositionOccupied g p = false.
Proof.
  unfold IncrementalDungeonGenerator.generateCorridorPath.
  destruct (Z.to_nat maxLength) as [|n]; simpl; [auto|].
  destruct (GridManager.isWithinBounds g _) eqn:Hin; simpl; [|auto].
  right. eexists _, _. split; [reflexivity|]. split; [exact Hin|].
  intros p Hp. eapply corridorWalk_later; eauto.
Qed.

(** *** Validated connection points *)

Lemma cell_absent_true pattern ry rx :
  ConnectionPointValidator.cell_absent pattern ry rx = Ok true ->
  patternCell pattern ry rx <> Some true.
Proof.
  unfold ConnectionPointValidator.cell_absent, patternCell.
  destruct (array_get pattern ry) as [row|]; simpl; [|discriminate].
  destruct (array_get row rx) as [[|]|]; simpl; congruence.
Qed.

Lemma isOnPerimeter_true cp trimmedPattern template :
  ConnectionPointValidator.isOnPerimeter cp trimmedPattern template = Ok true ->
  facesOutside trimmedPattern (tpl_width template) (tpl_height template)
    (tcp_direction cp) (tcp_position cp).
Proof.
  unfold ConnectionPointValidator.isOnPerimeter, facesOutside.
  destruct (tcp_direction cp); auto;
    match goal with |- context [if ?a =? ?b then _ else _] =>
      destruct (Z.eqb_spec a b); [auto|] end;
    intros H%cell_absent_true; auto.
Qed.

Lemma isOnAvailableSquare_true cp availableGrid trimmedPattern :
  ConnectionPointValidator.isOnAvailableSquare cp availableGrid trimmedPattern = Ok true ->
  patternCell availableGrid (pos_y (tcp_position cp)) (pos_x (tcp_position cp)) = Some true
  /\ patternCell trimmedPattern (pos_y (tcp_position cp)) (pos_x (tcp_position cp)) = Some true.
Proof.
  unfold ConnectionPointValidator.isOnAvailableSquare, patternCell.
  destruct (array_get availableGrid _) as [arow|]; simpl; [|discriminate].
  destruct (array_get arow _) as [[|]|]; simpl; try discriminate.
  destruct (array_get trimmedPattern _) as [trow|]; simpl; [|discriminate].
  destruct (array_get trow _) as [[|]|]; simpl; try discriminate. auto.
Qed.

(** What the filter callback has checked for a point it keeps. *)
Lemma keeps_true template availableGrid trimmedPattern keep cp index :
  ConnectionPointValidator.keeps template availableGrid trimmedPattern keep cp index
  = Ok true ->
  ConnectionPointValidator.isWithinTemplateBounds cp template = true
  /\ patternCell availableGrid (pos_y (tcp_position cp)) (pos_x (tcp_position cp)) = Some true
  /\ patternCell trimmedPattern (pos_y (tcp_position cp)) (pos_x (tcp_position cp)) = Some true
  /\ (keep = Some index
      \/ facesOutside trimmedPattern (tpl_width template) (tpl_height template)
           (tcp_direction cp) (tcp_position cp)).
Proof.
  unfold ConnectionPointValidator.keeps, ConnectionPointValidator.isConnectionPointAvailable.
  case_bool_decide as Hk.
  - destruct (ConnectionPointValidator.isWithinTemplateBounds cp template); [|discriminate].
    intros [? ?]%isOnAvailableSquare_true. auto.
  - destruct (ConnectionPointValidator.isWithinTemplateBounds cp template); simpl; [|discriminate].
    destruct (ConnectionPointValidator.isOnAvailableSquare cp _ _) as [[|]|] eqn:Ha;
      simpl; try discriminate.
    apply isOnAvailableSquare_true in Ha as [? ?].
    intros ?%isOnPerimeter_true. auto.
Qed.

Lemma filter_from_elem {A} (f : A -> Z -> Result bool) l : forall index kept a,
  ConnectionPointValidator.filter_from f index l = Ok kept -> a ∈ kept ->
  exists k, l !! k = Some a /\ f a (index + Z.of_nat k) = Ok true.
Proof.
  induction l as [|b l IH]; simpl; intros index kept a.
  - intros [= <-] ?%elem_of_nil. tauto.
  - destruct (f b index) as [keep|] eqn:Hb; simpl; [|discriminate].
    destruct (ConnectionPointValidator.filter_from f (index + 1) l) as [kept'|] eqn:Hl;
      simpl; [|discriminate].
    intros [= <-] Ha.
    assert (a ∈ kept' -> exists k, (b :: l) !! k = Some a
                                   /\ f a (index + Z.of_nat k) = Ok true) as Hrest.
    { intros Hin. destruct (IH _ _ _ Hl Hin) as (k & Hk & Hf).
      exists (S k). split; [exact Hk|]. rewrite <- Hf. f_equal. lia. }
    destruct keep; [|auto].
    apply elem_of_cons in Ha as [-> | Ha]; [|auto].
    exists 0%nat. split; [reflexivity|]. rewrite <- Hb. f_equal. lia.
Qed.

Lemma set_index_from_elem l : forall i cp,
  cp ∈ ConnectionPointValidator.set_index_from i l ->
  exists orig, orig ∈ l /\ tcp_direction cp = tcp_direction orig
               /\ tcp_position cp = tcp_position orig.
Proof.
  induction l as [|a l IH]; simpl; intros i cp; [by intros ?%elem_of_nil|].
  intros [-> | H]%elem_of_cons.
  - exists a. split; [apply elem_of_cons; auto|auto].
  - destruct (IH _ _ H) as (orig & Ho & ?). exists orig. split; [apply elem_of_cons|]; auto.
Qed.

(** *** Connection points of an expanded room *)

Lemma atPosition_true p q : atPosition p q = true <-> p = q.
Proof.
  unfold atPosition. rewrite andb_true_iff, !Z.eqb_eq.
  destruct p, q; simpl. split; [intros [-> ->]; auto|intros [= -> ->]; auto].
Qed.

Lemma findPerimeterPositions_elem blocks p :
  p ∈ findPerimeterPositions blocks ->
  p ∈ blocks /\ exists n, n ∈ getNeighbors p /\ n ∉ blocks.
Proof.
  unfold findPerimeterPositions. rewrite list_elem_of_In, filter_In, <- list_elem_of_In.
  intros [Hp Hex]. split; [exact Hp|].
  apply existsb_exists in Hex as (n & Hn & Hout).
  exists n. split; [now apply list_elem_of_In|].
  apply negb_true_iff, bool_decide_eq_false in Hout.
  intros Hin. apply Hout, elem_of_list_to_set, list_elem_of_fmap_2, Hin.
Qed.

(** Every point of an expanded room is the entry point, or a door the
    engine placed on a block that has a neighbour outside the room. *)
Lemma generateConnectionPoints_elem blocks ctx origin cp :
  cp ∈ generateConnectionPoints blocks ctx origin ->
  (cp_position cp = entryPoint ctx
   /\ cp_direction cp = getOppositeDirection (cp_direction (sourceConnectionPoint ctx)))
  \/ (cp_position cp ∈ blocks
      /\ cp_position cp <> entryPoint ctx
      /\ (exists n, n ∈ getNeighbors (cp_position cp) /\ n ∉ blocks)
      /\ cp_direction cp ∈ cardinalDirections
      /\ shouldPlaceDoor (cp_position cp) (cp_direction cp)
           (getAdjacentPosition (cp_position cp) (cp_direction cp)) ctx = true).
Proof.
  unfold generateConnectionPoints.
  intros [-> | Hcp]%elem_of_cons; [left; auto|right].
  apply list_elem_of_bind in Hcp as (p & Hcp & Hp).
  destruct (atPosition p (entryPoint ctx)) eqn:Hentry; [by apply elem_of_nil in Hcp|].
  apply list_elem_of_bind in Hcp as (d & Hcp & Hd).
  destruct (shouldPlaceDoor p d _ ctx) eqn:Hdoor; [|by apply elem_of_nil in Hcp].
  apply list_elem_of_singleton in Hcp as ->. simpl.
  apply findPerimeterPositions_elem in Hp as [Hp Hn].
  repeat split; auto.
  intros ->. rewrite (proj2 (atPosition_true _ _) eq_refl) in Hentry. discriminate.
Qed.

End ExpansionFacts.

(** ** C3: overlap of placed elements *)

(** C3, as stated, fails: after the two calls of the example run the
    corridor and the room, both in the generator's lists, both occupy the
    cell (12, 5). *)
Lemma placed_elements_overlap :
  IncrementalDungeonGenerator.corridors afterRoom = [0%nat]
  /\ IncrementalDungeonGenerator.rooms afterRoom = [1%nat]
  /\ occupiedCells exampleTemplateById
       <$> IncrementalDungeonGenerator.heap afterRoom !! 0%nat
     = Some [mkPosition 6 5; mkPosition 7 5; mkPosition 8 5; mkPosition 9 5;
             mkPosition 10 5; mkPosition 11 5; mkPosition 12 5]
  /\ occupiedCells exampleTemplateById
       <$> IncrementalDungeonGenerator.heap afterRoom !! 1%nat
     = Some [mkPosition 12 5; mkPosition 13 5].
Proof. repeat split; vm_compute; reflexivity. Qed.

(** ** C10: the entry point is always part of the expansion *)

(** C10: for every expansion context whose template has a pattern row for
    each of its rows, [expandRoom] returns, its block list contains the entry
    point whatever the grid, the mask and the occupancy say about that cell,
    and the test [expandedBlocks.length === 0] of the caller's fallback
    branch is false. *)
Theorem expandRoom_keeps_entry ctx :
  rowsPresent (BlockExpansionEngine.geomorphBounds ctx) ->
  exists res,
    BlockExpansionEngine.expandRoom ctx = Ok res
    /\ BlockExpansionEngine.entryPoint ctx ∈ BlockExpansionEngine.expandedBlocks res
    /\ (array_length (BlockExpansionEngine.expandedBlocks res) =? 0) = false.
Proof.
  intros Hrows. destruct (expandRoom_returns ctx Hrows) as [res Hres].
  exists res. split; [exact Hres|].
  destruct (expandRoom_entry ctx res Hres) as [rest ->].
  split; [apply elem_of_cons; auto|].
  unfold array_length. simpl length. apply Z.eqb_neq. lia.
Qed.

Lemma expandRoom_keeps_entry_witness :
  rowsPresent (BlockExpansionEngine.geomorphBounds boxedContext)
  /\ exists res,
       BlockExpansionEngine.expandRoom boxedContext = Ok res
       /\ BlockExpansionEngine.entryPoint boxedContext
            ∈ BlockExpansionEngine.expandedBlocks res
       /\ (array_length (BlockExpansionEngine.expandedBlocks res) =? 0) = false.
Proof.
  assert (H : rowsPresent (BlockExpansionEngine.geomorphBounds boxedContext))
    by (vm_compute; discriminate).
  split; [exact H|]. exact (expandRoom_keeps_entry boxedContext H).
Defined.

(** The boxed-in expansion yields the entry point alone. *)
Lemma boxedContext_expansion :
  BlockExpansionEngine.expandedBlocks
    <$> (match BlockExpansionEngine.expandRoom boxedContext with
         | Ok res => Some res | Throw _ => None end)
  = Some [mkPosition 6 5].
Proof. vm_compute. reflexivity. Qed.

(** ** C6: doors and the perimeter *)

(** C6 (the code departs from the claim): the room placed by the example
    run covers the cells (12, 5) and (13, 5) and gets a west door at (13, 5);
    the cell next to that door in its direction, (12, 5), is a cell of the
    same room.  [shouldPlaceDoor] accepts the door because the corridor
    placed before has an east door at (12, 5), and nothing tests that the
    cell a door faces lies outside the room's own blocks. *)
Lemma door_faces_own_cell :
  IncrementalDungeonGenerator.rooms afterRoom = [1%nat]
  /\ (fun e => (cp_direction <$> elem_connectionPoints e,
                cp_position <$> elem_connectionPoints e,
                occupiedCells exampleTemplateById e))
       <$> IncrementalDungeonGenerator.heap afterRoom !! 1%nat
     = Some ([North; East; West],
             [mkPosition 12 5; mkPosition 13 5; mkPosition 13 5],
             [mkPosition 12 5; mkPosition 13 5])
  /\ BlockExpansionEngine.getAdjacentPosition (mkPosition 13 5) West = mkPosition 12 5
  /\ IncrementalDungeonGenerator.corridors afterRoom = [0%nat]
  /\ (fun e => (cp_direction <$> elem_connectionPoints e,
                cp_position <$> elem_connectionPoints e))
       <$> IncrementalDungeonGenerator.heap afterRoom !! 0%nat
     = Some ([West; East], [mkPosition 6 5; mkPosition 12 5]).
Proof. repeat split; vm_compute; reflexivity. Qed.

(** ** The store under the shared wall manager *)

Lemma elem_set_connectionPoints_same e :
  elem_set_connectionPoints e (elem_connectionPoints e) = e.
Proof. destruct e as [[]|[]]; reflexivity. Qed.

Lemma elem_set_connectionPoints_twice e cps cps' :
  elem_set_connectionPoints (elem_set_connectionPoints e cps) cps'
  = elem_set_connectionPoints e cps'.
Proof. destruct e; reflexivity. Qed.

Lemma elem_id_set e cps : elem_id (elem_set_connectionPoints e cps) = elem_id e.
Proof. destruct e; reflexivity. Qed.

Lemma elem_connectionPoints_set e cps :
  elem_connectionPoints (elem_set_connectionPoints e cps) = cps.
Proof. destruct e; reflexivity. Qed.

Lemma pointsOnly_refl h : pointsOnly h h.
Proof.
  intros l. destruct (h !! l) as [e|]; [|exact I].
  exists (elem_connectionPoints e). now rewrite elem_set_connectionPoints_same.
Qed.

Lemma pointsOnly_trans h1 h2 h3 :
  pointsOnly h1 h2 -> pointsOnly h2 h3 -> pointsOnly h1 h3.
Proof.
  intros H12 H23 l. specialize (H12 l). specialize (H23 l).
  destruct (h1 !! l) as [e1|], (h2 !! l) as [e2|], (h3 !! l) as [e3|]; try tauto.
  destruct H12 as [c1 ->], H23 as [c2 ->]. exists c2.
  apply elem_set_connectionPoints_twice.
Qed.

Lemma pointsOnly_insert h l e cps :
  h !! l = Some e -> pointsOnly h (<[ l := elem_set_connectionPoints e cps ]> h).
Proof.
  intros Hl l'. destruct (decide (l = l')) as [<- | Hne].
  - rewrite Hl, list_lookup_insert_eq by (eapply lookup_lt_Some; eauto). eauto.
  - rewrite list_lookup_insert_ne by auto. apply pointsOnly_refl.
Qed.

Lemma pointsOnly_id h h' l e :
  pointsOnly h h' -> h !! l = Some e ->
  exists e', h' !! l = Some e' /\ elem_id e' = elem_id e.
Proof.
  intros H Hl. specialize (H l). rewrite Hl in H.
  destruct (h' !! l) as [e'|]; [|tauto]. destruct H as [cps ->].
  eexists. split; [reflexivity|apply elem_id_set].
Qed.

Lemma pointsOnly_hasId h h' elementId l :
  pointsOnly h h' ->
  SharedWallManager.hasId h' elementId l = SharedWallManager.hasId h elementId l.
Proof.
  intros H. specialize (H l). unfold SharedWallManager.hasId.
  destruct (h !! l) as [e|], (h' !! l) as [e'|]; try tauto.
  destruct H as [cps ->]. now rewrite elem_id_set.
Qed.

Lemma updateConnectionPoints_pointsOnly els door h :
  pointsOnly h (SharedWallManager.updateConnectionPointsForAutoOpenedDoor els door h).
Proof.
  unfold SharedWallManager.updateConnectionPointsForAutoOpenedDoor.
  generalize (door_connectedElements door) as ids. intros ids.
  assert (H : forall h0, pointsOnly h h0 ->
    pointsOnly h (fold_left (fun h1 elementId =>
        match SharedWallManager.findElement h1 els elementId with
        | Some l =>
            match h1 !! l with
            | Some element =>
                <[ l := elem_set_connectionPoints element
                          (SharedWallManager.openPoint door <$> elem_connectionPoints element) ]> h1
            | None => h1
            end
        | None => h1
        end) ids h0)).
  { induction ids as [|i ids IH]; simpl; intros h0 H0; [exact H0|].
    apply IH. destruct (SharedWallManager.findElement h0 els i) as [l|]; [|exact H0].
    destruct (h0 !! l) as [e|] eqn:Hl; [|exact H0].
    eapply pointsOnly_trans; [exact H0|]. now apply pointsOnly_insert. }
  apply H, pointsOnly_refl.
Qed.

Lemma autoOpenStep_pointsOnly els h doors k :
  pointsOnly h (fst (SharedWallManager.autoOpenStep els (h, doors) k)).
Proof.
  unfold SharedWallManager.autoOpenStep.
  destruct (DoorRegistry.get k doors) as [door|]; simpl; [|apply pointsOnly_refl].
  destruct (_ || _); simpl; [apply pointsOnly_refl|].
  destruct (forallb _ _); simpl; [|apply pointsOnly_refl].
  apply updateConnectionPoints_pointsOnly.
Qed.

Lemma autoOpenRevealedDoors_pointsOnly els h doors :
  pointsOnly h (fst (SharedWallManager.autoOpenRevealedDoors els h doors)).
Proof.
  unfold SharedWallManager.autoOpenRevealedDoors.
  generalize (fst <$> doors) as keys. intros keys.
  assert (H : forall acc, pointsOnly h (fst acc) ->
            pointsOnly h (fst (fold_left (SharedWallManager.autoOpenStep els) keys acc))).
  { induction keys as [|k keys IH]; simpl; intros acc Hacc; [exact Hacc|].
    apply IH. destruct acc as [h0 d0]. eapply pointsOnly_trans; [exact Hacc|].
    apply autoOpenStep_pointsOnly. }
  apply H, pointsOnly_refl.
Qed.

Lemma addElement_pointsOnly now l h m :
  pointsOnly h (fst (fst (SharedWallManager.addElement now l h m))).
Proof.
  unfold SharedWallManager.addElement.
  destruct (h !! l) as [e|] eqn:Hl; simpl; [|apply pointsOnly_refl].
  destruct (DoorRegistry.connectElementToExistingDoors _ _ _) as [doors1 updated].
  match goal with |- context [SharedWallManager.autoOpenRevealedDoors ?els ?h1 ?d] =>
    pose proof (autoOpenRevealedDoors_pointsOnly els h1 d) as Hauto;
    destruct (SharedWallManager.autoOpenRevealedDoors els h1 d) as [h2 doors3] end.
  simpl in *. eapply pointsOnly_trans; [|exact Hauto]. now apply pointsOnly_insert.
Qed.

(** ** Rollback *)

Lemma add_cells_elem cells : forall occ k,
  k ∈ GridManager.add_cells cells occ <->
  k ∈ occ \/ exists c, c ∈ cells /\ k = GridManager.cellKey (pos_x c) (pos_y c).
Proof.
  unfold GridManager.add_cells.
  induction cells as [|c cells IH]; simpl; intros occ k.
  - split; [auto|]. intros [H | (c & Hc%elem_of_nil & _)]; tauto.
  - rewrite IH, elem_of_union, elem_of_singleton. split.
    + intros [[-> | H] | (c' & Hc' & ->)]; [right|left|right]; auto.
      * exists c. split; [apply elem_of_cons; auto|reflexivity].
      * exists c'. split; [apply elem_of_cons; auto|reflexivity].
    + intros [H | (c' & [-> | Hc']%elem_of_cons & ->)]; eauto.
Qed.

Lemma occupiedCells_set cat e cps :
  occupiedCells cat (elem_set_connectionPoints e cps) = occupiedCells cat e.
Proof. destruct e; reflexivity. Qed.

Lemma pointsOnly_cells cat h h' l :
  pointsOnly h h' -> occupiedCells cat <$> h' !! l = occupiedCells cat <$> h !! l.
Proof.
  intros H. specialize (H l).
  destruct (h !! l) as [e|], (h' !! l) as [e'|]; try tauto.
  destruct H as [cps ->]. simpl. now rewrite occupiedCells_set.
Qed.

Section Rollback.

Variable getRoomTemplateById : string -> option RoomTemplate.
Variable now : Z.

Lemma reRegister_eq h g m l :
  IncrementalDungeonGenerator.reRegister getRoomTemplateById now (h, g, m) l
  = (fst (fst (SharedWallManager.addElement now l h m)),
     match h !! l with
     | Some (ERoom room) => GridManager.markRoomAsOccupied getRoomTemplateById room g
     | Some (ECorridor corridor) => GridManager.markCorridorAsOccupied corridor g
     | None => g
     end,
     snd (fst (SharedWallManager.addElement now l h m))).
Proof.
  unfold IncrementalDungeonGenerator.reRegister.
  now destruct (SharedWallManager.addElement now l h m) as [[h1 m1] cps1].
Qed.

Lemma reRegister_fold ls : forall h g m h' g' m',
  fold_left (IncrementalDungeonGenerator.reRegister getRoomTemplateById now) ls
    (h, g, m) = (h', g', m') ->
  pointsOnly h h'
  /\ GridManager.gridSize g' = GridManager.gridSize g
  /\ forall k, k ∈ GridManager.occupiedPositions g' <->
               k ∈ GridManager.occupiedPositions g \/ keysOf getRoomTemplateById h ls k.
Proof.
  induction ls as [|l ls IH]; intros h g m h' g' m'.
  - intros [= <- <- <-]. split; [apply pointsOnly_refl|]. split; [reflexivity|].
    intros k. split; [auto|]. intros [H | (l & e & c & Hl%elem_of_nil & _)]; tauto.
  - change (fold_left ?f (l :: ls) ?acc) with (fold_left f ls (f acc l)).
    rewrite reRegister_eq.
    pose proof (addElement_pointsOnly now l h m) as Hadd.
    destruct (SharedWallManager.addElement now l h m) as [[h1 m1] cps1].
    simpl in Hadd. simpl fst. simpl snd. intros Hfold. apply IH in Hfold as (Hpo & Hsize & Hkeys).
    split; [eapply pointsOnly_trans; eauto|].
    split.
    { rewrite Hsize. destruct (h !! l) as [[room|corridor]|]; reflexivity. }
    intros k. rewrite Hkeys. clear Hkeys.
    assert (Hmark : forall k0,
      k0 ∈ GridManager.occupiedPositions
             (match h !! l with
              | Some (ERoom room) =>
                  GridManager.markRoomAsOccupied getRoomTemplateById room g
              | Some (ECorridor corridor) =>
                  GridManager.markCorridorAsOccupied corridor g
              | None => g
              end)
      <-> k0 ∈ GridManager.occupiedPositions g \/ keysOf getRoomTemplateById h [l] k0).
    { intros k0. unfold keysOf.
      destruct (h !! l) as [e|] eqn:Hl.
      - assert (k0 ∈ GridManager.add_cells (occupiedCells getRoomTemplateById e)
                       (GridManager.occupiedPositions g)
                <-> k0 ∈ GridManager.occupiedPositions g
                    \/ exists l0 e0 c, l0 ∈ [l] /\ h !! l0 = Some e0
                         /\ c ∈ occupiedCells getRoomTemplateById e0
                         /\ k0 = GridManager.cellKey (pos_x c) (pos_y c)) as Hx.
        { rewrite add_cells_elem. split.
          - intros [H | (c & Hc & ->)]; [auto|right].
            exists l, e, c. split; [apply list_elem_of_singleton; auto|auto].
          - intros [H | (l0 & e0 & c & ->%list_elem_of_singleton & He & Hc & ->)]; [auto|].
            right. exists c. rewrite Hl in He. injection He as <-. auto. }
        destruct e as [room|corridor]; exact Hx.
      - split; [auto|].
        intros [H | (l0 & e0 & c & ->%list_elem_of_singleton & He & _)]; [auto|].
        congruence. }
    rewrite Hmark. unfold keysOf. split.
    + intros [[H | (l0 & e0 & c & Hl0 & He & Hc & ->)]
             | (l0 & e0 & c & Hl0 & He & Hc & ->)]; [auto|right|right].
      * apply list_elem_of_singleton in Hl0 as ->.
        exists l, e0, c. split; [apply elem_of_cons; auto|auto].
      * pose proof (pointsOnly_cells getRoomTemplateById h h1 l0 Hadd) as Hc1.
        rewrite He in Hc1. destruct (h !! l0) as [e|] eqn:Hl; [|discriminate].
        simpl in Hc1. injection Hc1 as Hc1.
        exists l0, e, c. split; [apply elem_of_cons; auto|]. rewrite <- Hc1. auto.
    + intros [H | (l0 & e0 & c & [-> | Hl0]%elem_of_cons & He & Hc & ->)]; [auto| |].
      * left. right. exists l, e0, c. split; [apply list_elem_of_singleton; auto|auto].
      * right. pose proof (pointsOnly_cells getRoomTemplateById h h1 l0 Hadd) as Hc1.
        rewrite He in Hc1. destruct (h1 !! l0) as [e1|] eqn:Hl; [|discriminate].
        simpl in Hc1. injection Hc1 as Hc1.
        exists l0, e1, c. split; [auto|]. rewrite Hc1. auto.
Qed.

End Rollback.


Lemma keysOf_pointsOnly cat h h' ls k :
  pointsOnly h h' -> keysOf cat h' ls k <-> keysOf cat h ls k.
Proof.
  intros Hpo. unfold keysOf. split.
  - intros (l & e' & c & Hl & He & Hc & ->).
    pose proof (pointsOnly_cells cat h h' l Hpo) as Hx. rewrite He in Hx.
    destruct (h !! l) as [e|] eqn:Hhl; [|discriminate]. injection Hx as Hx.
    exists l, e, c. rewrite <- Hx. repeat split; auto.
  - intros (l & e & c & Hl & He & Hc & ->).
    pose proof (pointsOnly_cells cat h h' l Hpo) as Hx. rewrite He in Hx.
    destruct (h' !! l) as [e'|] eqn:Hhl; [|discriminate]. injection Hx as Hx.
    exists l, e', c. rewrite Hx. repeat split; auto.
Qed.



(** ** C5: exceptions stay inside the generator *)

(** When the generation raises, the call ends in the state the rollback
    builds from the state before the call. *)
Lemma generateFromConnectionPoint_raise cat1 cat2 now rnd request st e :
  IncrementalDungeonGenerator.generateConnectedContent cat1 now rnd st
    (IncrementalDungeonGenerator.req_connectionPoint request)
    (IncrementalDungeonGenerator.seedOf now
       (IncrementalDungeonGenerator.req_connectionPoint request))
    (IncrementalDungeonGenerator.req_sourceElementId request) = Throw e ->
  IncrementalDungeonGenerator.generateFromConnectionPoint cat1 cat2 now rnd request st
  = (let st' :=
       IncrementalDungeonGenerator.rollbackToSnapshot cat2 now
         (IncrementalDungeonGenerator.createStateSnapshot st) st in
     (st', Ok (IncrementalDungeonGenerator.createDungeonMap now st'))).
Proof.
  intros H. unfold IncrementalDungeonGenerator.generateFromConnectionPoint.
  rewrite H. reflexivity.
Qed.




(** ** The door registry as a map *)

Lemma get_set_eq k d doors : DoorRegistry.get k (DoorRegistry.set k d doors) = Some d.
Proof.
  induction doors as [|[k' d'] doors IH]; simpl.
  - now rewrite bool_decide_eq_true_2.
  - case_bool_decide; simpl; [now rewrite bool_decide_eq_true_2|].
    now rewrite bool_decide_eq_false_2.
Qed.

Lemma get_set_ne k k' d doors :
  k <> k' -> DoorRegistry.get k' (DoorRegistry.set k d doors) = DoorRegistry.get k' doors.
Proof.
  intros Hne. induction doors as [|[k0 d0] doors IH]; simpl.
  - now rewrite bool_decide_eq_false_2.
  - case_bool_decide as H0; simpl.
    + subst k0. now rewrite !bool_decide_eq_false_2.
    + case_bool_decide; auto.
Qed.

Lemma get_Some_key k d doors :
  DoorRegistry.get k doors = Some d -> k ∈ fst <$> doors.
Proof.
  induction doors as [|[k0 d0] doors IH]; simpl; [discriminate|].
  case_bool_decide as H0.
  - intros _. subst. apply elem_of_cons. auto.
  - intros H. apply elem_of_cons. auto.
Qed.

(** ** Connection points that only ever gain their flags *)

Lemma pointUp_refl cp : pointUp cp cp.
Proof. unfold pointUp. auto. Qed.

Lemma pointUp_trans a b c : pointUp a b -> pointUp b c -> pointUp a c.
Proof. unfold pointUp. intros (-> & -> & ?) (-> & -> & ?). auto. Qed.

Lemma Forall2_pointUp_refl cps : Forall2 pointUp cps cps.
Proof. induction cps; constructor; auto using pointUp_refl. Qed.

Lemma Forall2_pointUp_trans a : forall b c,
  Forall2 pointUp a b -> Forall2 pointUp b c -> Forall2 pointUp a c.
Proof.
  induction a as [|x a IH]; intros b c Hab Hbc; inversion Hab; subst;
    inversion Hbc; subst; constructor; eauto using pointUp_trans.
Qed.

Lemma heapUp_refl h : heapUp h h.
Proof.
  intros l. destruct (h !! l); auto using Forall2_pointUp_refl.
Qed.

Lemma heapUp_trans h1 h2 h3 : heapUp h1 h2 -> heapUp h2 h3 -> heapUp h1 h3.
Proof.
  intros H12 H23 l. specialize (H12 l). specialize (H23 l).
  destruct (h1 !! l), (h2 !! l), (h3 !! l); try tauto.
  destruct H12 as [E12 ?], H23 as [E23 ?].
  split; [congruence|eauto using Forall2_pointUp_trans].
Qed.

Lemma heapUp_insert h l e cps :
  h !! l = Some e -> Forall2 pointUp (elem_connectionPoints e) cps ->
  heapUp h (<[ l := elem_set_connectionPoints e cps ]> h).
Proof.
  intros Hl Hcps l'. destruct (decide (l = l')) as [<- | Hne].
  - rewrite Hl, list_lookup_insert_eq by (eapply lookup_lt_Some; eauto).
    now rewrite elem_id_set, elem_connectionPoints_set.
  - rewrite list_lookup_insert_ne by auto. apply heapUp_refl.
Qed.

Lemma heapUp_hasId h h' elementId l :
  heapUp h h' ->
  SharedWallManager.hasId h' elementId l = SharedWallManager.hasId h elementId l.
Proof.
  intros H. specialize (H l). unfold SharedWallManager.hasId.
  destruct (h !! l), (h' !! l); try tauto. destruct H as [E _]. now rewrite E.
Qed.

Lemma heapUp_findElement h h' els elementId :
  heapUp h h' ->
  SharedWallManager.findElement h' els elementId
  = SharedWallManager.findElement h els elementId.
Proof.
  intros H. unfold SharedWallManager.findElement.
  induction els as [|l els IH]; simpl; [reflexivity|].
  now rewrite (heapUp_hasId _ _ _ _ H), IH.
Qed.

Lemma heapUp_elementExists h h' els elementId :
  heapUp h h' ->
  SharedWallManager.elementExists h' els elementId
  = SharedWallManager.elementExists h els elementId.
Proof.
  intros H. unfold SharedWallManager.elementExists.
  induction els as [|l els IH]; simpl; [reflexivity|].
  now rewrite (heapUp_hasId _ _ _ _ H), IH.
Qed.

Lemma atDoor_pointUp door cp cp' :
  pointUp cp cp' -> SharedWallManager.atDoor door cp' = SharedWallManager.atDoor door cp.
Proof. unfold SharedWallManager.atDoor. now intros (-> & -> & _). Qed.

Lemma heapUp_doorPointsSet h h' l door :
  heapUp h h' -> doorPointsSet h l door -> doorPointsSet h' l door.
Proof.
  intros Hup Hset e' cp' He' Hcp' Hat. specialize (Hup l). rewrite He' in Hup.
  destruct (h !! l) as [e|] eqn:He; [|tauto]. destruct Hup as [_ Hall].
  apply list_elem_of_lookup in Hcp' as [i Hi].
  destruct (Forall2_lookup_r _ _ _ _ _ Hall Hi) as (cp & Hcp & Hup).
  rewrite (atDoor_pointUp _ _ _ Hup) in Hat.
  destruct Hup as (_ & _ & Hflags). apply Hflags.
  eapply Hset; eauto. eapply list_elem_of_lookup_2; eauto.
Qed.

Lemma pointUp_openPoint door cp : pointUp cp (SharedWallManager.openPoint door cp).
Proof.
  unfold SharedWallManager.openPoint.
  destruct (SharedWallManager.atDoor door cp); [|apply pointUp_refl].
  repeat split; reflexivity.
Qed.

Lemma Forall2_openPoint door cps :
  Forall2 pointUp cps (SharedWallManager.openPoint door <$> cps).
Proof. induction cps; simpl; constructor; auto using pointUp_openPoint. Qed.

Lemma atDoor_openPoint door cp :
  SharedWallManager.atDoor door (SharedWallManager.openPoint door cp)
  = SharedWallManager.atDoor door cp.
Proof. apply atDoor_pointUp, pointUp_openPoint. Qed.

Lemma openAt_up els door h elementId : heapUp h (openAt els door h elementId).
Proof.
  unfold openAt. destruct (SharedWallManager.findElement _ _ _) as [l|];
    [|apply heapUp_refl].
  destruct (h !! l) as [e|] eqn:Hl; [|apply heapUp_refl].
  apply heapUp_insert; auto using Forall2_openPoint.
Qed.

Lemma openAt_sets els door h elementId l :
  SharedWallManager.findElement h els elementId = Some l ->
  doorPointsSet (openAt els door h elementId) l door.
Proof.
  intros Hfind. unfold openAt. rewrite Hfind.
  destruct (h !! l) as [e|] eqn:Hl.
  - intros e' cp He' Hcp Hat.
    rewrite list_lookup_insert_eq in He' by (eapply lookup_lt_Some; eauto).
    injection He' as <-. rewrite elem_connectionPoints_set in Hcp.
    apply list_elem_of_fmap_1 in Hcp as (cp0 & -> & _).
    rewrite atDoor_openPoint in Hat. unfold SharedWallManager.openPoint.
    rewrite Hat. split; reflexivity.
  - intros e' cp He'. congruence.
Qed.

Lemma updateConnectionPoints_fold els door ids : forall h,
  let h' := fold_left (openAt els door) ids h in
  heapUp h h'
  /\ forall elementId l, elementId ∈ ids ->
       SharedWallManager.findElement h els elementId = Some l ->
       doorPointsSet h' l door.
Proof.
  induction ids as [|i ids IH]; intros h; simpl.
  - split; [apply heapUp_refl|]. intros ? ? ?%elem_of_nil. tauto.
  - destruct (IH (openAt els door h i)) as [Hup Hset].
    pose proof (openAt_up els door h i) as Hup1.
    split; [eapply heapUp_trans; eauto|].
    intros elementId l [-> | Hin]%elem_of_cons Hfind.
    + eapply heapUp_doorPointsSet; [exact Hup|]. now apply openAt_sets.
    + apply (Hset elementId l Hin). now rewrite (heapUp_findElement _ _ _ _ Hup1).
Qed.

Lemma updateConnectionPoints_spec els door h :
  let h' := SharedWallManager.updateConnectionPointsForAutoOpenedDoor els door h in
  heapUp h h'
  /\ forall elementId l, elementId ∈ door_connectedElements door ->
       SharedWallManager.findElement h els elementId = Some l ->
       doorPointsSet h' l door.
Proof. apply updateConnectionPoints_fold. Qed.

(** ** Auto-opening, door by door *)

Lemma openIf_idem present d : openIf present (openIf present d) = openIf present d.
Proof.
  unfold openIf. destruct (shouldOpen present d) eqn:H; [|now rewrite H].
  unfold shouldOpen. simpl. reflexivity.
Qed.

Lemma openIf_location present d :
  door_location (openIf present d) = door_location d.
Proof. unfold openIf. now destruct (shouldOpen present d). Qed.

Lemma openIf_connected present d :
  door_connectedElements (openIf present d) = door_connectedElements d.
Proof. unfold openIf. now destruct (shouldOpen present d). Qed.

Lemma forallb_pointwise {A} (f g : A -> bool) l :
  (forall x, f x = g x) -> forallb f l = forallb g l.
Proof. intros H. induction l as [|x l IH]; simpl; [reflexivity|]. now rewrite H, IH. Qed.

Lemma shouldOpen_ext present present' d :
  (forall i, present i = present' i) ->
  shouldOpen present d = shouldOpen present' d.
Proof.
  intros H. unfold shouldOpen. now rewrite (forallb_pointwise present present').
Qed.

Lemma openIf_ext present present' d :
  (forall i, present i = present' i) -> openIf present d = openIf present' d.
Proof. intros H. unfold openIf. now rewrite (shouldOpen_ext present present'). Qed.

Lemma autoOpenStep_spec els h doors k h' doors' :
  wellKeyed doors ->
  SharedWallManager.autoOpenStep els (h, doors) k = (h', doors') ->
  heapUp h h'
  /\ DoorRegistry.get k doors'
     = openIf (SharedWallManager.elementExists h els) <$> DoorRegistry.get k doors
  /\ (forall k', k' <> k -> DoorRegistry.get k' doors' = DoorRegistry.get k' doors)
  /\ (forall d, DoorRegistry.get k doors = Some d ->
        shouldOpen (SharedWallManager.elementExists h els) d = true ->
        forall elementId l, elementId ∈ door_connectedElements d ->
          SharedWallManager.findElement h els elementId = Some l ->
          doorPointsSet h' l d).
Proof.
  intros Hwk. unfold SharedWallManager.autoOpenStep.
  destruct (DoorRegistry.get k doors) as [door|] eqn:Hget.
  2:{ intros [= <- <-]. rewrite Hget.
      split; [apply heapUp_refl|]. split; [reflexivity|]. split; [auto|].
      intros d0 [=]. }
  unfold openIf, shouldOpen.
  destruct (_ || _) eqn:Hskip; simpl.
  { intros [= <- <-]. rewrite Hget. simpl. rewrite Hskip. simpl.
    split; [apply heapUp_refl|]. split; [reflexivity|]. split; [auto|].
    intros d0 [= <-]. unfold shouldOpen. rewrite Hskip. discriminate. }
  destruct (forallb _ _) eqn:Hall; simpl.
  2:{ intros [= <- <-]. rewrite Hget. simpl. rewrite ?Hskip, ?Hall. simpl.
      split; [apply heapUp_refl|]. split; [reflexivity|]. split; [auto|].
      intros d0 [= <-]. unfold shouldOpen. rewrite ?Hskip, ?Hall. discriminate. }
  pose proof (Hwk k door Hget) as Hk.
  unfold SharedWallManager.updateDoorState, SharedWallManager.markDoorAsGenerated,
    DoorRegistry.updateDoorState, DoorRegistry.markDoorAsGenerated.
  rewrite <- Hk, Hget. simpl. rewrite get_set_eq. simpl.
  intros [= <- <-].
  destruct (updateConnectionPoints_spec els door h) as [Hup Hset].
  split; [exact Hup|]. split; [now rewrite get_set_eq, ?Hskip, ?Hall|].
  split.
  - intros k' Hne. now rewrite !get_set_ne by auto.
  - intros d [= <-] _. exact Hset.
Qed.

Lemma wellKeyed_step doors doors' k f :
  wellKeyed doors ->
  (forall d, door_location (f d) = door_location d) ->
  DoorRegistry.get k doors' = f <$> DoorRegistry.get k doors ->
  (forall k', k' <> k -> DoorRegistry.get k' doors' = DoorRegistry.get k' doors) ->
  wellKeyed doors'.
Proof.
  intros Hwk Hloc Hk Hother k0 d0 H0.
  destruct (decide (k0 = k)) as [-> | Hne].
  - rewrite Hk in H0. destruct (DoorRegistry.get k doors) as [d|] eqn:Hd; [|discriminate].
    injection H0 as <-. rewrite Hloc. eauto.
  - rewrite Hother in H0 by auto. eauto.
Qed.

Lemma autoOpen_fold els ks : forall h doors h' doors',
  wellKeyed doors ->
  fold_left (SharedWallManager.autoOpenStep els) ks (h, doors) = (h', doors') ->
  heapUp h h'
  /\ wellKeyed doors'
  /\ (forall k, DoorRegistry.get k doors'
                = (if bool_decide (k ∈ ks)
                   then openIf (SharedWallManager.elementExists h els)
                   else fun d => d) <$> DoorRegistry.get k doors)
  /\ (forall k d, k ∈ ks -> DoorRegistry.get k doors = Some d ->
        shouldOpen (SharedWallManager.elementExists h els) d = true ->
        forall elementId l, elementId ∈ door_connectedElements d ->
          SharedWallManager.findElement h els elementId = Some l ->
          doorPointsSet h' l d).
Proof.
  induction ks as [|k ks IH]; intros h doors h' doors' Hwk.
  - intros [= <- <-]. split; [apply heapUp_refl|]. split; [exact Hwk|]. split.
    + intros k. rewrite bool_decide_eq_false_2 by apply not_elem_of_nil.
      now destruct (DoorRegistry.get k doors).
    + intros k d Hk%elem_of_nil. tauto.
  - change (fold_left ?f (k :: ks) ?acc) with (fold_left f ks (f acc k)).
    destruct (SharedWallManager.autoOpenStep els (h, doors) k) as [h1 doors1] eqn:Hstep.
    apply autoOpenStep_spec in Hstep as (Hup1 & Hk1 & Hother1 & Hset1); [|exact Hwk].
    assert (Hwk1 : wellKeyed doors1)
      by (eapply wellKeyed_step; eauto using openIf_location).
    assert (Hex : forall i, SharedWallManager.elementExists h1 els i
                            = SharedWallManager.elementExists h els i)
      by (intros i; now apply heapUp_elementExists).
    assert (Hif : forall d, openIf (SharedWallManager.elementExists h1 els) d
                            = openIf (SharedWallManager.elementExists h els) d).
    { intros d. now apply openIf_ext. }
    intros Hfold. apply IH in Hfold as (Hup & Hwk' & Hget & Hset); [|exact Hwk1].
    split; [eapply heapUp_trans; eauto|]. split; [exact Hwk'|]. split.
    + intros k0. rewrite Hget. destruct (decide (k0 = k)) as [-> | Hne].
      * rewrite Hk1, (bool_decide_eq_true_2 (k ∈ k :: ks)) by (apply elem_of_cons; auto).
        destruct (DoorRegistry.get k doors) as [d|]; simpl; [|reflexivity].
        case_bool_decide; [|reflexivity]. now rewrite Hif, openIf_idem.
        (* k may occur again later in the list *)
      * rewrite Hother1 by auto.
        destruct (DoorRegistry.get k0 doors) as [d|]; simpl; [|reflexivity].
        destruct (decide (k0 ∈ ks)) as [Hin | Hout].
        -- rewrite !bool_decide_eq_true_2; auto; [now rewrite Hif|].
           apply elem_of_cons; auto.
        -- rewrite !bool_decide_eq_false_2; auto.
           intros [? | ?]%elem_of_cons; auto.
    + intros k0 d Hin Hd Hopen elementId l Hid Hfind.
      destruct (decide (k0 = k)) as [-> | Hne].
      * eapply heapUp_doorPointsSet; [exact Hup|]. eapply Hset1; eauto.
      * apply elem_of_cons in Hin as [? | Hin]; [congruence|].
        eapply (Hset k0 d Hin); eauto.
        -- now rewrite Hother1.
        -- rewrite <- Hopen. now apply shouldOpen_ext.
        -- now rewrite (heapUp_findElement _ _ _ _ Hup1).
Qed.

(** ** Joining existing doors, registering new ones *)

Lemma addConnectedElement_elem i d :
  i ∈ door_connectedElements (DoorRegistry.addConnectedElement i d).
Proof.
  unfold DoorRegistry.addConnectedElement, DoorRegistry.includes.
  case_bool_decide; [assumption|]. simpl.
  apply elem_of_app. right. apply elem_of_cons. auto.
Qed.

Lemma addConnectedElement_idem i d :
  DoorRegistry.addConnectedElement i (DoorRegistry.addConnectedElement i d)
  = DoorRegistry.addConnectedElement i d.
Proof.
  pose proof (addConnectedElement_elem i d) as Hin.
  unfold DoorRegistry.addConnectedElement at 1. unfold DoorRegistry.includes.
  now rewrite bool_decide_eq_true_2.
Qed.

Lemma addConnectedElement_old i j d :
  j ∈ door_connectedElements d ->
  j ∈ door_connectedElements (DoorRegistry.addConnectedElement i d).
Proof.
  unfold DoorRegistry.addConnectedElement. intros H.
  destruct (DoorRegistry.includes _ _); [assumption|]. simpl.
  apply elem_of_app. auto.
Qed.

Lemma addConnectedElement_inv i j d :
  j ∈ door_connectedElements (DoorRegistry.addConnectedElement i d) ->
  j ∈ door_connectedElements d \/ j = i.
Proof.
  unfold DoorRegistry.addConnectedElement.
  destruct (DoorRegistry.includes _ _); [auto|]. simpl.
  intros [? | ?%list_elem_of_singleton]%elem_of_app; auto.
Qed.

Lemma addConnectedElement_same i d :
  door_location (DoorRegistry.addConnectedElement i d) = door_location d
  /\ door_state (DoorRegistry.addConnectedElement i d) = door_state d
  /\ door_isGenerated (DoorRegistry.addConnectedElement i d) = door_isGenerated d.
Proof.
  unfold DoorRegistry.addConnectedElement.
  now destruct (DoorRegistry.includes _ _).
Qed.

Lemma joinIf_same i ks k d :
  door_location (joinIf i ks k d) = door_location d
  /\ door_state (joinIf i ks k d) = door_state d
  /\ door_isGenerated (joinIf i ks k d) = door_isGenerated d.
Proof.
  unfold joinIf. case_bool_decide; [apply addConnectedElement_same|auto].
Qed.

Lemma connectRel_weaken doors doors' cp cp' :
  (forall k d, DoorRegistry.get k doors = Some d ->
     exists d', DoorRegistry.get k doors' = Some d'
                /\ door_isGenerated d' = door_isGenerated d) ->
  connectRel doors' cp cp' -> connectRel doors cp cp'.
Proof.
  intros Hd (Hp & Hdir & Hc). split; [exact Hp|]. split; [exact Hdir|].
  intros d Hget. destruct (Hd _ _ Hget) as (d' & Hget' & <-). auto.
Qed.

Lemma connect_fold elementId cps : forall doors acc doors' out,
  fold_left (DoorRegistry.connectStep elementId) cps (doors, acc) = (doors', out) ->
  exists updated,
    out = acc ++ updated
    /\ Forall2 (connectRel doors) cps updated
    /\ forall k, DoorRegistry.get k doors'
                 = joinIf elementId (keyOf <$> cps) k <$> DoorRegistry.get k doors.
Proof.
  induction cps as [|cp cps IH]; intros doors acc doors' out.
  - intros [= <- <-]. exists []. split; [now rewrite app_nil_r|].
    split; [constructor|]. intros k. unfold joinIf.
    rewrite bool_decide_eq_false_2 by apply not_elem_of_nil.
    now destruct (DoorRegistry.get k doors).
  - change (fold_left ?f (cp :: cps) ?a) with (fold_left f cps (f a cp)).
    unfold DoorRegistry.connectStep at 2, DoorRegistry.getDoorByLocation.
    fold (keyOf cp).
    destruct (DoorRegistry.get (keyOf cp) doors) as [d|] eqn:Hget.
    + intros Hfold. apply IH in Hfold as (updated & -> & Hall & Hk).
      eexists (_ :: updated). split; [now rewrite <- app_assoc|]. split.
      * constructor.
        -- split; [reflexivity|]. split; [reflexivity|].
           intros d0. rewrite Hget. intros [= <-]. simpl.
           split; [reflexivity|]. apply addConnectedElement_same.
        -- eapply Forall2_impl; [exact Hall|]. intros c c'.
           apply connectRel_weaken. intros k d0 Hk0.
           destruct (decide (k = keyOf cp)) as [-> | Hne].
           ++ rewrite get_set_eq. eexists. split; [reflexivity|].
              rewrite Hget in Hk0. injection Hk0 as <-.
              apply addConnectedElement_same.
           ++ rewrite get_set_ne by auto. eauto.
      * intros k. rewrite Hk. destruct (decide (k = keyOf cp)) as [-> | Hne].
        -- rewrite get_set_eq, Hget. simpl. f_equal. unfold joinIf.
           rewrite (bool_decide_eq_true_2 (keyOf cp ∈ keyOf cp :: _))
             by (apply elem_of_cons; auto).
           case_bool_decide; [apply addConnectedElement_idem|reflexivity].
        -- rewrite get_set_ne by auto.
           destruct (DoorRegistry.get k doors) as [d0|]; simpl; [|reflexivity].
           f_equal. unfold joinIf.
           destruct (decide (k ∈ keyOf <$> cps)) as [Hin | Hout].
           ++ rewrite !bool_decide_eq_true_2; auto. apply elem_of_cons; auto.
           ++ rewrite !bool_decide_eq_false_2; auto.
              intros [? | ?]%elem_of_cons; auto.
    + intros Hfold. apply IH in Hfold as (updated & -> & Hall & Hk).
      exists (cp :: updated). split; [now rewrite <- app_assoc|]. split.
      * constructor; [|exact Hall].
        split; [reflexivity|]. split; [reflexivity|]. intros d0. congruence.
      * intros k. rewrite Hk. destruct (decide (k = keyOf cp)) as [-> | Hne].
        -- now rewrite Hget.
        -- destruct (DoorRegistry.get k doors) as [d0|]; simpl; [|reflexivity].
           f_equal. unfold joinIf.
           destruct (decide (k ∈ keyOf <$> cps)) as [Hin | Hout].
           ++ rewrite !bool_decide_eq_true_2; auto. apply elem_of_cons; auto.
           ++ rewrite !bool_decide_eq_false_2; auto.
              intros [? | ?]%elem_of_cons; auto.
Qed.

Lemma connectElementToExistingDoors_spec elementId cps doors doors' updated :
  DoorRegistry.connectElementToExistingDoors elementId cps doors = (doors', updated) ->
  Forall2 (connectRel doors) cps updated
  /\ forall k, DoorRegistry.get k doors'
               = joinIf elementId (keyOf <$> cps) k <$> DoorRegistry.get k doors.
Proof.
  unfold DoorRegistry.connectElementToExistingDoors. intros H.
  apply connect_fold in H as (u & -> & ? & ?). auto.
Qed.

Lemma registerStep_Some now elementId doors cp d :
  DoorRegistry.get (keyOf cp) doors = Some d ->
  SharedWallManager.registerStep now elementId doors cp = doors.
Proof.
  intros H. unfold SharedWallManager.registerStep, DoorRegistry.getDoorByLocation.
  fold (keyOf cp). now rewrite H.
Qed.

Lemma registerStep_None now elementId doors cp :
  DoorRegistry.get (keyOf cp) doors = None ->
  SharedWallManager.registerStep now elementId doors cp
  = DoorRegistry.set (keyOf cp) (newDoor now elementId cp) doors.
Proof.
  intros H. unfold SharedWallManager.registerStep, DoorRegistry.getDoorByLocation,
    DoorRegistry.registerDoor.
  fold (keyOf cp). now rewrite H.
Qed.

Lemma register_fold now elementId cps : forall doors,
  let doors' := fold_left (SharedWallManager.registerStep now elementId) cps doors in
  forall k,
    match DoorRegistry.get k doors with
    | Some d => DoorRegistry.get k doors' = Some d
    | None =>
        ((k ∉ keyOf <$> cps) /\ DoorRegistry.get k doors' = None)
        \/ ((k ∈ keyOf <$> cps)
            /\ exists d, DoorRegistry.get k doors' = Some d /\ freshDoor elementId k d)
    end.
Proof.
  induction cps as [|cp cps IH]; intros doors.
  - simpl. intros k. destruct (DoorRegistry.get k doors); [reflexivity|].
    left. split; [apply not_elem_of_nil|reflexivity].
  - change (fold_left ?f (cp :: cps) ?a) with (fold_left f cps (f a cp)).
    intros doors' k. subst doors'.
    destruct (DoorRegistry.get (keyOf cp) doors) as [d0|] eqn:Hget.
    + rewrite (registerStep_Some _ _ _ _ _ Hget).
      specialize (IH doors k). simpl in IH.
      destruct (DoorRegistry.get k doors) as [d|] eqn:Hk; [exact IH|].
      destruct IH as [[Hout Hn] | [Hin Hd]].
      * left. split; [|exact Hn].
        rewrite fmap_cons. intros [-> | ?]%elem_of_cons; [congruence|auto].
      * right. split; [rewrite fmap_cons; apply elem_of_cons; auto|exact Hd].
    + rewrite (registerStep_None _ _ _ _ Hget).
      specialize (IH (DoorRegistry.set (keyOf cp) (newDoor now elementId cp) doors) k).
      simpl in IH. destruct (decide (k = keyOf cp)) as [-> | Hne].
      * rewrite get_set_eq in IH. rewrite Hget. right.
        split; [rewrite fmap_cons; apply elem_of_cons; auto|].
        exists (newDoor now elementId cp). split; [exact IH|].
        repeat split; reflexivity.
      * rewrite get_set_ne in IH by auto.
        destruct (DoorRegistry.get k doors) as [d|] eqn:Hk; [exact IH|].
        destruct IH as [[Hout Hn] | [Hin Hd]].
        -- left. split; [|exact Hn].
           rewrite fmap_cons. intros [-> | ?]%elem_of_cons; [congruence|auto].
        -- right. split; [rewrite fmap_cons; apply elem_of_cons; auto|exact Hd].
Qed.

(** ** The invariant of the shared wall manager *)

Lemma atDoor_true door cp :
  SharedWallManager.atDoor door cp = true
  <-> keyOf cp = DoorRegistry.createDoorId (loc_position (door_location door))
                   (loc_direction (door_location door)).
Proof.
  unfold SharedWallManager.atDoor, keyOf. split.
  - intros [[Hx%Z.eqb_eq Hy%Z.eqb_eq]%andb_prop Hd%bool_decide_eq_true]%andb_prop.
    rewrite Hd. f_equal.
    destruct (cp_position cp), (loc_position (door_location door)); simpl in *.
    congruence.
  - intros [-> ->]%createDoorId_inj.
    rewrite !Z.eqb_refl. simpl. now apply bool_decide_eq_true_2.
Qed.

Lemma doorPointsSet_location h l d d' :
  door_location d' = door_location d -> doorPointsSet h l d -> doorPointsSet h l d'.
Proof.
  intros Hloc Hset e cp He Hcp Hat. eapply Hset; eauto.
  unfold SharedWallManager.atDoor in *. now rewrite <- Hloc.
Qed.

Lemma heapUp_inv h h' l e' :
  heapUp h h' -> h' !! l = Some e' ->
  exists e, h !! l = Some e /\ elem_id e' = elem_id e
            /\ Forall2 pointUp (elem_connectionPoints e) (elem_connectionPoints e').
Proof.
  intros Hup He'. specialize (Hup l). rewrite He' in Hup.
  destruct (h !! l) as [e|]; [|tauto]. exists e. tauto.
Qed.

Lemma find_unique {A} (f : A -> bool) (xs : list A) x :
  x ∈ xs -> f x = true -> (forall y, y ∈ xs -> f y = true -> y = x) ->
  List.find f xs = Some x.
Proof.
  induction xs as [|y xs IH]; intros Hin Hx Huniq.
  - now apply elem_of_nil in Hin.
  - simpl. destruct (f y) eqn:Hy.
    + f_equal. apply Huniq; [apply elem_of_cons; auto|exact Hy].
    + apply IH; auto.
      * apply elem_of_cons in Hin as [-> | ?]; [congruence|assumption].
      * intros z Hz. apply Huniq, elem_of_cons. auto.
Qed.

Lemma existsb_elem {A} (f : A -> bool) (xs : list A) x :
  x ∈ xs -> f x = true -> existsb f xs = true.
Proof.
  intros Hin Hx. apply existsb_exists. exists x. split; [|exact Hx].
  now apply list_elem_of_In.
Qed.

Lemma existsb_elem_inv {A} (f : A -> bool) (xs : list A) :
  existsb f xs = true -> exists x, x ∈ xs /\ f x = true.
Proof.
  intros (x & Hin & Hx)%existsb_exists. exists x. split; [|exact Hx].
  now apply list_elem_of_In.
Qed.

Lemma connectRel_keys doors cps updated :
  Forall2 (connectRel doors) cps updated -> keyOf <$> updated = keyOf <$> cps.
Proof.
  induction 1 as [|cp cp' cps updated (Hp & Hd & _) _ IH]; [reflexivity|].
  rewrite !fmap_cons, IH. unfold keyOf. now rewrite Hp, Hd.
Qed.

Lemma pointUp_key cp cp' : pointUp cp cp' -> keyOf cp' = keyOf cp.
Proof. unfold keyOf. now intros (-> & -> & _). Qed.

(** The registry after the three phases of [addElement], door by door. *)
Lemma registry_phases now elementId ks updated present
    (doors0 doors1 doors3 : DoorRegistry.t) :
  wellKeyed doors0 ->
  (forall k, DoorRegistry.get k doors1
             = joinIf elementId ks k <$> DoorRegistry.get k doors0) ->
  keyOf <$> updated = ks ->
  (forall k, DoorRegistry.get k doors3
             = openIf present
                 <$> DoorRegistry.get k
                       (fold_left (SharedWallManager.registerStep now elementId)
                          updated doors1)) ->
  forall k,
    match DoorRegistry.get k doors0 with
    | Some d0 => DoorRegistry.get k doors3 = Some (openIf present (joinIf elementId ks k d0))
    | None =>
        ((k ∉ ks) /\ DoorRegistry.get k doors3 = None)
        \/ ((k ∈ ks)
            /\ exists d2, freshDoor elementId k d2
                          /\ DoorRegistry.get k doors3 = Some (openIf present d2))
    end.
Proof.
  intros Hwk H1 Hks H3 k.
  pose proof (register_fold now elementId updated doors1 k) as H2. simpl in H2.
  rewrite H1, Hks in H2. rewrite H3.
  destruct (DoorRegistry.get k doors0) as [d0|]; simpl in *.
  - now rewrite H2.
  - destruct H2 as [[Hout ->] | [Hin (d2 & -> & Hfresh)]]; [left|right]; eauto.
Qed.

Lemma openIf_cases present d :
  (shouldOpen present d = true /\ openIf present d = opened d)
  \/ (shouldOpen present d = false /\ openIf present d = d).
Proof. unfold openIf. destruct (shouldOpen present d); auto. Qed.

Lemma joinIf_elem i ks k d : k ∈ ks -> i ∈ door_connectedElements (joinIf i ks k d).
Proof.
  intros H. unfold joinIf. rewrite bool_decide_eq_true_2 by exact H.
  apply addConnectedElement_elem.
Qed.

Lemma joinIf_old i j ks k d :
  j ∈ door_connectedElements d -> j ∈ door_connectedElements (joinIf i ks k d).
Proof.
  unfold joinIf. case_bool_decide; auto using addConnectedElement_old.
Qed.

Lemma joinIf_inv i j ks k d :
  j ∈ door_connectedElements (joinIf i ks k d) ->
  j ∈ door_connectedElements d \/ j = i.
Proof.
  unfold joinIf. case_bool_decide; auto using addConnectedElement_inv.
Qed.

Lemma addElement_inv now l h m e h' m' cps' :
  wallInv h m ->
  h !! l = Some e ->
  l ∉ SharedWallManager.elements m ->
  (forall l0 e0, l0 ∈ SharedWallManager.elements m -> h !! l0 = Some e0 ->
                 elem_id e0 <> elem_id e) ->
  SharedWallManager.addElement now l h m = (h', m', cps') ->
  wallInv h' m'
  /\ SharedWallManager.elements m' = SharedWallManager.elements m ++ [l]
  /\ forall l0, elem_id <$> h' !! l0 = elem_id <$> h !! l0.
Proof.
  intros [HW Hvalid Hids Hdoor Hpresent Hopen Hshared] He Hnew Hfresh.
  unfold SharedWallManager.addElement. rewrite He.
  destruct (DoorRegistry.connectElementToExistingDoors _ _ _)
    as [doors1 updated] eqn:Hc.
  destruct (SharedWallManager.autoOpenRevealedDoors _ _ _) as [h2 doors3] eqn:Ha.
  intros [= <- <- <-]. simpl.
  set (els := SharedWallManager.elements m ++ [l]) in *.
  set (doors0 := SharedWallManager.doorRegistry m) in *.
  set (elementId := elem_id e) in *.
  set (h1 := <[ l := elem_set_connectionPoints e updated ]> h) in *.
  set (doors2 := fold_left (SharedWallManager.registerStep now elementId) updated doors1) in *.
  set (present := SharedWallManager.elementExists h1 els).
  apply connectElementToExistingDoors_spec in Hc as [Hrel H1].
  pose proof (connectRel_keys _ _ _ Hrel) as Hkeys.
  set (ks := keyOf <$> elem_connectionPoints e) in *.
  (* the store after the points of the new element are replaced *)
  assert (Hl1 : h1 !! l = Some (elem_set_connectionPoints e updated)).
  { unfold h1. apply list_lookup_insert_eq. eapply lookup_lt_Some; eauto. }
  assert (Hother : forall l0, l0 <> l -> h1 !! l0 = h !! l0).
  { intros l0 Hne. unfold h1. now apply list_lookup_insert_ne. }
  assert (Hid1 : forall l0, elem_id <$> h1 !! l0 = elem_id <$> h !! l0).
  { intros l0. destruct (decide (l0 = l)) as [-> | Hne].
    - rewrite Hl1, He. simpl. now rewrite elem_id_set.
    - now rewrite Hother. }
  assert (Hold : forall l0, l0 ∈ SharedWallManager.elements m -> l0 <> l)
    by (intros l0 Hin ->; auto).
  (* the registry before the doors are opened *)
  assert (HW2 : wellKeyed doors2).
  { intros k d2 Hk2.
    pose proof (register_fold now elementId updated doors1 k) as H2.
    simpl in H2. fold doors2 in H2. rewrite H1 in H2.
    destruct (DoorRegistry.get k doors0) as [d0|] eqn:Hk0; simpl in H2.
    - rewrite H2 in Hk2. injection Hk2 as <-.
      destruct (joinIf_same elementId ks k d0) as (-> & _). eauto.
    - destruct H2 as [[_ Hn] | [_ (d & Hd & Hf)]]; [congruence|].
      rewrite Hd in Hk2. injection Hk2 as <-. apply Hf. }
  unfold SharedWallManager.autoOpenRevealedDoors in Ha.
  apply autoOpen_fold in Ha as (Hup & HW3 & H3 & Hset); [|exact HW2].
  fold present in H3, Hset.
  assert (H3' : forall k, DoorRegistry.get k doors3
                          = openIf present <$> DoorRegistry.get k doors2).
  { intros k. rewrite H3. destruct (DoorRegistry.get k doors2) as [d2|] eqn:Hk2;
      [|reflexivity].
    rewrite bool_decide_eq_true_2; [reflexivity|]. eapply get_Some_key; eauto. }
  pose proof (registry_phases now elementId ks updated present doors0 doors1 doors3
                HW H1 Hkeys H3') as Hphases.
  assert (Hid2 : forall l0, elem_id <$> h2 !! l0 = elem_id <$> h !! l0).
  { intros l0. rewrite <- Hid1. specialize (Hup l0).
    destruct (h1 !! l0), (h2 !! l0); try tauto. simpl. f_equal. tauto. }
  (* ids present after the new element is pushed *)
  assert (Hpresent_old : forall i,
             SharedWallManager.elementExists h (SharedWallManager.elements m) i = true ->
             present i = true).
  { intros i (l0 & Hin & Hhas)%existsb_elem_inv. unfold present.
    apply (existsb_elem _ _ l0); [apply elem_of_app; auto|].
    unfold SharedWallManager.hasId in *. now rewrite Hother by auto. }
  assert (Hpresent_new : present elementId = true).
  { unfold present. apply (existsb_elem _ _ l).
    - apply elem_of_app. right. apply elem_of_cons. auto.
    - unfold SharedWallManager.hasId. rewrite Hl1, elem_id_set.
      now apply bool_decide_eq_true_2. }
  (* every door of the final registry, traced back *)
  assert (Htrace2 : forall k d2, DoorRegistry.get k doors2 = Some d2 ->
             (exists d0, DoorRegistry.get k doors0 = Some d0
                         /\ d2 = joinIf elementId ks k d0)
             \/ freshDoor elementId k d2).
  { intros k d2 Hk2.
    pose proof (register_fold now elementId updated doors1 k) as H2.
    simpl in H2. fold doors2 in H2. rewrite H1 in H2.
    destruct (DoorRegistry.get k doors0) as [d0|] eqn:Hk0; simpl in H2.
    - rewrite H2 in Hk2. injection Hk2 as <-. eauto.
    - destruct H2 as [[_ Hn] | [_ (d & Hd & Hf)]]; [congruence|].
      rewrite Hd in Hk2. injection Hk2 as <-. auto. }
  assert (Htrace : forall k d3, DoorRegistry.get k doors3 = Some d3 ->
             exists d2, DoorRegistry.get k doors2 = Some d2
                        /\ d3 = openIf present d2).
  { intros k d3 Hk3. rewrite H3' in Hk3.
    destruct (DoorRegistry.get k doors2) as [d2|]; [|discriminate].
    injection Hk3 as <-. eauto. }
  assert (Hpresent2 : forall k d2 i, DoorRegistry.get k doors2 = Some d2 ->
             i ∈ door_connectedElements d2 -> present i = true).
  { intros k d2 i Hk2 Hi.
    destruct (Htrace2 k d2 Hk2) as [(d0 & Hk0 & ->) | (_ & Hc & _)].
    - apply joinIf_inv in Hi as [Hi | ->]; [|exact Hpresent_new].
      apply Hpresent_old. eauto.
    - rewrite Hc in Hi. apply list_elem_of_singleton in Hi as ->. exact Hpresent_new. }
  (* the fields of the invariant *)
  assert (Hvalid' : forall l0, l0 ∈ els -> is_Some (h2 !! l0)).
  { intros l0 Hin. apply fmap_is_Some with (f := elem_id). rewrite Hid2.
    apply fmap_is_Some. apply elem_of_app in Hin as [Hin | ->%list_elem_of_singleton];
      [auto|eauto]. }
  assert (Hids' : forall l1 l2 e1 e2, l1 ∈ els -> l2 ∈ els ->
             h2 !! l1 = Some e1 -> h2 !! l2 = Some e2 ->
             elem_id e1 = elem_id e2 -> l1 = l2).
  { intros l1 l2 e1 e2 Hin1 Hin2 He1 He2 Heq. subst elementId.
    pose proof (Hid2 l1) as Hi1. pose proof (Hid2 l2) as Hi2.
    rewrite He1 in Hi1. rewrite He2 in Hi2. simpl in *.
    destruct (h !! l1) as [e1'|] eqn:He1'; [|discriminate].
    destruct (h !! l2) as [e2'|] eqn:He2'; [|discriminate].
    simpl in *. injection Hi1 as Hi1. injection Hi2 as Hi2.
    apply elem_of_app in Hin1 as [Hin1 | ->%list_elem_of_singleton];
      apply elem_of_app in Hin2 as [Hin2 | ->%list_elem_of_singleton].
    - eapply Hids; eauto. congruence.
    - exfalso. apply (Hfresh l1 e1' Hin1 He1'). rewrite He in He2'. congruence.
    - exfalso. apply (Hfresh l2 e2' Hin2 He2'). rewrite He in He1'. congruence.
    - reflexivity. }
  assert (Hdoor' : forall l0 e2 cp, l0 ∈ els -> h2 !! l0 = Some e2 ->
             cp ∈ elem_connectionPoints e2 ->
             exists d, DoorRegistry.get (keyOf cp) doors3 = Some d
                       /\ elem_id e2 ∈ door_connectedElements d).
  { intros l0 e2 cp2 Hin He2 Hcp2.
    destruct (heapUp_inv _ _ _ _ Hup He2) as (e1 & He1 & Hid & Hall).
    apply list_elem_of_lookup in Hcp2 as [n Hn].
    destruct (Forall2_lookup_r _ _ _ _ _ Hall Hn) as (cp1 & Hcp1 & Hpu).
    apply list_elem_of_lookup_2 in Hcp1.
    rewrite (pointUp_key _ _ Hpu), Hid.
    pose proof (Hphases (keyOf cp1)) as Hph.
    apply elem_of_app in Hin as [Hin | ->%list_elem_of_singleton].
    - rewrite Hother in He1 by auto.
      destruct (Hdoor _ _ _ Hin He1 Hcp1) as (d0 & Hk0 & Hi0).
      fold doors0 in Hk0. rewrite Hk0 in Hph.
      eexists. split; [exact Hph|]. rewrite openIf_connected.
      now apply joinIf_old.
    - rewrite Hl1 in He1. injection He1 as <-.
      rewrite elem_connectionPoints_set in Hcp1. rewrite elem_id_set.
      assert (Hk : keyOf cp1 ∈ ks).
      { rewrite <- Hkeys. now apply list_elem_of_fmap_2. }
      destruct (DoorRegistry.get (keyOf cp1) doors0) as [d0|] eqn:Hk0.
      + eexists. split; [exact Hph|]. rewrite openIf_connected.
        now apply joinIf_elem.
      + destruct Hph as [[Hout _] | [_ (d2 & (_ & Hc & _) & Hd)]]; [tauto|].
        eexists. split; [exact Hd|]. rewrite openIf_connected, Hc.
        apply elem_of_cons. auto. }
  split; [|split; [reflexivity|exact Hid2]].
  constructor; simpl; fold els.
  - exact HW3.
  - exact Hvalid'.
  - exact Hids'.
  - exact Hdoor'.
  - intros k d3 i Hk3 Hi.
    rewrite (heapUp_elementExists _ _ _ _ Hup). fold present.
    destruct (Htrace k d3 Hk3) as (d2 & Hk2 & ->).
    rewrite openIf_connected in Hi. eauto.
  - intros k d3 Hk3 Hstate.
    destruct (Htrace k d3 Hk3) as (d2 & Hk2 & ->).
    destruct (openIf_cases present d2) as [[Hso Hoi] | [Hso Hoi]];
      rewrite Hoi in *.
    + split; [reflexivity|]. intros l0 Hin e2 cp2 He2 Hcp2 Hat.
      assert (Hk : keyOf cp2 = k).
      { apply atDoor_true in Hat. rewrite Hat. symmetry. now apply HW3. }
      destruct (Hdoor' l0 e2 cp2 Hin He2 Hcp2) as (d & Hd & Hi).
      rewrite Hk, Hk3 in Hd. injection Hd as <-. simpl in Hi.
      assert (Hfind : SharedWallManager.findElement h1 els (elem_id e2) = Some l0).
      { rewrite <- (heapUp_findElement _ _ _ _ Hup).
        apply find_unique; [exact Hin| |].
        - unfold SharedWallManager.hasId. rewrite He2.
          now apply bool_decide_eq_true_2.
        - intros l' Hin' Hhas. unfold SharedWallManager.hasId in Hhas.
          destruct (h2 !! l') as [e'|] eqn:He'; [|discriminate].
          apply bool_decide_eq_true in Hhas. eapply Hids'; eauto. }
      apply (Hset k d2 (get_Some_key _ _ _ Hk2) Hk2 Hso (elem_id e2) l0 Hi Hfind
               e2 cp2 He2 Hcp2).
      exact Hat.
    + destruct (Htrace2 k d2 Hk2) as [(d0 & Hk0 & ->) | (Hclosed & _)];
        [|congruence].
      destruct (joinIf_same elementId ks k d0) as (Hloc & Hst & Hgen).
      rewrite Hst in Hstate. destruct (Hopen k d0 Hk0 Hstate) as [Hg Hpts].
      split; [congruence|]. intros l0 Hin.
      apply (doorPointsSet_location _ _ d0); [exact Hloc|].
      eapply heapUp_doorPointsSet; [exact Hup|].
      apply elem_of_app in Hin as [Hin | ->%list_elem_of_singleton].
      * intros e1 cp1 He1. rewrite Hother in He1 by auto. now apply (Hpts l0 Hin).
      * intros e1 cp1 He1 Hcp1 Hat. rewrite Hl1 in He1. injection He1 as <-.
        rewrite elem_connectionPoints_set in Hcp1.
        apply list_elem_of_lookup in Hcp1 as [n Hn].
        destruct (Forall2_lookup_r _ _ _ _ _ Hrel Hn) as (cp & _ & Hp & Hd & Hc).
        assert (Hk : keyOf cp = k).
        { apply atDoor_true in Hat. unfold keyOf in *. rewrite <- Hp, <- Hd, Hat.
          symmetry. now apply HW. }
        rewrite Hk in Hc. destruct (Hc d0 Hk0) as [Hconn Hgen'].
        split; congruence.
  - intros k d3 Hk3 Hlen.
    destruct (Htrace k d3 Hk3) as (d2 & Hk2 & ->).
    destruct (openIf_cases present d2) as [[Hso Hoi] | [Hso Hoi]];
      rewrite Hoi in *; [reflexivity|].
    unfold shouldOpen in Hso.
    assert (Hall : forallb present (door_connectedElements d2) = true).
    { apply forallb_forall. intros i Hi%list_elem_of_In. eauto. }
    rewrite Hall, andb_true_r in Hso. apply negb_false_iff, orb_prop in Hso.
    destruct Hso as [Hst%bool_decide_eq_true | Hlt%Z.ltb_lt]; [exact Hst|].
    unfold array_length in Hlt. lia.
Qed.

(** ** C2: doors shared by two placed elements *)

Lemma NoDup_fmap_eq {A B} (f : A -> B) (xs : list A) x y :
  NoDup (f <$> xs) -> x ∈ xs -> y ∈ xs -> f x = f y -> x = y.
Proof.
  induction xs as [|z xs IH]; intros Hnd Hx Hy Hf.
  - now apply elem_of_nil in Hx.
  - rewrite fmap_cons in Hnd. apply NoDup_cons in Hnd as [Hz Hnd].
    apply elem_of_cons in Hx as [-> | Hx]; apply elem_of_cons in Hy as [-> | Hy];
      auto.
    + exfalso. apply Hz. rewrite Hf. now apply list_elem_of_fmap_2.
    + exfalso. apply Hz. rewrite <- Hf. now apply list_elem_of_fmap_2.
Qed.

Lemma elementIds_ext h h' ls :
  (forall l, elem_id <$> h' !! l = elem_id <$> h !! l) ->
  elementIds h' ls = elementIds h ls.
Proof.
  intros H. unfold elementIds. apply list_fmap_ext. intros _ l _. apply H.
Qed.

Lemma wallInv_reset h m : wallInv h (SharedWallManager.reset m).
Proof.
  constructor; simpl.
  - intros k d H. discriminate H.
  - intros l Hl. now apply elem_of_nil in Hl.
  - intros l1 l2 e1 e2 Hl. now apply elem_of_nil in Hl.
  - intros l e cp Hl. now apply elem_of_nil in Hl.
  - intros k d i H. discriminate H.
  - intros k d H. discriminate H.
  - intros k d H. discriminate H.
Qed.

Lemma addElements_cons now l calls h m :
  addElements ((now, l) :: calls) (h, m)
  = let '(h', m', _) := SharedWallManager.addElement now l h m in
    addElements calls (h', m').
Proof.
  unfold addElements. simpl.
  now destruct (SharedWallManager.addElement now l h m) as [[h' m'] cps].
Qed.

Lemma addElements_inv calls : forall h m h' m',
  wallInv h m ->
  Forall (fun l => is_Some (h !! l)) (snd <$> calls) ->
  NoDup (elementIds h (SharedWallManager.elements m ++ (snd <$> calls))) ->
  addElements calls (h, m) = (h', m') ->
  wallInv h' m'
  /\ SharedWallManager.elements m' = SharedWallManager.elements m ++ (snd <$> calls).
Proof.
  induction calls as [|[now l] calls IH]; intros h m h' m' Hinv Hall Hnd.
  - intros [= <- <-]. simpl. now rewrite app_nil_r.
  - rewrite addElements_cons.
    destruct (SharedWallManager.addElement now l h m) as [[h1 m1] cps1] eqn:Hadd.
    intros Hrest.
    rewrite fmap_cons in Hall, Hnd. simpl in Hall, Hnd.
    apply Forall_cons in Hall as [[e He] Hall].
    assert (Hinj : forall l1 l2,
               l1 ∈ SharedWallManager.elements m ++ l :: (snd <$> calls) ->
               l2 ∈ SharedWallManager.elements m ++ l :: (snd <$> calls) ->
               elem_id <$> h !! l1 = elem_id <$> h !! l2 -> l1 = l2).
    { intros l1 l2 H1 H2 Hf.
      apply (NoDup_fmap_eq (fun l => elem_id <$> h !! l) _ l1 l2 Hnd H1 H2 Hf). }
    assert (Hnd' : NoDup (SharedWallManager.elements m ++ l :: (snd <$> calls)))
      by (eapply NoDup_fmap_1; exact Hnd).
    assert (Hnew : l ∉ SharedWallManager.elements m).
    { intros Hin. apply NoDup_app in Hnd' as (_ & Hdisj & _).
      apply (Hdisj l Hin). apply elem_of_cons. auto. }
    apply addElement_inv with (e := e) in Hadd as (Hinv1 & Hels1 & Hid1); auto.
    2:{ intros l0 e0 Hin He0 Heq. apply Hnew.
        rewrite <- (Hinj l0 l); auto.
        - apply elem_of_app. auto.
        - apply elem_of_app. right. apply elem_of_cons. auto.
        - rewrite He0, He. simpl. now f_equal. }
    apply IH in Hrest as [Hinv' Hels']; auto.
    + split; [exact Hinv'|]. rewrite Hels', Hels1, <- app_assoc. reflexivity.
    + eapply Forall_impl; [exact Hall|]. intros l0 Hs. simpl in *.
      apply fmap_is_Some with (f := elem_id). rewrite Hid1.
      now apply fmap_is_Some.
    + rewrite (elementIds_ext h h1) by exact Hid1.
      rewrite Hels1, <- app_assoc. exact Hnd.
Qed.

Lemma two_elements {A} (x y : A) (xs : list A) :
  x ∈ xs -> y ∈ xs -> x <> y -> (2 <= length xs)%nat.
Proof.
  intros Hx Hy Hne. destruct xs as [|a [|b xs]]; simpl; try lia.
  - now apply elem_of_nil in Hx.
  - apply list_elem_of_singleton in Hx, Hy. congruence.
Qed.

(** C2, as stated, fails: two corridors with connectable points (same cell,
    facing north and south) are added to a reset manager; both doors stay
    closed and neither point is marked. *)
Lemma opposite_doors_stay_closed :
  PositionCalculator.areConnectionPointsConnectable northSide southSide = true
  /\ pointsAt northAndSouth 0 = [northSide]
  /\ pointsAt northAndSouth 1 = [southSide]
  /\ SharedWallManager.elements
       (snd (addElements twoCalls (northAndSouth, SharedWallManager.reset noWalls)))
     = [0%nat; 1%nat]
  /\ SharedWallManager.getDoorState
       (snd (addElements twoCalls (northAndSouth, SharedWallManager.reset noWalls)))
       (mkPosition 10 5) North = Closed
  /\ SharedWallManager.getDoorState
       (snd (addElements twoCalls (northAndSouth, SharedWallManager.reset noWalls)))
       (mkPosition 10 5) South = Closed
  /\ pointsAt
       (fst (addElements twoCalls (northAndSouth, SharedWallManager.reset noWalls))) 0
     = [northSide]
  /\ pointsAt
       (fst (addElements twoCalls (northAndSouth, SharedWallManager.reset noWalls))) 1
     = [southSide].
Proof. repeat split; vm_compute; reflexivity. Qed.


(** * Further properties of the engine *)

(** ** The door registry *)

Lemma set_keys k d doors :
  fst <$> DoorRegistry.set k d doors
  = if bool_decide (k ∈ fst <$> doors) then fst <$> doors else (fst <$> doors) ++ [k].
Proof.
  induction doors as [|[k0 d0] doors IH]; simpl.
  - reflexivity.
  - destruct (decide (k0 = k)) as [-> | Hk].
    + rewrite (bool_decide_eq_true_2 (k = k)) by reflexivity. simpl.
      rewrite bool_decide_eq_true_2 by (apply elem_of_cons; auto).
      reflexivity.
    + rewrite (bool_decide_eq_false_2 (k0 = k)) by exact Hk.
      rewrite !fmap_cons, IH. simpl fst. destruct (decide (k ∈ fst <$> doors)) as [Hin | Hout].
      * rewrite !bool_decide_eq_true_2; auto. apply elem_of_cons. auto.
      * rewrite !bool_decide_eq_false_2; auto.
        intros [? | ?]%elem_of_cons; auto.
Qed.

Lemma get_None_key k doors :
  DoorRegistry.get k doors = None <-> k ∉ fst <$> doors.
Proof.
  induction doors as [|[k0 d0] doors IH]; simpl.
  - split; [intros _; apply not_elem_of_nil|reflexivity].
  - case_bool_decide as Hk.
    + subst. split; [discriminate|]. intros H. exfalso. apply H, elem_of_cons. auto.
    + rewrite IH. split.
      * intros H [? | ?]%elem_of_cons; auto.
      * intros H Hin. apply H, elem_of_cons. auto.
Qed.

Lemma get_elem k d doors :
  DoorRegistry.get k doors = Some d -> (k, d) ∈ doors.
Proof.
  induction doors as [|[k0 d0] doors IH]; simpl; [discriminate|].
  case_bool_decide as Hk.
  - intros [= ->]. subst. apply elem_of_cons. auto.
  - intros H. apply elem_of_cons. auto.
Qed.

Lemma elem_get k d doors :
  NoDup (fst <$> doors) -> (k, d) ∈ doors -> DoorRegistry.get k doors = Some d.
Proof.
  induction doors as [|[k0 d0] doors IH]; simpl; intros Hnd Hin.
  - now apply elem_of_nil in Hin.
  - apply NoDup_cons in Hnd as [Hk0 Hnd].
    apply elem_of_cons in Hin as [[= -> ->] | Hin].
    + now rewrite bool_decide_eq_true_2.
    + rewrite bool_decide_eq_false_2; [auto|].
      intros ->. apply Hk0. apply (list_elem_of_fmap_2 fst _ (k, d)). exact Hin.
Qed.

Lemma set_elem k d doors e :
  e ∈ DoorRegistry.set k d doors -> e ∈ doors \/ e = (k, d).
Proof.
  induction doors as [|[k0 d0] doors IH]; simpl.
  - intros ->%list_elem_of_singleton. auto.
  - case_bool_decide as Hk.
    + subst. intros [-> | H]%elem_of_cons; [auto|].
      left. apply elem_of_cons. auto.
    + intros [-> | H]%elem_of_cons.
      * left. apply elem_of_cons. auto.
      * destruct (IH H); [left; apply elem_of_cons|]; auto.
Qed.

Lemma set_ok k d doors :
  registryOk doors -> doorOk (k, d) -> registryOk (DoorRegistry.set k d doors).
Proof.
  intros [Hnd Hall] Hd. split.
  - rewrite set_keys. case_bool_decide as Hk; [exact Hnd|].
    apply NoDup_app. split; [exact Hnd|]. split; [|apply NoDup_singleton].
    intros x Hx ->%list_elem_of_singleton. auto.
  - apply Forall_forall. intros e He. apply set_elem in He as [He | ->]; [|exact Hd].
    rewrite Forall_forall in Hall. auto.
Qed.

Lemma get_ok k d doors :
  registryOk doors -> DoorRegistry.get k doors = Some d -> doorOk (k, d).
Proof.
  intros [_ Hall] Hget. rewrite Forall_forall in Hall. now apply Hall, get_elem.
Qed.

Lemma addConnectedElement_ok k i d :
  doorOk (k, d) -> doorOk (k, DoorRegistry.addConnectedElement i d).
Proof.
  intros (Hk & Hg & Hnd & Hne). unfold doorOk, DoorRegistry.addConnectedElement,
    DoorRegistry.includes in *. simpl in *.
  case_bool_decide as Hin; simpl; [auto|].
  split; [exact Hk|]. split; [exact Hg|]. split.
  - apply NoDup_app. split; [exact Hnd|]. split; [|apply NoDup_singleton].
    intros x Hx ->%list_elem_of_singleton. auto.
  - now destruct (door_connectedElements d).
Qed.

Lemma registerDoor_ok position direction elementId initialState seed doors :
  registryOk doors ->
  registryOk (fst (DoorRegistry.registerDoor position direction elementId
                     initialState seed doors)).
Proof.
  intros Hok. unfold DoorRegistry.registerDoor.
  destruct (DoorRegistry.get _ doors) as [d|] eqn:Hget; simpl.
  - apply set_ok; [exact Hok|]. apply addConnectedElement_ok. eapply get_ok; eauto.
  - apply set_ok; [exact Hok|]. repeat split; simpl; [|discriminate].
    apply NoDup_singleton.
Qed.

Lemma connectStep_ok elementId acc cp :
  registryOk (fst acc) -> registryOk (fst (DoorRegistry.connectStep elementId acc cp)).
Proof.
  destruct acc as [doors updated]. simpl. intros Hok.
  unfold DoorRegistry.getDoorByLocation.
  destruct (DoorRegistry.get _ doors) as [d|] eqn:Hget; simpl; [|exact Hok].
  apply set_ok; [exact Hok|]. apply addConnectedElement_ok. eapply get_ok; eauto.
Qed.

Lemma connect_ok elementId cps : forall acc,
  registryOk (fst acc) ->
  registryOk (fst (fold_left (DoorRegistry.connectStep elementId) cps acc)).
Proof.
  induction cps as [|cp cps IH]; intros acc Hok; simpl; [exact Hok|].
  apply IH. now apply connectStep_ok.
Qed.

Lemma spliceFirst_elem i j ids :
  j ∈ DoorRegistry.spliceFirst i ids -> j ∈ ids.
Proof.
  induction ids as [|x ids IH]; simpl; [auto|].
  case_bool_decide as Hx.
  - intros Hj. apply elem_of_cons. auto.
  - intros [-> | Hj]%elem_of_cons; apply elem_of_cons; auto.
Qed.

Lemma spliceFirst_other i j ids :
  j <> i -> j ∈ ids -> j ∈ DoorRegistry.spliceFirst i ids.
Proof.
  intros Hne. induction ids as [|x ids IH]; simpl; [auto|].
  intros [-> | Hj]%elem_of_cons.
  - rewrite bool_decide_eq_false_2 by auto. apply elem_of_cons. auto.
  - case_bool_decide as Hx; [exact Hj|]. apply elem_of_cons. auto.
Qed.

Lemma spliceFirst_NoDup i ids :
  NoDup ids -> NoDup (DoorRegistry.spliceFirst i ids) /\ i ∉ DoorRegistry.spliceFirst i ids.
Proof.
  induction ids as [|x ids IH]; simpl; intros Hnd.
  - split; [constructor|apply not_elem_of_nil].
  - apply NoDup_cons in Hnd as [Hx Hnd]. case_bool_decide as Hi.
    + subst. auto.
    + destruct (IH Hnd) as [Hnd' Hout]. split.
      * apply NoDup_cons. split; [|exact Hnd'].
        intros H. apply Hx. eapply spliceFirst_elem; eauto.
      * intros [? | ?]%elem_of_cons; auto.
Qed.

Lemma omap_keys_sub {A} (f : string * A -> option (string * A)) (l : list (string * A)) :
  (forall e e', f e = Some e' -> fst e' = fst e) ->
  NoDup (fst <$> l) -> NoDup (fst <$> omap f l).
Proof.
  intros Hf. induction l as [|e l IH]; simpl; intros Hnd; [constructor|].
  apply NoDup_cons in Hnd as [He Hnd].
  destruct (f e) as [e'|] eqn:Hfe; simpl; [|auto].
  apply NoDup_cons. split; [|auto].
  rewrite (Hf _ _ Hfe). intros Hin. apply He.
  apply list_elem_of_fmap in Hin as (x & -> & Hx).
  apply list_elem_of_omap in Hx as (y & Hy & Hfy).
  rewrite (Hf _ _ Hfy). now apply list_elem_of_fmap_2.
Qed.

Lemma removeFromDoor_key i e e' :
  DoorRegistry.removeFromDoor i e = Some e' -> fst e' = fst e.
Proof.
  destruct e as [k d]. unfold DoorRegistry.removeFromDoor.
  destruct (DoorRegistry.includes _ _); [|now intros [= <-]].
  destruct (_ =? _); [discriminate|now intros [= <-]].
Qed.

Lemma removeFromDoor_ok i e e' :
  doorOk e -> DoorRegistry.removeFromDoor i e = Some e' -> doorOk e'.
Proof.
  destruct e as [k d]. intros (Hk & Hg & Hnd & Hne). unfold DoorRegistry.removeFromDoor.
  destruct (DoorRegistry.includes _ _); [|intros [= <-]; repeat split; auto].
  destruct (_ =? _) eqn:Hlen; [discriminate|]. intros [= <-].
  split; [exact Hk|]. split; [exact Hg|]. simpl. split; [now apply spliceFirst_NoDup|].
  intros E. rewrite E in Hlen. discriminate.
Qed.

Lemma remove_ok i doors :
  registryOk doors -> registryOk (DoorRegistry.removeElementFromDoors i doors).
Proof.
  intros [Hnd Hall]. split.
  - apply omap_keys_sub; [apply removeFromDoor_key|exact Hnd].
  - apply Forall_forall. intros e' (e & He & Hf)%list_elem_of_omap.
    rewrite Forall_forall in Hall. eapply removeFromDoor_ok; eauto.
Qed.

Lemma updateDoorState_ok k state doors :
  registryOk doors -> registryOk (fst (DoorRegistry.updateDoorState k state doors)).
Proof.
  intros Hok. unfold DoorRegistry.updateDoorState.
  destruct (DoorRegistry.get k doors) as [d|] eqn:Hget; simpl; [|exact Hok].
  apply set_ok; [exact Hok|]. exact (get_ok _ _ _ Hok Hget).
Qed.

Lemma markDoorAsGenerated_ok k c doors :
  registryOk doors -> registryOk (fst (DoorRegistry.markDoorAsGenerated k c doors)).
Proof.
  intros Hok. unfold DoorRegistry.markDoorAsGenerated.
  destruct (DoorRegistry.get k doors) as [d|] eqn:Hget; simpl; [|exact Hok].
  apply set_ok; [exact Hok|]. exact (get_ok _ _ _ Hok Hget).
Qed.

Lemma built_ok doors : built doors -> registryOk doors.
Proof.
  induction 1 as [doors|doors p d i s seed _ IH|doors k s _ IH|doors k c _ IH
                 |doors i cps _ IH|doors i _ IH].
  - split; constructor.
  - now apply registerDoor_ok.
  - now apply updateDoorState_ok.
  - now apply markDoorAsGenerated_ok.
  - unfold DoorRegistry.connectElementToExistingDoors. now apply (connect_ok i cps (doors, [])).
  - now apply remove_ok.
Qed.

(** Every registry built by the mutators of the class from an empty one
    has one entry per key; each door is stored under the id of its own
    location, which is also its [globalId], and lists at least one element and
    none twice. *)
Theorem built_registry_wellformed doors :
  built doors ->
  NoDup (fst <$> doors)
  /\ forall globalId door,
       DoorRegistry.getDoor doors globalId = Some door ->
       globalId = DoorRegistry.createDoorId (loc_position (door_location door))
                    (loc_direction (door_location door))
       /\ loc_globalId (door_location door) = globalId
       /\ NoDup (door_connectedElements door)
       /\ door_connectedElements door <> [].
Proof.
  intros Hb. pose proof (built_ok _ Hb) as Hok. split; [apply Hok|].
  intros k d Hget. exact (get_ok _ _ _ Hok Hget).
Qed.

Lemma built_registry_wellformed_witness :
  NoDup (fst <$> fst (DoorRegistry.registerDoor (mkPosition 10 5) North "room-01"
                        Closed None (DoorRegistry.clear [])))
  /\ forall globalId door,
       DoorRegistry.getDoor
         (fst (DoorRegistry.registerDoor (mkPosition 10 5) North "room-01"
                 Closed None (DoorRegistry.clear []))) globalId = Some door ->
       globalId = DoorRegistry.createDoorId (loc_position (door_location door))
                    (loc_direction (door_location door))
       /\ loc_globalId (door_location door) = globalId
       /\ NoDup (door_connectedElements door)
       /\ door_connectedElements door <> [].
Proof.
  apply (built_registry_wellformed
           (fst (DoorRegistry.registerDoor (mkPosition 10 5) North "room-01"
                   Closed None (DoorRegistry.clear [])))).
  apply built_registerDoor. apply built_clear.
Defined.

Lemma set_set k d d' doors :
  DoorRegistry.set k d (DoorRegistry.set k d' doors) = DoorRegistry.set k d doors.
Proof.
  induction doors as [|[k0 d0] doors IH]; simpl.
  - now rewrite bool_decide_eq_true_2.
  - destruct (decide (k0 = k)) as [-> | Hk].
    + rewrite (bool_decide_eq_true_2 (k = k)) by reflexivity. simpl.
      now rewrite bool_decide_eq_true_2.
    + rewrite (bool_decide_eq_false_2 (k0 = k)) by exact Hk. simpl.
      rewrite (bool_decide_eq_false_2 (k0 = k)) by exact Hk. now rewrite IH.
Qed.

Lemma set_length k d doors :
  length (DoorRegistry.set k d doors)
  = (length doors
     + match DoorRegistry.get k doors with Some _ => 0 | None => 1 end)%nat.
Proof.
  induction doors as [|[k0 d0] doors IH]; simpl; [reflexivity|].
  case_bool_decide as Hk; simpl; [lia|]. rewrite IH. lia.
Qed.

Lemma set_absent k d doors :
  DoorRegistry.get k doors = None -> DoorRegistry.set k d doors = doors ++ [(k, d)].
Proof.
  induction doors as [|[k0 d0] doors IH]; simpl; [reflexivity|].
  case_bool_decide as Hk; [discriminate|]. intros Hget. now rewrite IH.
Qed.

(** [registerDoor] and lookup: the returned id is the id of the location;
    afterwards the location has a door that lists the element; a door that
    was there keeps its state, its generated flag and its seed, a new one
    starts in the initial state with the element alone; every other id reads
    as before. *)
Theorem registerDoor_lookup position direction elementId initialState seed doors :
  let r := DoorRegistry.registerDoor position direction elementId initialState
             seed doors in
  snd r = DoorRegistry.createDoorId position direction
  /\ DoorRegistry.hasDoor (fst r) position direction = true
  /\ (exists door,
        DoorRegistry.getDoorByLocation (fst r) position direction = Some door
        /\ elementId ∈ door_connectedElements door
        /\ match DoorRegistry.getDoorByLocation doors position direction with
           | Some old =>
               door_state door = door_state old
               /\ door_isGenerated door = door_isGenerated old
               /\ door_generationSeed door = door_generationSeed old
               /\ forall other, other ∈ door_connectedElements old ->
                                other ∈ door_connectedElements door
           | None =>
               door_state door = initialState
               /\ door_isGenerated door = false
               /\ door_generationSeed door = seed
               /\ door_connectedElements door = [elementId]
           end)
  /\ forall globalId,
       globalId <> DoorRegistry.createDoorId position direction ->
       DoorRegistry.getDoor (fst r) globalId = DoorRegistry.getDoor doors globalId.
Proof.
  unfold DoorRegistry.registerDoor, DoorRegistry.hasDoor,
    DoorRegistry.getDoorByLocation, DoorRegistry.getDoor.
  set (k := DoorRegistry.createDoorId position direction).
  destruct (DoorRegistry.get k doors) as [old|] eqn:Hget; simpl.
  - split; [reflexivity|]. rewrite get_set_eq.
    split; [now apply bool_decide_eq_true_2|]. split.
    + eexists. split; [reflexivity|]. split; [apply addConnectedElement_elem|].
      destruct (addConnectedElement_same elementId old) as (_ & -> & ->).
      repeat split.
      * unfold DoorRegistry.addConnectedElement. now destruct (DoorRegistry.includes _ _).
      * intros other. apply addConnectedElement_old.
    + intros g Hg. now apply get_set_ne.
  - split; [reflexivity|]. rewrite get_set_eq.
    split; [now apply bool_decide_eq_true_2|]. split.
    + eexists. split; [reflexivity|]. simpl. split; [apply elem_of_cons; auto|].
      repeat split.
    + intros g Hg. now apply get_set_ne.
Qed.

(** Registering the same element at the same location a second time
    changes nothing, and a call adds an entry to the map exactly when the
    location had no door. *)
Theorem registerDoor_once position direction elementId initialState seed doors :
  let doors' := fst (DoorRegistry.registerDoor position direction elementId
                       initialState seed doors) in
  fst (DoorRegistry.registerDoor position direction elementId initialState seed
         doors') = doors'
  /\ DoorRegistry.getDoorCount doors'
     = DoorRegistry.getDoorCount doors
       + (if DoorRegistry.hasDoor doors position direction then 0 else 1).
Proof.
  unfold DoorRegistry.registerDoor, DoorRegistry.hasDoor, DoorRegistry.getDoorCount,
    array_length.
  set (k := DoorRegistry.createDoorId position direction).
  destruct (DoorRegistry.get k doors) as [old|] eqn:Hget; simpl.
  - rewrite get_set_eq. simpl. rewrite addConnectedElement_idem, set_set.
    split; [reflexivity|]. rewrite set_length, Hget. simpl. lia.
  - rewrite get_set_eq. simpl. rewrite set_set. split.
    + f_equal. unfold DoorRegistry.addConnectedElement, DoorRegistry.includes. simpl.
      rewrite bool_decide_eq_true_2; [reflexivity|]. apply elem_of_cons. auto.
    + rewrite set_length, Hget. simpl. lia.
Qed.

(** [updateDoorState] and [getDoorState]: the update reports whether the
    id has a door; if it has, the door reads back with the new state at its
    location and nothing else changed; if not, the registry is unchanged and
    the location reads [Closed], the default of a missing door. *)
Theorem updateDoorState_getDoorState position direction state doors :
  let globalId := DoorRegistry.createDoorId position direction in
  let r := DoorRegistry.updateDoorState globalId state doors in
  snd r = DoorRegistry.hasDoor doors position direction
  /\ (if snd r
      then DoorRegistry.getDoorState (fst r) position direction = state
           /\ DoorRegistry.isDoorGenerated (fst r) position direction
              = DoorRegistry.isDoorGenerated doors position direction
      else fst r = doors
           /\ DoorRegistry.getDoorState doors position direction = Closed)
  /\ forall other,
       other <> globalId ->
       DoorRegistry.getDoor (fst r) other = DoorRegistry.getDoor doors other.
Proof.
  unfold DoorRegistry.updateDoorState, DoorRegistry.hasDoor,
    DoorRegistry.getDoorState, DoorRegistry.isDoorGenerated,
    DoorRegistry.getDoorByLocation, DoorRegistry.getDoor.
  set (k := DoorRegistry.createDoorId position direction).
  destruct (DoorRegistry.get k doors) as [old|] eqn:Hget; simpl.
  - rewrite get_set_eq. simpl. split; [reflexivity|].
    split; [auto|]. intros o Ho. apply get_set_ne. auto.
  - rewrite ?Hget. split; [reflexivity|]. auto.
Qed.

Lemma connectPoint_stable elementId doors doors' cp :
  (forall k,
      DoorRegistry.get k doors' = DoorRegistry.get k doors
      \/ exists d, DoorRegistry.get k doors = Some d
                   /\ DoorRegistry.get k doors'
                      = Some (DoorRegistry.addConnectedElement elementId d)) ->
  connectPoint elementId doors' cp = connectPoint elementId doors cp.
Proof.
  intros H. unfold connectPoint, DoorRegistry.getDoorByLocation.
  destruct (H (DoorRegistry.createDoorId (cp_position cp) (cp_direction cp)))
    as [-> | (d & -> & ->)]; [reflexivity|].
  rewrite addConnectedElement_idem.
  now destruct (addConnectedElement_same elementId d) as (_ & _ & ->).
Qed.

Lemma connectStep_eq elementId doors acc cp :
  DoorRegistry.connectStep elementId (doors, acc) cp
  = (match DoorRegistry.get (keyOf cp) doors with
     | Some d =>
         DoorRegistry.set (keyOf cp) (DoorRegistry.addConnectedElement elementId d)
           doors
     | None => doors
     end,
     acc ++ [connectPoint elementId doors cp]).
Proof.
  unfold DoorRegistry.connectStep, connectPoint, DoorRegistry.getDoorByLocation.
  fold (keyOf cp). destruct (DoorRegistry.get (keyOf cp) doors) as [d|];
    [|reflexivity].
  now destruct (addConnectedElement_same elementId d) as (_ & _ & ->).
Qed.

Lemma connect_points_fold elementId cps : forall doors acc,
  snd (fold_left (DoorRegistry.connectStep elementId) cps (doors, acc))
  = acc ++ (connectPoint elementId doors <$> cps).
Proof.
  induction cps as [|cp cps IH]; intros doors acc.
  - simpl. now rewrite app_nil_r.
  - change (fold_left ?f (cp :: cps) ?a) with (fold_left f cps (f a cp)).
    rewrite connectStep_eq, IH, fmap_cons, <- app_assoc. simpl. do 2 f_equal.
    apply list_fmap_ext. intros _ cp' _. apply connectPoint_stable.
    intros k. destruct (DoorRegistry.get (keyOf cp) doors) as [d|] eqn:Hget;
      [|auto].
    destruct (decide (k = keyOf cp)) as [-> | Hne].
    + right. exists d. split; [exact Hget|]. apply get_set_eq.
    + left. apply get_set_ne. auto.
Qed.

(** The points [connectElementToExistingDoors] returns are computed point
    by point from the registry as it was before the call: a point whose
    location has no door is returned as it is; one whose location has a door
    comes back connected, with the door's generated flag and the first element
    of the door's list (the element itself if the list was empty). *)
Theorem connectElementToExistingDoors_points elementId connectionPoints doors :
  snd (DoorRegistry.connectElementToExistingDoors elementId connectionPoints doors)
  = connectPoint elementId doors <$> connectionPoints.
Proof.
  unfold DoorRegistry.connectElementToExistingDoors.
  now rewrite connect_points_fold.
Qed.

Lemma omap_none {A B} (f : A -> option B) (l : list A) :
  (forall x, x ∈ l -> f x = None) -> omap f l = [].
Proof.
  induction l as [|x l IH]; intros H; simpl; [reflexivity|].
  rewrite (H x) by (apply elem_of_cons; auto).
  apply IH. intros y Hy. apply H, elem_of_cons. auto.
Qed.

(** After [connectElementToExistingDoors], [findConnectableDoors] finds
    nothing left to connect for the same element and points. *)
Theorem connect_then_no_connectable elementId connectionPoints doors :
  DoorRegistry.findConnectableDoors
    (fst (DoorRegistry.connectElementToExistingDoors elementId connectionPoints
            doors))
    elementId connectionPoints = [].
Proof.
  destruct (DoorRegistry.connectElementToExistingDoors elementId connectionPoints
              doors) as [doors' updated] eqn:Hc.
  apply connectElementToExistingDoors_spec in Hc as [_ Hget]. simpl.
  unfold DoorRegistry.findConnectableDoors. apply omap_none. intros cp Hcp.
  unfold DoorRegistry.getDoorByLocation. fold (keyOf cp). rewrite Hget.
  destruct (DoorRegistry.get (keyOf cp) doors) as [d|]; simpl; [|reflexivity].
  unfold joinIf. rewrite bool_decide_eq_true_2 by now apply list_elem_of_fmap_2.
  unfold DoorRegistry.includes.
  rewrite bool_decide_eq_true_2 by apply addConnectedElement_elem. reflexivity.
Qed.

Lemma omap_cons_eq {A B} (f : A -> option B) (x : A) (l : list A) :
  omap f (x :: l) = match f x with Some y => y :: omap f l | None => omap f l end.
Proof. reflexivity. Qed.

Lemma get_cons k k0 d0 doors :
  DoorRegistry.get k ((k0, d0) :: doors)
  = if bool_decide (k0 = k) then Some d0 else DoorRegistry.get k doors.
Proof. reflexivity. Qed.

Lemma get_omap (f : string * SharedDoor -> option (string * SharedDoor)) doors k :
  (forall e e', f e = Some e' -> fst e' = fst e) ->
  NoDup (fst <$> doors) ->
  DoorRegistry.get k (omap f doors)
  = d ← DoorRegistry.get k doors; snd <$> f (k, d).
Proof.
  intros Hf. induction doors as [|[k0 d0] doors IH]; intros Hnd; [reflexivity|].
  rewrite fmap_cons in Hnd. apply NoDup_cons in Hnd as [Hk0 Hnd]. simpl in Hk0.
  rewrite omap_cons_eq, get_cons. destruct (decide (k0 = k)) as [-> | Hne].
  - rewrite (bool_decide_eq_true_2 (k = k)) by reflexivity. simpl.
    destruct (f (k, d0)) as [[k' d']|] eqn:Hfe; simpl.
    + pose proof (Hf _ _ Hfe) as Hk. simpl in Hk. subst k'.
      now rewrite bool_decide_eq_true_2.
    + rewrite IH by exact Hnd.
      apply get_None_key in Hk0. now rewrite Hk0.
  - rewrite (bool_decide_eq_false_2 (k0 = k)) by exact Hne.
    destruct (f (k0, d0)) as [[k' d']|] eqn:Hfe; [|auto].
    pose proof (Hf _ _ Hfe) as Hk. simpl in Hk. subst k'.
    rewrite get_cons, bool_decide_eq_false_2 by exact Hne. auto.
Qed.

Lemma spliceFirst_filter i ids :
  NoDup ids ->
  DoorRegistry.spliceFirst i ids
  = List.filter (fun j => negb (bool_decide (j = i))) ids.
Proof.
  induction ids as [|x ids IH]; simpl; intros Hnd; [reflexivity|].
  apply NoDup_cons in Hnd as [Hx Hnd]. case_bool_decide as Hi; simpl.
  - subst x. symmetry. clear IH. induction ids as [|y ids IH]; [reflexivity|].
    simpl. apply NoDup_cons in Hnd as [_ Hnd].
    rewrite bool_decide_eq_false_2; [simpl; f_equal; apply IH; auto|].
    + intros H. apply Hx. apply elem_of_cons. auto.
    + intros ->. apply Hx. apply elem_of_cons. auto.
  - now rewrite IH.
Qed.

Lemma spliceFirst_nil i ids :
  NoDup ids -> i ∈ ids -> DoorRegistry.spliceFirst i ids = [] <-> ids = [i].
Proof.
  intros Hnd Hin. destruct ids as [|x ids]; [now apply elem_of_nil in Hin|].
  simpl. case_bool_decide as Hx.
  - subst. split; [now intros ->|now intros [= ->]].
  - split; [discriminate|]. intros [= -> ->]. congruence.
Qed.

Lemma filter_none {A} (f : A -> bool) (l : list A) :
  (forall x, x ∈ l -> f x = false) -> List.filter f l = [].
Proof.
  induction l as [|x l IH]; intros H; simpl; [reflexivity|].
  rewrite (H x) by (apply elem_of_cons; auto).
  apply IH. intros y Hy. apply H, elem_of_cons. auto.
Qed.

(** [removeElementFromDoors] on a well-formed registry: afterwards no door
    lists the element; a door that listed only this element is gone; a door
    shared with others stays at its location with its state and generated
    flag, listing the others in their order; every other door is untouched. *)
Theorem removeElementFromDoors_spec elementId doors :
  registryOk doors ->
  let doors' := DoorRegistry.removeElementFromDoors elementId doors in
  DoorRegistry.getDoorsForElement doors' elementId = []
  /\ forall globalId,
       match DoorRegistry.getDoor doors globalId with
       | None => DoorRegistry.getDoor doors' globalId = None
       | Some door =>
           if bool_decide (elementId ∈ door_connectedElements door) then
             if bool_decide (door_connectedElements door = [elementId]) then
               DoorRegistry.getDoor doors' globalId = None
             else
               DoorRegistry.getDoor doors' globalId
               = Some (DoorRegistry.setConnectedElements
                         (List.filter (fun j => negb (bool_decide (j = elementId)))
                            (door_connectedElements door))
                         door)
           else DoorRegistry.getDoor doors' globalId = Some door
       end.
Proof.
  intros Hok doors'. pose proof Hok as [Hnd Hall]. split.
  - unfold DoorRegistry.getDoorsForElement. apply filter_none.
    intros d' Hd'. apply list_elem_of_fmap in Hd' as ([k' d0] & -> & He).
    apply list_elem_of_omap in He as ([k d] & He & Hf). simpl.
    rewrite Forall_forall in Hall. destruct (Hall _ He) as (_ & _ & Hndd & _).
    simpl in Hndd. unfold DoorRegistry.removeFromDoor in Hf.
    unfold DoorRegistry.includes in *.
    case_bool_decide as Hin.
    + destruct (_ =? _); [discriminate|]. injection Hf as <- <-. simpl.
      apply bool_decide_eq_false_2. now apply spliceFirst_NoDup.
    + injection Hf as <- <-. now apply bool_decide_eq_false_2.
  - intros k. unfold DoorRegistry.getDoor. subst doors'.
    unfold DoorRegistry.removeElementFromDoors.
    rewrite get_omap; [|apply removeFromDoor_key|exact Hnd].
    destruct (DoorRegistry.get k doors) as [d|] eqn:Hget; [|reflexivity].
    simpl. destruct (get_ok _ _ _ Hok Hget) as (_ & _ & Hndd & _). simpl in Hndd.
    unfold DoorRegistry.includes.
    case_bool_decide as Hin; [|reflexivity].
    case_bool_decide as Hone.
    + rewrite Hone. simpl. rewrite bool_decide_eq_true_2 by reflexivity. reflexivity.
    + destruct (array_length _ =? 0) eqn:Hlen.
      * exfalso. apply Hone. apply (spliceFirst_nil elementId); auto.
        apply Z.eqb_eq in Hlen. unfold array_length in Hlen.
        destruct (DoorRegistry.spliceFirst _ _); [reflexivity|simpl in Hlen; lia].
      * simpl. now rewrite spliceFirst_filter.
Qed.

Lemma removeElementFromDoors_spec_witness :
  let doors := fst (DoorRegistry.registerDoor (mkPosition 10 5) North "room-02"
                      Closed None
                      (fst (DoorRegistry.registerDoor (mkPosition 10 5) North
                              "room-01" Closed None (DoorRegistry.clear [])))) in
  DoorRegistry.getDoorsForElement
    (DoorRegistry.removeElementFromDoors "room-01" doors) "room-01" = []
  /\ forall globalId,
       match DoorRegistry.getDoor doors globalId with
       | None =>
           DoorRegistry.getDoor
             (DoorRegistry.removeElementFromDoors "room-01" doors) globalId = None
       | Some door =>
           if bool_decide ("room-01" ∈ door_connectedElements door) then
             if bool_decide (door_connectedElements door = ["room-01"]) then
               DoorRegistry.getDoor
                 (DoorRegistry.removeElementFromDoors "room-01" doors) globalId
               = None
             else
               DoorRegistry.getDoor
                 (DoorRegistry.removeElementFromDoors "room-01" doors) globalId
               = Some (DoorRegistry.setConnectedElements
                         (List.filter (fun j => negb (bool_decide (j = "room-01")))
                            (door_connectedElements door))
                         door)
           else DoorRegistry.getDoor
                  (DoorRegistry.removeElementFromDoors "room-01" doors) globalId
                = Some door
       end.
Proof.
  intros doors.
  apply (removeElementFromDoors_spec "room-01" doors).
  apply built_ok. apply built_registerDoor, built_registerDoor, built_clear.
Defined.

Lemma omap_id_on {A} (f : A -> option A) (l : list A) :
  (forall x, x ∈ l -> f x = Some x) -> omap f l = l.
Proof.
  induction l as [|x l IH]; intros H; simpl; [reflexivity|].
  rewrite (H x) by (apply elem_of_cons; auto). simpl. f_equal.
  apply IH. intros y Hy. apply H, elem_of_cons. auto.
Qed.

Lemma spliceFirst_snoc i ids : i ∉ ids -> DoorRegistry.spliceFirst i (ids ++ [i]) = ids.
Proof.
  induction ids as [|x ids IH]; simpl; intros Hout.
  - now rewrite bool_decide_eq_true_2.
  - rewrite bool_decide_eq_false_2.
    + f_equal. apply IH. intros H. apply Hout, elem_of_cons. auto.
    + intros ->. apply Hout, elem_of_cons. auto.
Qed.

Lemma removeFromDoor_absent i k d :
  i ∉ door_connectedElements d -> DoorRegistry.removeFromDoor i (k, d) = Some (k, d).
Proof.
  intros H. unfold DoorRegistry.removeFromDoor, DoorRegistry.includes.
  now rewrite bool_decide_eq_false_2.
Qed.

Lemma set_cons k d k0 d0 doors :
  DoorRegistry.set k d ((k0, d0) :: doors)
  = if bool_decide (k0 = k) then (k0, d) :: doors
    else (k0, d0) :: DoorRegistry.set k d doors.
Proof. reflexivity. Qed.

Lemma omap_set i k d d' doors :
  (forall e, e ∈ doors -> e <> (k, d) -> DoorRegistry.removeFromDoor i e = Some e) ->
  DoorRegistry.get k doors = Some d ->
  DoorRegistry.removeFromDoor i (k, d') = Some (k, d) ->
  NoDup (fst <$> doors) ->
  omap (DoorRegistry.removeFromDoor i) (DoorRegistry.set k d' doors) = doors.
Proof.
  intros Hother Hget Hd' Hnd.
  induction doors as [|[k0 d0] doors IH]; [discriminate|].
  rewrite fmap_cons in Hnd. apply NoDup_cons in Hnd as [Hk0 Hnd]. simpl in Hk0.
  rewrite get_cons in Hget. rewrite set_cons.
  destruct (decide (k0 = k)) as [-> | Hne].
  - rewrite (bool_decide_eq_true_2 (k = k)) in * by reflexivity.
    injection Hget as ->. rewrite omap_cons_eq, Hd'. f_equal.
    apply omap_id_on. intros e He. apply Hother; [apply elem_of_cons; auto|].
    intros ->. apply Hk0. now apply (list_elem_of_fmap_2 fst _ (k, d)).
  - rewrite (bool_decide_eq_false_2 (k0 = k)) in * by exact Hne.
    rewrite omap_cons_eq, Hother; [|apply elem_of_cons; auto|congruence]. f_equal.
    apply IH; auto. intros e He. apply Hother, elem_of_cons. auto.
Qed.

(** Registering an element that no door lists and then removing it gives
    the registry back, entry for entry. *)
Theorem register_then_remove position direction elementId initialState seed doors :
  registryOk doors ->
  (forall door, door ∈ DoorRegistry.getAllDoors doors ->
                elementId ∉ door_connectedElements door) ->
  DoorRegistry.removeElementFromDoors elementId
    (fst (DoorRegistry.registerDoor position direction elementId initialState seed
            doors))
  = doors.
Proof.
  intros Hok Hfree.
  assert (Hid : forall e, e ∈ doors -> DoorRegistry.removeFromDoor elementId e = Some e).
  { intros [k d] He. apply removeFromDoor_absent. apply Hfree.
    unfold DoorRegistry.getAllDoors. now apply (list_elem_of_fmap_2 snd _ (k, d)). }
  unfold DoorRegistry.registerDoor, DoorRegistry.removeElementFromDoors.
  set (k := DoorRegistry.createDoorId position direction).
  destruct (DoorRegistry.get k doors) as [d|] eqn:Hget; simpl.
  - apply (omap_set elementId k d); auto; [|apply Hok].
    destruct (get_ok _ _ _ Hok Hget) as (_ & _ & _ & Hne). simpl in Hne.
    assert (Hout : elementId ∉ door_connectedElements d).
    { apply Hfree. unfold DoorRegistry.getAllDoors.
      apply (list_elem_of_fmap_2 snd _ (k, d)). now apply get_elem. }
    unfold DoorRegistry.removeFromDoor, DoorRegistry.addConnectedElement,
      DoorRegistry.includes.
    rewrite (bool_decide_eq_false_2 _ Hout). simpl.
    rewrite bool_decide_eq_true_2
      by (apply elem_of_app; right; apply elem_of_cons; auto).
    rewrite spliceFirst_snoc by exact Hout.
    destruct (array_length _ =? 0) eqn:Hlen.
    + apply Z.eqb_eq in Hlen. unfold array_length in Hlen.
      destruct (door_connectedElements d); [congruence|simpl in Hlen; lia].
    + unfold DoorRegistry.setConnectedElements. simpl. now destruct d.
  - rewrite set_absent by exact Hget. rewrite omap_app, omap_id_on by exact Hid.
    simpl. unfold DoorRegistry.includes. simpl.
    rewrite bool_decide_eq_true_2 by (apply elem_of_cons; auto). simpl.
    rewrite bool_decide_eq_true_2 by reflexivity. simpl. now rewrite app_nil_r.
Qed.

Lemma register_then_remove_witness :
  DoorRegistry.removeElementFromDoors "room-02"
    (fst (DoorRegistry.registerDoor (mkPosition 10 5) North "room-02" Closed None
            (fst (DoorRegistry.registerDoor (mkPosition 10 5) North "room-01"
                    Closed None (DoorRegistry.clear [])))))
  = fst (DoorRegistry.registerDoor (mkPosition 10 5) North "room-01" Closed None
           (DoorRegistry.clear [])).
Proof.
  apply register_then_remove.
  - apply built_ok, built_registerDoor, built_clear.
  - intros door Hd. vm_compute in Hd. apply list_elem_of_singleton in Hd as ->.
    simpl. intros Hin. apply list_elem_of_singleton in Hin. discriminate.
Defined.

(** On a well-formed registry [hasConflictingDoors] holds exactly when the
    position has doors to the north and to the south, or to the east and to
    the west. *)
Theorem hasConflictingDoors_spec doors position :
  registryOk doors ->
  DoorRegistry.hasConflictingDoors doors position
  = (DoorRegistry.hasDoor doors position North
     && DoorRegistry.hasDoor doors position South)
    || (DoorRegistry.hasDoor doors position East
        && DoorRegistry.hasDoor doors position West).
Proof.
  intros Hok.
  assert (Hdir : forall dir d,
             DoorRegistry.getDoorByLocation doors position dir = Some d ->
             loc_direction (door_location d) = dir).
  { intros dir d Hget. destruct (get_ok _ _ _ Hok Hget) as (Hk & _). simpl in Hk.
    apply createDoorId_inj in Hk as [_ ->]. reflexivity. }
  unfold DoorRegistry.hasConflictingDoors, DoorRegistry.hasDoor.
  unfold DoorRegistry.getDoorByLocation in *.
  simpl omap.
  destruct (DoorRegistry.get (DoorRegistry.createDoorId position North) doors)
    as [dn|] eqn:Hn;
  destruct (DoorRegistry.get (DoorRegistry.createDoorId position South) doors)
    as [ds|] eqn:Hs;
  destruct (DoorRegistry.get (DoorRegistry.createDoorId position East) doors)
    as [de|] eqn:He;
  destruct (DoorRegistry.get (DoorRegistry.createDoorId position West) doors)
    as [dw|] eqn:Hw;
  simpl;
  rewrite ?(Hdir North dn Hn), ?(Hdir South ds Hs), ?(Hdir East de He),
    ?(Hdir West dw Hw);
  reflexivity.
Qed.

Lemma hasConflictingDoors_spec_witness :
  let doors :=
    fst (DoorRegistry.registerDoor (mkPosition 10 5) South "room-02" Closed None
           (fst (DoorRegistry.registerDoor (mkPosition 10 5) North "room-01"
                   Closed None (DoorRegistry.clear [])))) in
  DoorRegistry.hasConflictingDoors doors (mkPosition 10 5)
  = (DoorRegistry.hasDoor doors (mkPosition 10 5) North
     && DoorRegistry.hasDoor doors (mkPosition 10 5) South)
    || (DoorRegistry.hasDoor doors (mkPosition 10 5) East
        && DoorRegistry.hasDoor doors (mkPosition 10 5) West).
Proof.
  intros doors. apply (hasConflictingDoors_spec doors (mkPosition 10 5)).
  apply built_ok, built_registerDoor, built_registerDoor, built_clear.
Defined.

(** ** The grid occupancy tracker *)

Lemma nth_error_lookup {A} (l : list A) n : nth_error l n = l !! n.
Proof. revert n. induction l as [|x l IH]; intros [|n]; simpl; auto. Qed.

Lemma array_get_lookup {A} (a : list A) i :
  array_get a i = if i <? 0 then None else a !! Z.to_nat i.
Proof. unfold array_get. now rewrite nth_error_lookup. Qed.

Lemma array_get_cons {A} (x : A) l i :
  array_get (x :: l) i = if i =? 0 then Some x else array_get l (i - 1).
Proof.
  unfold array_get. destruct (Z.ltb_spec i 0) as [Hneg | Hpos].
  - destruct (Z.eqb_spec i 0); [lia|]. destruct (Z.ltb_spec (i - 1) 0); [reflexivity|lia].
  - destruct (Z.eqb_spec i 0) as [-> | Hne]; [reflexivity|].
    destruct (Z.ltb_spec (i - 1) 0); [lia|].
    replace (Z.to_nat i) with (S (Z.to_nat (i - 1))) by lia. reflexivity.
Qed.

Lemma array_get_nil {A} i : array_get (@nil A) i = None.
Proof. unfold array_get. destruct (i <? 0); [reflexivity|]. now destruct (Z.to_nat i). Qed.

Lemma array_get_fmap_seqZ {A} (f : Z -> A) n i :
  array_get (f <$> seqZ 0 n) i
  = if (0 <=? i) && (i <? n) then Some (f i) else None.
Proof.
  rewrite array_get_lookup, list_lookup_fmap.
  destruct (Z.ltb_spec i 0) as [Hneg | Hpos].
  - destruct (Z.leb_spec 0 i); [lia|reflexivity].
  - destruct (Z.leb_spec 0 i); [|lia]. simpl.
    destruct (Z.ltb_spec i n) as [Hlt | Hge].
    + rewrite lookup_seqZ_lt by lia. simpl. f_equal. f_equal. lia.
    + rewrite lookup_seqZ_ge by lia. reflexivity.
Qed.

Lemma row_cells_elem row : forall wx wy q,
  q ∈ GridManager.row_cells row wx wy
  <-> pos_y q = wy /\ array_get row (pos_x q - wx) = Some true.
Proof.
  induction row as [|b row IH]; intros wx wy q; simpl.
  - rewrite array_get_nil. split; [intros H%elem_of_nil; tauto|intros [_ H]; discriminate].
  - rewrite elem_of_app, IH, array_get_cons.
    replace (pos_x q - (wx + 1)) with (pos_x q - wx - 1) by lia.
    destruct (Z.eqb_spec (pos_x q - wx) 0) as [Hz | Hnz].
    + assert (Hnone : array_get row (pos_x q - wx - 1) = None).
      { unfold array_get. destruct (Z.ltb_spec (pos_x q - wx - 1) 0); [reflexivity|lia]. }
      rewrite Hnone. destruct b; split.
      * intros [->%list_elem_of_singleton | [_ H]]; [simpl; auto|discriminate].
      * intros [Hy _]. left. apply list_elem_of_singleton.
        destruct q as [x y]; simpl in *. f_equal; lia.
      * intros [H%elem_of_nil | [_ H]]; [tauto|discriminate].
      * intros [_ H]. discriminate.
    + split.
      * intros [H | H]; [|exact H]. destruct b; [|now apply elem_of_nil in H].
        apply list_elem_of_singleton in H as ->. simpl in Hnz. lia.
      * auto.
Qed.

Lemma pattern_cells_elem pat : forall ox oy q,
  q ∈ GridManager.pattern_cells pat ox oy
  <-> patternCell pat (pos_y q - oy) (pos_x q - ox) = Some true.
Proof.
  unfold patternCell.
  induction pat as [|row pat IH]; intros ox oy q; simpl.
  - rewrite array_get_nil. simpl. split; [intros H%elem_of_nil; tauto|discriminate].
  - rewrite elem_of_app, IH, row_cells_elem, array_get_cons.
    replace (pos_y q - (oy + 1)) with (pos_y q - oy - 1) by lia.
    destruct (Z.eqb_spec (pos_y q - oy) 0) as [Hz | Hnz]; simpl.
    + assert (Hnone : array_get pat (pos_y q - oy - 1) = None).
      { unfold array_get. destruct (Z.ltb_spec (pos_y q - oy - 1) 0); [reflexivity|lia]. }
      rewrite Hnone. simpl. split.
      * intros [[_ H] | H]; [exact H|discriminate].
      * intros H. left. split; [lia|exact H].
    + split.
      * intros [[Hy _] | H]; [lia|exact H].
      * auto.
Qed.

Lemma cellKey_positionKey x y :
  GridManager.cellKey x y = BlockExpansionEngine.positionKey (mkPosition x y).
Proof. reflexivity. Qed.

(** The occupancy key [`${x},${y}`] is collision free: two cells have the
    same key exactly when they are the same cell. *)
Theorem cellKey_canonical x y x' y' :
  GridManager.cellKey x y = GridManager.cellKey x' y' <-> x = x' /\ y = y'.
Proof.
  split; [|now intros [-> ->]].
  rewrite !cellKey_positionKey. intros H%positionKey_inj. now injection H.
Qed.

Lemma cellKey_elem (cells : list Position) q :
  (exists c, c ∈ cells /\ GridManager.cellKey (pos_x q) (pos_y q)
                          = GridManager.cellKey (pos_x c) (pos_y c))
  <-> q ∈ cells.
Proof.
  split.
  - intros (c & Hc & Hk). rewrite !cellKey_positionKey in Hk.
    apply positionKey_inj in Hk. destruct q, c; simpl in *. congruence.
  - intros H. eauto.
Qed.

Lemma isPositionOccupied_add (cells : list Position) g size q :
  GridManager.isPositionOccupied
    (GridManager.mk (GridManager.add_cells cells (GridManager.occupiedPositions g)) size)
    q = true
  <-> GridManager.isPositionOccupied g q = true \/ q ∈ cells.
Proof.
  unfold GridManager.isPositionOccupied. simpl.
  rewrite !bool_decide_eq_true, add_cells_elem, cellKey_elem. reflexivity.
Qed.

(** Marking a corridor occupies exactly the cells of its path on top of
    what was occupied, and leaves the bounds of the grid alone. *)
Theorem markCorridorAsOccupied_occupied corridor g q :
  (GridManager.isPositionOccupied (GridManager.markCorridorAsOccupied corridor g) q
   = true
   <-> GridManager.isPositionOccupied g q = true \/ q ∈ cor_path corridor)
  /\ GridManager.isWithinBounds (GridManager.markCorridorAsOccupied corridor g) q
     = GridManager.isWithinBounds g q.
Proof.
  split; [apply isPositionOccupied_add|reflexivity].
Qed.

(** Marking a room occupies, on top of what was occupied: for a room with
    its own pattern, the cells whose entry in the pattern (relative to the
    room's position) is [true]; for a room without pattern whose template is
    found, the cells of the template's pattern; for a room without pattern
    whose template is not found, the full rectangle of the room. *)
Theorem markRoomAsOccupied_occupied getRoomTemplateById room g q :
  let after := GridManager.markRoomAsOccupied getRoomTemplateById room g in
  let relY := pos_y q - pos_y (room_position room) in
  let relX := pos_x q - pos_x (room_position room) in
  (forall pattern,
      room_gridPattern room = Some pattern ->
      (GridManager.isPositionOccupied after q = true
       <-> GridManager.isPositionOccupied g q = true
           \/ patternCell pattern relY relX = Some true))
  /\ (forall templateId template,
        room_gridPattern room = None ->
        room_templateId room = Some templateId -> templateId <> "" ->
        getRoomTemplateById templateId = Some template ->
        (GridManager.isPositionOccupied after q = true
         <-> GridManager.isPositionOccupied g q = true
             \/ patternCell (tpl_gridPattern template) relY relX = Some true))
  /\ (room_gridPattern room = None ->
      room_templateId room ≫= getRoomTemplateById = None ->
      (GridManager.isPositionOccupied after q = true
       <-> GridManager.isPositionOccupied g q = true
           \/ (0 <= relX < room_width room /\ 0 <= relY < room_height room))).
Proof.
  intros after relY relX. subst after.
  unfold GridManager.markRoomAsOccupied. split; [|split].
  - intros pattern Hpat. rewrite isPositionOccupied_add.
    unfold GridManager.room_cells. rewrite Hpat, pattern_cells_elem. reflexivity.
  - intros tid tpl Hpat Htid Hne Htpl. rewrite isPositionOccupied_add.
    unfold GridManager.room_cells. rewrite Hpat, Htid.
    rewrite bool_decide_eq_false_2 by exact Hne.
    rewrite Htpl, pattern_cells_elem. reflexivity.
  - intros Hpat Htpl. rewrite isPositionOccupied_add.
    unfold GridManager.room_cells. rewrite Hpat.
    assert (Hnone : match room_templateId room with
                    | Some tid => if bool_decide (tid = "") then None
                                  else getRoomTemplateById tid
                    | None => None
                    end = None).
    { destruct (room_templateId room) as [tid|]; [|reflexivity].
      simpl in Htpl. now case_bool_decide. }
    rewrite Hnone, rectangle_cells_elem. subst relX relY. split.
    + intros [H | H]; [auto|right; lia].
    + intros [H | H]; [auto|right; lia].
Qed.

Lemma markRoomAsOccupied_occupied_witness :
  let room := mkRoom "room-01" Rectangle Standard Small (mkPosition 6 5) 2 1 []
                None true (Some [[true; false]]) in
  let g := GridManager.mk ∅ 30 in
  let q := mkPosition 6 5 in
  GridManager.isPositionOccupied
    (GridManager.markRoomAsOccupied exampleTemplateById room g) q = true
  <-> GridManager.isPositionOccupied g q = true
      \/ patternCell [[true; false]] (pos_y q - pos_y (room_position room))
           (pos_x q - pos_x (room_position room)) = Some true.
Proof.
  intros room g q.
  apply (proj1 (markRoomAsOccupied_occupied exampleTemplateById room g q)
           [[true; false]]).
  reflexivity.
Defined.

Lemma availableCell_at g position width height ly lx :
  patternCell (GridManager.getAvailableRoomArea g position width height) ly lx
  = if (0 <=? ly) && (ly <? height) && (0 <=? lx) && (lx <? width)
    then Some (cellFree g (mkPosition (pos_x position + lx) (pos_y position + ly)))
    else None.
Proof.
  unfold patternCell, GridManager.getAvailableRoomArea.
  rewrite array_get_fmap_seqZ.
  destruct ((0 <=? ly) && (ly <? height)); simpl; [|reflexivity].
  rewrite array_get_fmap_seqZ.
  destruct ((0 <=? lx) && (lx <? width)); reflexivity.
Qed.

(** The grid [getAvailableRoomArea] returns has [height] rows of [width]
    cells (none for a negative size), and the cell at local [(lx, ly)] tells
    whether the world cell [position + (lx, ly)] is inside the grid and
    unoccupied. *)
Theorem getAvailableRoomArea_cell g position width height ly lx :
  patternCell (GridManager.getAvailableRoomArea g position width height) ly lx
  = if (0 <=? ly) && (ly <? height) && (0 <=? lx) && (lx <? width)
    then Some (cellFree g (mkPosition (pos_x position + lx) (pos_y position + ly)))
    else None.
Proof. apply availableCell_at. Qed.

Lemma forallb_elem {A} (f : A -> bool) (l : list A) :
  forallb f l = true <-> forall x, x ∈ l -> f x = true.
Proof.
  rewrite forallb_forall. split; intros H x Hx; apply H; now apply list_elem_of_In.
Qed.

Lemma isAreaAvailable_cells g position width height :
  GridManager.isAreaAvailable g position width height = true
  <-> forall q,
        pos_x position <= pos_x q < pos_x position + width ->
        pos_y position <= pos_y q < pos_y position + height ->
        GridManager.isWithinBounds g q = true
        /\ GridManager.isPositionOccupied g q = false.
Proof.
  unfold GridManager.isAreaAvailable. rewrite forallb_elem. split.
  - intros H q Hx Hy. specialize (H q). rewrite rectangle_cells_elem in H.
    specialize (H (conj Hx Hy)).
    destruct (GridManager.isWithinBounds g q), (GridManager.isPositionOccupied g q);
      simpl in H; auto; discriminate.
  - intros H q [Hx Hy]%rectangle_cells_elem. destruct (H q Hx Hy) as [-> ->].
    reflexivity.
Qed.

(** [isAreaAvailable] holds exactly when every cell of the rectangle is
    inside the grid and unoccupied; an empty rectangle is available. *)
Theorem isAreaAvailable_spec g position width height :
  GridManager.isAreaAvailable g position width height = true
  <-> forall q,
        pos_x position <= pos_x q < pos_x position + width ->
        pos_y position <= pos_y q < pos_y position + height ->
        GridManager.isWithinBounds g q = true
        /\ GridManager.isPositionOccupied g q = false.
Proof. apply isAreaAvailable_cells. Qed.

Lemma count_row (row : list bool) : forall n,
  fold_left (fun n (cell : bool) => if cell then n + 1 else n) row n
  = n + Z.of_nat (length (List.filter (fun b => b) row)).
Proof.
  induction row as [|b row IH]; intros n; simpl; [lia|].
  rewrite IH. destruct b; simpl; lia.
Qed.

Lemma count_grid (grid : list (list bool)) : forall n,
  fold_left (fun availableSquares row =>
      fold_left (fun n (cell : bool) => if cell then n + 1 else n) row
        availableSquares) grid n
  = n + Z.of_nat (length (List.filter (fun b => b) (concat grid))).
Proof.
  induction grid as [|row grid IH]; intros n; simpl; [lia|].
  rewrite IH, count_row, List.filter_app, length_app. lia.
Qed.

Lemma hasMinimumSpace_true grid :
  RoomIntegrationValidator.hasMinimumSpace grid = true
  <-> exists ly lx, patternCell grid ly lx = Some true.
Proof.
  unfold RoomIntegrationValidator.hasMinimumSpace. rewrite count_grid.
  rewrite Z.leb_le. split.
  - intros H.
    destruct (List.filter (fun b => b) (concat grid)) as [|b l] eqn:Hf;
      [simpl in H; lia|].
    assert (Hb : b ∈ List.filter (fun b => b) (concat grid))
      by (rewrite Hf; apply elem_of_cons; auto).
    apply list_elem_of_In, filter_In in Hb as [Hin ->].
    apply in_concat in Hin as (row & Hrow & Hcell).
    apply list_elem_of_In, list_elem_of_lookup in Hrow as [i Hi].
    apply list_elem_of_In, list_elem_of_lookup in Hcell as [j Hj].
    exists (Z.of_nat i), (Z.of_nat j). unfold patternCell.
    rewrite !array_get_lookup.
    destruct (Z.ltb_spec (Z.of_nat i) 0); [lia|]. rewrite Nat2Z.id, Hi. simpl.
    rewrite array_get_lookup.
    destruct (Z.ltb_spec (Z.of_nat j) 0); [lia|]. now rewrite Nat2Z.id.
  - intros (ly & lx & H). unfold patternCell in H.
    destruct (array_get grid ly) as [row|] eqn:Hrow; [|discriminate].
    change (array_get row lx = Some true) in H.
    rewrite array_get_lookup in Hrow. rewrite array_get_lookup in H.
    destruct (ly <? 0); [discriminate|]. destruct (lx <? 0); [discriminate|].
    apply list_elem_of_lookup_2, list_elem_of_In in Hrow, H.
    assert (Hin : In true (List.filter (fun b => b) (concat grid))).
    { apply filter_In. split; [|reflexivity]. apply in_concat. eauto. }
    destruct (List.filter _ _); [destruct Hin|simpl; lia].
Qed.

(** The first check of [validateRoomPlacement]: the area returned by
    [getAvailableRoomArea] has the minimum space exactly when some cell of the
    rectangle is inside the grid and unoccupied. *)
Theorem hasMinimumSpace_available g position width height :
  RoomIntegrationValidator.hasMinimumSpace
    (GridManager.getAvailableRoomArea g position width height) = true
  <-> exists q,
        pos_x position <= pos_x q < pos_x position + width
        /\ pos_y position <= pos_y q < pos_y position + height
        /\ GridManager.isWithinBounds g q = true
        /\ GridManager.isPositionOccupied g q = false.
Proof.
  rewrite hasMinimumSpace_true. split.
  - intros (ly & lx & H). rewrite availableCell_at in H.
    destruct (Z.leb_spec 0 ly), (Z.ltb_spec ly height), (Z.leb_spec 0 lx),
      (Z.ltb_spec lx width); simpl in H; try discriminate.
    injection H as H. unfold cellFree in H.
    apply andb_prop in H as [Hin Hocc%negb_true_iff].
    eexists. repeat split; [..|exact Hin|exact Hocc]; simpl; lia.
  - intros (q & Hx & Hy & Hin & Hocc).
    exists (pos_y q - pos_y position), (pos_x q - pos_x position).
    rewrite availableCell_at.
    destruct (Z.leb_spec 0 (pos_y q - pos_y position)); [|lia].
    destruct (Z.ltb_spec (pos_y q - pos_y position) height); [|lia].
    destruct (Z.leb_spec 0 (pos_x q - pos_x position)); [|lia].
    destruct (Z.ltb_spec (pos_x q - pos_x position) width); [|lia].
    simpl. f_equal. unfold cellFree.
    replace (mkPosition _ _) with q by (destruct q; simpl; f_equal; lia).
    now rewrite Hin, Hocc.
Qed.

(** [isAreaAvailable] agrees with the grid of [getAvailableRoomArea]: the
    area is available exactly when no cell of that grid is [false]. *)
Theorem isAreaAvailable_grid g position width height :
  GridManager.isAreaAvailable g position width height
  = forallb (forallb (fun cell => cell))
      (GridManager.getAvailableRoomArea g position width height).
Proof.
  apply eq_true_iff_eq. rewrite isAreaAvailable_cells, forallb_elem. split.
  - intros H row Hrow. apply forallb_elem. intros cell Hcell.
    apply list_elem_of_lookup in Hrow as [i Hi], Hcell as [j Hj].
    pose proof (availableCell_at g position width height (Z.of_nat i)
                  (Z.of_nat j)) as Hc.
    unfold patternCell in Hc. rewrite array_get_lookup in Hc.
    destruct (Z.ltb_spec (Z.of_nat i) 0); [lia|]. rewrite Nat2Z.id, Hi in Hc.
    simpl in Hc. rewrite array_get_lookup in Hc.
    destruct (Z.ltb_spec (Z.of_nat j) 0); [lia|]. rewrite Nat2Z.id, Hj in Hc.
    destruct (_ && _) eqn:Hb; [|discriminate]. injection Hc as ->.
    apply andb_prop in Hb as [[[_ Hy%Z.ltb_lt]%andb_prop _]%andb_prop Hx%Z.ltb_lt].
    unfold cellFree. destruct (H (mkPosition (pos_x position + Z.of_nat j)
                                    (pos_y position + Z.of_nat i))) as [-> ->];
      simpl; [lia|lia|reflexivity].
  - intros H q Hx Hy.
    pose proof (availableCell_at g position width height
                  (pos_y q - pos_y position) (pos_x q - pos_x position)) as Hc.
    destruct (Z.leb_spec 0 (pos_y q - pos_y position)); [|lia].
    destruct (Z.ltb_spec (pos_y q - pos_y position) height); [|lia].
    destruct (Z.leb_spec 0 (pos_x q - pos_x position)); [|lia].
    destruct (Z.ltb_spec (pos_x q - pos_x position) width); [|lia].
    simpl in Hc. replace (mkPosition _ _) with q in Hc
      by (destruct q; simpl; f_equal; lia).
    unfold patternCell in Hc.
    destruct (array_get _ (pos_y q - pos_y position)) as [row|] eqn:Hrow;
      [|discriminate].
    change (array_get row (pos_x q - pos_x position) = Some (cellFree g q)) in Hc.
    rewrite array_get_lookup in Hrow. rewrite array_get_lookup in Hc.
    destruct (_ <? 0) in Hrow; [discriminate|].
    destruct (_ <? 0) in Hc; [discriminate|].
    apply list_elem_of_lookup_2 in Hrow, Hc.
    specialize (H row Hrow). rewrite forallb_elem in H. specialize (H _ Hc).
    unfold cellFree in H. apply andb_prop in H as [-> ->%negb_true_iff]. auto.
Qed.

(** ** Direction math *)

(** [getOppositeDirection] is an involution, the vector of the opposite
    direction is the negated vector, and the copies of the direction helpers
    kept by the expansion engine and by the generator agree with
    [PositionCalculator]: the engine's opposite, its adjacent position (the
    position moved by the direction's vector), its expansion bias (the vector
    of the opposite direction) and the corridor start adjustment (the vector
    itself). *)
Theorem direction_helpers_agree direction position :
  PositionCalculator.getOppositeDirection
    (PositionCalculator.getOppositeDirection direction) = direction
  /\ PositionCalculator.directionToVector
       (PositionCalculator.getOppositeDirection direction)
     = mkPosition (- pos_x (PositionCalculator.directionToVector direction))
         (- pos_y (PositionCalculator.directionToVector direction))
  /\ BlockExpansionEngine.getOppositeDirection direction
     = PositionCalculator.getOppositeDirection direction
  /\ BlockExpansionEngine.getAdjacentPosition position direction
     = mkPosition
         (pos_x position + pos_x (PositionCalculator.directionToVector direction))
         (pos_y position + pos_y (PositionCalculator.directionToVector direction))
  /\ BlockExpansionEngine.getExpansionBias direction
     = PositionCalculator.directionToVector
         (PositionCalculator.getOppositeDirection direction)
  /\ IncrementalDungeonGenerator.getCorridorPositionAdjustment direction
     = PositionCalculator.directionToVector direction.
Proof.
  destruct position as [x y].
  destruct direction; simpl; repeat split; f_equal; lia.
Qed.

(** Connectability of two points does not depend on their order. *)
Theorem areConnectionPointsConnectable_sym cp1 cp2 :
  PositionCalculator.areConnectionPointsConnectable cp1 cp2
  = PositionCalculator.areConnectionPointsConnectable cp2 cp1.
Proof.
  unfold PositionCalculator.areConnectionPointsConnectable.
  rewrite (Z.eqb_sym (pos_x (cp_position cp1))), (Z.eqb_sym (pos_y (cp_position cp1))).
  destruct (_ || _); [reflexivity|].
  destruct (cp_direction cp1), (cp_direction cp2); reflexivity.
Qed.

Lemma first_compatible opposite l : forall i,
  match List.filter (fun cp => bool_decide (tcp_direction cp = opposite))
          (PositionCalculator.with_index_from i l) with
  | [] => forall tcp, tcp ∈ l -> tcp_direction tcp <> opposite
  | t :: _ =>
      exists n tcp,
        l !! n = Some tcp
        /\ t = mkTemplateConnectionPoint (tcp_direction tcp) (tcp_position tcp)
                 (Some (i + Z.of_nat n))
        /\ tcp_direction tcp = opposite
        /\ forall m tcp', (m < n)%nat -> l !! m = Some tcp' ->
                          tcp_direction tcp' <> opposite
  end.
Proof.
  induction l as [|cp l IH]; intros i; simpl.
  - intros tcp H. now apply elem_of_nil in H.
  - case_bool_decide as Hd; simpl.
    + exists 0%nat, cp. split; [reflexivity|]. split; [do 2 f_equal; lia|].
      split; [exact Hd|]. intros m tcp' Hm. lia.
    + specialize (IH (i + 1)).
      destruct (List.filter _ _) as [|t rest].
      * intros tcp [-> | H]%elem_of_cons; auto.
      * destruct IH as (n & tcp & Hn & -> & Hdir & Hfirst).
        exists (S n), tcp. split; [exact Hn|]. split; [do 2 f_equal; lia|].
        split; [exact Hdir|]. intros [|m] tcp' Hm; simpl.
        -- now intros [= <-].
        -- apply Hfirst. lia.
Qed.

(** [calculateRoomPositionFromConnection]: when no point of the template
    faces the direction opposite to the source point, the result is the
    fallback, position (0, 0) and index -1.  Otherwise the index is that of
    the first such template point, and the room is positioned so that this
    point falls on the cell next to the source point, in the direction the
    source point faces. *)
Theorem calculateRoomPositionFromConnection_aligned connectionPoint template :
  let r := PositionCalculator.calculateRoomPositionFromConnection connectionPoint
             template in
  let opposite :=
    PositionCalculator.getOppositeDirection (cp_direction connectionPoint) in
  let vector := PositionCalculator.directionToVector (cp_direction connectionPoint) in
  (r = (mkPosition 0 0, -1)
   /\ forall tcp, tcp ∈ tpl_connectionPoints template ->
                  tcp_direction tcp <> opposite)
  \/ (exists tcp,
        array_get (tpl_connectionPoints template) (snd r) = Some tcp
        /\ tcp_direction tcp = opposite
        /\ (forall j tcp', 0 <= j < snd r ->
              array_get (tpl_connectionPoints template) j = Some tcp' ->
              tcp_direction tcp' <> opposite)
        /\ pos_x (fst r) + pos_x (tcp_position tcp)
           = pos_x (cp_position connectionPoint) + pos_x vector
        /\ pos_y (fst r) + pos_y (tcp_position tcp)
           = pos_y (cp_position connectionPoint) + pos_y vector).
Proof.
  intros r opposite vector. subst r.
  unfold PositionCalculator.calculateRoomPositionFromConnection.
  fold opposite.
  pose proof (first_compatible opposite (tpl_connectionPoints template) 0) as H.
  destruct (List.filter _ _) as [|t rest]; [left; auto|].
  right. destruct H as (n & tcp & Hn & -> & Hdir & Hfirst).
  cbn [tcp_index tcp_position tcp_direction default fst snd].
  rewrite Z.add_0_l. unfold id.
  exists tcp. rewrite array_get_lookup.
  destruct (Z.ltb_spec (Z.of_nat n) 0); [lia|]. rewrite Nat2Z.id.
  split; [exact Hn|]. split; [exact Hdir|]. split.
  - intros j tcp' Hj. rewrite array_get_lookup.
    destruct (Z.ltb_spec j 0); [lia|]. apply Hfirst. lia.
  - rewrite Hdir. subst opposite vector.
    destruct (cp_direction connectionPoint); simpl; lia.
Qed.

(** ** The shape of an expanded room *)

Section Growth.

Import BlockExpansionEngine.

Variable ctx : ExpansionContext.

Lemma sort_fold_elem key l q : forall acc,
  q ∈ fold_left (fun acc p => insert_by key p acc) l acc <-> q ∈ acc \/ q ∈ l.
Proof.
  induction l as [|p l IH]; intros acc; simpl.
  - split; [auto|]. intros [H | H%elem_of_nil]; tauto.
  - rewrite IH, insert_by_elem, elem_of_cons. tauto.
Qed.

Lemma sort_by_elem key l q : q ∈ sort_by key l <-> q ∈ l.
Proof.
  unfold sort_by. rewrite sort_fold_elem. split; [|auto].
  intros [H%elem_of_nil | H]; tauto.
Qed.

Lemma grown_mono_elem (blocks : list string) k n :
  k ∈ blocks -> k ∈ blocks ++ [n].
Proof. intros H. apply elem_of_app. auto. Qed.

Lemma visit_fold_grown cur ns : forall blocks frontier b' f',
  grown ctx blocks -> positionKey cur ∈ blocks ->
  (forall n, n ∈ ns -> n ∈ getNeighbors cur) ->
  (forall p, p ∈ frontier -> positionKey p ∈ blocks) ->
  foldM (visit ctx) ns (blocks, frontier) = Ok (b', f') ->
  grown ctx b' /\ (forall p, p ∈ f' -> positionKey p ∈ b').
Proof.
  induction ns as [|n ns IH]; intros blocks frontier b' f' Hg Hcur Hns Hfr.
  - simpl. intros [= <- <-]. auto.
  - simpl. destruct (visit ctx (blocks, frontier) n) as [[b1 f1]|] eqn:Hv;
      simpl; [|discriminate].
    apply visit_inv in Hv as [[= -> ->] | (Hc & Hn & [= -> ->])].
    + apply IH; auto. intros x Hx. apply Hns, elem_of_cons. auto.
    + apply IH.
      * eapply grown_step; eauto. apply Hns, elem_of_cons. auto.
      * now apply grown_mono_elem.
      * intros x Hx. apply Hns, elem_of_cons. auto.
      * intros p [Hp | ->%list_elem_of_singleton]%elem_of_app.
        -- apply grown_mono_elem. auto.
        -- apply elem_of_app. right. apply elem_of_cons. auto.
Qed.

Lemma expand_loop_grown fuel : forall blocks frontier r,
  grown ctx blocks ->
  (forall p, p ∈ frontier -> positionKey p ∈ blocks) ->
  expand_loop fuel ctx blocks frontier = Some (Ok r) -> grown ctx r.
Proof.
  induction fuel as [|fuel IH]; intros blocks frontier r Hg Hfr.
  - destruct frontier; [|discriminate]. rewrite expand_loop_nil. now intros [= <-].
  - destruct frontier as [|f0 frontier]; [rewrite expand_loop_nil; now intros [= <-]|].
    rewrite expand_loop_cons.
    destruct (sort_by _ (f0 :: frontier)) as [|cur rest] eqn:Hsort;
      [now intros [= <-]|].
    assert (Hin : forall q, q ∈ cur :: rest -> q ∈ f0 :: frontier)
      by (intros q Hq; rewrite <- Hsort in Hq; now apply sort_by_elem in Hq).
    destruct (foldM (visit ctx) (getNeighbors cur) (blocks, rest))
      as [[b' f']|] eqn:Hf; [|discriminate].
    apply (visit_fold_grown cur) in Hf as [Hg' Hfr']; auto.
    + apply IH; auto.
    + apply Hfr, Hin, elem_of_cons. auto.
    + intros p Hp. apply Hfr, Hin, elem_of_cons. auto.
Qed.

Lemma grown_NoDup blocks : grown ctx blocks -> NoDup blocks.
Proof.
  induction 1 as [|blocks m n _ IH _ _ _ Hn]; [apply NoDup_singleton|].
  apply NoDup_app. split; [exact IH|]. split; [|apply NoDup_singleton].
  intros k Hk ->%list_elem_of_singleton. auto.
Qed.

Lemma grown_keys blocks k :
  grown ctx blocks -> k ∈ blocks -> exists p, k = positionKey p.
Proof.
  induction 1 as [|blocks m n _ IH _ _ _ _].
  - intros ->%list_elem_of_singleton. eauto.
  - intros [Hk | ->%list_elem_of_singleton]%elem_of_app; eauto.
Qed.

Lemma grown_position blocks p :
  grown ctx blocks -> p ∈ positionOfKey <$> blocks <-> positionKey p ∈ blocks.
Proof.
  intros Hg. split.
  - intros (k & -> & Hk)%list_elem_of_fmap.
    destruct (grown_keys _ _ Hg Hk) as [q ->]. now rewrite positionOfKey_positionKey.
  - intros H. apply list_elem_of_fmap. exists (positionKey p).
    now rewrite positionOfKey_positionKey.
Qed.

Lemma linked_mono blocks blocks' entry p :
  (forall q, q ∈ blocks -> q ∈ blocks') ->
  linked blocks entry p -> linked blocks' entry p.
Proof.
  intros Hsub. induction 1 as [|m n _ IH Hn Hin]; [constructor|].
  eapply linked_step; eauto.
Qed.

Lemma grown_linked blocks :
  grown ctx blocks ->
  forall p, positionKey p ∈ blocks ->
            linked (positionOfKey <$> blocks) (entryPoint ctx) p.
Proof.
  induction 1 as [|blocks m n Hg IH Hm Hnb Hc Hn].
  - intros p ->%list_elem_of_singleton%positionKey_inj. constructor.
  - assert (Hg' : grown ctx (blocks ++ [positionKey n]))
      by (eapply grown_step; eauto).
    assert (Hsub : forall q, q ∈ positionOfKey <$> blocks ->
                             q ∈ positionOfKey <$> (blocks ++ [positionKey n])).
    { intros q Hq. rewrite fmap_app. apply elem_of_app. auto. }
    intros p [Hp | ->%list_elem_of_singleton%positionKey_inj]%elem_of_app.
    + eapply linked_mono; [exact Hsub|]. auto.
    + apply (linked_step _ _ m).
      * eapply linked_mono; [exact Hsub|]. auto.
      * exact Hnb.
      * apply (grown_position _ _ Hg'). apply elem_of_app. right.
        apply elem_of_cons. auto.
Qed.

Lemma grown_positions_NoDup blocks :
  grown ctx blocks -> NoDup (positionOfKey <$> blocks).
Proof.
  intros Hg. apply NoDup_fmap_2_strong; [|now apply grown_NoDup].
  intros k1 k2 H1 H2 Heq.
  destruct (grown_keys _ _ Hg H1) as [p1 ->], (grown_keys _ _ Hg H2) as [p2 ->].
  rewrite !positionOfKey_positionKey in Heq. now subst.
Qed.

End Growth.

(** The blocks of an expanded room are pairwise distinct and form one
    piece: every block is reached from the entry point by steps between
    4-neighbours that stay inside the room. *)
Theorem expandRoom_connected ctx res :
  BlockExpansionEngine.expandRoom ctx = Ok res ->
  NoDup (BlockExpansionEngine.expandedBlocks res)
  /\ forall p, p ∈ BlockExpansionEngine.expandedBlocks res ->
               linked (BlockExpansionEngine.expandedBlocks res)
                 (BlockExpansionEngine.entryPoint ctx) p.
Proof.
  intros (blocks & Hloop & -> & _)%expandRoom_Ok_inv.
  assert (Hg : grown ctx blocks).
  { eapply expand_loop_grown; [| |exact Hloop]; [constructor|].
    intros p ->%list_elem_of_singleton. apply elem_of_cons. auto. }
  split; [now apply (grown_positions_NoDup ctx)|].
  intros p Hp. apply grown_linked; [exact Hg|].
  now apply (grown_position ctx) in Hp.
Qed.

Lemma expandRoom_connected_witness :
  NoDup [mkPosition 6 5; mkPosition 7 5]
  /\ forall p, p ∈ [mkPosition 6 5; mkPosition 7 5] ->
               linked [mkPosition 6 5; mkPosition 7 5] (mkPosition 6 5) p.
Proof.
  apply (expandRoom_connected openContext
           (BlockExpansionEngine.mkExpansionResult [mkPosition 6 5; mkPosition 7 5]
              [mkConnectionPoint North (mkPosition 6 5) true (Some "room-b") true
                 None Connected;
               mkConnectionPoint East (mkPosition 7 5) false None false None
                 Ungenerated]
              (2, 1))).
  vm_compute. reflexivity.
Defined.

(** ** Generated corridors *)

Lemma corridorWalk_line g mv : forall turns first cur i p,
  IncrementalDungeonGenerator.corridorWalk g mv turns first cur !! i = Some p ->
  let k := Z.of_nat i + (if first then 0 else 1) in
  p = mkPosition (pos_x cur + k * pos_x mv) (pos_y cur + k * pos_y mv)
  /\ GridManager.isWithinBounds g p = true.
Proof.
  induction turns as [|turns IH]; intros first cur i p; simpl; [discriminate|].
  set (cur' := if first then cur
               else mkPosition (pos_x cur + pos_x mv) (pos_y cur + pos_y mv)).
  destruct (GridManager.isWithinBounds g cur') eqn:Hin; simpl; [|discriminate].
  destruct (negb first && GridManager.isPositionOccupied g cur'); [discriminate|].
  destruct i as [|i]; simpl.
  - intros [= <-]. split; [|exact Hin]. subst cur'.
    destruct first, cur; simpl; f_equal; lia.
  - intros H. apply IH in H as [-> Hb]. split; [|exact Hb]. subst cur'.
    destruct first; simpl; f_equal; lia.
Qed.

Lemma corridorWalk_length g mv : forall turns first cur,
  (length (IncrementalDungeonGenerator.corridorWalk g mv turns first cur) <= turns)%nat.
Proof.
  induction turns as [|turns IH]; intros first cur; simpl; [lia|].
  destruct (negb _); simpl; [lia|]. destruct (_ && _); simpl; [lia|].
  specialize (IH false (if first then cur
                        else mkPosition (pos_x cur + pos_x mv) (pos_y cur + pos_y mv))).
  lia.
Qed.

Lemma corridorPath_line g connectionPoint maxLength :
  let path := IncrementalDungeonGenerator.generateCorridorPath g connectionPoint
                maxLength in
  let vector := PositionCalculator.directionToVector (cp_direction connectionPoint) in
  array_length path <= Z.max 0 maxLength
  /\ forall i p,
       path !! i = Some p ->
       p = mkPosition
             (pos_x (cp_position connectionPoint) + (Z.of_nat i + 1) * pos_x vector)
             (pos_y (cp_position connectionPoint) + (Z.of_nat i + 1) * pos_y vector)
       /\ GridManager.isWithinBounds g p = true.
Proof.
  intros path vector. subst path.
  unfold IncrementalDungeonGenerator.generateCorridorPath. split.
  - unfold array_length.
    pose proof (corridorWalk_length g
                  (PositionCalculator.directionToVector (cp_direction connectionPoint))
                  (Z.to_nat maxLength) true
                  (mkPosition
                     (pos_x (cp_position connectionPoint)
                      + pos_x (IncrementalDungeonGenerator.getCorridorPositionAdjustment
                                 (cp_direction connectionPoint)))
                     (pos_y (cp_position connectionPoint)
                      + pos_y (IncrementalDungeonGenerator.getCorridorPositionAdjustment
                                 (cp_direction connectionPoint))))).
    lia.
  - intros i p H. apply corridorWalk_line in H as [-> Hb].
    split; [|exact Hb]. subst vector.
    destruct (cp_direction connectionPoint); simpl; f_equal; lia.
Qed.

(** A corridor path is a straight run that starts on the cell next to
    the door, in the direction of the door: its [i]-th cell is the door
    position moved [i + 1] times by the direction's vector and lies inside the
    grid, and the path has at most [maxLength] cells. *)
Theorem generateCorridorPath_line g connectionPoint maxLength :
  let path := IncrementalDungeonGenerator.generateCorridorPath g connectionPoint
                maxLength in
  let vector := PositionCalculator.directionToVector (cp_direction connectionPoint) in
  array_length path <= Z.max 0 maxLength
  /\ forall i p,
       path !! i = Some p ->
       p = mkPosition
             (pos_x (cp_position connectionPoint) + (Z.of_nat i + 1) * pos_x vector)
             (pos_y (cp_position connectionPoint) + (Z.of_nat i + 1) * pos_y vector)
       /\ GridManager.isWithinBounds g p = true.
Proof. apply corridorPath_line. Qed.

Lemma last_default {A} (l : list A) d : l <> [] -> Some (List.last l d) = last l.
Proof.
  induction l as [|a l IH]; [congruence|]. intros _.
  destruct l as [|b l]; [reflexivity|].
  change (Some (List.last (b :: l) d) = last (b :: l)). apply IH. discriminate.
Qed.

Lemma rem_range a : 0 <= a -> 0 <= Z.rem a 5 < 5.
Proof. intros H. apply Z.rem_bound_pos; lia. Qed.

(** A corridor that [generateConnectedCorridor] returns has between 2 and
    7 cells; its [length] is the number of cells of its path, its position is
    the first cell, its first point sits on the first cell, connected and
    generated, facing back to the source, and its second point sits on the
    last cell, unexplored, facing onward. *)
Theorem generateConnectedCorridor_shape now rnd st connectionPoint seed corridor :
  IncrementalDungeonGenerator.generateConnectedCorridor now rnd st connectionPoint
    seed = Ok (IncrementalDungeonGenerator.mkGenerated [] [corridor]) ->
  2 <= cor_length corridor <= 7
  /\ cor_length corridor = array_length (cor_path corridor)
  /\ cor_path corridor
     = IncrementalDungeonGenerator.generateCorridorPath
         (IncrementalDungeonGenerator.gridManager st) connectionPoint
         (MIN_CORRIDOR_LENGTH
          + Z.rem (IncrementalDungeonGenerator.seedToNumber seed)
              MAX_CORRIDOR_LENGTH_VARIANCE)
  /\ head (cor_path corridor) = Some (cor_position corridor)
  /\ exists back onward,
       cor_connectionPoints corridor = [back; onward]
       /\ cp_position back = cor_position corridor
       /\ cp_direction back
          = PositionCalculator.getOppositeDirection (cp_direction connectionPoint)
       /\ cp_isConnected back = true /\ cp_isGenerated back = true
       /\ Some (cp_position onward) = last (cor_path corridor)
       /\ cp_direction onward = cp_direction connectionPoint
       /\ cp_isConnected onward = false /\ cp_isGenerated onward = false.
Proof.
  unfold IncrementalDungeonGenerator.generateConnectedCorridor.
  set (len := MIN_CORRIDOR_LENGTH + Z.rem _ MAX_CORRIDOR_LENGTH_VARIANCE).
  pose proof (corridorPath_line (IncrementalDungeonGenerator.gridManager st)
                connectionPoint len) as [Hlen _].
  destruct (IncrementalDungeonGenerator.generateCorridorPath _ _ len)
    as [|first rest] eqn:Hpath; [discriminate|].
  destruct (IncrementalDungeonGenerator.getCorridorDirection first _)
    as [direction|] eqn:Hdir; simpl; [|discriminate].
  intros [= <-]. simpl.
  assert (Hsecond : rest <> []).
  { intros ->. discriminate Hdir. }
  assert (Hrange : 3 <= len <= 7).
  { subst len. unfold MIN_CORRIDOR_LENGTH, MAX_CORRIDOR_LENGTH_VARIANCE.
    pose proof (seedToNumber_bound seed).
    pose proof (rem_range (IncrementalDungeonGenerator.seedToNumber seed)). lia. }
  split.
  { unfold array_length in *. destruct rest; [congruence|]. simpl in *. lia. }
  split; [reflexivity|]. split; [reflexivity|]. split; [reflexivity|].
  eexists _, _. split; [reflexivity|]. simpl. repeat split.
  apply (last_default (first :: rest)). discriminate.
Qed.

Lemma generateConnectedCorridor_shape_witness :
  2 <= cor_length exampleCorridor <= 7
  /\ cor_length exampleCorridor = array_length (cor_path exampleCorridor)
  /\ cor_path exampleCorridor
     = IncrementalDungeonGenerator.generateCorridorPath
         (IncrementalDungeonGenerator.gridManager
            (IncrementalDungeonGenerator.new 30 [])) eastDoor
         (MIN_CORRIDOR_LENGTH
          + Z.rem (IncrementalDungeonGenerator.seedToNumber "1")
              MAX_CORRIDOR_LENGTH_VARIANCE)
  /\ head (cor_path exampleCorridor) = Some (cor_position exampleCorridor)
  /\ exists back onward,
       cor_connectionPoints exampleCorridor = [back; onward]
       /\ cp_position back = cor_position exampleCorridor
       /\ cp_direction back
          = PositionCalculator.getOppositeDirection (cp_direction eastDoor)
       /\ cp_isConnected back = true /\ cp_isGenerated back = true
       /\ Some (cp_position onward) = last (cor_path exampleCorridor)
       /\ cp_direction onward = cp_direction eastDoor
       /\ cp_isConnected onward = false /\ cp_isGenerated onward = false.
Proof.
  apply (generateConnectedCorridor_shape 1000 "abc"
           (IncrementalDungeonGenerator.new 30 []) eastDoor "1" exampleCorridor).
  vm_compute. reflexivity.
Defined.

(** ** Exploring never removes anything *)

Section Appending.

Variable getRoomTemplatesByType : RoomType -> list RoomTemplate.
Variable getRoomTemplateById : string -> option RoomTemplate.

Lemma extends_refl st : extends st st.
Proof. repeat split; eauto. Qed.

Lemma extends_trans st1 st2 st3 : extends st1 st2 -> extends st2 st3 -> extends st1 st3.
Proof.
  intros (Hr & Hc & Hg & Hh) (Hr' & Hc' & Hg' & Hh').
  split; [etrans; eauto|]. split; [etrans; eauto|]. split; [congruence|].
  intros l e He. destruct (Hh _ _ He) as (e1 & He1 & Hid).
  destruct (Hh' _ _ He1) as (e2 & He2 & Hid'). exists e2. split; [auto|congruence].
Qed.

Lemma pointsOnly_ids h h' l e :
  pointsOnly h h' -> h !! l = Some e ->
  exists e', h' !! l = Some e' /\ elem_id e' = elem_id e.
Proof.
  intros Hp He. specialize (Hp l). rewrite He in Hp.
  destruct (h' !! l) as [e'|]; [|tauto]. destruct Hp as [cps ->].
  exists (elem_set_connectionPoints e cps). split; [reflexivity|apply elem_id_set].
Qed.

Lemma alloc_lookup (h : Heap) x l e :
  h !! l = Some e -> (h ++ [x]) !! l = Some e.
Proof. intros H. now apply lookup_app_l_Some. Qed.

Lemma addElement_ids now l h m l0 e :
  h !! l0 = Some e ->
  exists e', fst (fst (SharedWallManager.addElement now l h m)) !! l0 = Some e'
             /\ elem_id e' = elem_id e.
Proof.
  intros He. eapply pointsOnly_ids; [|exact He]. apply addElement_pointsOnly.
Qed.

Lemma integrateRoom_extends now st room :
  extends st (IncrementalDungeonGenerator.integrateRoom getRoomTemplateById now st room).
Proof.
  unfold IncrementalDungeonGenerator.integrateRoom, alloc.
  pose proof (fun l0 e => addElement_ids now (length (IncrementalDungeonGenerator.heap st))
                (IncrementalDungeonGenerator.heap st ++ [ERoom room])
                (IncrementalDungeonGenerator.sharedWallManager st) l0 e) as Hids.
  destruct (SharedWallManager.addElement _ _ _ _) as [[h2 m] cps]. simpl in *.
  split; [now apply prefix_app_r|]. split; [reflexivity|]. split; [reflexivity|].
  intros l e He. apply Hids. now apply alloc_lookup.
Qed.

Lemma integrateCorridor_extends now st corridor :
  extends st (IncrementalDungeonGenerator.integrateCorridor now st corridor).
Proof.
  unfold IncrementalDungeonGenerator.integrateCorridor, alloc.
  pose proof (fun l0 e => addElement_ids now (length (IncrementalDungeonGenerator.heap st))
                (IncrementalDungeonGenerator.heap st ++ [ECorridor corridor])
                (IncrementalDungeonGenerator.sharedWallManager st) l0 e) as Hids.
  destruct (SharedWallManager.addElement _ _ _ _) as [[h2 m] cps]. simpl in *.
  split; [reflexivity|]. split; [now apply prefix_app_r|]. split; [reflexivity|].
  intros l e He. apply Hids. now apply alloc_lookup.
Qed.

Lemma fold_extends {A} (f : IncrementalDungeonGenerator.t -> A -> IncrementalDungeonGenerator.t)
    (xs : list A) :
  (forall st x, extends st (f st x)) ->
  forall st, extends st (fold_left f xs st).
Proof.
  intros Hf. induction xs as [|x xs IH]; intros st; simpl; [apply extends_refl|].
  eapply extends_trans; [apply Hf|apply IH].
Qed.

Lemma markIn_ids cp sourceElementId ls : forall h h' l e,
  ConnectionPointValidator.markIn cp sourceElementId h ls = Some h' ->
  h !! l = Some e -> exists e', h' !! l = Some e' /\ elem_id e' = elem_id e.
Proof.
  induction ls as [|l0 ls IH]; intros h h' l e; simpl; [discriminate|].
  destruct (h !! l0) as [e0|] eqn:He0; [|apply IH].
  case_bool_decide as Hid; [|apply IH].
  destruct (ConnectionPointValidator.markFirst _ _) as [cps|]; [|apply IH].
  intros [= <-] He. destruct (decide (l = l0)) as [-> | Hne].
  - rewrite list_lookup_insert_eq by (eapply lookup_lt_Some; eauto).
    eexists. split; [reflexivity|]. rewrite elem_id_set. congruence.
  - rewrite list_lookup_insert_ne by auto. eauto.
Qed.

Lemma updateConnectionPointAsGenerated_ids cp sourceElementId rooms corridors h l e :
  h !! l = Some e ->
  exists e',
    ConnectionPointValidator.updateConnectionPointAsGenerated cp sourceElementId
      rooms corridors h !! l = Some e'
    /\ elem_id e' = elem_id e.
Proof.
  intros He. unfold ConnectionPointValidator.updateConnectionPointAsGenerated.
  destruct (ConnectionPointValidator.markIn _ _ h rooms) as [h'|] eqn:H1;
    [eapply markIn_ids; eauto|].
  destruct (ConnectionPointValidator.markIn _ _ h corridors) as [h'|] eqn:H2;
    [eapply markIn_ids; eauto|eauto].
Qed.

Lemma integrateGeneratedElements_extends now generated cp sourceElementId st :
  extends st
    (IncrementalDungeonGenerator.integrateGeneratedElements getRoomTemplateById now
       generated cp sourceElementId st).
Proof.
  unfold IncrementalDungeonGenerator.integrateGeneratedElements.
  set (st1 := IncrementalDungeonGenerator.integrateElements getRoomTemplateById now
                generated st).
  assert (H1 : extends st st1).
  { unfold st1, IncrementalDungeonGenerator.integrateElements.
    eapply extends_trans; [|apply fold_extends; apply integrateCorridor_extends].
    apply fold_extends. intros. apply integrateRoom_extends. }
  eapply extends_trans; [exact H1|].
  split; [reflexivity|]. split; [reflexivity|]. split; [reflexivity|].
  simpl. intros l e He. now apply updateConnectionPointAsGenerated_ids.
Qed.

Lemma reRegister_ids now ls : forall h g m h' g' m' l e,
  fold_left (IncrementalDungeonGenerator.reRegister getRoomTemplateById now) ls
    (h, g, m) = (h', g', m') ->
  h !! l = Some e -> exists e', h' !! l = Some e' /\ elem_id e' = elem_id e.
Proof.
  intros h g m h' g' m' l e Hfold He.
  apply reRegister_fold in Hfold as (Hp & _). eapply pointsOnly_ids; eauto.
Qed.

(** Whatever the outcome, [generateFromConnectionPoint] keeps the rooms
    and corridors the generator had, at the head of the two lists and under
    their ids: exploring only ever appends. *)
Theorem generation_only_appends now rnd request st :
  extends st
    (fst (IncrementalDungeonGenerator.generateFromConnectionPoint
            getRoomTemplatesByType getRoomTemplateById now rnd request st)).
Proof.
  unfold IncrementalDungeonGenerator.generateFromConnectionPoint.
  destruct (IncrementalDungeonGenerator.generateConnectedContent _ _ _ _ _ _ _)
    as [[generated counter]|e]; simpl.
  - destruct (_ && _); simpl.
    + repeat split; eauto.
    + eapply extends_trans; [|apply integrateGeneratedElements_extends].
      repeat split; eauto.
  - unfold IncrementalDungeonGenerator.rollbackToSnapshot,
      IncrementalDungeonGenerator.createStateSnapshot. simpl.
    destruct (fold_left _ (IncrementalDungeonGenerator.rooms st) _)
      as [[h1 g1] m1] eqn:H1.
    destruct (fold_left _ (IncrementalDungeonGenerator.corridors st) _)
      as [[h2 g2] m2] eqn:H2.
    simpl. split; [reflexivity|]. split; [reflexivity|]. split; [reflexivity|].
    intros l e0 He. destruct (reRegister_ids _ _ _ _ _ _ _ _ _ _ H1 He) as (e1 & He1 & Hid1).
    destruct (reRegister_ids _ _ _ _ _ _ _ _ _ _ H2 He1) as (e2 & He2 & Hid2).
    exists e2. split; [exact He2|congruence].
Qed.

End Appending.

(** ** The connection point validator *)

Lemma filter_from_sublist {A} (f : A -> Z -> Result bool) l : forall index kept,
  ConnectionPointValidator.filter_from f index l = Ok kept -> kept `sublist_of` l.
Proof.
  induction l as [|a l IH]; simpl; intros index kept.
  - intros [= <-]. constructor.
  - destruct (f a index) as [keep|]; simpl; [|discriminate].
    destruct (ConnectionPointValidator.filter_from f (index + 1) l) as [kept'|] eqn:Hl;
      simpl; [|discriminate].
    intros [= <-]. specialize (IH _ _ Hl).
    destruct keep; [now apply sublist_skip|now apply sublist_cons].
Qed.

Lemma set_index_from_placement l : forall i,
  placement <$> ConnectionPointValidator.set_index_from i l = placement <$> l.
Proof.
  induction l as [|a l IH]; intros i; simpl; [reflexivity|].
  f_equal. apply IH.
Qed.

(** [validateConnectionPoints] only filters: the points it returns are
    points of the template, in the template's order, with their directions and
    positions; none is moved, turned, duplicated or invented. *)
Theorem validateConnectionPoints_sublist template availableGrid trimmedPattern
    preserveConnectionIndex out :
  ConnectionPointValidator.validateConnectionPoints template availableGrid
    trimmedPattern preserveConnectionIndex = Ok out ->
  (placement <$> out) `sublist_of` (placement <$> tpl_connectionPoints template).
Proof.
  unfold ConnectionPointValidator.validateConnectionPoints.
  destruct (ConnectionPointValidator.filter_from _ _ _) as [kept|] eqn:Hf;
    simpl; [|discriminate].
  intros [= <-]. rewrite set_index_from_placement.
  apply fmap_sublist. eapply filter_from_sublist; eauto.
Qed.

Lemma validateConnectionPoints_sublist_witness :
  (placement <$> [mkTemplateConnectionPoint East (mkPosition 1 0) (Some 0)])
    `sublist_of` (placement <$> tpl_connectionPoints twoEastDoors).
Proof.
  apply (validateConnectionPoints_sublist twoEastDoors [[true; true]]
           [[true; true]] None).
  reflexivity.
Defined.

(** ** Marking the explored point *)

Lemma markFirst_spec cp cps cps' :
  ConnectionPointValidator.markFirst cp cps = Some cps' ->
  exists before p after,
    cps = before ++ p :: after
    /\ cps' = before ++ ConnectionPointValidator.markGenerated p :: after
    /\ ConnectionPointValidator.sameLocation p cp = true
    /\ forall q, q ∈ before -> ConnectionPointValidator.sameLocation q cp = false.
Proof.
  revert cps'. induction cps as [|a cps IH]; simpl; intros cps'; [discriminate|].
  destruct (ConnectionPointValidator.sameLocation a cp) eqn:Ha.
  - intros [= <-]. exists [], a, cps. repeat split; auto.
    intros q Hq. now apply elem_of_nil in Hq.
  - destruct (ConnectionPointValidator.markFirst cp cps) as [r|]; [|discriminate].
    intros [= <-]. destruct (IH r eq_refl) as (before & p & after & -> & -> & Hp & Hb).
    exists (a :: before), p, after. repeat split; auto.
    intros q [-> | Hq]%elem_of_cons; auto.
Qed.

Lemma markFirst_None cp cps :
  ConnectionPointValidator.markFirst cp cps = None ->
  forall q, q ∈ cps -> ConnectionPointValidator.sameLocation q cp = false.
Proof.
  induction cps as [|a cps IH]; simpl.
  - intros _ q Hq. now apply elem_of_nil in Hq.
  - destruct (ConnectionPointValidator.sameLocation a cp) eqn:Ha; [discriminate|].
    destruct (ConnectionPointValidator.markFirst cp cps); [discriminate|].
    intros _ q [-> | Hq]%elem_of_cons; auto.
Qed.

Lemma markIn_spec cp sourceElementId h ls :
  match ConnectionPointValidator.markIn cp sourceElementId h ls with
  | Some h' =>
      exists before l after,
        ls = before ++ l :: after
        /\ noPoint cp sourceElementId h before
        /\ marksPoint cp sourceElementId h h' l
  | None => noPoint cp sourceElementId h ls
  end.
Proof.
  induction ls as [|l0 ls IH]; simpl.
  - intros l e q Hl. now apply elem_of_nil in Hl.
  - assert (Hskip :
      (forall e q, h !! l0 = Some e -> elem_id e = sourceElementId ->
                   q ∈ elem_connectionPoints e ->
                   ConnectionPointValidator.sameLocation q cp = false) ->
      match ConnectionPointValidator.markIn cp sourceElementId h ls with
      | Some h' =>
          exists before l after,
            l0 :: ls = before ++ l :: after
            /\ noPoint cp sourceElementId h before
            /\ marksPoint cp sourceElementId h h' l
      | None => noPoint cp sourceElementId h (l0 :: ls)
      end).
    { intros H0. destruct (ConnectionPointValidator.markIn cp sourceElementId h ls)
        as [h'|].
      - destruct IH as (before & l & after & -> & Hno & Hm).
        exists (l0 :: before), l, after. split; [reflexivity|]. split; [|exact Hm].
        intros l1 e q [-> | Hl1]%elem_of_cons; eauto.
      - intros l1 e q [-> | Hl1]%elem_of_cons; eauto. }
    destruct (h !! l0) as [e0|] eqn:He0; [|apply Hskip; intros; discriminate].
    case_bool_decide as Hid; [|apply Hskip; intros e q [= <-]; congruence].
    destruct (ConnectionPointValidator.markFirst cp (elem_connectionPoints e0))
      as [cps|] eqn:Hmf.
    + apply markFirst_spec in Hmf as (before & p & after & Hcps & -> & Hp & Hb).
      exists [], l0, ls. split; [reflexivity|]. split.
      * intros l e q Hl. now apply elem_of_nil in Hl.
      * exists e0, before, p, after. auto 10.
    + apply Hskip. intros e q [= <-] _. now apply markFirst_None.
Qed.

Lemma marked_point_found cp sourceElementId h h' l :
  marksPoint cp sourceElementId h h' l ->
  exists e' p,
    h' !! l = Some e'
    /\ ConnectionPointValidator.findConnectionPoint (elem_connectionPoints e')
         (cp_position cp) (cp_direction cp) = Some p
    /\ cp_isGenerated p = true /\ cp_isConnected p = true.
Proof.
  intros (e & before & p & after & He & _ & Hcps & Hp & Hb & ->).
  rewrite list_lookup_insert_eq by (eapply lookup_lt_Some; eauto).
  eexists _, (ConnectionPointValidator.markGenerated p). split; [reflexivity|].
  rewrite elem_connectionPoints_set. split; [|auto].
  unfold ConnectionPointValidator.findConnectionPoint.
  clear Hcps. induction before as [|q before IH]; simpl.
  - unfold ConnectionPointValidator.sameLocation in Hp. now rewrite Hp.
  - assert (Hq : ConnectionPointValidator.sameLocation q cp = false)
      by (apply Hb, elem_of_cons; auto).
    unfold ConnectionPointValidator.sameLocation in Hq. rewrite Hq.
    apply IH. intros q' Hq'. apply Hb, elem_of_cons. auto.
Qed.

(** [updateConnectionPointAsGenerated] changes at most one point of one
    element: in the first element with the source id that has a point at the
    location of [cp], rooms before corridors, the first such point gets
    [isGenerated] and [isConnected], and [findConnectionPoint] then finds
    the marked point at the location; when there is no such element nothing
    changes. *)
Theorem updateConnectionPointAsGenerated_spec cp sourceElementId rooms corridors h :
  let h' := ConnectionPointValidator.updateConnectionPointAsGenerated cp
              sourceElementId rooms corridors h in
  (h' = h /\ noPoint cp sourceElementId h (rooms ++ corridors))
  \/ exists before l after,
       rooms ++ corridors = before ++ l :: after
       /\ noPoint cp sourceElementId h before
       /\ marksPoint cp sourceElementId h h' l
       /\ exists e' p,
            h' !! l = Some e'
            /\ ConnectionPointValidator.findConnectionPoint
                 (elem_connectionPoints e') (cp_position cp) (cp_direction cp)
               = Some p
            /\ cp_isGenerated p = true /\ cp_isConnected p = true.
Proof.
  unfold ConnectionPointValidator.updateConnectionPointAsGenerated.
  pose proof (markIn_spec cp sourceElementId h rooms) as Hr.
  pose proof (markIn_spec cp sourceElementId h corridors) as Hc.
  destruct (ConnectionPointValidator.markIn cp sourceElementId h rooms) as [h1|].
  - right. destruct Hr as (before & l & after & -> & Hno & Hm).
    exists before, l, (after ++ corridors). rewrite <- app_assoc.
    split; [reflexivity|]. split; [exact Hno|]. split; [exact Hm|].
    eapply marked_point_found; eauto.
  - destruct (ConnectionPointValidator.markIn cp sourceElementId h corridors) as [h2|].
    + right. destruct Hc as (before & l & after & -> & Hno & Hm).
      exists (rooms ++ before), l, after. rewrite <- app_assoc. split; [reflexivity|].
      split; [intros l1 e q [H1 | H1]%elem_of_app; eauto|].
      split; [exact Hm|]. eapply marked_point_found; eauto.
    + left. split; [reflexivity|].
      intros l1 e q [H1 | H1]%elem_of_app; eauto.
Qed.

(** ** Wall segments *)

Lemma rangesOverlap_sym a b c d :
  WallAnalyzer.rangesOverlap a b c d = WallAnalyzer.rangesOverlap c d a b.
Proof. unfold WallAnalyzer.rangesOverlap. now rewrite Z.max_comm, Z.min_comm. Qed.

(** Whether two wall segments overlap, and where, does not depend on
    their order. *)
Theorem segments_overlap_sym segment1 segment2 :
  WallAnalyzer.doSegmentsOverlap segment1 segment2
  = WallAnalyzer.doSegmentsOverlap segment2 segment1
  /\ WallAnalyzer.getOverlapPosition segment1 segment2
     = WallAnalyzer.getOverlapPosition segment2 segment1.
Proof.
  assert (Hsym : WallAnalyzer.doSegmentsOverlap segment1 segment2
                 = WallAnalyzer.doSegmentsOverlap segment2 segment1).
  { unfold WallAnalyzer.doSegmentsOverlap.
    destruct (WallAnalyzer.seg_direction segment1) eqn:H1, (WallAnalyzer.seg_direction segment2) eqn:H2;
      simpl; try reflexivity.
    - rewrite Z.eqb_sym. f_equal. apply rangesOverlap_sym.
    - rewrite Z.eqb_sym. f_equal. apply rangesOverlap_sym. }
  split; [exact Hsym|].
  unfold WallAnalyzer.getOverlapPosition. rewrite <- Hsym.
  destruct (WallAnalyzer.doSegmentsOverlap segment1 segment2) eqn:Ho; [|reflexivity].
  simpl. unfold WallAnalyzer.doSegmentsOverlap in Ho.
  destruct (WallAnalyzer.seg_direction segment1) eqn:H1, (WallAnalyzer.seg_direction segment2) eqn:H2;
    simpl in Ho; try discriminate.
  - apply andb_prop in Ho as [Hy%Z.eqb_eq _]. rewrite Z.max_comm. congruence.
  - apply andb_prop in Ho as [Hx%Z.eqb_eq _]. rewrite Z.max_comm. congruence.
Qed.

(** The walls of two corridor cells overlap exactly when the cells are
    the same cell or 4-neighbours. *)
Theorem corridor_cell_walls_overlap id1 id2 p q :
  (exists s1 s2,
      s1 ∈ WallAnalyzer.cellWalls id1 p /\ s2 ∈ WallAnalyzer.cellWalls id2 q
      /\ WallAnalyzer.doSegmentsOverlap s1 s2 = true)
  <-> p = q \/ q ∈ BlockExpansionEngine.getNeighbors p.
Proof.
  destruct p as [px py], q as [qx qy].
  unfold WallAnalyzer.cellWalls, BlockExpansionEngine.getNeighbors. simpl. split.
  - intros (s1 & s2 & H1 & H2 & Ho).
    repeat (apply elem_of_cons in H1 as [-> | H1]);
      try (now apply elem_of_nil in H1);
      repeat (apply elem_of_cons in H2 as [-> | H2]);
      try (now apply elem_of_nil in H2);
      unfold WallAnalyzer.doSegmentsOverlap, WallAnalyzer.rangesOverlap in Ho;
      simpl in Ho; try discriminate;
      apply andb_prop in Ho as [He%Z.eqb_eq Hr%Z.ltb_lt];
      assert (Hcases : (qx = px /\ qy = py) \/ (qx = px /\ qy = py - 1)
                       \/ (qx = px /\ qy = py + 1) \/ (qx = px + 1 /\ qy = py)
                       \/ (qx = px - 1 /\ qy = py)) by lia;
      destruct Hcases as [[-> ->] | [[-> ->] | [[-> ->] | [[-> ->] | [-> ->]]]]];
      rewrite !elem_of_cons; auto 10.
  - intros [[= <- <-] | H].
    + eexists _, _. split; [apply elem_of_cons; left; reflexivity|].
      split; [apply elem_of_cons; left; reflexivity|].
      unfold WallAnalyzer.doSegmentsOverlap, WallAnalyzer.rangesOverlap. simpl.
      rewrite Z.eqb_refl. simpl. apply Z.ltb_lt. lia.
    + repeat (apply elem_of_cons in H as [[= -> ->] | H]);
        try (now apply elem_of_nil in H).
      * (* q is north of p: north wall of p, south wall of q *)
        exists (WallAnalyzer.mkWallSegment (mkPosition px py) (mkPosition (px + 1) py)
                  WallAnalyzer.horizontal id1 WallAnalyzer.corridor),
               (WallAnalyzer.mkWallSegment (mkPosition px (py - 1 + 1))
                  (mkPosition (px + 1) (py - 1 + 1)) WallAnalyzer.horizontal id2
                  WallAnalyzer.corridor).
        rewrite !elem_of_cons. split; [auto|]. split; [auto|].
        unfold WallAnalyzer.doSegmentsOverlap, WallAnalyzer.rangesOverlap. simpl.
        apply andb_true_intro. split; [apply Z.eqb_eq|apply Z.ltb_lt]; lia.
      * exists (WallAnalyzer.mkWallSegment (mkPosition px (py + 1))
                  (mkPosition (px + 1) (py + 1)) WallAnalyzer.horizontal id1
                  WallAnalyzer.corridor),
               (WallAnalyzer.mkWallSegment (mkPosition px (py + 1))
                  (mkPosition (px + 1) (py + 1)) WallAnalyzer.horizontal id2
                  WallAnalyzer.corridor).
        rewrite !elem_of_cons. split; [auto|]. split; [auto|].
        unfold WallAnalyzer.doSegmentsOverlap, WallAnalyzer.rangesOverlap. simpl.
        apply andb_true_intro. split; [apply Z.eqb_eq|apply Z.ltb_lt]; lia.
      * exists (WallAnalyzer.mkWallSegment (mkPosition (px + 1) py)
                  (mkPosition (px + 1) (py + 1)) WallAnalyzer.vertical id1
                  WallAnalyzer.corridor),
               (WallAnalyzer.mkWallSegment (mkPosition (px + 1) py)
                  (mkPosition (px + 1) (py + 1)) WallAnalyzer.vertical id2
                  WallAnalyzer.corridor).
        rewrite !elem_of_cons. split; [auto 10|]. split; [auto 10|].
        unfold WallAnalyzer.doSegmentsOverlap, WallAnalyzer.rangesOverlap. simpl.
        apply andb_true_intro. split; [apply Z.eqb_eq|apply Z.ltb_lt]; lia.
      * exists (WallAnalyzer.mkWallSegment (mkPosition px py)
                  (mkPosition px (py + 1)) WallAnalyzer.vertical id1
                  WallAnalyzer.corridor),
               (WallAnalyzer.mkWallSegment (mkPosition (px - 1 + 1) py)
                  (mkPosition (px - 1 + 1) (py + 1)) WallAnalyzer.vertical id2
                  WallAnalyzer.corridor).
        rewrite !elem_of_cons. split; [auto 10|]. split; [auto 10|].
        unfold WallAnalyzer.doSegmentsOverlap, WallAnalyzer.rangesOverlap. simpl.
        apply andb_true_intro. split; [apply Z.eqb_eq|apply Z.ltb_lt]; lia.
Qed.

Lemma existsb_elem_iff {A} (f : A -> bool) (l : list A) :
  existsb f l = true <-> exists x, x ∈ l /\ f x = true.
Proof.
  rewrite existsb_exists. split; intros (x & Hx & Hf); exists x;
    (split; [now apply list_elem_of_In|exact Hf]).
Qed.

(** A position is adjacent to a corridor in a cardinal direction exactly
    when the cell next to it in that direction is a cell of the corridor's
    path; no position is adjacent in a diagonal direction. *)
Theorem isPositionAdjacentToCorridor_spec position direction corridor :
  WallAnalyzer.isPositionAdjacentToCorridor position direction corridor = true
  <-> direction ∈ BlockExpansionEngine.cardinalDirections
      /\ BlockExpansionEngine.getAdjacentPosition position direction
           ∈ cor_path corridor.
Proof.
  unfold WallAnalyzer.isPositionAdjacentToCorridor,
    BlockExpansionEngine.cardinalDirections.
  rewrite existsb_elem_iff. split.
  - intros (c & Hc & Hf).
    destruct direction; try discriminate;
      apply andb_prop in Hf as [Hx%Z.eqb_eq Hy%Z.eqb_eq];
      (split; [rewrite !elem_of_cons; auto 10|]);
      simpl; destruct c as [cx cy]; simpl in *; subst; exact Hc.
  - intros [Hd Hin].
    repeat (apply elem_of_cons in Hd as [-> | Hd]); try (now apply elem_of_nil in Hd);
      simpl in Hin; eexists; (split; [exact Hin|]); simpl;
      rewrite !Z.eqb_refl; reflexivity.
Qed.

(** ** The shared wall manager under [addElement] and [removeElement] *)

Lemma registerStep_ok now elementId doors cp :
  registryOk doors -> registryOk (SharedWallManager.registerStep now elementId doors cp).
Proof.
  intros Hok. unfold SharedWallManager.registerStep.
  destruct (DoorRegistry.getDoorByLocation _ _ _); [exact Hok|].
  now apply registerDoor_ok.
Qed.

Lemma register_fold_ok now elementId cps : forall doors,
  registryOk doors ->
  registryOk (fold_left (SharedWallManager.registerStep now elementId) cps doors).
Proof.
  induction cps as [|cp cps IH]; intros doors Hok; simpl; [exact Hok|].
  apply IH. now apply registerStep_ok.
Qed.

Lemma autoOpenStep_ok els acc k :
  registryOk (snd acc) -> registryOk (snd (SharedWallManager.autoOpenStep els acc k)).
Proof.
  destruct acc as [h doors]. simpl. intros Hok.
  destruct (DoorRegistry.get k doors) as [door|]; [|exact Hok].
  destruct (_ || _); [exact Hok|]. destruct (forallb _ _); [|exact Hok]. simpl.
  apply markDoorAsGenerated_ok, updateDoorState_ok. exact Hok.
Qed.

Lemma autoOpen_fold_ok els ks : forall acc,
  registryOk (snd acc) ->
  registryOk (snd (fold_left (SharedWallManager.autoOpenStep els) ks acc)).
Proof.
  induction ks as [|k ks IH]; intros acc Hok; simpl; [exact Hok|].
  apply IH. now apply autoOpenStep_ok.
Qed.

Lemma addElement_ok now l h m :
  registryOk (SharedWallManager.doorRegistry m) ->
  registryOk (SharedWallManager.doorRegistry
                (snd (fst (SharedWallManager.addElement now l h m)))).
Proof.
  intros Hok. unfold SharedWallManager.addElement.
  destruct (h !! l) as [e|]; [|exact Hok].
  pose proof (connect_ok (elem_id e) (elem_connectionPoints e)
                (SharedWallManager.doorRegistry m, []) Hok) as Hc.
  unfold DoorRegistry.connectElementToExistingDoors.
  destruct (fold_left _ (elem_connectionPoints e) _) as [doors1 updated]. simpl in Hc.
  pose proof (register_fold_ok now (elem_id e) updated doors1 Hc) as Hr.
  unfold SharedWallManager.autoOpenRevealedDoors.
  match goal with |- context [fold_left (SharedWallManager.autoOpenStep ?els) ?ks ?acc] =>
    pose proof (autoOpen_fold_ok els ks acc Hr) as Ha;
    destruct (fold_left (SharedWallManager.autoOpenStep els) ks acc) as [h2 doors3]
  end.
  exact Ha.
Qed.

Lemma removed_door i k doors d' :
  registryOk doors ->
  DoorRegistry.get k (DoorRegistry.removeElementFromDoors i doors) = Some d' ->
  exists d,
    DoorRegistry.get k doors = Some d
    /\ door_location d' = door_location d
    /\ door_state d' = door_state d
    /\ door_isGenerated d' = door_isGenerated d
    /\ (i ∉ door_connectedElements d')
    /\ (forall j, j ∈ door_connectedElements d' -> j ∈ door_connectedElements d)
    /\ (length (door_connectedElements d') <= length (door_connectedElements d))%nat.
Proof.
  intros Hok. pose proof Hok as [Hnd _].
  unfold DoorRegistry.removeElementFromDoors.
  rewrite get_omap; [|apply removeFromDoor_key|exact Hnd].
  destruct (DoorRegistry.get k doors) as [d|] eqn:Hget; [|discriminate].
  simpl. destruct (get_ok _ _ _ Hok Hget) as (_ & _ & Hndd & _). simpl in Hndd.
  unfold DoorRegistry.includes. case_bool_decide as Hin.
  - destruct (_ =? _); [discriminate|]. simpl. intros [= <-]. exists d. simpl.
    split; [reflexivity|]. do 3 (split; [reflexivity|]).
    split; [now apply spliceFirst_NoDup|]. split.
    + intros j. apply spliceFirst_elem.
    + rewrite spliceFirst_filter by exact Hndd. apply filter_length_le.
  - simpl. intros [= <-]. exists d. auto 10.
Qed.

Lemma kept_door i k doors d j :
  registryOk doors ->
  DoorRegistry.get k doors = Some d -> j ∈ door_connectedElements d -> j <> i ->
  exists d',
    DoorRegistry.get k (DoorRegistry.removeElementFromDoors i doors) = Some d'
    /\ j ∈ door_connectedElements d'.
Proof.
  intros Hok Hget Hj Hne. pose proof Hok as [Hnd _].
  unfold DoorRegistry.removeElementFromDoors.
  rewrite get_omap; [|apply removeFromDoor_key|exact Hnd].
  rewrite Hget. simpl. unfold DoorRegistry.includes. case_bool_decide as Hin.
  - pose proof (spliceFirst_other i j _ Hne Hj) as Hj'.
    destruct (array_length _ =? 0) eqn:Hlen.
    + apply Z.eqb_eq in Hlen. unfold array_length in Hlen.
      destruct (DoorRegistry.spliceFirst i (door_connectedElements d));
        [now apply elem_of_nil in Hj'|simpl in Hlen; lia].
    + simpl. eauto.
  - simpl. eauto.
Qed.

Lemma removeElement_inv i h m :
  wallInv h m -> registryOk (SharedWallManager.doorRegistry m) ->
  wallInv h (SharedWallManager.removeElement i h m).
Proof.
  intros [HW Hvalid Hids Hdoor Hpresent Hopen Hshared] Hok.
  assert (Hsub : forall l, l ∈ List.filter (fun l => negb (SharedWallManager.hasId h i l))
                               (SharedWallManager.elements m) ->
                           l ∈ SharedWallManager.elements m
                           /\ SharedWallManager.hasId h i l = false).
  { intros l Hl%list_elem_of_In%filter_In. destruct Hl as [Hl Hf].
    split; [now apply list_elem_of_In|now apply negb_true_iff]. }
  constructor; simpl.
  - intros k d' Hget. destruct (removed_door _ _ _ _ Hok Hget) as (d & Hd & -> & _).
    now apply HW.
  - intros l Hl. apply Hvalid, Hsub, Hl.
  - intros l1 l2 e1 e2 H1 H2. apply Hids; now apply Hsub.
  - intros l e cp Hl He Hcp. destruct (Hsub l Hl) as [Hin Hhas].
    destruct (Hdoor l e cp Hin He Hcp) as (d & Hd & Hi).
    apply (kept_door i _ _ _ _ Hok Hd Hi).
    unfold SharedWallManager.hasId in Hhas. rewrite He in Hhas.
    now apply bool_decide_eq_false in Hhas.
  - intros k d' j Hget Hj.
    destruct (removed_door _ _ _ _ Hok Hget) as (d & Hd & _ & _ & _ & Hout & Hin & _).
    pose proof (Hpresent k d j Hd (Hin j Hj)) as Hex.
    apply existsb_elem_inv in Hex as (l & Hl & Hhas).
    apply (existsb_elem _ _ l); [|exact Hhas].
    apply list_elem_of_In, filter_In. split; [now apply list_elem_of_In|].
    apply negb_true_iff. unfold SharedWallManager.hasId in *.
    destruct (h !! l) as [e|]; [|discriminate].
    apply bool_decide_eq_true in Hhas. apply bool_decide_eq_false_2.
    intros Heq. apply Hout. congruence.
  - intros k d' Hget Hstate.
    destruct (removed_door _ _ _ _ Hok Hget) as (d & Hd & Hloc & Hst & Hgen & _).
    rewrite Hst in Hstate. destruct (Hopen k d Hd Hstate) as [Hg Hpts].
    split; [congruence|]. intros l Hl.
    apply (doorPointsSet_location _ _ d); [exact Hloc|]. apply Hpts, Hsub, Hl.
  - intros k d' Hget Hlen.
    destruct (removed_door _ _ _ _ Hok Hget) as (d & Hd & _ & -> & _ & _ & _ & Hle).
    apply (Hshared k d Hd). lia.
Qed.

Lemma placedBy_inv h m :
  placedBy h m -> wallInv h m /\ registryOk (SharedWallManager.doorRegistry m).
Proof.
  induction 1 as [h m|now l h m e h' m' cps _ [IH Hok] He Hnew Hfresh Hadd
                 |h m i m' _ [IH Hok] <-].
  - split; [apply wallInv_reset|]. split; constructor.
  - pose proof (addElement_ok now l h m Hok) as Hok'. rewrite Hadd in Hok'.
    split; [|exact Hok'].
    eapply addElement_inv in Hadd as (Hinv & _); eauto.
  - split; [now apply removeElement_inv|]. simpl. now apply remove_ok.
Qed.

Lemma elementExists_find h els i :
  SharedWallManager.elementExists h els i = true ->
  is_Some (SharedWallManager.findElement h els i).
Proof.
  unfold SharedWallManager.elementExists, SharedWallManager.findElement.
  induction els as [|l els IH]; simpl; [discriminate|].
  destruct (SharedWallManager.hasId h i l); simpl; eauto.
Qed.

Lemma omap_all_length {A B} (f : A -> option B) (l : list A) :
  (forall x, x ∈ l -> is_Some (f x)) -> length (omap f l) = length l.
Proof.
  induction l as [|x l IH]; intros H; [reflexivity|].
  rewrite omap_cons_eq. destruct (H x) as [y ->]; [apply elem_of_cons; auto|].
  simpl. f_equal. apply IH. intros z Hz. apply H, elem_of_cons. auto.
Qed.

(** In every state of the manager reached by adding and removing
    elements: each connection point of a placed element has a door in the
    registry that lists the element; the elements a door lists are placed;
    and two distinct placed elements with points at the same cell facing the
    same direction share a door that is [Open], both points being generated
    and connected. *)
Theorem placed_elements_registered h m :
  placedBy h m ->
  (forall l e cp,
      l ∈ SharedWallManager.elements m -> h !! l = Some e ->
      cp ∈ elem_connectionPoints e ->
      exists door,
        DoorRegistry.getDoorByLocation (SharedWallManager.doorRegistry m)
          (cp_position cp) (cp_direction cp) = Some door
        /\ elem_id e ∈ door_connectedElements door)
  /\ (forall door elementId,
        door ∈ DoorRegistry.getAllDoors (SharedWallManager.doorRegistry m) ->
        elementId ∈ door_connectedElements door ->
        SharedWallManager.elementExists h (SharedWallManager.elements m) elementId
        = true)
  /\ (forall l1 l2 e1 e2 cp1 cp2,
        l1 ∈ SharedWallManager.elements m -> l2 ∈ SharedWallManager.elements m ->
        l1 <> l2 -> h !! l1 = Some e1 -> h !! l2 = Some e2 ->
        cp1 ∈ elem_connectionPoints e1 -> cp2 ∈ elem_connectionPoints e2 ->
        cp_position cp1 = cp_position cp2 -> cp_direction cp1 = cp_direction cp2 ->
        SharedWallManager.getDoorState m (cp_position cp1) (cp_direction cp1) = Open
        /\ flagsSet cp1 /\ flagsSet cp2).
Proof.
  intros [Hinv Hok]%placedBy_inv. split; [|split].
  - intros l e cp Hl He Hcp. exact (inv_door _ _ Hinv l e cp Hl He Hcp).
  - intros door i Hd Hi. unfold DoorRegistry.getAllDoors in Hd.
    apply list_elem_of_fmap in Hd as ([k d] & -> & Hkd).
    apply (inv_present _ _ Hinv k d i); [|exact Hi].
    apply elem_get; [apply Hok|exact Hkd].
  - intros l1 l2 e1 e2 cp1 cp2 Hl1 Hl2 Hne He1 He2 Hcp1 Hcp2 Hpos Hdir.
    destruct (inv_door _ _ Hinv l1 e1 cp1 Hl1 He1 Hcp1) as (d & Hd & Hi1).
    destruct (inv_door _ _ Hinv l2 e2 cp2 Hl2 He2 Hcp2) as (d' & Hd' & Hi2).
    assert (Hkey : keyOf cp2 = keyOf cp1) by (unfold keyOf; now rewrite Hpos, Hdir).
    rewrite Hkey, Hd in Hd'. injection Hd' as <-.
    assert (Hids : elem_id e1 <> elem_id e2).
    { intros Heq. apply Hne. eapply (inv_ids _ _ Hinv); eauto. }
    pose proof (two_elements _ _ _ Hi1 Hi2 Hids) as Hlen.
    pose proof (inv_shared _ _ Hinv _ _ Hd Hlen) as Hstate.
    destruct (inv_open _ _ Hinv _ _ Hd Hstate) as [_ Hpts].
    pose proof (inv_keyed _ _ Hinv _ _ Hd) as Hk.
    assert (Hat1 : SharedWallManager.atDoor d cp1 = true) by now apply atDoor_true.
    assert (Hat2 : SharedWallManager.atDoor d cp2 = true)
      by (apply atDoor_true; congruence).
    split; [|split].
    2: exact (Hpts l1 Hl1 e1 cp1 He1 Hcp1 Hat1).
    2: exact (Hpts l2 Hl2 e2 cp2 He2 Hcp2 Hat2).
    unfold SharedWallManager.getDoorState, DoorRegistry.getDoorState,
      DoorRegistry.getDoorByLocation.
    fold (keyOf cp1). now rewrite Hd.
Qed.

(** In those states [validateDoorConsistency] never reports a door that
    references missing elements: every issue it returns is a conflict of
    opposite doors at the issue's position. *)
Theorem validateDoorConsistency_conflicts_only h m issue :
  placedBy h m ->
  issue ∈ SharedWallManager.validateDoorConsistency h m ->
  SharedWallManager.issue_text issue
  = "Conflicting doors in opposite directions at same position"
  /\ DoorRegistry.hasConflictingDoors (SharedWallManager.doorRegistry m)
       (SharedWallManager.issue_position issue) = true.
Proof.
  intros [Hinv Hok]%placedBy_inv.
  unfold SharedWallManager.validateDoorConsistency.
  intros (door & Hissue & Hdoor)%list_elem_of_bind.
  unfold SharedWallManager.doorIssues in Hissue.
  assert (Hfound :
    array_length (omap (SharedWallManager.findElement h (SharedWallManager.elements m))
                    (door_connectedElements door))
    = array_length (door_connectedElements door)).
  { unfold array_length. f_equal. apply omap_all_length. intros i Hi.
    apply elementExists_find. unfold DoorRegistry.getAllDoors in Hdoor.
    apply list_elem_of_fmap in Hdoor as ([k d] & -> & Hkd).
    apply (inv_present _ _ Hinv k d i); [|exact Hi].
    apply elem_get; [apply Hok|exact Hkd]. }
  rewrite Hfound, Z.eqb_refl in Hissue. simpl in Hissue.
  assert (Hconf : issue ∈ (if DoorRegistry.hasConflictingDoors
                                (SharedWallManager.doorRegistry m)
                                (loc_position (door_location door))
                           then [SharedWallManager.mkIssue
                                   (loc_position (door_location door))
                                   "Conflicting doors in opposite directions at same position"]
                           else [])).
  { destruct (1 <? _) in Hissue; exact Hissue. }
  destruct (DoorRegistry.hasConflictingDoors _ _) eqn:Hc;
    [|now apply elem_of_nil in Hconf].
  apply list_elem_of_singleton in Hconf as ->. simpl. auto.
Qed.

Lemma placedBy_two h s :
  (exists e0 e1 h1 m1 cps1 cps2,
      h !! 0%nat = Some e0 /\ h1 !! 1%nat = Some e1
      /\ SharedWallManager.addElement 1000 0%nat h (SharedWallManager.reset noWalls)
         = (h1, m1, cps1)
      /\ SharedWallManager.elements m1 = [0%nat]
      /\ (forall e, h1 !! 0%nat = Some e -> elem_id e <> elem_id e1)
      /\ SharedWallManager.addElement 2000 1%nat h1 m1 = (fst s, snd s, cps2)) ->
  placedBy (fst s) (snd s).
Proof.
  intros (e0 & e1 & h1 & m1 & cps1 & cps2 & H0 & H1 & Ha1 & Hels & Hid & Ha2).
  apply (placed_add 2000 1%nat h1 m1 e1 _ _ cps2); [|exact H1| | |exact Ha2].
  - apply (placed_add 1000 0%nat h (SharedWallManager.reset noWalls) e0 _ _ cps1);
      [exact (placed_reset h noWalls)|exact H0| | |exact Ha1].
    + apply not_elem_of_nil.
    + intros l0 e2 Hl0. now apply elem_of_nil in Hl0.
  - rewrite Hels. intros [=]%list_elem_of_singleton.
  - rewrite Hels. intros l0 e2 ->%list_elem_of_singleton. apply Hid.
Defined.

Lemma placedNorth_placed : placedBy (fst placedNorth) (snd placedNorth).
Proof.
  apply (placedBy_two twoNorth). do 6 eexists.
  split; [reflexivity|]. split; [|split; [vm_compute; reflexivity|]].
  - vm_compute. reflexivity.
  - split; [reflexivity|]. split; [|vm_compute; reflexivity].
    intros e [= <-]. discriminate.
Defined.

Lemma placedOpposite_placed : placedBy (fst placedOpposite) (snd placedOpposite).
Proof.
  apply (placedBy_two northAndSouth). do 6 eexists.
  split; [reflexivity|]. split; [|split; [vm_compute; reflexivity|]].
  - vm_compute. reflexivity.
  - split; [reflexivity|]. split; [|vm_compute; reflexivity].
    intros e [= <-]. discriminate.
Defined.

Lemma placed_elements_registered_witness :
  let h := fst placedNorth in
  let m := snd placedNorth in
  (forall l e cp,
      l ∈ SharedWallManager.elements m -> h !! l = Some e ->
      cp ∈ elem_connectionPoints e ->
      exists door,
        DoorRegistry.getDoorByLocation (SharedWallManager.doorRegistry m)
          (cp_position cp) (cp_direction cp) = Some door
        /\ elem_id e ∈ door_connectedElements door)
  /\ (forall door elementId,
        door ∈ DoorRegistry.getAllDoors (SharedWallManager.doorRegistry m) ->
        elementId ∈ door_connectedElements door ->
        SharedWallManager.elementExists h (SharedWallManager.elements m) elementId
        = true)
  /\ (forall l1 l2 e1 e2 cp1 cp2,
        l1 ∈ SharedWallManager.elements m -> l2 ∈ SharedWallManager.elements m ->
        l1 <> l2 -> h !! l1 = Some e1 -> h !! l2 = Some e2 ->
        cp1 ∈ elem_connectionPoints e1 -> cp2 ∈ elem_connectionPoints e2 ->
        cp_position cp1 = cp_position cp2 -> cp_direction cp1 = cp_direction cp2 ->
        SharedWallManager.getDoorState m (cp_position cp1) (cp_direction cp1) = Open
        /\ flagsSet cp1 /\ flagsSet cp2).
Proof.
  exact (placed_elements_registered (fst placedNorth) (snd placedNorth)
           placedNorth_placed).
Defined.

Lemma validateDoorConsistency_conflicts_only_witness :
  conflictIssue
    ∈ SharedWallManager.validateDoorConsistency (fst placedOpposite) (snd placedOpposite)
  /\ SharedWallManager.issue_text conflictIssue
     = "Conflicting doors in opposite directions at same position"
  /\ DoorRegistry.hasConflictingDoors
       (SharedWallManager.doorRegistry (snd placedOpposite))
       (SharedWallManager.issue_position conflictIssue) = true.
Proof.
  assert (Hin : conflictIssue
                ∈ SharedWallManager.validateDoorConsistency (fst placedOpposite)
                    (snd placedOpposite)).
  { change (SharedWallManager.validateDoorConsistency (fst placedOpposite)
              (snd placedOpposite)) with [conflictIssue; conflictIssue].
    apply elem_of_cons. left. reflexivity. }
  split; [exact Hin|].
  exact (validateDoorConsistency_conflicts_only (fst placedOpposite)
           (snd placedOpposite) conflictIssue placedOpposite_placed Hin).
Defined.

(** ** C2: when a shared door is open *)

Lemma heapUp_fwd h h' l e :
  heapUp h h' -> h !! l = Some e ->
  exists e', h' !! l = Some e' /\ elem_id e' = elem_id e
             /\ Forall2 pointUp (elem_connectionPoints e) (elem_connectionPoints e').
Proof.
  intros Hup He. specialize (Hup l). rewrite He in Hup.
  destruct (h' !! l) as [e'|]; [|contradiction]. exists e'. tauto.
Qed.

Lemma joinIf_length i ks k d :
  (length (door_connectedElements d)
   <= length (door_connectedElements (joinIf i ks k d)))%nat.
Proof.
  unfold joinIf. destruct (bool_decide (k ∈ ks)); [|lia].
  unfold DoorRegistry.addConnectedElement.
  destruct (DoorRegistry.includes i (door_connectedElements d)); simpl; [lia|].
  rewrite length_app. lia.
Qed.

Lemma joinIf_out i ks k d : k ∉ ks -> joinIf i ks k d = d.
Proof. intros H. unfold joinIf. now rewrite bool_decide_eq_false_2. Qed.

Lemma freshDoor_stays present i k d : freshDoor i k d -> openIf present d = d.
Proof.
  intros (_ & Hc & _). unfold openIf, shouldOpen. rewrite Hc. simpl.
  now rewrite orb_true_r.
Qed.

(** The registry and the store after [addElement], traced back to the
    ones before the call. *)
Lemma addElement_trace now l h m e h' m' cps' :
  wellKeyed (SharedWallManager.doorRegistry m) ->
  h !! l = Some e ->
  SharedWallManager.addElement now l h m = (h', m', cps') ->
  exists updated,
    let h1 := <[ l := elem_set_connectionPoints e updated ]> h in
    let present :=
      SharedWallManager.elementExists h1 (SharedWallManager.elements m ++ [l]) in
    let ks := keyOf <$> elem_connectionPoints e in
    Forall2 (connectRel (SharedWallManager.doorRegistry m))
      (elem_connectionPoints e) updated
    /\ heapUp h1 h'
    /\ SharedWallManager.elements m' = SharedWallManager.elements m ++ [l]
    /\ forall k,
         match DoorRegistry.get k (SharedWallManager.doorRegistry m) with
         | Some d0 =>
             DoorRegistry.get k (SharedWallManager.doorRegistry m')
             = Some (openIf present (joinIf (elem_id e) ks k d0))
         | None =>
             ((k ∉ ks)
              /\ DoorRegistry.get k (SharedWallManager.doorRegistry m') = None)
             \/ ((k ∈ ks)
                 /\ exists d2,
                      freshDoor (elem_id e) k d2
                      /\ DoorRegistry.get k (SharedWallManager.doorRegistry m')
                         = Some (openIf present d2))
         end.
Proof.
  intros HW He. unfold SharedWallManager.addElement. rewrite He.
  destruct (DoorRegistry.connectElementToExistingDoors _ _ _)
    as [doors1 updated] eqn:Hc.
  destruct (SharedWallManager.autoOpenRevealedDoors _ _ _) as [h2 doors3] eqn:Ha.
  intros [= <- <- <-]. exists updated. simpl.
  set (els := SharedWallManager.elements m ++ [l]) in *.
  set (doors0 := SharedWallManager.doorRegistry m) in *.
  set (elementId := elem_id e) in *.
  set (h1 := <[ l := elem_set_connectionPoints e updated ]> h) in *.
  set (doors2 := fold_left (SharedWallManager.registerStep now elementId) updated doors1) in *.
  set (present := SharedWallManager.elementExists h1 els).
  apply connectElementToExistingDoors_spec in Hc as [Hrel H1].
  pose proof (connectRel_keys _ _ _ Hrel) as Hkeys.
  set (ks := keyOf <$> elem_connectionPoints e) in *.
  assert (HW2 : wellKeyed doors2).
  { intros k d2 Hk2.
    pose proof (register_fold now elementId updated doors1 k) as H2.
    simpl in H2. fold doors2 in H2. rewrite H1 in H2.
    destruct (DoorRegistry.get k doors0) as [d0|] eqn:Hk0; simpl in H2.
    - rewrite H2 in Hk2. injection Hk2 as <-.
      destruct (joinIf_same elementId ks k d0) as (-> & _). eauto.
    - destruct H2 as [[_ Hn] | [_ (d & Hd & Hf)]]; [congruence|].
      rewrite Hd in Hk2. injection Hk2 as <-. apply Hf. }
  unfold SharedWallManager.autoOpenRevealedDoors in Ha.
  apply autoOpen_fold in Ha as (Hup & HW3 & H3 & Hset); [|exact HW2].
  fold present in H3.
  assert (H3' : forall k, DoorRegistry.get k doors3
                          = openIf present <$> DoorRegistry.get k doors2).
  { intros k. rewrite H3. destruct (DoorRegistry.get k doors2) as [d2|] eqn:Hk2;
      [|reflexivity].
    rewrite bool_decide_eq_true_2; [reflexivity|]. eapply get_Some_key; eauto. }
  split; [exact Hrel|]. split; [exact Hup|]. split; [reflexivity|].
  exact (registry_phases now elementId ks updated present doors0 doors1 doors3
           HW H1 Hkeys H3').
Qed.

Lemma addElement_tight now l h m e h' m' cps' :
  wallInv h m -> tightInv h m ->
  h !! l = Some e ->
  l ∉ SharedWallManager.elements m ->
  SharedWallManager.addElement now l h m = (h', m', cps') ->
  tightInv h' m'.
Proof.
  intros Hinv [Hstate Hpoint] He Hnew Hadd.
  destruct (addElement_trace _ _ _ _ _ _ _ _ (inv_keyed _ _ Hinv) He Hadd)
    as (updated & Hrel & Hup & Hels & Hph).
  set (h1 := <[ l := elem_set_connectionPoints e updated ]> h) in *.
  set (present := SharedWallManager.elementExists h1
                    (SharedWallManager.elements m ++ [l])) in *.
  set (ks := keyOf <$> elem_connectionPoints e) in *.
  assert (Hl1 : h1 !! l = Some (elem_set_connectionPoints e updated)).
  { unfold h1. apply list_lookup_insert_eq. eapply lookup_lt_Some; eauto. }
  assert (Hother : forall l0, l0 <> l -> h1 !! l0 = h !! l0).
  { intros l0 Hne. unfold h1. now apply list_lookup_insert_ne. }
  (* the new element has a point at every key of [ks] *)
  assert (Hown : forall k, k ∈ ks ->
             exists l0 e0 cp,
               l0 ∈ SharedWallManager.elements m' /\ h' !! l0 = Some e0
               /\ elem_id e0 = elem_id e /\ cp ∈ elem_connectionPoints e0
               /\ keyOf cp = k).
  { intros k (cp & -> & Hcp)%list_elem_of_fmap.
    apply list_elem_of_lookup in Hcp as [n Hn].
    destruct (Forall2_lookup_l _ _ _ _ _ Hrel Hn) as (cp1 & Hn1 & Hp & Hd & _).
    destruct (heapUp_fwd _ _ _ _ Hup Hl1) as (e' & He' & Hid & Hall).
    rewrite elem_connectionPoints_set in Hall. rewrite elem_id_set in Hid.
    destruct (Forall2_lookup_l _ _ _ _ _ Hall Hn1) as (cp2 & Hn2 & Hpu).
    exists l, e', cp2. rewrite Hels. split; [apply elem_of_app; right;
      apply elem_of_cons; auto|].
    split; [exact He'|]. split; [exact Hid|].
    split; [eapply list_elem_of_lookup_2; eauto|].
    rewrite (pointUp_key _ _ Hpu). unfold keyOf. now rewrite Hp, Hd. }
  (* an element placed before keeps its points *)
  assert (Hkept : forall k d0 i,
             DoorRegistry.get k (SharedWallManager.doorRegistry m) = Some d0 ->
             i ∈ door_connectedElements d0 ->
             exists l0 e0 cp,
               l0 ∈ SharedWallManager.elements m' /\ h' !! l0 = Some e0
               /\ elem_id e0 = i /\ cp ∈ elem_connectionPoints e0
               /\ keyOf cp = k).
  { intros k d0 i Hk0 Hi.
    destruct (Hpoint k d0 i Hk0 Hi) as (l0 & e0 & cp & Hl0 & He0 & Hid & Hcp & Hk).
    assert (Hne : l0 <> l) by (intros ->; auto).
    rewrite <- Hother in He0 by exact Hne.
    destruct (heapUp_fwd _ _ _ _ Hup He0) as (e' & He' & Hid' & Hall).
    apply list_elem_of_lookup in Hcp as [n Hn].
    destruct (Forall2_lookup_l _ _ _ _ _ Hall Hn) as (cp2 & Hn2 & Hpu).
    exists l0, e', cp2. rewrite Hels. split; [apply elem_of_app; auto|].
    split; [exact He'|]. split; [congruence|].
    split; [eapply list_elem_of_lookup_2; eauto|].
    now rewrite (pointUp_key _ _ Hpu). }
  constructor.
  - intros k d3 Hk3. specialize (Hph k).
    destruct (DoorRegistry.get k (SharedWallManager.doorRegistry m))
      as [d0|] eqn:Hk0.
    + rewrite Hph in Hk3. injection Hk3 as <-.
      pose proof (joinIf_length (elem_id e) ks k d0) as Hlen.
      destruct (joinIf_same (elem_id e) ks k d0) as (_ & Hst & _).
      destruct (openIf_cases present (joinIf (elem_id e) ks k d0))
        as [[Hso ->] | [Hso ->]].
      * right. split; [reflexivity|]. simpl.
        unfold shouldOpen in Hso. apply andb_prop in Hso as [Hso _].
        apply negb_true_iff, orb_false_elim in Hso as [_ Hlt%Z.ltb_ge].
        unfold array_length in Hlt. lia.
      * rewrite Hst. destruct (Hstate k d0 Hk0) as [Hc | [Ho Hl]]; [auto|].
        right. split; [exact Ho|lia].
    + destruct Hph as [[_ Hn] | [_ (d2 & Hf & Hd)]]; [congruence|].
      rewrite Hd in Hk3. injection Hk3 as <-.
      rewrite (freshDoor_stays _ _ _ _ Hf). left. apply Hf.
  - intros k d3 i Hk3 Hi. specialize (Hph k).
    destruct (DoorRegistry.get k (SharedWallManager.doorRegistry m))
      as [d0|] eqn:Hk0.
    + rewrite Hph in Hk3. injection Hk3 as <-.
      rewrite openIf_connected in Hi.
      destruct (decide (k ∈ ks)) as [Hin | Hout].
      * apply joinIf_inv in Hi as [Hi | ->]; [eauto|]. now apply Hown.
      * rewrite joinIf_out in Hi by exact Hout. eauto.
    + destruct Hph as [[_ Hn] | [Hin (d2 & Hf & Hd)]]; [congruence|].
      rewrite Hd in Hk3. injection Hk3 as <-.
      rewrite openIf_connected in Hi. destruct Hf as (_ & Hc & _).
      rewrite Hc in Hi. apply list_elem_of_singleton in Hi as ->.
      now apply Hown.
Qed.

Lemma tightInv_reset h m : tightInv h (SharedWallManager.reset m).
Proof. constructor; simpl; intros k d; discriminate. Qed.

Lemma addElements_tight calls : forall h m h' m',
  wallInv h m -> tightInv h m ->
  Forall (fun l => is_Some (h !! l)) (snd <$> calls) ->
  NoDup (elementIds h (SharedWallManager.elements m ++ (snd <$> calls))) ->
  addElements calls (h, m) = (h', m') ->
  tightInv h' m'.
Proof.
  induction calls as [|[now l] calls IH]; intros h m h' m' Hinv Htight Hall Hnd.
  - now intros [= <- <-].
  - rewrite addElements_cons.
    destruct (SharedWallManager.addElement now l h m) as [[h1 m1] cps1] eqn:Hadd.
    intros Hrest.
    rewrite fmap_cons in Hall, Hnd. simpl in Hall, Hnd.
    apply Forall_cons in Hall as [[e He] Hall].
    assert (Hinj : forall l1 l2,
               l1 ∈ SharedWallManager.elements m ++ l :: (snd <$> calls) ->
               l2 ∈ SharedWallManager.elements m ++ l :: (snd <$> calls) ->
               elem_id <$> h !! l1 = elem_id <$> h !! l2 -> l1 = l2).
    { intros l1 l2 H1 H2 Hf.
      apply (NoDup_fmap_eq (fun l => elem_id <$> h !! l) _ l1 l2 Hnd H1 H2 Hf). }
    assert (Hnd' : NoDup (SharedWallManager.elements m ++ l :: (snd <$> calls)))
      by (eapply NoDup_fmap_1; exact Hnd).
    assert (Hnew : l ∉ SharedWallManager.elements m).
    { intros Hin. apply NoDup_app in Hnd' as (_ & Hdisj & _).
      apply (Hdisj l Hin). apply elem_of_cons. auto. }
    pose proof (addElement_tight _ _ _ _ _ _ _ _ Hinv Htight He Hnew Hadd) as Htight1.
    apply addElement_inv with (e := e) in Hadd as (Hinv1 & Hels1 & Hid1); auto.
    2:{ intros l0 e0 Hin He0 Heq. apply Hnew.
        rewrite <- (Hinj l0 l); auto.
        - apply elem_of_app. auto.
        - apply elem_of_app. right. apply elem_of_cons. auto.
        - rewrite He0, He. simpl. now f_equal. }
    apply (IH h1 m1 h' m' Hinv1 Htight1); auto.
    + eapply Forall_impl; [exact Hall|]. intros l0 Hs. simpl in *.
      apply fmap_is_Some with (f := elem_id). rewrite Hid1.
      now apply fmap_is_Some.
    + rewrite (elementIds_ext h h1) by exact Hid1.
      rewrite Hels1, <- app_assoc. exact Hnd.
Qed.

Lemma two_listed (xs : list string) x :
  NoDup xs -> x ∈ xs -> (2 <= length xs)%nat -> exists y, y ∈ xs /\ y <> x.
Proof.
  intros Hnd Hx Hlen. destruct xs as [|a [|b xs]]; simpl in Hlen; try lia.
  apply NoDup_cons in Hnd as [Hab _].
  destruct (decide (a = x)) as [-> | Hne].
  - exists b. split; [apply elem_of_cons; right; apply elem_of_cons; auto|].
    intros ->. apply Hab. apply elem_of_cons. auto.
  - exists a. split; [apply elem_of_cons; auto|exact Hne].
Qed.

Lemma addElements_ok calls : forall h m,
  registryOk (SharedWallManager.doorRegistry m) ->
  registryOk (SharedWallManager.doorRegistry (snd (addElements calls (h, m)))).
Proof.
  induction calls as [|[now l] calls IH]; intros h m Hok; [exact Hok|].
  rewrite addElements_cons.
  pose proof (addElement_ok now l h m Hok) as Hok1.
  destruct (SharedWallManager.addElement now l h m) as [[h1 m1] cps1].
  now apply IH.
Qed.

(** C2, amended: from a reset manager, after every sequence of [addElement]
    calls on existing element objects with pairwise distinct ids, take a
    connection point of a placed element.  If another placed element has a
    connection point at the same cell facing the same direction, the door
    the two share is [Open] and both points have
    [isGenerated = isConnected = true].  If no other placed element has
    such a point, the door at that cell and direction is [Closed]: points
    of other elements facing any other direction, the opposite one included,
    belong to other doors and never open it. *)
Theorem shared_door_opens calls h0 m0 h m l1 e1 cp1 :
  Forall (fun l => is_Some (h0 !! l)) (snd <$> calls) ->
  NoDup (elementIds h0 (snd <$> calls)) ->
  addElements calls (h0, SharedWallManager.reset m0) = (h, m) ->
  l1 ∈ snd <$> calls ->
  h !! l1 = Some e1 ->
  cp1 ∈ elem_connectionPoints e1 ->
  (forall l2 e2 cp2,
      l2 ∈ snd <$> calls -> l1 <> l2 ->
      h !! l2 = Some e2 -> cp2 ∈ elem_connectionPoints e2 ->
      cp_position cp1 = cp_position cp2 -> cp_direction cp1 = cp_direction cp2 ->
      SharedWallManager.getDoorState m (cp_position cp1) (cp_direction cp1) = Open
      /\ cp_isGenerated cp1 = true /\ cp_isConnected cp1 = true
      /\ cp_isGenerated cp2 = true /\ cp_isConnected cp2 = true)
  /\ ((forall l2 e2 cp2,
          l2 ∈ snd <$> calls -> l1 <> l2 ->
          h !! l2 = Some e2 -> cp2 ∈ elem_connectionPoints e2 ->
          cp_position cp1 = cp_position cp2 ->
          cp_direction cp1 <> cp_direction cp2) ->
      SharedWallManager.getDoorState m (cp_position cp1) (cp_direction cp1)
      = Closed).
Proof.
  intros Hall Hnd Hrun Hl1 He1 Hcp1.
  pose proof (addElements_ok calls h0 (SharedWallManager.reset m0)) as Hok.
  rewrite Hrun in Hok. simpl in Hok.
  specialize (Hok (conj (NoDup_nil_2) (Forall_nil_2 _))).
  pose proof (addElements_tight calls _ _ _ _ (wallInv_reset h0 m0)
                (tightInv_reset h0 m0) Hall Hnd Hrun) as Htight.
  apply addElements_inv in Hrun as [Hinv Hels]; auto using wallInv_reset.
  simpl in Hels. rewrite <- Hels in *.
  destruct (inv_door _ _ Hinv l1 e1 cp1 Hl1 He1 Hcp1) as (d & Hd & Hi1).
  assert (Hread : SharedWallManager.getDoorState m (cp_position cp1)
                    (cp_direction cp1) = door_state d).
  { unfold SharedWallManager.getDoorState, DoorRegistry.getDoorState,
      DoorRegistry.getDoorByLocation.
    fold (keyOf cp1). now rewrite Hd. }
  split.
  - intros l2 e2 cp2 Hl2 Hne He2 Hcp2 Hpos Hdir.
    destruct (inv_door _ _ Hinv l2 e2 cp2 Hl2 He2 Hcp2) as (d' & Hd' & Hi2).
    assert (Hkey : keyOf cp2 = keyOf cp1) by (unfold keyOf; now rewrite Hpos, Hdir).
    rewrite Hkey, Hd in Hd'. injection Hd' as <-.
    assert (Hids : elem_id e1 <> elem_id e2).
    { intros Heq. apply Hne. eapply (inv_ids _ _ Hinv); eauto. }
    pose proof (two_elements _ _ _ Hi1 Hi2 Hids) as Hlen.
    pose proof (inv_shared _ _ Hinv _ _ Hd Hlen) as Hstate.
    destruct (inv_open _ _ Hinv _ _ Hd Hstate) as [_ Hpts].
    pose proof (inv_keyed _ _ Hinv _ _ Hd) as Hk.
    assert (Hat1 : SharedWallManager.atDoor d cp1 = true) by now apply atDoor_true.
    assert (Hat2 : SharedWallManager.atDoor d cp2 = true)
      by (apply atDoor_true; congruence).
    destruct (Hpts l1 Hl1 e1 cp1 He1 Hcp1 Hat1) as [Hg1 Hc1].
    destruct (Hpts l2 Hl2 e2 cp2 He2 Hcp2 Hat2) as [Hg2 Hc2].
    split; [|auto]. now rewrite Hread.
  - intros Halone. rewrite Hread.
    destruct (tight_state _ _ Htight _ _ Hd) as [Hc | [_ Hlen]]; [exact Hc|].
    exfalso.
    destruct (get_ok _ _ _ Hok Hd) as (_ & _ & Hndd & _). simpl in Hndd.
    destruct (two_listed _ _ Hndd Hi1 Hlen) as (i & Hi & Hne).
    destruct (tight_point _ _ Htight _ _ _ Hd Hi)
      as (l2 & e2 & cp2 & Hl2 & He2 & Hid & Hcp2 & Hk).
    assert (Hll : l1 <> l2) by (intros <-; congruence).
    unfold keyOf in Hk. apply createDoorId_inj in Hk as [Hp Hdir].
    apply (Halone l2 e2 cp2 Hl2 Hll He2 Hcp2); congruence.
Qed.

Lemma shared_door_opens_witness :
  (SharedWallManager.getDoorState
     (snd (addElements twoCalls (twoNorth, SharedWallManager.reset noWalls)))
     (cp_position openedFirst) (cp_direction openedFirst) = Open
   /\ cp_isGenerated openedFirst = true /\ cp_isConnected openedFirst = true
   /\ cp_isGenerated openedSecond = true /\ cp_isConnected openedSecond = true)
  /\ SharedWallManager.getDoorState
       (snd (addElements twoCalls (northAndSouth, SharedWallManager.reset noWalls)))
       (cp_position northSide) (cp_direction northSide) = Closed.
Proof.
  split.
  - apply (proj1 (shared_door_opens twoCalls twoNorth noWalls
             (fst (addElements twoCalls (twoNorth, SharedWallManager.reset noWalls)))
             (snd (addElements twoCalls (twoNorth, SharedWallManager.reset noWalls)))
             0%nat (hallway "corridor-0" [openedFirst]) openedFirst
             ltac:(repeat constructor; vm_compute; eauto)
             ltac:(apply (bool_decide_unpack _); vm_compute; exact I)
             ltac:(apply surjective_pairing)
             ltac:(apply elem_of_cons; auto)
             ltac:(vm_compute; reflexivity)
             ltac:(apply elem_of_cons; auto))
           1%nat (hallway "corridor-1" [openedSecond]) openedSecond).
    + apply elem_of_cons. right. apply elem_of_cons. auto.
    + discriminate.
    + vm_compute. reflexivity.
    + apply elem_of_cons. auto.
    + reflexivity.
    + reflexivity.
  - apply (proj2 (shared_door_opens twoCalls northAndSouth noWalls
             (fst (addElements twoCalls (northAndSouth, SharedWallManager.reset noWalls)))
             (snd (addElements twoCalls (northAndSouth, SharedWallManager.reset noWalls)))
             0%nat (hallway "corridor-0" [northSide]) northSide
             ltac:(repeat constructor; vm_compute; eauto)
             ltac:(apply (bool_decide_unpack _); vm_compute; exact I)
             ltac:(apply surjective_pairing)
             ltac:(apply elem_of_cons; auto)
             ltac:(vm_compute; reflexivity)
             ltac:(apply elem_of_cons; auto))).
    intros l2 e2 cp2 Hl2 Hne He2 Hcp2 _.
    change (l2 ∈ [0%nat; 1%nat]) in Hl2.
    apply elem_of_cons in Hl2 as [-> | Hl2]; [congruence|].
    apply list_elem_of_singleton in Hl2 as ->.
    vm_compute in He2. injection He2 as <-.
    apply list_elem_of_singleton in Hcp2 as ->. discriminate.
Defined.

(** ** C4: what the rollback restores *)















(** *** Door seeds *)















(** ** C3: placed elements and the cells they share *)

(** *** Shapes *)

Lemma sameShape_refl e : sameShape e e.
Proof.
  exists (elem_connectionPoints e).
  now rewrite elem_set_connectionPoints_same.
Qed.

Lemma sameShape_trans e1 e2 e3 : sameShape e1 e2 -> sameShape e2 e3 -> sameShape e1 e3.
Proof.
  intros (cps & -> & Hp) (cps' & -> & Hp'). exists cps'.
  rewrite elem_set_connectionPoints_twice. split; [reflexivity|].
  rewrite elem_connectionPoints_set in Hp'. congruence.
Qed.

Lemma sameShape_cells cat e e' :
  sameShape e e' -> occupiedCells cat e' = occupiedCells cat e.
Proof. intros (cps & -> & _). apply occupiedCells_set. Qed.

Lemma sameShape_first e e' : sameShape e e' -> firstCell e' = firstCell e.
Proof.
  intros (cps & -> & Hp). destruct e as [room|corridor]; simpl in *; [|reflexivity].
  destruct cps as [|cp cps], (room_connectionPoints room) as [|cp0 cps0];
    simpl in *; congruence.
Qed.

Lemma keepsShape_refl h : keepsShape h h.
Proof. intros l e He. eauto using sameShape_refl. Qed.

Lemma keepsShape_trans h1 h2 h3 : keepsShape h1 h2 -> keepsShape h2 h3 -> keepsShape h1 h3.
Proof.
  intros H12 H23 l e He. destruct (H12 l e He) as (e2 & He2 & Hs2).
  destruct (H23 l e2 He2) as (e3 & He3 & Hs3). eauto using sameShape_trans.
Qed.

Lemma keepsShape_alloc (h : Heap) x : keepsShape h (h ++ [x]).
Proof.
  intros l e He. exists e. split; [now apply lookup_app_l_Some|apply sameShape_refl].
Qed.

Lemma keepsShape_insert h l e cps :
  h !! l = Some e ->
  cp_position <$> cps = cp_position <$> elem_connectionPoints e ->
  keepsShape h (<[ l := elem_set_connectionPoints e cps ]> h).
Proof.
  intros He Hp l0 e0 He0. destruct (decide (l0 = l)) as [-> | Hne].
  - rewrite list_lookup_insert_eq by (eapply lookup_lt_Some; eauto).
    rewrite He in He0. injection He0 as <-. eexists. split; [reflexivity|].
    exists cps. auto.
  - rewrite list_lookup_insert_ne by auto. eauto using sameShape_refl.
Qed.

Lemma connectStep_positions elementId acc cp :
  cp_position <$> snd (DoorRegistry.connectStep elementId acc cp)
  = (cp_position <$> snd acc) ++ [cp_position cp].
Proof.
  destruct acc as [doors updated]. simpl.
  destruct (DoorRegistry.getDoorByLocation _ _ _); simpl; now rewrite fmap_app.
Qed.

Lemma connect_positions elementId cps : forall acc,
  cp_position <$> snd (fold_left (DoorRegistry.connectStep elementId) cps acc)
  = (cp_position <$> snd acc) ++ (cp_position <$> cps).
Proof.
  induction cps as [|cp cps IH]; intros acc; simpl; [now rewrite app_nil_r|].
  rewrite IH, connectStep_positions, <- app_assoc. reflexivity.
Qed.

Lemma openPoint_positions door (cps : list ConnectionPoint) :
  cp_position <$> (SharedWallManager.openPoint door <$> cps) = cp_position <$> cps.
Proof.
  rewrite <- list_fmap_compose. apply list_fmap_ext. intros _ cp _. simpl.
  unfold SharedWallManager.openPoint. now destruct (SharedWallManager.atDoor door cp).
Qed.

Lemma updateConnectionPoints_shape els door h :
  keepsShape h (SharedWallManager.updateConnectionPointsForAutoOpenedDoor els door h).
Proof.
  unfold SharedWallManager.updateConnectionPointsForAutoOpenedDoor.
  generalize (door_connectedElements door) as ids. intros ids. revert h.
  induction ids as [|i ids IH]; intros h; simpl; [apply keepsShape_refl|].
  eapply keepsShape_trans; [|apply IH].
  destruct (SharedWallManager.findElement h els i) as [l|]; [|apply keepsShape_refl].
  destruct (h !! l) as [e|] eqn:He; [|apply keepsShape_refl].
  apply keepsShape_insert; [exact He|apply openPoint_positions].
Qed.

Lemma autoOpenStep_shape els h doors k :
  keepsShape h (fst (SharedWallManager.autoOpenStep els (h, doors) k)).
Proof.
  simpl. destruct (DoorRegistry.get k doors) as [door|]; [|apply keepsShape_refl].
  destruct (_ || _); [apply keepsShape_refl|].
  destruct (forallb _ _); [|apply keepsShape_refl]. simpl.
  apply updateConnectionPoints_shape.
Qed.

Lemma autoOpen_shape els ks : forall h doors,
  keepsShape h (fst (fold_left (SharedWallManager.autoOpenStep els) ks (h, doors))).
Proof.
  induction ks as [|k ks IH]; intros h doors; [apply keepsShape_refl|].
  change (fold_left ?f (k :: ks) ?a) with (fold_left f ks (f a k)).
  pose proof (autoOpenStep_shape els h doors k) as H1.
  destruct (SharedWallManager.autoOpenStep els (h, doors) k) as [h1 doors1].
  eapply keepsShape_trans; [exact H1|apply IH].
Qed.

Lemma addElement_shape now l h m :
  keepsShape h (fst (fst (SharedWallManager.addElement now l h m))).
Proof.
  unfold SharedWallManager.addElement.
  destruct (h !! l) as [e|] eqn:Hl; simpl; [|apply keepsShape_refl].
  pose proof (connect_positions (elem_id e) (elem_connectionPoints e)
                (SharedWallManager.doorRegistry m, [])) as Hpos.
  unfold DoorRegistry.connectElementToExistingDoors.
  destruct (fold_left _ (elem_connectionPoints e) _) as [doors1 updated].
  simpl in Hpos.
  unfold SharedWallManager.autoOpenRevealedDoors.
  match goal with |- context [fold_left (SharedWallManager.autoOpenStep ?els) ?ks (?h1, ?d)] =>
    pose proof (autoOpen_shape els ks h1 d) as Hauto;
    destruct (fold_left (SharedWallManager.autoOpenStep els) ks (h1, d)) as [h2 doors3]
  end.
  simpl in *. eapply keepsShape_trans; [|exact Hauto].
  now apply keepsShape_insert.
Qed.

Lemma markFirst_positions cp cps : forall cps',
  ConnectionPointValidator.markFirst cp cps = Some cps' ->
  cp_position <$> cps' = cp_position <$> cps.
Proof.
  induction cps as [|p cps IH]; intros cps'; simpl; [discriminate|].
  destruct (ConnectionPointValidator.sameLocation p cp).
  - now intros [= <-].
  - destruct (ConnectionPointValidator.markFirst cp cps) as [r|]; [|discriminate].
    simpl. intros [= <-]. rewrite fmap_cons. f_equal. now apply IH.
Qed.

Lemma markIn_shape cp sourceElementId ls : forall h h',
  ConnectionPointValidator.markIn cp sourceElementId h ls = Some h' ->
  keepsShape h h'.
Proof.
  induction ls as [|l0 ls IH]; intros h h'; simpl; [discriminate|].
  destruct (h !! l0) as [e0|] eqn:He0; [|apply IH].
  case_bool_decide as Hid; [|apply IH].
  destruct (ConnectionPointValidator.markFirst _ _) as [cps|] eqn:Hm; [|apply IH].
  intros [= <-]. apply keepsShape_insert; [exact He0|].
  eapply markFirst_positions; eauto.
Qed.

Lemma updateConnectionPointAsGenerated_shape cp sourceElementId rooms corridors h :
  keepsShape h
    (ConnectionPointValidator.updateConnectionPointAsGenerated cp sourceElementId
       rooms corridors h).
Proof.
  unfold ConnectionPointValidator.updateConnectionPointAsGenerated.
  destruct (ConnectionPointValidator.markIn _ _ h rooms) as [h'|] eqn:H1;
    [eapply markIn_shape; eauto|].
  destruct (ConnectionPointValidator.markIn _ _ h corridors) as [h'|] eqn:H2;
    [eapply markIn_shape; eauto|apply keepsShape_refl].
Qed.

(** *** Newly generated elements *)

Lemma generateConnectedCorridor_fresh cat now rnd st cp seed generated :
  IncrementalDungeonGenerator.generateConnectedCorridor now rnd st cp seed
  = Ok generated ->
  freshlyGenerated cat (IncrementalDungeonGenerator.gridManager st) generated.
Proof.
  unfold IncrementalDungeonGenerator.generateConnectedCorridor.
  destruct (generateCorridorPath_cells (IncrementalDungeonGenerator.gridManager st) cp
              (MIN_CORRIDOR_LENGTH
               + Z.rem (IncrementalDungeonGenerator.seedToNumber seed)
                   MAX_CORRIDOR_LENGTH_VARIANCE))
    as [-> | (first & rest & -> & _ & Hrest)].
  - intros [= <-]. now left.
  - destruct (IncrementalDungeonGenerator.getCorridorDirection _ _) as [d|];
      simpl; [|discriminate].
    intros [= <-]. right. right. eexists. split; [reflexivity|].
    intros c Hc. simpl in *. apply elem_of_cons in Hc as [-> | Hc]; [now left|].
    right. now apply Hrest.
Qed.

Lemma blocksPattern_cells blocks minX minY roomWidth roomHeight c :
  c ∈ GridManager.pattern_cells
        (IncrementalDungeonGenerator.blocksPattern blocks minX minY roomWidth
           roomHeight) minX minY ->
  c ∈ blocks.
Proof.
  rewrite pattern_cells_elem. unfold patternCell,
    IncrementalDungeonGenerator.blocksPattern.
  rewrite array_get_fmap_seqZ. destruct (_ && _); [|discriminate]. simpl.
  rewrite array_get_fmap_seqZ. destruct (_ && _); [|discriminate].
  intros [= (b & Hb & Heq)%existsb_elem_inv].
  apply andb_prop in Heq as [Hx%Z.eqb_eq Hy%Z.eqb_eq].
  replace c with b; [exact Hb|]. destruct b, c. simpl in *. f_equal; lia.
Qed.

Lemma expandRoom_first ctx res :
  BlockExpansionEngine.expandRoom ctx = Ok res ->
  cp_position <$> head (BlockExpansionEngine.finalConnectionPoints res)
  = Some (BlockExpansionEngine.entryPoint ctx).
Proof. intros (blocks & _ & _ & ->)%expandRoom_Ok_inv. reflexivity. Qed.

Lemma generateConnectedRoom_fresh cat1 cat now rnd st cp seed generated counter :
  IncrementalDungeonGenerator.generateConnectedRoom cat1 now rnd st cp seed
  = Ok (generated, counter) ->
  freshlyGenerated cat (IncrementalDungeonGenerator.gridManager st) generated.
Proof.
  unfold IncrementalDungeonGenerator.generateConnectedRoom.
  destruct (array_get _ _) as [template|]; [|discriminate].
  destruct (PositionCalculator.calculateRoomPositionFromConnection cp template)
    as [roomPosition index].
  destruct (index =? -1).
  { destruct (IncrementalDungeonGenerator.generateConnectedCorridor now rnd st cp seed)
      as [g|] eqn:Hg; simpl; [|discriminate].
    intros [= <- _]. eapply generateConnectedCorridor_fresh; eauto. }
  destruct (array_get (tpl_connectionPoints template) index) as [tcp|]; [|discriminate].
  set (entry := mkPosition _ _).
  set (ctx := BlockExpansionEngine.mkExpansionContext _ _ _ _ _ _ _ _ _).
  destruct (BlockExpansionEngine.expandRoom ctx) as [res|] eqn:Hres; simpl;
    [|discriminate].
  destruct (array_length (BlockExpansionEngine.expandedBlocks res) =? 0).
  - intros [= <- _]. right. left. eexists. split; [reflexivity|].
    intros c Hc. left. simpl in *.
    apply elem_of_app in Hc as [Hc | Hc]; [|now apply elem_of_nil in Hc].
    apply elem_of_app in Hc as [Hc | Hc]; [|now apply elem_of_nil in Hc].
    apply list_elem_of_singleton in Hc as ->. reflexivity.
  - intros [= <- _]. right. left. eexists. split; [reflexivity|].
    intros c Hc. simpl in Hc. unfold GridManager.room_cells in Hc. simpl in Hc.
    apply blocksPattern_cells in Hc.
    destruct (expandRoom_blocks ctx res c Hres Hc) as [-> | Hcan].
    + left. simpl. now rewrite (expandRoom_first ctx res Hres).
    + right. now apply canExpandTo_true_inv in Hcan as (_ & _ & Hocc & _).
Qed.

Lemma generateConnectedContent_fresh cat1 cat now rnd st cp seed src generated counter :
  IncrementalDungeonGenerator.generateConnectedContent cat1 now rnd st cp seed src
  = Ok (generated, counter) ->
  freshlyGenerated cat (IncrementalDungeonGenerator.gridManager st) generated.
Proof.
  unfold IncrementalDungeonGenerator.generateConnectedContent.
  destruct (Qltb _ _).
  - apply generateConnectedRoom_fresh.
  - destruct (IncrementalDungeonGenerator.generateConnectedCorridor now rnd st cp seed)
      as [g|] eqn:Hg; simpl; [|discriminate].
    intros [= <- _]. eapply generateConnectedCorridor_fresh; eauto.
Qed.

(** *** The invariant, step by step *)

Lemma increasing_nil : increasing [].
Proof. intros i j x y _ H. now rewrite lookup_nil in H. Qed.

Lemma increasing_snoc ls l :
  increasing ls -> (forall x, x ∈ ls -> (x < l)%nat) -> increasing (ls ++ [l]).
Proof.
  intros Hinc Hlt i j x y Hij Hi Hj.
  apply lookup_app_Some in Hi as [Hi | [Hlen Hi]];
    apply lookup_app_Some in Hj as [Hj | [Hlen' Hj]].
  - eauto.
  - apply list_lookup_singleton_Some in Hj as [_ <-].
    apply Hlt. eapply list_elem_of_lookup_2; eauto.
  - apply lookup_lt_Some in Hj. lia.
  - apply list_lookup_singleton_Some in Hi as [Hi _].
    apply list_lookup_singleton_Some in Hj as [Hj _]. lia.
Qed.

Lemma placedInv_same cat st st' :
  IncrementalDungeonGenerator.rooms st' = IncrementalDungeonGenerator.rooms st ->
  IncrementalDungeonGenerator.corridors st' = IncrementalDungeonGenerator.corridors st ->
  (forall c,
      GridManager.isPositionOccupied (IncrementalDungeonGenerator.gridManager st) c
      = true ->
      GridManager.isPositionOccupied (IncrementalDungeonGenerator.gridManager st') c
      = true) ->
  keepsShape (IncrementalDungeonGenerator.heap st) (IncrementalDungeonGenerator.heap st') ->
  placedInv cat st -> placedInv cat st'.
Proof.
  intros Hr Hc Hg Hk [Hvalid Hsorted Hrec Hapart].
  assert (Hp : forall l, placed st' l <-> placed st l)
    by (intros l; unfold placed; now rewrite Hr, Hc).
  assert (Hback : forall l e', placed st l ->
            IncrementalDungeonGenerator.heap st' !! l = Some e' ->
            exists e, IncrementalDungeonGenerator.heap st !! l = Some e
                      /\ sameShape e e').
  { intros l e' Hl He'. destruct (Hvalid l Hl) as [e He].
    destruct (Hk l e He) as (e2 & He2 & Hs). exists e. split; [exact He|].
    congruence. }
  constructor.
  - intros l Hl%Hp. destruct (Hvalid l Hl) as [e He].
    destruct (Hk l e He) as (e' & -> & _). eauto.
  - now rewrite Hr, Hc.
  - intros l e' c Hl%Hp He' Hc'.
    destruct (Hback l e' Hl He') as (e & He & Hs).
    rewrite (sameShape_cells cat _ _ Hs) in Hc'. eauto.
  - intros l1 l2 e1' e2' c Hl1%Hp Hl2%Hp Hlt He1' He2' Hc1 Hc2.
    destruct (Hback l1 e1' Hl1 He1') as (e1 & He1 & Hs1).
    destruct (Hback l2 e2' Hl2 He2') as (e2 & He2 & Hs2).
    rewrite (sameShape_cells cat _ _ Hs1) in Hc1.
    rewrite (sameShape_cells cat _ _ Hs2) in Hc2.
    rewrite (sameShape_first _ _ Hs2). eauto.
Qed.

Lemma placedInv_add cat st st' e :
  placedInv cat st ->
  fitsIn cat (IncrementalDungeonGenerator.gridManager st) e ->
  ((IncrementalDungeonGenerator.rooms st'
    = IncrementalDungeonGenerator.rooms st
      ++ [length (IncrementalDungeonGenerator.heap st)]
    /\ IncrementalDungeonGenerator.corridors st'
       = IncrementalDungeonGenerator.corridors st)
   \/ (IncrementalDungeonGenerator.rooms st' = IncrementalDungeonGenerator.rooms st
       /\ IncrementalDungeonGenerator.corridors st'
          = IncrementalDungeonGenerator.corridors st
            ++ [length (IncrementalDungeonGenerator.heap st)])) ->
  keepsShape (IncrementalDungeonGenerator.heap st ++ [e])
    (IncrementalDungeonGenerator.heap st') ->
  (forall c,
      GridManager.isPositionOccupied (IncrementalDungeonGenerator.gridManager st') c
      = true
      <-> GridManager.isPositionOccupied (IncrementalDungeonGenerator.gridManager st) c
          = true
          \/ c ∈ occupiedCells cat e) ->
  placedInv cat st'.
Proof.
  intros [Hvalid [Hsr Hsc] Hrec Hapart] Hfit Hlists Hk Hg.
  set (h := IncrementalDungeonGenerator.heap st) in *.
  assert (Hold : forall l, placed st l -> (l < length h)%nat).
  { intros l Hl. destruct (Hvalid l Hl) as [e0 He0]. eapply lookup_lt_Some; eauto. }
  assert (Hp : forall l, placed st' l <-> placed st l \/ l = length h).
  { intros l. unfold placed.
    destruct Hlists as [[-> ->] | [-> ->]];
      rewrite !elem_of_app, list_elem_of_singleton; tauto. }
  assert (Hback : forall l e', placed st l ->
            IncrementalDungeonGenerator.heap st' !! l = Some e' ->
            exists e0, h !! l = Some e0 /\ sameShape e0 e').
  { intros l e' Hl He'. destruct (Hvalid l Hl) as [e0 He0].
    destruct (Hk l e0) as (e2 & He2 & Hs); [now apply lookup_app_l_Some|].
    exists e0. split; [exact He0|]. congruence. }
  assert (Hnew : forall e',
            IncrementalDungeonGenerator.heap st' !! length h = Some e' ->
            sameShape e e').
  { intros e' He'. destruct (Hk (length h) e) as (e2 & He2 & Hs).
    - rewrite lookup_app_r by lia. now rewrite Nat.sub_diag.
    - congruence. }
  constructor.
  - intros l [Hl | ->]%Hp.
    + destruct (Hvalid l Hl) as [e0 He0].
      destruct (Hk l e0) as (e2 & -> & _); [now apply lookup_app_l_Some|eauto].
    + destruct (Hk (length h) e) as (e2 & -> & _); [|eauto].
      rewrite lookup_app_r by lia. now rewrite Nat.sub_diag.
  - destruct Hlists as [[-> ->] | [-> ->]]; (split; [|]); auto;
      apply increasing_snoc; auto; intros x Hx; apply Hold; unfold placed;
      apply elem_of_app; auto.
  - intros l e' c [Hl | ->]%Hp He' Hc; apply Hg.
    + destruct (Hback l e' Hl He') as (e0 & He0 & Hs).
      rewrite (sameShape_cells cat _ _ Hs) in Hc. left. eauto.
    + right. now rewrite <- (sameShape_cells cat _ _ (Hnew e' He')).
  - intros l1 l2 e1' e2' c [Hl1 | ->]%Hp [Hl2 | ->]%Hp Hlt He1' He2' Hc1 Hc2.
    + destruct (Hback l1 e1' Hl1 He1') as (e1 & He1 & Hs1).
      destruct (Hback l2 e2' Hl2 He2') as (e2 & He2 & Hs2).
      rewrite (sameShape_cells cat _ _ Hs1) in Hc1.
      rewrite (sameShape_cells cat _ _ Hs2) in Hc2.
      rewrite (sameShape_first _ _ Hs2). eauto.
    + destruct (Hback l1 e1' Hl1 He1') as (e1 & He1 & Hs1).
      pose proof (Hnew e2' He2') as Hs2.
      rewrite (sameShape_cells cat _ _ Hs1) in Hc1.
      rewrite (sameShape_cells cat _ _ Hs2) in Hc2.
      rewrite (sameShape_first _ _ Hs2).
      destruct (Hfit c Hc2) as [Hf | Hfree]; [exact Hf|].
      rewrite (Hrec l1 e1 c Hl1 He1 Hc1) in Hfree. discriminate.
    + pose proof (Hold l2 Hl2). lia.
    + lia.
Qed.

Section Steps.

Variable getRoomTemplatesByType : RoomType -> list RoomTemplate.
Variable getRoomTemplateById : string -> option RoomTemplate.

Lemma integrateRoom_inv now st room :
  placedInv getRoomTemplateById st ->
  fitsIn getRoomTemplateById (IncrementalDungeonGenerator.gridManager st) (ERoom room) ->
  placedInv getRoomTemplateById
    (IncrementalDungeonGenerator.integrateRoom getRoomTemplateById now st room).
Proof.
  intros Hinv Hfit. apply (placedInv_add _ st _ (ERoom room) Hinv Hfit);
    unfold IncrementalDungeonGenerator.integrateRoom, alloc;
    match goal with |- context [SharedWallManager.addElement ?n ?l ?h ?m] =>
      pose proof (addElement_shape n l h m) as Hs;
      destruct (SharedWallManager.addElement n l h m) as [[h2 m2] cps] end;
    simpl in *.
  - left. auto.
  - exact Hs.
  - intros c. apply isPositionOccupied_add.
Qed.

Lemma integrateCorridor_inv now st corridor :
  placedInv getRoomTemplateById st ->
  fitsIn getRoomTemplateById (IncrementalDungeonGenerator.gridManager st)
    (ECorridor corridor) ->
  placedInv getRoomTemplateById
    (IncrementalDungeonGenerator.integrateCorridor now st corridor).
Proof.
  intros Hinv Hfit. apply (placedInv_add _ st _ (ECorridor corridor) Hinv Hfit);
    unfold IncrementalDungeonGenerator.integrateCorridor, alloc;
    match goal with |- context [SharedWallManager.addElement ?n ?l ?h ?m] =>
      pose proof (addElement_shape n l h m) as Hs;
      destruct (SharedWallManager.addElement n l h m) as [[h2 m2] cps] end;
    simpl in *.
  - right. auto.
  - exact Hs.
  - intros c. apply isPositionOccupied_add.
Qed.

Lemma set_roomCounter_inv n st :
  placedInv getRoomTemplateById st ->
  placedInv getRoomTemplateById (IncrementalDungeonGenerator.set_roomCounter n st).
Proof. apply placedInv_same; auto using keepsShape_refl. Qed.

Lemma set_explorationState_inv e st :
  placedInv getRoomTemplateById st ->
  placedInv getRoomTemplateById (IncrementalDungeonGenerator.set_explorationState e st).
Proof. apply placedInv_same; auto using keepsShape_refl. Qed.

Lemma markSourcePoint_inv cp src st :
  placedInv getRoomTemplateById st ->
  placedInv getRoomTemplateById (IncrementalDungeonGenerator.markSourcePoint cp src st).
Proof.
  apply placedInv_same; auto. simpl. apply updateConnectionPointAsGenerated_shape.
Qed.

Lemma integrateGeneratedElements_inv now generated cp src st :
  placedInv getRoomTemplateById st ->
  freshlyGenerated getRoomTemplateById (IncrementalDungeonGenerator.gridManager st)
    generated ->
  placedInv getRoomTemplateById
    (IncrementalDungeonGenerator.integrateGeneratedElements getRoomTemplateById now
       generated cp src st).
Proof.
  intros Hinv Hfresh.
  unfold IncrementalDungeonGenerator.integrateGeneratedElements,
    IncrementalDungeonGenerator.dropResolved,
    IncrementalDungeonGenerator.syncAllDoorStates.
  apply set_explorationState_inv, set_explorationState_inv, markSourcePoint_inv.
  unfold IncrementalDungeonGenerator.integrateElements.
  destruct Hfresh as [-> | [(room & -> & Hfit) | (corridor & -> & Hfit)]]; simpl.
  - exact Hinv.
  - now apply integrateRoom_inv.
  - now apply integrateCorridor_inv.
Qed.

Lemma reRegister_shape now ls : forall h g m,
  keepsShape h
    (fst (fst (fold_left (IncrementalDungeonGenerator.reRegister getRoomTemplateById now)
                 ls (h, g, m)))).
Proof.
  induction ls as [|l ls IH]; intros h g m; [apply keepsShape_refl|].
  change (fold_left ?f (l :: ls) ?acc) with (fold_left f ls (f acc l)).
  rewrite reRegister_eq.
  pose proof (addElement_shape now l h m) as Hs.
  destruct (SharedWallManager.addElement now l h m) as [[h1 m1] cps1]. simpl in *.
  eapply keepsShape_trans; [exact Hs|apply IH].
Qed.

Lemma keepsShape_pointsOnly_cells cat h h' l e e' :
  keepsShape h h' -> h !! l = Some e -> h' !! l = Some e' ->
  occupiedCells cat e' = occupiedCells cat e.
Proof.
  intros Hk He He'. destruct (Hk l e He) as (e2 & He2 & Hs).
  replace e' with e2 by congruence. now apply sameShape_cells.
Qed.

Lemma rollbackToSnapshot_inv now st :
  placedInv getRoomTemplateById st ->
  placedInv getRoomTemplateById
    (IncrementalDungeonGenerator.rollbackToSnapshot getRoomTemplateById now
       (IncrementalDungeonGenerator.createStateSnapshot st) st).
Proof.
  intros Hinv. pose proof Hinv as [Hvalid Hsorted Hrec Hapart].
  unfold IncrementalDungeonGenerator.rollbackToSnapshot,
    IncrementalDungeonGenerator.createStateSnapshot. simpl.
  pose proof (reRegister_shape now (IncrementalDungeonGenerator.rooms st)
                (IncrementalDungeonGenerator.heap st)
                (GridManager.reset (IncrementalDungeonGenerator.gridManager st))
                (SharedWallManager.reset
                   (IncrementalDungeonGenerator.sharedWallManager st))) as Hs1.
  destruct (fold_left _ (IncrementalDungeonGenerator.rooms st) _)
    as [[h1 g1] m1] eqn:H1.
  pose proof (reRegister_shape now (IncrementalDungeonGenerator.corridors st)
                h1 g1 m1) as Hs2.
  destruct (fold_left _ (IncrementalDungeonGenerator.corridors st) _)
    as [[h2 g2] m2] eqn:H2.
  simpl in Hs1, Hs2.
  apply reRegister_fold in H1 as (Hp1 & _ & Hk1), H2 as (Hp2 & _ & Hk2).
  assert (Hs : keepsShape (IncrementalDungeonGenerator.heap st) h2)
    by (eapply keepsShape_trans; eauto).
  assert (Hback : forall l e', placed st l -> h2 !! l = Some e' ->
            exists e, IncrementalDungeonGenerator.heap st !! l = Some e
                      /\ sameShape e e').
  { intros l e' Hl He'. destruct (Hvalid l Hl) as [e He].
    destruct (Hs l e He) as (e2 & He2 & Hsh). exists e. split; [exact He|].
    congruence. }
  constructor; simpl.
  - intros l Hl. destruct (Hvalid l Hl) as [e He].
    destruct (Hs l e He) as (e' & -> & _). eauto.
  - exact Hsorted.
  - intros l e' c Hl He' Hc.
    destruct (Hback l e' Hl He') as (e & He & Hsh).
    rewrite (sameShape_cells _ _ _ Hsh) in Hc.
    unfold GridManager.isPositionOccupied. apply bool_decide_eq_true_2.
    apply Hk2. rewrite Hk1.
    rewrite (keysOf_pointsOnly _ (IncrementalDungeonGenerator.heap st) h1) by exact Hp1.
    unfold placed in Hl. apply elem_of_app in Hl as [Hl | Hl].
    + left. right. exists l, e, c. auto.
    + right. exists l, e, c. auto.
  - intros l1 l2 e1' e2' c Hl1 Hl2 Hlt He1' He2' Hc1 Hc2.
    destruct (Hback l1 e1' Hl1 He1') as (e1 & He1 & Hsh1).
    destruct (Hback l2 e2' Hl2 He2') as (e2 & He2 & Hsh2).
    rewrite (sameShape_cells _ _ _ Hsh1) in Hc1.
    rewrite (sameShape_cells _ _ _ Hsh2) in Hc2.
    rewrite (sameShape_first _ _ Hsh2). eauto.
Qed.

Lemma generateFromConnectionPoint_inv now rnd request st :
  placedInv getRoomTemplateById st ->
  placedInv getRoomTemplateById
    (fst (IncrementalDungeonGenerator.generateFromConnectionPoint
            getRoomTemplatesByType getRoomTemplateById now rnd request st)).
Proof.
  intros Hinv.
  destruct (IncrementalDungeonGenerator.generateConnectedContent
              getRoomTemplatesByType now rnd st
              (IncrementalDungeonGenerator.req_connectionPoint request)
              (IncrementalDungeonGenerator.seedOf now
                 (IncrementalDungeonGenerator.req_connectionPoint request))
              (IncrementalDungeonGenerator.req_sourceElementId request))
    as [[generated counter]|e] eqn:Hgen.
  - pose proof (generateConnectedContent_fresh _ getRoomTemplateById _ _ _ _ _ _ _ _ Hgen)
      as Hfresh.
    unfold IncrementalDungeonGenerator.generateFromConnectionPoint.
    rewrite Hgen. destruct (_ && _); simpl.
    + now apply set_roomCounter_inv.
    + apply integrateGeneratedElements_inv; [now apply set_roomCounter_inv|exact Hfresh].
  - rewrite (generateFromConnectionPoint_raise _ _ _ _ _ _ _ Hgen). simpl.
    now apply rollbackToSnapshot_inv.
Qed.

Lemma openDoor_inv now rnd doorId cp src st :
  placedInv getRoomTemplateById st ->
  placedInv getRoomTemplateById
    (fst (fst (IncrementalDungeonGenerator.openDoor getRoomTemplatesByType
                 getRoomTemplateById now rnd doorId cp src st))).
Proof.
  intros Hinv. unfold IncrementalDungeonGenerator.openDoor.
  assert (H0 : placedInv getRoomTemplateById
                 (IncrementalDungeonGenerator.setDoorOpen doorId st))
    by now apply set_explorationState_inv.
  set (st0 := IncrementalDungeonGenerator.setDoorOpen doorId st) in *.
  assert (Hsync : placedInv getRoomTemplateById
                    (IncrementalDungeonGenerator.syncAllDoorStates st0))
    by now apply set_explorationState_inv.
  destruct (_ || _); [exact Hsync|].
  destruct (_ || _); [exact Hsync|].
  destruct (negb _); [|exact H0].
  pose proof (generateFromConnectionPoint_inv now rnd
                (IncrementalDungeonGenerator.mkGenerationRequest
                   (IncrementalDungeonGenerator.setPointState Generating cp) src)
                st0 H0) as Hg.
  destruct (IncrementalDungeonGenerator.generateFromConnectionPoint _ _ _ _ _ _)
    as [st1 [result|error]]; exact Hg.
Qed.

Lemma reset_inv st : placedInv getRoomTemplateById (IncrementalDungeonGenerator.reset st).
Proof.
  constructor; simpl; unfold placed; simpl.
  - intros l Hl. now apply elem_of_nil in Hl.
  - split; apply increasing_nil.
  - intros l e c Hl. now apply elem_of_nil in Hl.
  - intros l1 l2 e1 e2 c Hl. now apply elem_of_nil in Hl.
Qed.

Lemma new_inv gridSize h :
  placedInv getRoomTemplateById (IncrementalDungeonGenerator.new gridSize h).
Proof.
  constructor; simpl; unfold placed; simpl.
  - intros l Hl. now apply elem_of_nil in Hl.
  - split; apply increasing_nil.
  - intros l e c Hl. now apply elem_of_nil in Hl.
  - intros l1 l2 e1 e2 c Hl. now apply elem_of_nil in Hl.
Qed.

Lemma generateInitialDungeon_inv now pick st :
  placedInv getRoomTemplateById
    (fst (IncrementalDungeonGenerator.generateInitialDungeon getRoomTemplatesByType
            getRoomTemplateById now pick st)).
Proof.
  unfold IncrementalDungeonGenerator.generateInitialDungeon.
  pose proof (reset_inv st) as H0.
  set (st0 := IncrementalDungeonGenerator.reset st) in *.
  destruct (IncrementalDungeonGenerator.generateEntranceRoom _ _ _) as [room|e];
    [|now apply set_roomCounter_inv].
  unfold alloc.
  match goal with |- context [SharedWallManager.addElement ?n ?l ?h ?m] =>
    pose proof (addElement_shape n l h m) as Hs;
    destruct (SharedWallManager.addElement n l h m) as [[h2 m2] cps] end.
  simpl in Hs. simpl fst.
  apply (placedInv_add _ st0 _ (ERoom room) H0); simpl.
  - intros c _. right. unfold GridManager.isPositionOccupied. simpl.
    apply bool_decide_eq_false_2. apply not_elem_of_empty.
  - left. auto.
  - exact Hs.
  - intros c. apply isPositionOccupied_add.
Qed.

Lemma writePointState_shape state l index h :
  keepsShape h (writePointState state l index h).
Proof.
  unfold writePointState. destruct (h !! l) as [e|] eqn:He; [|apply keepsShape_refl].
  destruct (elem_connectionPoints e !! index) as [cp|] eqn:Hcp;
    [|apply keepsShape_refl].
  apply keepsShape_insert; [exact He|].
  rewrite list_fmap_insert. apply list_insert_id.
  rewrite list_lookup_fmap, Hcp. reflexivity.
Qed.

Lemma explored_inv st :
  explored getRoomTemplatesByType getRoomTemplateById st ->
  placedInv getRoomTemplateById st.
Proof.
  induction 1.
  - apply new_inv.
  - apply generateInitialDungeon_inv.
  - now apply generateFromConnectionPoint_inv.
  - now apply openDoor_inv.
  - eapply placedInv_same; [| | |apply writePointState_shape|eassumption]; auto.
Qed.

End Steps.

(** C3, amended: in every state the public operations
    ([generateInitialDungeon], [generateFromConnectionPoint], [openDoor])
    reach from a new generator, the rooms and corridors of the two lists are
    stored objects, listed in the order they were placed (locations grow
    along each list, a later element has the higher location); every cell
    of a placed element (a room's mask mapped through its position, a
    corridor's path) is recorded as occupied by the grid tracker; and two
    distinct placed elements have no cell in common, except that the first
    cell of the later one (the first cell of a corridor's path, the entry
    cell of a room) may lie on an element placed before. *)
Theorem placed_elements_apart
    (getRoomTemplatesByType : RoomType -> list RoomTemplate)
    (getRoomTemplateById : string -> option RoomTemplate)
    (st : IncrementalDungeonGenerator.t) :
  explored getRoomTemplatesByType getRoomTemplateById st ->
  (forall l, placed st l -> is_Some (IncrementalDungeonGenerator.heap st !! l))
  /\ increasing (IncrementalDungeonGenerator.rooms st)
  /\ increasing (IncrementalDungeonGenerator.corridors st)
  /\ (forall l e c,
        placed st l -> IncrementalDungeonGenerator.heap st !! l = Some e ->
        c ∈ occupiedCells getRoomTemplateById e ->
        GridManager.isPositionOccupied (IncrementalDungeonGenerator.gridManager st) c
        = true)
  /\ (forall l1 l2 e1 e2 c,
        placed st l1 -> placed st l2 -> (l1 < l2)%nat ->
        IncrementalDungeonGenerator.heap st !! l1 = Some e1 ->
        IncrementalDungeonGenerator.heap st !! l2 = Some e2 ->
        c ∈ occupiedCells getRoomTemplateById e1 ->
        c ∈ occupiedCells getRoomTemplateById e2 ->
        firstCell e2 = Some c).
Proof.
  intros [Hvalid [Hsr Hsc] Hrec Hapart]%explored_inv. auto.
Qed.

Lemma placed_elements_apart_witness :
  let st := afterRoom in
  (forall l, placed st l -> is_Some (IncrementalDungeonGenerator.heap st !! l))
  /\ increasing (IncrementalDungeonGenerator.rooms st)
  /\ increasing (IncrementalDungeonGenerator.corridors st)
  /\ (forall l e c,
        placed st l -> IncrementalDungeonGenerator.heap st !! l = Some e ->
        c ∈ occupiedCells exampleTemplateById e ->
        GridManager.isPositionOccupied (IncrementalDungeonGenerator.gridManager st) c
        = true)
  /\ (forall l1 l2 e1 e2 c,
        placed st l1 -> placed st l2 -> (l1 < l2)%nat ->
        IncrementalDungeonGenerator.heap st !! l1 = Some e1 ->
        IncrementalDungeonGenerator.heap st !! l2 = Some e2 ->
        c ∈ occupiedCells exampleTemplateById e1 ->
        c ∈ occupiedCells exampleTemplateById e2 ->
        firstCell e2 = Some c).
Proof.
  apply (placed_elements_apart exampleTemplatesByType exampleTemplateById afterRoom).
  unfold afterRoom, afterCorridor.
  apply explored_generate, explored_generate, explored_new.
Defined.
